(** * The GLSL linker (mesalib/src/glsl/linker.cpp), shallow embedding

    The development follows the source file top to bottom: the diagnostic
    log, the visitors, the per-stage validators, the cross validation of
    globals, the intrastage merger's duplicate-definition check, the
    attribute / colour location allocator and, last, [link_shaders]
    itself.

    C [int] and [unsigned] are 32 bits wide and are modelled as [Z] with the
    wrap-around written out ([to_uint], [to_int]).  Strings are
    [String.string]; the program log is the C string [prog->InfoLog]. *)

From Stdlib Require Import ZArith String Ascii List Lia Bool.
From Stdlib Require Import DecimalString DecimalNat.
From stdpp Require Import base gmap strings list fin_maps.

Set Warnings "-register-all".

Local Open Scope string_scope.
Local Open Scope Z_scope.

(* ===================================================================== *)
(** ** Machine integers *)
(* ===================================================================== *)

Definition UINT_BITS : Z := 32.
Definition UINT_MOD : Z := 2 ^ UINT_BITS.

(** Conversion to [unsigned]: reduction modulo 2^32. *)
Definition to_uint (z : Z) : Z := z mod UINT_MOD.

(** Conversion to [int]: the two's complement reading of the low 32 bits. *)
Definition to_int (z : Z) : Z :=
  let u := to_uint z in
  if u <? 2 ^ (UINT_BITS - 1) then u else u - UINT_MOD.

(** [x << n] on a 32 bit operand.  C leaves the result undefined once [n]
    reaches the width; compiled for the usual targets the shift is the
    machine instruction, which takes its count modulo 32, and the model
    does the same, keeping the low 32 bits of the result. *)
Definition shl (x n : Z) : Z := to_uint (Z.shiftl x (n mod UINT_BITS)).

(** [~x] on [unsigned]. *)
Definition bit_not (x : Z) : Z := to_uint (Z.lnot x).

(** [printf ("%d")] of an [int]. *)
Definition fmt_d (z : Z) : string := NilZero.string_of_int (Z.to_int z).

(* ===================================================================== *)
(** ** Types and variables (the parts of ir.h / glsl_types.h the linker
       reads) *)
(* ===================================================================== *)

(** The part of [glsl_type] linker.cpp reads: whether it is an array, the
    element type, the length, the name.  [glsl_type] instances are
    interned: two pointers are equal exactly when they denote the same
    type, so pointer comparison is structural equality here.  An array of
    length 0 is an implicitly sized array. *)
Inductive glsl_type : Type :=
| glsl_base (name : string)
| glsl_array (element : glsl_type) (length : Z).

Global Instance glsl_type_eq_dec : EqDecision glsl_type.
Proof. solve_decision. Defined.

Definition is_array (t : glsl_type) : bool :=
  match t with glsl_array _ _ => true | glsl_base _ => false end.

(** [type->fields.array]; [None] stands for the member of a non-array. *)
Definition fields_array (t : glsl_type) : option glsl_type :=
  match t with glsl_array e _ => Some e | glsl_base _ => None end.

(** [type->length] (0 for the scalar and vector types). *)
Definition type_length (t : glsl_type) : Z :=
  match t with glsl_array _ n => n | glsl_base _ => 0 end.

(** Modelled from the spec: [type->name] (glsl_types.h is missing), which
    the type-conflict error prints; arrays are named after their element
    type. *)
Fixpoint type_name (t : glsl_type) : string :=
  match t with
  | glsl_base n => n
  | glsl_array e n =>
      type_name e +:+ "[" +:+ (if n =? 0 then "" else fmt_d n) +:+ "]"
  end.

Inductive ir_variable_mode : Type :=
| ir_var_auto | ir_var_uniform | ir_var_shader_in | ir_var_shader_out
| ir_var_function_in | ir_var_function_out | ir_var_function_inout
| ir_var_const_in | ir_var_temporary.

Global Instance ir_variable_mode_eq_dec : EqDecision ir_variable_mode.
Proof. solve_decision. Defined.

Inductive ir_depth_layout : Type :=
| ir_depth_layout_none | ir_depth_layout_any | ir_depth_layout_greater
| ir_depth_layout_less | ir_depth_layout_unchanged.

Global Instance ir_depth_layout_eq_dec : EqDecision ir_depth_layout.
Proof. solve_decision. Defined.

(** A constant expression value: its type and its components. *)
Record ir_constant : Type := mk_constant {
  constant_type : glsl_type;
  constant_components : list Z
}.

(** The members of [ir_variable] that the functions below read or
    write. *)
Record ir_variable : Type := mk_variable {
  name : string;
  type : glsl_type;
  mode : ir_variable_mode;
  explicit_location : bool;
  location : Z;
  explicit_binding : bool;
  binding : Z;
  atomic_offset : Z;
  index : Z;
  depth_layout : ir_depth_layout;
  used : bool;
  constant_initializer : option ir_constant;   (* NULL is [None] *)
  has_initializer : bool;
  invariant : bool;
  centroid : bool;
  is_unmatched_generic_inout : bool
}.

Definition set_type (t : glsl_type) (v : ir_variable) : ir_variable :=
  mk_variable (name v) t (mode v) (explicit_location v) (location v)
    (explicit_binding v) (binding v) (atomic_offset v) (index v)
    (depth_layout v) (used v) (constant_initializer v) (has_initializer v)
    (invariant v) (centroid v) (is_unmatched_generic_inout v).

Definition set_location (l : Z) (v : ir_variable) : ir_variable :=
  mk_variable (name v) (type v) (mode v) (explicit_location v) l
    (explicit_binding v) (binding v) (atomic_offset v) (index v)
    (depth_layout v) (used v) (constant_initializer v) (has_initializer v)
    (invariant v) (centroid v) (is_unmatched_generic_inout v).

Definition set_explicit_location (b : bool) (v : ir_variable) : ir_variable :=
  mk_variable (name v) (type v) (mode v) b (location v)
    (explicit_binding v) (binding v) (atomic_offset v) (index v)
    (depth_layout v) (used v) (constant_initializer v) (has_initializer v)
    (invariant v) (centroid v) (is_unmatched_generic_inout v).

Definition set_binding (b : Z) (v : ir_variable) : ir_variable :=
  mk_variable (name v) (type v) (mode v) (explicit_location v) (location v)
    (explicit_binding v) b (atomic_offset v) (index v)
    (depth_layout v) (used v) (constant_initializer v) (has_initializer v)
    (invariant v) (centroid v) (is_unmatched_generic_inout v).

Definition set_explicit_binding (b : bool) (v : ir_variable) : ir_variable :=
  mk_variable (name v) (type v) (mode v) (explicit_location v) (location v)
    b (binding v) (atomic_offset v) (index v)
    (depth_layout v) (used v) (constant_initializer v) (has_initializer v)
    (invariant v) (centroid v) (is_unmatched_generic_inout v).

Definition set_index (i : Z) (v : ir_variable) : ir_variable :=
  mk_variable (name v) (type v) (mode v) (explicit_location v) (location v)
    (explicit_binding v) (binding v) (atomic_offset v) i
    (depth_layout v) (used v) (constant_initializer v) (has_initializer v)
    (invariant v) (centroid v) (is_unmatched_generic_inout v).

Definition set_constant_initializer (c : option ir_constant)
    (v : ir_variable) : ir_variable :=
  mk_variable (name v) (type v) (mode v) (explicit_location v) (location v)
    (explicit_binding v) (binding v) (atomic_offset v) (index v)
    (depth_layout v) (used v) c (has_initializer v)
    (invariant v) (centroid v) (is_unmatched_generic_inout v).

Definition set_has_initializer (b : bool) (v : ir_variable) : ir_variable :=
  mk_variable (name v) (type v) (mode v) (explicit_location v) (location v)
    (explicit_binding v) (binding v) (atomic_offset v) (index v)
    (depth_layout v) (used v) (constant_initializer v) b
    (invariant v) (centroid v) (is_unmatched_generic_inout v).

Definition set_is_unmatched_generic_inout (b : bool)
    (v : ir_variable) : ir_variable :=
  mk_variable (name v) (type v) (mode v) (explicit_location v) (location v)
    (explicit_binding v) (binding v) (atomic_offset v) (index v)
    (depth_layout v) (used v) (constant_initializer v) (has_initializer v)
    (invariant v) (centroid v) b.

(* ===================================================================== *)
(** ** The instruction tree *)
(* ===================================================================== *)

(** Modelled from the spec: the IR node kinds (ir.h is missing; only
    linker.cpp is at hand).  The spec describes an ordered sequence of
    variable declarations, function declarations and executable statements
    (assignments, calls, control flow) forming a tree per function body,
    with dereference nodes referring to variables.  A call is a statement
    that carries its callee's formal parameters, its actual parameters and
    an optional dereference receiving the return value. *)
Inductive ir_rvalue : Type :=
| ir_dereference_variable (var : ir_variable)
| ir_dereference_array (array : ir_rvalue) (array_index : ir_rvalue)
| ir_dereference_record (record : ir_rvalue) (field : string)
| ir_swizzle (val : ir_rvalue)
| ir_expression (operands : list ir_rvalue)
| ir_constant_value (value : ir_constant).

Inductive ir_instruction : Type :=
| ir_variable_decl (var : ir_variable)
| ir_function (fname : string) (signatures : list ir_function_signature)
| ir_assignment (lhs rhs : ir_rvalue) (condition : option ir_rvalue)
| ir_call (callee_parameters : list ir_variable)
          (actual_parameters : list ir_rvalue)
          (return_deref : option ir_rvalue)
| ir_if (condition : ir_rvalue)
        (then_instructions else_instructions : list ir_instruction)
| ir_loop (body_instructions : list ir_instruction)
| ir_return (value : option ir_rvalue)
| ir_discard (condition : option ir_rvalue)
| ir_loop_jump
| ir_emit_vertex
| ir_end_primitive
with ir_function_signature : Type :=
| mk_signature (parameters : list ir_variable)
               (is_defined : bool) (is_builtin : bool)
               (body : list ir_instruction).

Definition sig_parameters (s : ir_function_signature) : list ir_variable :=
  match s with mk_signature p _ _ _ => p end.
Definition sig_is_defined (s : ir_function_signature) : bool :=
  match s with mk_signature _ d _ _ => d end.
Definition sig_is_builtin (s : ir_function_signature) : bool :=
  match s with mk_signature _ _ b _ => b end.
Definition sig_body (s : ir_function_signature) : list ir_instruction :=
  match s with mk_signature _ _ _ b => b end.

(** [ir_instruction::as_variable ()]. *)
Definition as_variable (i : ir_instruction) : option ir_variable :=
  match i with ir_variable_decl v => Some v | _ => None end.

(** Modelled from the spec: [ir_rvalue::variable_referenced ()] (ir.cpp is
    missing): the variable at the root of a dereference chain, NULL for
    anything that is not a dereference. *)
Fixpoint variable_referenced (r : ir_rvalue) : option ir_variable :=
  match r with
  | ir_dereference_variable v => Some v
  | ir_dereference_array a _ => variable_referenced a
  | ir_dereference_record a _ => variable_referenced a
  | ir_swizzle a => variable_referenced a
  | ir_expression _ => None
  | ir_constant_value _ => None
  end.

(* ===================================================================== *)
(** ** Hierarchical visitors *)
(* ===================================================================== *)

Inductive ir_visitor_status : Type :=
| visit_continue | visit_continue_with_parent | visit_stop.

(** The callbacks the linker's visitors override; [S] is the visitor
    object's own state (its data members). *)
Record ir_hierarchical_visitor (S : Type) : Type := mk_visitor {
  visit_dereference_variable : ir_variable -> S -> ir_visitor_status * S;
  visit_enter_assignment :
    ir_rvalue -> ir_rvalue -> option ir_rvalue -> S -> ir_visitor_status * S;
  visit_enter_call :
    list ir_variable -> list ir_rvalue -> option ir_rvalue -> S ->
    ir_visitor_status * S
}.
Arguments mk_visitor {S}.
Arguments visit_dereference_variable {S}.
Arguments visit_enter_assignment {S}.
Arguments visit_enter_call {S}.

(** What a node hands to its parent once one of its children stopped
    early: "continue with parent" ends at the node that asked for it. *)
Definition parent_status (st : ir_visitor_status) : ir_visitor_status :=
  match st with visit_continue_with_parent => visit_continue | _ => st end.

Section Traversal.
Context {S : Type} (v : ir_hierarchical_visitor S).

(** [visit_list_elements]: the elements in order, until one of them does
    not answer "continue". *)
Definition visit_list_elements {A : Type}
    (acc : A -> S -> ir_visitor_status * S) :
    list A -> S -> ir_visitor_status * S :=
  fix go (l : list A) (s : S) : ir_visitor_status * S :=
    match l with
    | [] => (visit_continue, s)
    | x :: l' =>
        match acc x s with
        | (visit_continue, s') => go l' s'
        | other => other
        end
    end.

Definition accept_option {A : Type}
    (acc : A -> S -> ir_visitor_status * S)
    (o : option A) (s : S) : ir_visitor_status * S :=
  match o with
  | None => (visit_continue, s)
  | Some x => acc x s
  end.

(** Modelled from the spec: the traversal driver over values (the
    [accept] methods of the node classes are missing; only linker.cpp is at
    hand).  The spec asks for a traversal returning a tri-state signal
    (continue / skip the subtree / stop) together with the visitor's
    accumulated state. *)
Fixpoint accept_rvalue (r : ir_rvalue) (s : S) : ir_visitor_status * S :=
  match r with
  | ir_dereference_variable var => visit_dereference_variable v var s
  | ir_dereference_array a i =>
      match accept_rvalue i s with
      | (visit_continue, s') => accept_rvalue a s'
      | (st, s') => (parent_status st, s')
      end
  | ir_dereference_record a _ => accept_rvalue a s
  | ir_swizzle a => accept_rvalue a s
  | ir_expression ops =>
      match visit_list_elements accept_rvalue ops s with
      | (st, s') => (parent_status st, s')
      end
  | ir_constant_value _ => (visit_continue, s)
  end.

(** Modelled from the spec: the traversal driver over instructions (the
    [accept] methods are missing, as above).  A node is entered through
    the visitor's callback; unless that says otherwise its children follow
    in order, and "stop" from any of them ends the whole traversal. *)
Fixpoint accept (i : ir_instruction) (s : S) : ir_visitor_status * S :=
  match i with
  | ir_variable_decl _ => (visit_continue, s)
  | ir_function _ sigs =>
      match visit_list_elements accept_signature sigs s with
      | (st, s1) => (parent_status st, s1)
      end
  | ir_assignment lhs rhs cond =>
      match visit_enter_assignment v lhs rhs cond s with
      | (visit_continue, s1) =>
          match accept_rvalue lhs s1 with
          | (visit_continue, s2) =>
              match accept_rvalue rhs s2 with
              | (visit_continue, s3) =>
                  match accept_option accept_rvalue cond s3 with
                  | (st, s4) => (parent_status st, s4)
                  end
              | (st, s3) => (parent_status st, s3)
              end
          | (st, s2) => (parent_status st, s2)
          end
      | (st, s1) => (parent_status st, s1)
      end
  | ir_call formals actuals ret =>
      match visit_enter_call v formals actuals ret s with
      | (visit_continue, s1) =>
          match accept_option accept_rvalue ret s1 with
          | (visit_continue, s2) =>
              match visit_list_elements accept_rvalue actuals s2 with
              | (st, s3) => (parent_status st, s3)
              end
          | (st, s2) => (parent_status st, s2)
          end
      | (st, s1) => (parent_status st, s1)
      end
  | ir_if cond thens elses =>
      match accept_rvalue cond s with
      | (visit_continue, s1) =>
          match visit_list_elements accept thens s1 with
          | (visit_continue, s2) =>
              match visit_list_elements accept elses s2 with
              | (st, s3) => (parent_status st, s3)
              end
          | (st, s2) => (parent_status st, s2)
          end
      | (st, s1) => (parent_status st, s1)
      end
  | ir_loop body =>
      match visit_list_elements accept body s with
      | (st, s1) => (parent_status st, s1)
      end
  | ir_return value => accept_option accept_rvalue value s
  | ir_discard cond => accept_option accept_rvalue cond s
  | ir_loop_jump => (visit_continue, s)
  | ir_emit_vertex => (visit_continue, s)
  | ir_end_primitive => (visit_continue, s)
  end
with accept_signature (sg : ir_function_signature) (s : S)
    : ir_visitor_status * S :=
  match sg with
  | mk_signature _ _ _ body =>
      match visit_list_elements accept body s with
      | (st, s1) => (parent_status st, s1)
      end
  end.

(** [ir_hierarchical_visitor::run]. *)
Definition run (instructions : list ir_instruction) (s : S) : S :=
  snd (visit_list_elements accept instructions s).
End Traversal.

(** [find_assignment_visitor]: is a variable of the given name ever
    written?  The state is the [found] member. *)
Section FindAssignment.
Variable name_ : string.

(** In valid IR the left-hand side of an assignment is a dereference,
    so [variable_referenced ()] is not NULL there; the [None] case stands
    for the code's unchecked use of the pointer. *)
Definition find_assignment_visit_enter_assignment
    (lhs rhs : ir_rvalue) (cond : option ir_rvalue) (found : bool)
    : ir_visitor_status * bool :=
  match variable_referenced lhs with
  | Some var =>
      if String.eqb name_ (name var) then (visit_stop, true)
      else (visit_continue_with_parent, found)
  | None => (visit_continue_with_parent, found)
  end.

(** The loop over the actual parameters, the signature's formal
    parameters being walked in step.  Validated IR has as many formals
    as actuals; the scan ends with the shorter list. *)
Fixpoint find_assignment_call_params
    (actuals : list ir_rvalue) (formals : list ir_variable) : bool :=
  match actuals, formals with
  | param_rval :: actuals', sig_param :: formals' =>
      if (bool_decide (mode sig_param = ir_var_function_out)
          || bool_decide (mode sig_param = ir_var_function_inout))%bool
      then
        match variable_referenced param_rval with
        | Some var =>
            if String.eqb name_ (name var) then true
            else find_assignment_call_params actuals' formals'
        | None => find_assignment_call_params actuals' formals'
        end
      else find_assignment_call_params actuals' formals'
  | _, _ => false
  end.

Definition find_assignment_visit_enter_call
    (formals : list ir_variable) (actuals : list ir_rvalue)
    (ret : option ir_rvalue) (found : bool) : ir_visitor_status * bool :=
  if find_assignment_call_params actuals formals then (visit_stop, true)
  else
    match ret with
    | Some return_deref =>
        match variable_referenced return_deref with
        | Some var =>
            if String.eqb name_ (name var) then (visit_stop, true)
            else (visit_continue_with_parent, found)
        | None => (visit_continue_with_parent, found)
        end
    | None => (visit_continue_with_parent, found)
    end.

Definition find_assignment_visitor : ir_hierarchical_visitor bool :=
  mk_visitor
    (fun _ found => (visit_continue, found))
    find_assignment_visit_enter_assignment
    find_assignment_visit_enter_call.

(** Construct the visitor ([found (false)]), run it, read
    [variable_found ()]. *)
Definition find_assignment (instructions : list ir_instruction) : bool :=
  run find_assignment_visitor instructions false.
End FindAssignment.

(** [find_deref_visitor]: is a variable of the given name ever read? *)
Definition find_deref_visitor (name_ : string)
    : ir_hierarchical_visitor bool :=
  mk_visitor
    (fun var found =>
       if String.eqb name_ (name var) then (visit_stop, true)
       else (visit_continue, found))
    (fun _ _ _ found => (visit_continue, found))
    (fun _ _ _ found => (visit_continue, found)).

Definition find_deref (name_ : string)
    (instructions : list ir_instruction) : bool :=
  run (find_deref_visitor name_) instructions false.

(* ===================================================================== *)
(** ** Shaders and the program object *)
(* ===================================================================== *)

Inductive gl_shader_stage : Type :=
| MESA_SHADER_VERTEX | MESA_SHADER_GEOMETRY | MESA_SHADER_FRAGMENT.

Global Instance gl_shader_stage_eq_dec : EqDecision gl_shader_stage.
Proof. solve_decision. Defined.

(** Modelled from the spec: the symbol table of a compiled unit
    (glsl_symbol_table.h is missing), "name -> declaration". *)
Record glsl_symbol_table : Type := mk_symbol_table {
  symbol_variables : gmap string ir_variable;
  symbol_functions : gmap string (list ir_function_signature)
}.

Definition get_variable (t : glsl_symbol_table) (n : string)
    : option ir_variable := symbol_variables t !! n.

(** [get_function] answers the function's list of signatures. *)
Definition get_function (t : glsl_symbol_table) (n : string)
    : option (list ir_function_signature) := symbol_functions t !! n.

Record gl_shader : Type := mk_shader {
  Type_ : gl_shader_stage;
  ir : list ir_instruction;
  symbols : glsl_symbol_table
}.

Record gl_shader_program : Type := mk_program {
  InfoLog : string;
  LinkStatus : bool;
  Version : Z;
  IsES : bool;
  Vert_UsesClipDistance : bool;
  Vert_ClipDistanceArraySize : Z;
  LinkedShader_vertex : option gl_shader;
  LinkedShader_geometry : option gl_shader;
  LinkedShader_fragment : option gl_shader;
  AttributeBindings : gmap string Z;
  FragDataBindings : gmap string Z;
  FragDataIndexBindings : gmap string Z
}.

(** [prog->_LinkedShaders[stage]]. *)
Definition LinkedShaders (prog : gl_shader_program) (stage : gl_shader_stage)
    : option gl_shader :=
  match stage with
  | MESA_SHADER_VERTEX => LinkedShader_vertex prog
  | MESA_SHADER_GEOMETRY => LinkedShader_geometry prog
  | MESA_SHADER_FRAGMENT => LinkedShader_fragment prog
  end.

Definition set_log (log : string) (status : bool) (p : gl_shader_program)
    : gl_shader_program :=
  mk_program log status (Version p) (IsES p)
    (Vert_UsesClipDistance p) (Vert_ClipDistanceArraySize p)
    (LinkedShader_vertex p) (LinkedShader_geometry p)
    (LinkedShader_fragment p)
    (AttributeBindings p) (FragDataBindings p) (FragDataIndexBindings p).

Definition set_Vert_clip (uses : bool) (size : Z) (p : gl_shader_program)
    : gl_shader_program :=
  mk_program (InfoLog p) (LinkStatus p) (Version p) (IsES p) uses size
    (LinkedShader_vertex p) (LinkedShader_geometry p)
    (LinkedShader_fragment p)
    (AttributeBindings p) (FragDataBindings p) (FragDataIndexBindings p).

Definition set_LinkedShader (stage : gl_shader_stage) (sh : option gl_shader)
    (p : gl_shader_program) : gl_shader_program :=
  mk_program (InfoLog p) (LinkStatus p) (Version p) (IsES p)
    (Vert_UsesClipDistance p) (Vert_ClipDistanceArraySize p)
    (if decide (stage = MESA_SHADER_VERTEX) then sh
     else LinkedShader_vertex p)
    (if decide (stage = MESA_SHADER_GEOMETRY) then sh
     else LinkedShader_geometry p)
    (if decide (stage = MESA_SHADER_FRAGMENT) then sh
     else LinkedShader_fragment p)
    (AttributeBindings p) (FragDataBindings p) (FragDataIndexBindings p).

(* ===================================================================== *)
(** ** The diagnostic log *)
(* ===================================================================== *)

(** The newline character of the format strings. *)
Definition nl : string := String (ascii_of_nat 10) EmptyString.

(** The prefix [linker_error] writes before its message. *)
Definition linker_error_prefix : string := "error: ".

(** The prefix [linker_warning] writes before its message. *)
Definition linker_warning_prefix : string := "error: ".

(** [linker_error (prog, fmt, ...)]; [msg] is the formatted message. *)
Definition linker_error (prog : gl_shader_program) (msg : string)
    : gl_shader_program :=
  set_log ((InfoLog prog +:+ linker_error_prefix) +:+ msg) false prog.

(** [linker_warning (prog, fmt, ...)]. *)
Definition linker_warning (prog : gl_shader_program) (msg : string)
    : gl_shader_program :=
  set_log ((InfoLog prog +:+ linker_warning_prefix) +:+ msg)
    (LinkStatus prog) prog.

(** The reset at the head of [link_shaders]: status true, log emptied. *)
Definition link_shaders_reset (prog : gl_shader_program)
    : gl_shader_program :=
  set_log "" true prog.

(* ===================================================================== *)
(** ** Stage executable validation *)
(* ===================================================================== *)

(** [analyze_clip_usage].  The two out parameters are returned next to the
    program; [uses0] is what [*UsesClipDistance] held on entry, which the
    error path leaves in place. *)
Definition analyze_clip_usage (shader_type : string)
    (prog : gl_shader_program) (shader : gl_shader) (uses0 : bool)
    : gl_shader_program * bool * Z :=
  if (negb (IsES prog) && (130 <=? Version prog))%bool then
    let clip_vertex := find_assignment "gl_ClipVertex" (ir shader) in
    let clip_distance := find_assignment "gl_ClipDistance" (ir shader) in
    if (clip_vertex && clip_distance)%bool then
      (linker_error prog
         (shader_type +:+ " shader writes to both `gl_ClipVertex' " +:+
          "and `gl_ClipDistance'" +:+ nl),
       uses0, 0)
    else
      match get_variable (symbols shader) "gl_ClipDistance" with
      | Some clip_distance_var =>
          (prog, clip_distance, type_length (type clip_distance_var))
      | None => (prog, clip_distance, 0)
      end
  else (prog, false, 0).

Definition missing_position_message : string :=
  "vertex shader does not write to `gl_Position'" +:+ nl.

(** [validate_vertex_shader_executable]; a NULL [shader] is [None]. *)
Definition validate_vertex_shader_executable (prog : gl_shader_program)
    (shader : option gl_shader) : gl_shader_program :=
  match shader with
  | None => prog
  | Some sh =>
      let analyze :=
        let '(prog', uses, size) :=
          analyze_clip_usage "vertex" prog sh (Vert_UsesClipDistance prog) in
        set_Vert_clip uses size prog' in
      if Version prog <? (if IsES prog then 300 else 140) then
        if negb (find_assignment "gl_Position" (ir sh))
        then linker_error prog missing_position_message
        else analyze
      else analyze
  end.

(** [validate_fragment_shader_executable]. *)
Definition validate_fragment_shader_executable (prog : gl_shader_program)
    (shader : option gl_shader) : gl_shader_program :=
  match shader with
  | None => prog
  | Some sh =>
      let frag_color := find_assignment "gl_FragColor" (ir sh) in
      let frag_data := find_assignment "gl_FragData" (ir sh) in
      if (frag_color && frag_data)%bool then
        linker_error prog
          ("fragment shader writes to both " +:+
           "`gl_FragColor' and `gl_FragData'" +:+ nl)
      else prog
  end.

(* ===================================================================== *)
(** ** Cross validation of globals *)
(* ===================================================================== *)

(** Control flow of a loop body or of a step of one: fall through to what
    follows ([Next]) or leave the enclosing function ([Ret]). *)
Inductive flow (A : Type) : Type :=
| Next (a : A)
| Ret (a : A).
Arguments Next {A}.
Arguments Ret {A}.

Definition and_then {A : Type} (r : flow A) (k : A -> flow A) : flow A :=
  match r with
  | Next a => k a
  | Ret a => Ret a
  end.

Notation "r >>> k" := (and_then r k) (at level 61, left associativity).

(** A loop over a list whose body may leave the function. *)
Fixpoint for_each {A X : Type} (body : X -> A -> flow A) (l : list X)
    (a : A) : flow A :=
  match l with
  | [] => Next a
  | x :: l' =>
      match body x a with
      | Next a' => for_each body l' a'
      | Ret a' => Ret a'
      end
  end.

Definition flow_value {A : Type} (r : flow A) : A :=
  match r with Next a => a | Ret a => a end.

Section CrossValidate.
(** Collaborators that live outside linker.cpp. *)
Variable contains_atomic : glsl_type -> bool.
Variable has_value : ir_constant -> ir_constant -> bool.
Variable mode_string : ir_variable -> string.

(** The state of one comparison: the program (its log and status) and
    [existing], the first-seen declaration the symbol table points to,
    which the checks update in place. *)
Definition pair_state : Type := gl_shader_program * ir_variable.

Definition check_type (var : ir_variable) (st : pair_state)
    : flow pair_state :=
  let '(prog, existing) := st in
  if decide (type var <> type existing) then
    if (is_array (type var)
        && is_array (type existing)
        && bool_decide (fields_array (type var)
                        = fields_array (type existing))
        && ((type_length (type var) =? 0)
            || (type_length (type existing) =? 0)))%bool
    then
      if negb (type_length (type var) =? 0)
      then Next (prog, set_type (type var) existing)
      else Next (prog, existing)
    else
      Ret (linker_error prog
             (mode_string var +:+ " `" +:+ name var +:+
              "' declared as type `" +:+ type_name (type var) +:+
              "' and type `" +:+ type_name (type existing) +:+ "'" +:+ nl),
           existing)
  else Next (prog, existing).

Definition check_location (var : ir_variable) (st : pair_state)
    : flow pair_state :=
  let '(prog, existing) := st in
  if explicit_location var then
    if (explicit_location existing
        && negb (location var =? location existing))%bool
    then
      Ret (linker_error prog
             ("explicit locations for " +:+ mode_string var +:+ " `" +:+
              name var +:+ "' have differing values" +:+ nl),
           existing)
    else
      Next (prog,
            set_explicit_location true
              (set_location (location var) existing))
  else Next (prog, existing).

Definition check_binding (var : ir_variable) (st : pair_state)
    : flow pair_state :=
  let '(prog, existing) := st in
  if explicit_binding var then
    if (explicit_binding existing
        && negb (binding var =? binding existing))%bool
    then
      Ret (linker_error prog
             ("explicit bindings for " +:+ mode_string var +:+ " `" +:+
              name var +:+ "' have differing values" +:+ nl),
           existing)
    else
      Next (prog,
            set_explicit_binding true (set_binding (binding var) existing))
  else Next (prog, existing).

Definition check_atomic_offset (var : ir_variable) (st : pair_state)
    : flow pair_state :=
  let '(prog, existing) := st in
  if (contains_atomic (type var)
      && negb (atomic_offset var =? atomic_offset existing))%bool
  then
    Ret (linker_error prog
           ("offset specifications for " +:+ mode_string var +:+ " `" +:+
            name var +:+ "' have differing values" +:+ nl),
         existing)
  else Next (prog, existing).

Definition frag_depth_redeclaration_message : string :=
  "All redeclarations of gl_FragDepth in all " +:+
  "fragment shaders in a single program must have " +:+
  "the same set of qualifiers.".

Definition frag_depth_assignment_message : string :=
  "If gl_FragDepth is redeclared with a layout " +:+
  "qualifier in any fragment shader, it must be " +:+
  "redeclared with the same layout qualifier in " +:+
  "all fragment shaders that have assignments to " +:+
  "gl_FragDepth".

(** The two gl_FragDepth checks log and fall through. *)
Definition check_frag_depth (var : ir_variable) (st : pair_state)
    : flow pair_state :=
  let '(prog, existing) := st in
  if String.eqb (name var) "gl_FragDepth" then
    let layout_declared :=
      negb (bool_decide (depth_layout var = ir_depth_layout_none)) in
    let layout_differs :=
      negb (bool_decide (depth_layout var = depth_layout existing)) in
    let prog1 :=
      if (layout_declared && layout_differs)%bool
      then linker_error prog frag_depth_redeclaration_message
      else prog in
    let prog2 :=
      if (used var && layout_differs)%bool
      then linker_error prog1 frag_depth_assignment_message
      else prog1 in
    Next (prog2, existing)
  else Next (prog, existing).

Definition check_constant_initializer (var : ir_variable) (st : pair_state)
    : flow pair_state :=
  let '(prog, existing) := st in
  match constant_initializer var with
  | Some c =>
      match constant_initializer existing with
      | Some ec =>
          if negb (has_value c ec) then
            Ret (linker_error prog
                   ("initializers for " +:+ mode_string var +:+ " `" +:+
                    name var +:+ "' have differing values" +:+ nl),
                 existing)
          else Next (prog, existing)
      | None =>
          (* the clone of var's initializer *)
          Next (prog, set_constant_initializer (Some c) existing)
      end
  | None => Next (prog, existing)
  end.

Definition check_has_initializer (var : ir_variable) (st : pair_state)
    : flow pair_state :=
  let '(prog, existing) := st in
  if has_initializer var then
    if (has_initializer existing
        && (bool_decide (constant_initializer var = None)
            || bool_decide (constant_initializer existing = None)))%bool
    then
      Ret (linker_error prog
             ("shared global variable `" +:+ name var +:+
              "' has multiple " +:+ "non-constant initializers." +:+ nl),
           existing)
    else Next (prog, set_has_initializer true existing)
  else Next (prog, existing).

Definition check_invariant (var : ir_variable) (st : pair_state)
    : flow pair_state :=
  let '(prog, existing) := st in
  if negb (eqb (invariant existing) (invariant var)) then
    Ret (linker_error prog
           ("declarations for " +:+ mode_string var +:+ " `" +:+
            name var +:+ "' have " +:+
            "mismatching invariant qualifiers" +:+ nl),
         existing)
  else Next (prog, existing).

Definition check_centroid (var : ir_variable) (st : pair_state)
    : flow pair_state :=
  let '(prog, existing) := st in
  if negb (eqb (centroid existing) (centroid var)) then
    Ret (linker_error prog
           ("declarations for " +:+ mode_string var +:+ " `" +:+
            name var +:+ "' have " +:+
            "mismatching centroid qualifiers" +:+ nl),
         existing)
  else Next (prog, existing).

(** The body of [if (existing != NULL)]: the checks in source order. *)
Definition cross_validate_pair (var : ir_variable) (st : pair_state)
    : flow pair_state :=
  check_type var st
    >>> check_location var
    >>> check_binding var
    >>> check_atomic_offset var
    >>> check_frag_depth var
    >>> check_constant_initializer var
    >>> check_has_initializer var
    >>> check_invariant var
    >>> check_centroid var.

(** The scratch symbol table [variables]: name to first-seen declaration.
    [existing] is a pointer into it, so a check's update of [existing]
    is an update of the table's entry. *)
Definition globals_state : Type :=
  gl_shader_program * gmap string ir_variable.

(** The body of the inner [foreach_list]. *)
Definition cross_validate_node (uniforms_only : bool)
    (node : ir_instruction) (st : globals_state) : flow globals_state :=
  let '(prog, variables) := st in
  match as_variable node with
  | None => Next st
  | Some var =>
      if (uniforms_only && negb (bool_decide (mode var = ir_var_uniform)))%bool
      then Next st
      else if bool_decide (mode var = ir_var_temporary) then Next st
      else
        match variables !! name var with
        | Some existing =>
            match cross_validate_pair var (prog, existing) with
            | Next (prog', existing') =>
                Next (prog', <[name var := existing']> variables)
            | Ret (prog', existing') =>
                Ret (prog', <[name var := existing']> variables)
            end
        | None => Next (prog, <[name var := var]> variables)
        end
  end.

(** The body of the outer loop; a NULL entry of [shader_list] is [None]. *)
Definition cross_validate_shader (uniforms_only : bool)
    (shader : option gl_shader) (st : globals_state) : flow globals_state :=
  match shader with
  | None => Next st
  | Some sh => for_each (cross_validate_node uniforms_only) (ir sh) st
  end.

(** [cross_validate_globals], together with the scratch table it
    leaves behind. *)
Definition cross_validate_globals_table (prog : gl_shader_program)
    (shader_list : list (option gl_shader)) (uniforms_only : bool)
    : flow globals_state :=
  for_each (cross_validate_shader uniforms_only) shader_list (prog, ∅).

Definition cross_validate_globals (prog : gl_shader_program)
    (shader_list : list (option gl_shader)) (uniforms_only : bool)
    : gl_shader_program :=
  fst (flow_value
         (cross_validate_globals_table prog shader_list uniforms_only)).
End CrossValidate.

(* ===================================================================== *)
(** ** Location allocation *)
(* ===================================================================== *)

(** [find_available_slots]'s loop: [n] iterations remain, [i] is the base
    location under test.  Next to the result the loop reports the base
    locations it tested, in order. *)
Fixpoint find_available_slots_loop (n : nat) (i : Z)
    (needed_mask used_mask : Z) (tested : list Z) : Z * list Z :=
  match n with
  | O => (-1, tested)
  | S n' =>
      if Z.land needed_mask (bit_not used_mask) =? needed_mask
      then (i, (tested ++ [i])%list)
      else find_available_slots_loop n' (i + 1) (shl needed_mask 1)
             used_mask (tested ++ [i])%list
  end.

(** [find_available_slots] with the list of tested base locations.
    [8 * sizeof (used_mask)] is 32; the difference is formed in [size_t]
    and converted to [int], which keeps its low 32 bits. *)
Definition find_available_slots_trace (used_mask needed_count : Z)
    : Z * list Z :=
  let needed_mask := to_uint (shl 1 needed_count - 1) in
  let max_bit_to_test := to_int (8 * 4 - needed_count) in
  if ((needed_count =? 0) || (max_bit_to_test <? 0)
      || (max_bit_to_test >? 32))%bool
  then (-1, [])
  else find_available_slots_loop (Z.to_nat (max_bit_to_test + 1)) 0
         needed_mask used_mask [].

Definition find_available_slots (used_mask needed_count : Z) : Z :=
  fst (find_available_slots_trace used_mask needed_count).

(** [link_invalidate_variable_locations]. *)
Definition invalidate_variable (var : ir_variable) : ir_variable :=
  let var1 :=
    if negb (explicit_location var) then set_location (-1) var else var in
  if negb (explicit_location var1)
  then set_is_unmatched_generic_inout true var1
  else set_is_unmatched_generic_inout false var1.

Definition link_invalidate_variable_locations (l : list ir_instruction)
    : list ir_instruction :=
  map (fun node =>
         match as_variable node with
         | None => node
         | Some var => ir_variable_decl (invalidate_variable var)
         end) l.

(** An entry of [to_assign]: [var] points at a declaration of [sh->ir],
    given here by the position of that declaration in the list. *)
Record temp_attr : Type := mk_temp_attr {
  slots : Z;
  var : nat
}.

(** [temp_attr::compare]; the difference of two [unsigned] as an [int]. *)
Definition temp_attr_compare (l r : temp_attr) : Z :=
  to_int (slots r - slots l).

(** The capacity of [to_assign]. *)
Definition TO_ASSIGN_CAPACITY : Z := 16.

(** How [assign_attribute_or_color_locations] ends: it returns [true] with
    the updated declarations, it returns [false] after logging [msg]
    (the declarations as updated so far stay behind), or the store
    [to_assign[index]] lands outside the array, after which C defines
    nothing. *)
Inductive alloc_result (A : Type) : Type :=
| alloc_ok (a : A)
| alloc_error (msg : string) (l : list ir_instruction)
| alloc_out_of_bounds (index : Z).
Arguments alloc_ok {A}.
Arguments alloc_error {A}.
Arguments alloc_out_of_bounds {A}.

(** Replace the declaration at position [pos]. *)
Definition update_variable (f : ir_variable -> ir_variable) (pos : nat)
    (l : list ir_instruction) : list ir_instruction :=
  alter (fun node =>
           match as_variable node with
           | Some v => ir_variable_decl (f v)
           | None => node
           end) pos l.

Definition variable_at (l : list ir_instruction) (pos : nat)
    : option ir_variable :=
  match l !! pos with
  | Some node => as_variable node
  | None => None
  end.

Section AssignLocations.
(** Collaborators and constants that live outside linker.cpp. *)
Variable count_attribute_slots : glsl_type -> Z.
Variable qsort :
  (temp_attr -> temp_attr -> Z) -> list temp_attr -> list temp_attr.
Variable VERT_ATTRIB_GENERIC0 : Z.
Variable FRAG_RESULT_DATA0 : Z.

Definition generic_base (target_index : gl_shader_stage) : Z :=
  if decide (target_index = MESA_SHADER_VERTEX)
  then VERT_ATTRIB_GENERIC0 else FRAG_RESULT_DATA0.

Definition direction (target_index : gl_shader_stage) : ir_variable_mode :=
  if decide (target_index = MESA_SHADER_VERTEX)
  then ir_var_shader_in else ir_var_shader_out.

Definition target_string (target_index : gl_shader_stage) : string :=
  if decide (target_index = MESA_SHADER_VERTEX)
  then "vertex shader input" else "fragment shader output".

(** The application's bindings applied to a declaration without an
    explicit location. *)
Definition apply_bindings (prog : gl_shader_program)
    (target_index : gl_shader_stage) (v : ir_variable) : ir_variable :=
  if decide (target_index = MESA_SHADER_VERTEX) then
    match AttributeBindings prog !! name v with
    | Some binding =>
        set_is_unmatched_generic_inout false
          (set_location (to_int binding) v)
    | None => v
    end
  else if decide (target_index = MESA_SHADER_FRAGMENT) then
    match FragDataBindings prog !! name v with
    | Some binding =>
        let v1 :=
          set_is_unmatched_generic_inout false
            (set_location (to_int binding) v) in
        match FragDataIndexBindings prog !! name v with
        | Some index_ => set_index index_ v1
        | None => v1
        end
    | None => v
    end
  else v.

(** The locals the first loop carries: the declarations (updated in
    place), [used_locations] and [to_assign] with
    [num_attr = length to_assign]. *)
Record collect_state : Type := mk_collect_state {
  cs_ir : list ir_instruction;
  used_locations : Z;
  to_assign : list temp_attr
}.

(** The body of the first loop at the node in position [pos]. *)
Definition collect_node (prog : gl_shader_program)
    (target_index : gl_shader_stage) (max_index : Z)
    (pos : nat) (node : ir_instruction) (st : collect_state)
    : alloc_result collect_state :=
  match as_variable node with
  | None => alloc_ok st
  | Some var0 =>
      if negb (bool_decide (mode var0 = direction target_index))
      then alloc_ok st
      else
        let base := generic_base target_index in
        let checked : alloc_result ir_variable :=
          if explicit_location var0 then
            if ((location var0 >=? to_int (to_uint (max_index + base)))
                || (location var0 <? 0))%bool
            then
              alloc_error
                ("invalid explicit location " +:+
                 fmt_d (if location var0 <? 0 then location var0
                        else to_int (location var0 - base)) +:+
                 " specified for `" +:+ name var0 +:+ "'" +:+ nl)
                (cs_ir st)
            else alloc_ok var0
          else alloc_ok (apply_bindings prog target_index var0) in
        match checked with
        | alloc_error msg l => alloc_error msg l
        | alloc_out_of_bounds i => alloc_out_of_bounds i
        | alloc_ok var1 =>
            let ir1 := update_variable (fun _ => var1) pos (cs_ir st) in
            let slots_ := count_attribute_slots (type var1) in
            if negb (location var1 =? -1) then
              if ((location var1 >=? base) && (index var1 <? 1))%bool then
                let attr := to_uint (location var1 - base) in
                let use_mask := to_uint (shl 1 slots_ - 1) in
                if negb (Z.land (bit_not (shl use_mask attr))
                                (used_locations st)
                         =? used_locations st)
                then
                  alloc_error
                    ("insufficient contiguous locations " +:+
                     "available for " +:+ target_string target_index +:+
                     " `" +:+ name var1 +:+ "' " +:+
                     fmt_d (to_int (used_locations st)) +:+ " " +:+
                     fmt_d (to_int use_mask) +:+ " " +:+
                     fmt_d (to_int attr))
                    ir1
                else
                  alloc_ok
                    (mk_collect_state ir1
                       (Z.lor (used_locations st) (shl use_mask attr))
                       (to_assign st))
              else alloc_ok (mk_collect_state ir1 (used_locations st)
                               (to_assign st))
            else
              let num_attr := Z.of_nat (length (to_assign st)) in
              if num_attr <? TO_ASSIGN_CAPACITY then
                alloc_ok
                  (mk_collect_state ir1 (used_locations st)
                     (to_assign st ++ [mk_temp_attr slots_ pos])%list)
              else alloc_out_of_bounds num_attr
        end
  end.

(** The first loop, over the nodes from position [pos] on. *)
Fixpoint collect (prog : gl_shader_program)
    (target_index : gl_shader_stage) (max_index : Z)
    (pos : nat) (nodes : list ir_instruction) (st : collect_state)
    : alloc_result collect_state :=
  match nodes with
  | [] => alloc_ok st
  | node :: nodes' =>
      match collect_node prog target_index max_index pos node st with
      | alloc_ok st' =>
          collect prog target_index max_index (S pos) nodes' st'
      | alloc_error msg l => alloc_error msg l
      | alloc_out_of_bounds i => alloc_out_of_bounds i
      end
  end.

(** The last loop, over the sorted [to_assign]. *)
Fixpoint assign_sorted (target_index : gl_shader_stage)
    (sorted : list temp_attr) (l : list ir_instruction)
    (used : Z) : alloc_result (list ir_instruction) :=
  match sorted with
  | [] => alloc_ok l
  | a :: sorted' =>
      let use_mask := to_uint (shl 1 (slots a) - 1) in
      let location_ := find_available_slots used (slots a) in
      if location_ <? 0 then
        alloc_error
          ("insufficient contiguous locations " +:+
           "available for " +:+ target_string target_index +:+ " `" +:+
           match variable_at l (var a) with
           | Some v => name v
           | None => ""
           end +:+ "'")
          l
      else
        assign_sorted target_index sorted'
          (update_variable
             (fun v =>
                set_is_unmatched_generic_inout false
                  (set_location
                     (to_int (generic_base target_index + location_)) v))
             (var a) l)
          (Z.lor used (shl use_mask location_))
  end.

(** The function body once [sh] is known not to be NULL. *)
Definition assign_locations (prog : gl_shader_program)
    (target_index : gl_shader_stage) (max_index : Z) (sh : gl_shader)
    : alloc_result (list ir_instruction) :=
  let used0 :=
    if max_index >=? 32 then bit_not 0
    else bit_not (to_uint (shl 1 max_index - 1)) in
  match collect prog target_index max_index 0 (ir sh)
          (mk_collect_state (ir sh) used0 []) with
  | alloc_error msg l => alloc_error msg l
  | alloc_out_of_bounds i => alloc_out_of_bounds i
  | alloc_ok st =>
      if Z.of_nat (length (to_assign st)) =? 0 then alloc_ok (cs_ir st)
      else
        let sorted := qsort temp_attr_compare (to_assign st) in
        let used1 :=
          if decide (target_index = MESA_SHADER_VERTEX) then
            if find_deref "gl_Vertex" (cs_ir st)
            then Z.lor (used_locations st) (shl 1 0)
            else used_locations st
          else used_locations st in
        assign_sorted target_index sorted (cs_ir st) used1
  end.

(** [assign_attribute_or_color_locations]: the returned flag and the
    program, whose log, status and target stage declarations the call
    updates.  [None] stands for the run whose store into [to_assign]
    left the array. *)
Definition assign_attribute_or_color_locations (prog : gl_shader_program)
    (target_index : gl_shader_stage) (max_index : Z)
    : option (bool * gl_shader_program) :=
  match LinkedShaders prog target_index with
  | None => Some (true, prog)
  | Some sh =>
      match assign_locations prog target_index max_index sh with
      | alloc_ok l =>
          Some (true,
                set_LinkedShader target_index
                  (Some (mk_shader (Type_ sh) l (symbols sh))) prog)
      | alloc_error msg l =>
          Some (false,
                linker_error
                  (set_LinkedShader target_index
                     (Some (mk_shader (Type_ sh) l (symbols sh))) prog)
                  msg)
      | alloc_out_of_bounds _ => None
      end
  end.
End AssignLocations.

(* ===================================================================== *)
(** ** Intrastage linking: the search for multiply defined functions *)
(* ===================================================================== *)

(** Modelled from the spec: [ir_function::exact_matching_signature] (its
    definition is missing; only linker.cpp is at hand).  The spec speaks of
    a signature "with identical name and parameter list": the signature of
    the function whose parameters have, one by one, the types asked
    for. *)
Definition exact_matching_signature (sigs : list ir_function_signature)
    (actual_parameters : list ir_variable) : option ir_function_signature :=
  List.find
    (fun s => bool_decide (map type (sig_parameters s)
                           = map type actual_parameters))
    sigs.

Definition multiply_defined_message (fname : string) : string :=
  "function `" +:+ fname +:+ "' is multiply defined".

(** The innermost loop body: one signature [sig] of [f] against the
    function [other] of a later shader. *)
Definition check_signature (fname : string)
    (other : list ir_function_signature) (sig : ir_function_signature)
    (prog : gl_shader_program) : flow gl_shader_program :=
  if (negb (sig_is_defined sig) || sig_is_builtin sig)%bool then Next prog
  else
    match exact_matching_signature other (sig_parameters sig) with
    | Some other_sig =>
        if (sig_is_defined other_sig && negb (sig_is_builtin other_sig))%bool
        then Ret (linker_error prog (multiply_defined_message fname))
        else Next prog
    | None => Next prog
    end.

(** The loop over the later shaders [j]. *)
Definition check_against_shader (fname : string)
    (sigs : list ir_function_signature) (shader_j : gl_shader)
    (prog : gl_shader_program) : flow gl_shader_program :=
  match get_function (symbols shader_j) fname with
  | None => Next prog
  | Some other => for_each (check_signature fname other) sigs prog
  end.

(** The loop over the nodes of shader [i]. *)
Definition check_node (later : list gl_shader) (node : ir_instruction)
    (prog : gl_shader_program) : flow gl_shader_program :=
  match node with
  | ir_function fname sigs =>
      for_each (check_against_shader fname sigs) later prog
  | _ => Next prog
  end.

(** The outer loop, [i] from 0 to [num_shaders - 2]. *)
Fixpoint check_multiply_defined (shader_list : list gl_shader)
    (prog : gl_shader_program) : flow gl_shader_program :=
  match shader_list with
  | shader_i :: ((_ :: _) as later) =>
      for_each (check_node later) (ir shader_i) prog
        >>> check_multiply_defined later
  | _ => Next prog
  end.

Section Intrastage.
Variable contains_atomic : glsl_type -> bool.
Variable has_value : ir_constant -> ir_constant -> bool.
Variable mode_string : ir_variable -> string.

(** Collaborators of other files, as far as they act on the program. *)
Variable validate_intrastage_interface_blocks :
  gl_shader_program -> list gl_shader -> gl_shader_program.
Variable link_uniform_blocks :
  gl_shader_program -> list gl_shader -> gl_shader_program.

(** The rest of [link_intrastage_shaders], from the search for [main]
    to the array sizing pass. *)
Variable link_intrastage_tail :
  gl_shader_program -> list gl_shader ->
  gl_shader_program * option gl_shader.

(** The program as it stands when the search for multiply defined
    functions begins ([inr]), or as one of the two validations before it
    left it on failure ([inl]). *)
Definition intrastage_validated (prog : gl_shader_program)
    (shader_list : list gl_shader) : gl_shader_program + gl_shader_program :=
  let prog1 :=
    cross_validate_globals contains_atomic has_value mode_string
      prog (map Some shader_list) false in
  if negb (LinkStatus prog1) then inl prog1
  else
    let prog2 := validate_intrastage_interface_blocks prog1 shader_list in
    if negb (LinkStatus prog2) then inl prog2
    else inr (link_uniform_blocks prog2 shader_list).

(** [link_intrastage_shaders]: the program and the linked shader, NULL
    being [None]. *)
Definition link_intrastage_shaders (prog : gl_shader_program)
    (shader_list : list gl_shader)
    : gl_shader_program * option gl_shader :=
  match intrastage_validated prog shader_list with
  | inl failed => (failed, None)
  | inr prog3 =>
      match check_multiply_defined shader_list prog3 with
      | Ret prog4 => (prog4, None)
      | Next prog4 => link_intrastage_tail prog4 shader_list
      end
  end.
End Intrastage.

(* ===================================================================== *)
(** ** Changes to the log and the status *)
(* ===================================================================== *)

(** A relation between two states of the program: the second is the
    first after a call of [linker_error], after a call of
    [linker_warning], or it has the log and the status of the first.  It
    is what the lemmas below establish of the linker's functions, one by
    one. *)
Inductive linker_step : gl_shader_program -> gl_shader_program -> Prop :=
| step_error (p : gl_shader_program) (msg : string) :
    linker_step p (linker_error p msg)
| step_warning (p : gl_shader_program) (msg : string) :
    linker_step p (linker_warning p msg)
| step_quiet (p p' : gl_shader_program) :
    InfoLog p' = InfoLog p -> LinkStatus p' = LinkStatus p ->
    linker_step p p'.

(** Several steps in a row. *)
Inductive linker_steps : gl_shader_program -> gl_shader_program -> Prop :=
| steps_refl (p : gl_shader_program) : linker_steps p p
| steps_cons (p p' p'' : gl_shader_program) :
    linker_step p p' -> linker_steps p' p'' -> linker_steps p p''.

(** The log holds an entry written by [linker_error]. *)
Definition log_has_error (log : string) : Prop :=
  exists pre msg post : string,
    log = (pre +:+ (linker_error_prefix +:+ msg)) +:+ post.

(* ===================================================================== *)
(** * Properties *)
(* ===================================================================== *)

(** ** Strings and machine integers *)

Lemma append_cons (ch : ascii) (a b : string) :
  String ch a +:+ b = String ch (a +:+ b).
Proof. reflexivity. Qed.

Lemma append_assoc (a b c : string) : (a +:+ b) +:+ c = a +:+ (b +:+ c).
Proof.
  induction a as [|ch a IH]; [reflexivity |].
  now rewrite !append_cons, IH.
Qed.

Lemma append_empty_r (a : string) : a +:+ "" = a.
Proof.
  induction a as [|ch a IH]; [reflexivity |].
  now rewrite append_cons, IH.
Qed.

Lemma to_uint_wrap_negative (z : Z) :
  - UINT_MOD <= z < 0 -> to_uint z = z + UINT_MOD.
Proof.
  intros H. unfold to_uint. symmetry.
  apply Z.mod_unique with (q := -1); unfold UINT_MOD, UINT_BITS in *; lia.
Qed.

Lemma shl_small (x n : Z) :
  0 <= n < UINT_BITS -> shl x n = to_uint (Z.shiftl x n).
Proof. intros H. unfold shl. now rewrite Z.mod_small. Qed.

(** A shift by the full width keeps the operand: asked for 32 slots, the
    search builds the mask [(1 << 32) - 1 = 0] and answers slot 0. *)
Example find_available_slots_full_width :
  shl 1 32 = 1 /\ find_available_slots 5 32 = 0.
Proof. split; vm_compute; reflexivity. Qed.

(** ** The diagnostic log *)

Lemma linker_error_status (p : gl_shader_program) (msg : string) :
  LinkStatus (linker_error p msg) = false.
Proof. reflexivity. Qed.

Lemma linker_warning_status (p : gl_shader_program) (msg : string) :
  LinkStatus (linker_warning p msg) = LinkStatus p.
Proof. reflexivity. Qed.

Lemma linker_error_log (p : gl_shader_program) (msg : string) :
  InfoLog (linker_error p msg) = (InfoLog p +:+ linker_error_prefix) +:+ msg.
Proof. reflexivity. Qed.

Lemma log_has_error_extend (log suffix : string) :
  log_has_error log -> log_has_error (log +:+ suffix).
Proof.
  intros (pre & msg & post & ->).
  exists pre, msg, (post +:+ suffix). now rewrite !append_assoc.
Qed.

Lemma linker_step_keeps_failure (p p' : gl_shader_program) :
  linker_step p p' -> LinkStatus p = false -> LinkStatus p' = false.
Proof.
  intros Hstep Hp. destruct Hstep as [p msg | p msg | p p' _ Hs].
  - reflexivity.
  - exact Hp.
  - now rewrite Hs.
Qed.

Lemma linker_step_keeps_error_entry (p p' : gl_shader_program) :
  linker_step p p' -> log_has_error (InfoLog p) -> log_has_error (InfoLog p').
Proof.
  intros Hstep Hp. destruct Hstep as [p msg | p msg | p p' Hl _].
  - rewrite linker_error_log, append_assoc. now apply log_has_error_extend.
  - unfold linker_warning; simpl. rewrite append_assoc.
    now apply log_has_error_extend.
  - now rewrite Hl.
Qed.

Lemma linker_steps_keep_failure (p p' : gl_shader_program) :
  linker_steps p p' -> LinkStatus p = false -> LinkStatus p' = false.
Proof.
  induction 1 as [p | p p' p'' Hstep _ IH]; intros Hp; [exact Hp |].
  apply IH. eapply linker_step_keeps_failure; eauto.
Qed.

Lemma linker_steps_trans (p p' p'' : gl_shader_program) :
  linker_steps p p' -> linker_steps p' p'' -> linker_steps p p''.
Proof.
  induction 1 as [p | p q r Hstep _ IH]; intros H2; [exact H2 |].
  eapply steps_cons; eauto.
Qed.

(** C6.  What the code does with a warning: the prefix it writes is the one
    [linker_error] writes, so the log after a warning reads exactly like
    the log after an error with the same message. *)
Theorem linker_warning_prefix_is_error_prefix :
  linker_warning_prefix = linker_error_prefix
  /\ forall (p : gl_shader_program) (msg : string),
       InfoLog (linker_warning p msg) = InfoLog (linker_error p msg).
Proof. split; reflexivity. Qed.

(** The log after one warning on an empty log. *)
Example linker_warning_log_example :
  InfoLog (linker_warning
             (link_shaders_reset
                (mk_program "" true 110 false false 0 None None None
                   ∅ ∅ ∅))
             "Too many vertex shader uniform components")
  = "error: Too many vertex shader uniform components".
Proof. reflexivity. Qed.

(** ** The slot search *)

(** C2.  A request for no slot at all, or for more slots than the mask has
    bits, is answered with -1 before any base location is tested, whatever
    the mask of used slots (which the function receives by value). *)
Theorem find_available_slots_rejects (used_mask needed_count : Z) :
  0 <= needed_count < UINT_MOD ->
  needed_count = 0 \/ UINT_BITS < needed_count ->
  find_available_slots_trace used_mask needed_count = (-1, [])
  /\ find_available_slots used_mask needed_count = -1.
Proof.
  intros Hrange Hreq.
  assert (Htrace :
            find_available_slots_trace used_mask needed_count = (-1, [])).
  { unfold find_available_slots_trace.
    destruct Hreq as [-> | Hbig]; [reflexivity |].
    replace (needed_count =? 0) with false
      by (symmetry; apply Z.eqb_neq; unfold UINT_BITS in *; lia).
    unfold to_int.
    rewrite to_uint_wrap_negative
      by (unfold UINT_MOD, UINT_BITS in *; lia).
    unfold UINT_MOD, UINT_BITS in *.
    destruct (8 * 4 - needed_count + 2 ^ 32 <? 2 ^ (32 - 1)) eqn:Hlow.
    - apply Z.ltb_lt in Hlow.
      replace (8 * 4 - needed_count + 2 ^ 32 >? 32) with true
        by (symmetry; apply Z.gtb_lt; lia).
      now rewrite orb_true_r.
    - replace (8 * 4 - needed_count + 2 ^ 32 - 2 ^ 32 <? 0) with true
        by (symmetry; apply Z.ltb_lt; lia).
      reflexivity. }
  split; [exact Htrace |].
  unfold find_available_slots. now rewrite Htrace.
Qed.

Lemma find_available_slots_rejects_witness :
  (find_available_slots_trace 0 33 = (-1, [])
   /\ find_available_slots 0 33 = -1)
  /\ (find_available_slots_trace 5 0 = (-1, [])
      /\ find_available_slots 5 0 = -1).
Proof.
  split.
  - apply (find_available_slots_rejects 0 33);
      unfold UINT_MOD, UINT_BITS; [lia | right; lia].
  - apply (find_available_slots_rejects 5 0);
      unfold UINT_MOD, UINT_BITS; [lia | left; reflexivity].
Defined.

(** The search at work: three slots free from base 2 on. *)
Example find_available_slots_example :
  find_available_slots_trace 3 3 = (2, [0; 1; 2]).
Proof. reflexivity. Qed.

(* ===================================================================== *)
(** ** Write detection and the vertex stage validator *)
(* ===================================================================== *)

(** Induction over the instruction tree, with the hypotheses for the nodes
    nested in lists. *)
Section IrInduction.
Variable P : ir_rvalue -> Prop.
Hypothesis P_variable : forall v, P (ir_dereference_variable v).
Hypothesis P_array : forall a i, P a -> P i -> P (ir_dereference_array a i).
Hypothesis P_record : forall a f, P a -> P (ir_dereference_record a f).
Hypothesis P_swizzle : forall a, P a -> P (ir_swizzle a).
Hypothesis P_expression : forall ops, Forall P ops -> P (ir_expression ops).
Hypothesis P_constant : forall c, P (ir_constant_value c).

Fixpoint ir_rvalue_nested_ind (r : ir_rvalue) : P r :=
  match r with
  | ir_dereference_variable v => P_variable v
  | ir_dereference_array a i =>
      P_array a i (ir_rvalue_nested_ind a) (ir_rvalue_nested_ind i)
  | ir_dereference_record a f => P_record a f (ir_rvalue_nested_ind a)
  | ir_swizzle a => P_swizzle a (ir_rvalue_nested_ind a)
  | ir_expression ops =>
      P_expression ops
        ((fix go (l : list ir_rvalue) : Forall P l :=
            match l with
            | [] => Stdlib.Lists.List.Forall_nil P
            | x :: l' =>
                @Stdlib.Lists.List.Forall_cons _ _ x l'
                  (ir_rvalue_nested_ind x) (go l')
            end) ops)
  | ir_constant_value c => P_constant c
  end.
End IrInduction.

Section IrInstructionInduction.
Variable P : ir_instruction -> Prop.
Variable Q : ir_function_signature -> Prop.
Hypothesis P_variable : forall v, P (ir_variable_decl v).
Hypothesis P_function :
  forall n sigs, Forall Q sigs -> P (ir_function n sigs).
Hypothesis P_assignment : forall l r c, P (ir_assignment l r c).
Hypothesis P_call : forall f a r, P (ir_call f a r).
Hypothesis P_if :
  forall c t e, Forall P t -> Forall P e -> P (ir_if c t e).
Hypothesis P_loop : forall b, Forall P b -> P (ir_loop b).
Hypothesis P_return : forall v, P (ir_return v).
Hypothesis P_discard : forall c, P (ir_discard c).
Hypothesis P_loop_jump : P ir_loop_jump.
Hypothesis P_emit_vertex : P ir_emit_vertex.
Hypothesis P_end_primitive : P ir_end_primitive.
Hypothesis Q_signature :
  forall p d b body, Forall P body -> Q (mk_signature p d b body).

Fixpoint ir_instruction_nested_ind (i : ir_instruction) : P i :=
  let all :=
    fix go (l : list ir_instruction) : Forall P l :=
      match l with
      | [] => Stdlib.Lists.List.Forall_nil P
      | x :: l' =>
          @Stdlib.Lists.List.Forall_cons _ _ x l'
            (ir_instruction_nested_ind x) (go l')
      end in
  match i with
  | ir_variable_decl v => P_variable v
  | ir_function n sigs =>
      P_function n sigs
        ((fix go (l : list ir_function_signature) : Forall Q l :=
            match l with
            | [] => Stdlib.Lists.List.Forall_nil Q
            | x :: l' =>
                @Stdlib.Lists.List.Forall_cons _ _ x l'
                  (ir_signature_nested_ind x) (go l')
            end) sigs)
  | ir_assignment l r c => P_assignment l r c
  | ir_call f a r => P_call f a r
  | ir_if c t e => P_if c t e (all t) (all e)
  | ir_loop b => P_loop b (all b)
  | ir_return v => P_return v
  | ir_discard c => P_discard c
  | ir_loop_jump => P_loop_jump
  | ir_emit_vertex => P_emit_vertex
  | ir_end_primitive => P_end_primitive
  end
with ir_signature_nested_ind (sg : ir_function_signature) : Q sg :=
  match sg with
  | mk_signature p d b body =>
      Q_signature p d b body
        ((fix go (l : list ir_instruction) : Forall P l :=
            match l with
            | [] => Stdlib.Lists.List.Forall_nil P
            | x :: l' =>
                @Stdlib.Lists.List.Forall_cons _ _ x l'
                  (ir_instruction_nested_ind x) (go l')
            end) body)
  end.
End IrInstructionInduction.

(** What it is for the tree to hold a write to a variable called [n]. *)

(** An actual parameter bound to an [out] or [inout] formal refers to the
    variable. *)
Inductive call_writes (n : string)
    : list ir_rvalue -> list ir_variable -> Prop :=
| call_writes_here (a : ir_rvalue) (actuals : list ir_rvalue)
    (f : ir_variable) (formals : list ir_variable) (v : ir_variable) :
    mode f = ir_var_function_out \/ mode f = ir_var_function_inout ->
    variable_referenced a = Some v -> name v = n ->
    call_writes n (a :: actuals) (f :: formals)
| call_writes_later (a : ir_rvalue) (actuals : list ir_rvalue)
    (f : ir_variable) (formals : list ir_variable) :
    call_writes n actuals formals ->
    call_writes n (a :: actuals) (f :: formals).

(** A statement that writes the variable: a direct assignment, a call that
    passes it for an [out] or [inout] parameter, a call that stores its
    return value in it. *)
Inductive statement_writes (n : string) : ir_instruction -> Prop :=
| writes_assignment (lhs rhs : ir_rvalue) (cond : option ir_rvalue)
    (v : ir_variable) :
    variable_referenced lhs = Some v -> name v = n ->
    statement_writes n (ir_assignment lhs rhs cond)
| writes_call_argument (formals : list ir_variable)
    (actuals : list ir_rvalue) (ret : option ir_rvalue) :
    call_writes n actuals formals ->
    statement_writes n (ir_call formals actuals ret)
| writes_call_return (formals : list ir_variable)
    (actuals : list ir_rvalue) (r : ir_rvalue) (v : ir_variable) :
    variable_referenced r = Some v -> name v = n ->
    statement_writes n (ir_call formals actuals (Some r)).

(** Such a statement occurs at or below a node. *)
Inductive writes_in (n : string) : ir_instruction -> Prop :=
| writes_here (i : ir_instruction) :
    statement_writes n i -> writes_in n i
| writes_in_function (fname : string) (sigs : list ir_function_signature)
    (sg : ir_function_signature) (i : ir_instruction) :
    In sg sigs -> In i (sig_body sg) -> writes_in n i ->
    writes_in n (ir_function fname sigs)
| writes_in_then (c : ir_rvalue) (t e : list ir_instruction)
    (i : ir_instruction) :
    In i t -> writes_in n i -> writes_in n (ir_if c t e)
| writes_in_else (c : ir_rvalue) (t e : list ir_instruction)
    (i : ir_instruction) :
    In i e -> writes_in n i -> writes_in n (ir_if c t e)
| writes_in_loop (b : list ir_instruction) (i : ir_instruction) :
    In i b -> writes_in n i -> writes_in n (ir_loop b).

(** A static write to [n] somewhere in an instruction list. *)
Definition statically_written (n : string) (l : list ir_instruction) : Prop :=
  exists i, In i l /\ writes_in n i.

(** The equations of the traversal at the nodes with children. *)
Lemma accept_function {S : Type} (v : ir_hierarchical_visitor S)
    (n : string) (sigs : list ir_function_signature) (s : S) :
  accept v (ir_function n sigs) s
  = match visit_list_elements (accept_signature v) sigs s with
    | (st, s1) => (parent_status st, s1)
    end.
Proof. reflexivity. Qed.

Lemma accept_if {S : Type} (v : ir_hierarchical_visitor S)
    (c : ir_rvalue) (t e : list ir_instruction) (s : S) :
  accept v (ir_if c t e) s
  = match accept_rvalue v c s with
    | (visit_continue, s1) =>
        match visit_list_elements (accept v) t s1 with
        | (visit_continue, s2) =>
            match visit_list_elements (accept v) e s2 with
            | (st, s3) => (parent_status st, s3)
            end
        | (st, s2) => (parent_status st, s2)
        end
    | (st, s1) => (parent_status st, s1)
    end.
Proof. reflexivity. Qed.

Lemma accept_loop {S : Type} (v : ir_hierarchical_visitor S)
    (b : list ir_instruction) (s : S) :
  accept v (ir_loop b) s
  = match visit_list_elements (accept v) b s with
    | (st, s1) => (parent_status st, s1)
    end.
Proof. reflexivity. Qed.

Lemma accept_signature_body {S : Type} (v : ir_hierarchical_visitor S)
    (p : list ir_variable) (d b : bool) (body : list ir_instruction) (s : S) :
  accept_signature v (mk_signature p d b body) s
  = match visit_list_elements (accept v) body s with
    | (st, s1) => (parent_status st, s1)
    end.
Proof. reflexivity. Qed.

Lemma accept_rvalue_expression {S : Type} (v : ir_hierarchical_visitor S)
    (ops : list ir_rvalue) (s : S) :
  accept_rvalue v (ir_expression ops) s
  = match visit_list_elements (accept_rvalue v) ops s with
    | (st, s') => (parent_status st, s')
    end.
Proof. reflexivity. Qed.

(** The outcome of visiting a node with a "found" visitor: stopped with
    [found] set when [W] holds, passed over with [found] as it was when
    not. *)
Definition found_iff (W : Prop) (res : ir_visitor_status * bool)
    (found : bool) : Prop :=
  (W /\ res = (visit_stop, true)) \/ (~ W /\ res = (visit_continue, found)).

Lemma found_iff_equiv (W W' : Prop) (res : ir_visitor_status * bool)
    (found : bool) :
  (W <-> W') -> found_iff W res found -> found_iff W' res found.
Proof. unfold found_iff. tauto. Qed.

Lemma found_iff_parent (W : Prop) (st : ir_visitor_status) (b found : bool) :
  found_iff W (st, b) found -> found_iff W (parent_status st, b) found.
Proof.
  intros [[HW Heq] | [HW Heq]]; inversion Heq; subst; [left | right];
    split; auto.
Qed.

Lemma visit_list_elements_found {A : Type}
    (acc : A -> bool -> ir_visitor_status * bool) (W : A -> Prop)
    (l : list A) :
  Forall (fun x => forall found, found_iff (W x) (acc x found) found) l ->
  forall found,
    found_iff (exists x, In x l /\ W x)
      (visit_list_elements acc l found) found.
Proof.
  induction 1 as [| x l Hx _ IH]; intros found.
  - right. split; [intros (x & [] & _) | reflexivity].
  - simpl. destruct (Hx found) as [[HW ->] | [HW ->]].
    + left. split; [exists x; simpl; auto | reflexivity].
    + destruct (IH found) as [[(y & Hy & HWy) Heq] | [Hnone Heq]].
      * left. split; [exists y; simpl; auto | exact Heq].
      * right. split; [| exact Heq].
        intros (y & [-> | Hy] & HWy); [tauto | apply Hnone; eauto].
Qed.

Section FindAssignmentCorrect.
Variable n : string.

Lemma find_assignment_rvalue (r : ir_rvalue) (found : bool) :
  accept_rvalue (find_assignment_visitor n) r found
  = (visit_continue, found).
Proof.
  revert found.
  induction r as [v | a i IHa IHi | a f IHa | a IHa | ops IH | c]
    using ir_rvalue_nested_ind; intros found; simpl.
  - reflexivity.
  - now rewrite IHi, IHa.
  - apply IHa.
  - apply IHa.
  - assert (Hl : visit_list_elements
                   (accept_rvalue (find_assignment_visitor n)) ops found
                 = (visit_continue, found)).
    { revert found. induction IH as [| x l Hx _ IHl]; intros found;
        simpl; [reflexivity |]. now rewrite Hx, IHl. }
    fold (accept_rvalue (find_assignment_visitor n)).
    now rewrite Hl.
  - reflexivity.
Qed.

Lemma find_assignment_option (o : option ir_rvalue) (found : bool) :
  accept_option (accept_rvalue (find_assignment_visitor n)) o found
  = (visit_continue, found).
Proof. destruct o; simpl; [apply find_assignment_rvalue | reflexivity]. Qed.

Lemma find_assignment_call_params_spec (actuals : list ir_rvalue)
    (formals : list ir_variable) :
  find_assignment_call_params n actuals formals = true
  <-> call_writes n actuals formals.
Proof.
  revert formals.
  induction actuals as [| a actuals IH]; intros [| f formals]; simpl;
    try (split; [discriminate | inversion 1]).
  destruct (bool_decide (mode f = ir_var_function_out)
            || bool_decide (mode f = ir_var_function_inout))%bool eqn:Hm.
  - apply orb_true_iff in Hm.
    rewrite !bool_decide_eq_true in Hm.
    destruct (variable_referenced a) as [v |] eqn:Hv.
    + destruct (String.eqb n (name v)) eqn:Hn.
      * apply String.eqb_eq in Hn.
        split; [intros _ | reflexivity].
        eapply call_writes_here; eauto.
      * apply String.eqb_neq in Hn. rewrite IH.
        split; [apply call_writes_later |].
        inversion 1; subst; [congruence | assumption].
    + rewrite IH. split; [apply call_writes_later |].
      inversion 1; subst; [congruence | assumption].
  - apply orb_false_iff in Hm. rewrite !bool_decide_eq_false in Hm.
    rewrite IH. split; [apply call_writes_later |].
    inversion 1; subst; [tauto | assumption].
Qed.

Lemma find_assignment_accept (i : ir_instruction) (found : bool) :
  found_iff (writes_in n i)
    (accept (find_assignment_visitor n) i found) found.
Proof.
  revert found.
  induction i as [v | fn sigs IH | l r c | f a r | c t e IHt IHe | b IH
                  | v | c | | | | p d bb body IH]
    using ir_instruction_nested_ind
    with (Q := fun sg => forall found,
                 found_iff (exists i, In i (sig_body sg) /\ writes_in n i)
                   (accept_signature (find_assignment_visitor n) sg found)
                   found);
    intros found.
  - right. split; [| reflexivity].
    inversion 1 as [i0 Hs | | | |]; subst. inversion Hs.
  - rewrite accept_function.
    pose proof (visit_list_elements_found _ _ _ IH found) as Hl.
    destruct (visit_list_elements _ sigs found) as [st b].
    apply found_iff_parent. revert Hl. apply found_iff_equiv.
    split.
    + intros (sg & Hsg & i & Hi & Hw). eapply writes_in_function; eauto.
    + inversion 1 as [i0 Hs | ? ? sg i0 Hsg Hi Hw | | |]; subst;
        [inversion Hs | eauto].
  - simpl. unfold find_assignment_visit_enter_assignment.
    destruct (variable_referenced l) as [v |] eqn:Hv.
    + destruct (String.eqb n (name v)) eqn:Hn.
      * apply String.eqb_eq in Hn. left. split; [| reflexivity].
        apply writes_here. eapply writes_assignment; eauto.
      * apply String.eqb_neq in Hn. right. split; [| reflexivity].
        inversion 1 as [i0 Hs | | | |]; subst.
        inversion Hs; subst. congruence.
    + right. split; [| reflexivity].
      inversion 1 as [i0 Hs | | | |]; subst.
      inversion Hs; subst. congruence.
  - simpl. unfold find_assignment_visit_enter_call.
    destruct (find_assignment_call_params n a f) eqn:Hp.
    + apply find_assignment_call_params_spec in Hp.
      left. split; [| reflexivity].
      apply writes_here. now apply writes_call_argument.
    + assert (Hnp : ~ call_writes n a f).
      { rewrite <- find_assignment_call_params_spec. congruence. }
      destruct r as [r |].
      * destruct (variable_referenced r) as [v |] eqn:Hv.
        -- destruct (String.eqb n (name v)) eqn:Hn.
           ++ apply String.eqb_eq in Hn. left. split; [| reflexivity].
              apply writes_here. eapply writes_call_return; eauto.
           ++ apply String.eqb_neq in Hn. right. split; [| reflexivity].
              inversion 1 as [i0 Hs | | | |]; subst.
              inversion Hs; subst; [tauto | congruence].
        -- right. split; [| reflexivity].
           inversion 1 as [i0 Hs | | | |]; subst.
           inversion Hs; subst; [tauto | congruence].
      * right. split; [| reflexivity].
        inversion 1 as [i0 Hs | | | |]; subst.
        inversion Hs; subst. tauto.
  - rewrite accept_if, find_assignment_rvalue.
    pose proof (visit_list_elements_found _ _ _ IHt found) as Ht.
    destruct (visit_list_elements _ t found) as [st b].
    destruct Ht as [[(i & Hi & Hw) Heq] | [Hnt Heq]];
      inversion Heq; subst.
    + left. split; [eapply writes_in_then; eauto | reflexivity].
    + pose proof (visit_list_elements_found _ _ _ IHe found) as He.
      destruct (visit_list_elements _ e found) as [st b].
      apply found_iff_parent. revert He. apply found_iff_equiv.
      split.
      * intros (i & Hi & Hw). eapply writes_in_else; eauto.
      * inversion 1 as [i0 Hs | | ? ? ? i0 Hi Hw | ? ? ? i0 Hi Hw |];
          subst; [inversion Hs | exfalso; apply Hnt; eauto | eauto].
  - rewrite accept_loop.
    pose proof (visit_list_elements_found _ _ _ IH found) as Hl.
    destruct (visit_list_elements _ b found) as [st b'].
    apply found_iff_parent. revert Hl. apply found_iff_equiv.
    split.
    + intros (i & Hi & Hw). eapply writes_in_loop; eauto.
    + inversion 1 as [i0 Hs | | | | ? i0 Hi Hw]; subst;
        [inversion Hs | eauto].
  - simpl. rewrite find_assignment_option. right. split; [| reflexivity].
    inversion 1 as [i0 Hs | | | |]; subst. inversion Hs.
  - simpl. rewrite find_assignment_option. right. split; [| reflexivity].
    inversion 1 as [i0 Hs | | | |]; subst. inversion Hs.
  - right. split; [| reflexivity].
    inversion 1 as [i0 Hs | | | |]; subst. inversion Hs.
  - right. split; [| reflexivity].
    inversion 1 as [i0 Hs | | | |]; subst. inversion Hs.
  - right. split; [| reflexivity].
    inversion 1 as [i0 Hs | | | |]; subst. inversion Hs.
  - rewrite accept_signature_body.
    pose proof (visit_list_elements_found _ _ _ IH found) as Hl.
    destruct (visit_list_elements _ body found) as [st b].
    apply found_iff_parent. exact Hl.
Qed.

(** The visitor finds a write exactly when the tree holds one. *)
Lemma find_assignment_spec (l : list ir_instruction) :
  find_assignment n l = true <-> statically_written n l.
Proof.
  unfold find_assignment, run, statically_written.
  pose proof (visit_list_elements_found
                (accept (find_assignment_visitor n)) (writes_in n) l) as H.
  destruct (H ltac:(apply Forall_forall; intros i _ found;
                    apply find_assignment_accept) false)
    as [[HW ->] | [HW ->]]; simpl.
  - tauto.
  - split; [discriminate | tauto].
Qed.
End FindAssignmentCorrect.

Lemma append_inv_l (a b c : string) : a +:+ b = a +:+ c -> b = c.
Proof.
  induction a as [| ch a IH]; [trivial |].
  rewrite !append_cons. intros H. apply IH. now inversion H.
Qed.

Lemma analyze_clip_usage_program (shader_type : string)
    (prog : gl_shader_program) (sh : gl_shader) (uses0 : bool) :
  let prog' := fst (fst (analyze_clip_usage shader_type prog sh uses0)) in
  prog' = prog
  \/ prog' = linker_error prog
               (shader_type +:+ " shader writes to both `gl_ClipVertex' " +:+
                "and `gl_ClipDistance'" +:+ nl).
Proof.
  unfold analyze_clip_usage.
  destruct (negb (IsES prog) && (130 <=? Version prog))%bool; [| now left].
  destruct (find_assignment "gl_ClipVertex" (ir sh)
            && find_assignment "gl_ClipDistance" (ir sh))%bool;
    [now right |].
  destruct (get_variable (symbols sh) "gl_ClipDistance"); now left.
Qed.

(** Whatever the clip analysis logs, it is not the complaint about
    gl_Position. *)
Lemma analyze_is_not_missing_position (prog : gl_shader_program)
    (sh : gl_shader) :
  (let '(prog', uses, size) :=
     analyze_clip_usage "vertex" prog sh (Vert_UsesClipDistance prog) in
   set_Vert_clip uses size prog')
  <> linker_error prog missing_position_message.
Proof.
  pose proof (analyze_clip_usage_program "vertex" prog sh
                (Vert_UsesClipDistance prog)) as H.
  destruct (analyze_clip_usage "vertex" prog sh (Vert_UsesClipDistance prog))
    as [[prog' uses] size].
  simpl in H. intros Heq. apply (f_equal InfoLog) in Heq.
  rewrite linker_error_log in Heq. simpl in Heq.
  destruct H as [-> | ->].
  - rewrite append_assoc in Heq.
    rewrite <- (append_empty_r (InfoLog prog)) in Heq at 1.
    apply append_inv_l in Heq. discriminate.
  - rewrite linker_error_log, !append_assoc in Heq.
    apply append_inv_l in Heq. discriminate.
Qed.

(** C7.  Below the version from which writing gl_Position is optional
    (300 for ES, 140 otherwise) the vertex stage validator ends with the
    missing-position error exactly when the executable holds no static
    write to gl_Position; from that version on it never does.  A static
    write is a direct assignment, an actual parameter of a call bound to an
    [out] or [inout] formal, or the return-value slot of a call, anywhere
    in the tree; the visitor finds exactly those. *)
Theorem vertex_position_write_required (prog : gl_shader_program)
    (sh : gl_shader) :
  let threshold := if IsES prog then 300 else 140 in
  let after := validate_vertex_shader_executable prog (Some sh) in
  (find_assignment "gl_Position" (ir sh) = true
   <-> statically_written "gl_Position" (ir sh))
  /\ (Version prog < threshold ->
      (after = linker_error prog missing_position_message
       <-> ~ statically_written "gl_Position" (ir sh)))
  /\ (threshold <= Version prog ->
      after <> linker_error prog missing_position_message).
Proof.
  intros threshold after.
  pose proof (find_assignment_spec "gl_Position" (ir sh)) as Hspec.
  split; [exact Hspec | split].
  - intros Hlow. subst after threshold.
    unfold validate_vertex_shader_executable.
    apply Z.ltb_lt in Hlow. rewrite Hlow.
    destruct (find_assignment "gl_Position" (ir sh)) eqn:Hf; simpl.
    + split.
      * intros Heq. now apply analyze_is_not_missing_position in Heq.
      * intros Hn. exfalso. apply Hn, Hspec. reflexivity.
    + split; [| reflexivity].
      intros _ Hw. apply Hspec in Hw. discriminate.
  - intros Hhigh. subst after threshold.
    unfold validate_vertex_shader_executable.
    apply Z.ltb_ge in Hhigh. rewrite Hhigh.
    apply analyze_is_not_missing_position.
Qed.

(** A vertex unit whose [main] only assigns a temporary. *)
Definition plain_variable (n : string) (t : glsl_type)
    (m : ir_variable_mode) : ir_variable :=
  mk_variable n t m false (-1) false 0 0 0 ir_depth_layout_none false
    None false false false false.

Definition shader_without_position_write : gl_shader :=
  mk_shader MESA_SHADER_VERTEX
    [ir_function "main"
       [mk_signature [] true false
          [ir_assignment
             (ir_dereference_variable
                (plain_variable "tmp" (glsl_base "vec4") ir_var_temporary))
             (ir_constant_value (mk_constant (glsl_base "vec4") [0; 0; 0; 0]))
             None]]]
    (mk_symbol_table ∅ ∅).

Definition program_version_110 : gl_shader_program :=
  mk_program "" true 110 false false 0 None None None ∅ ∅ ∅.

Lemma vertex_position_write_required_witness :
  validate_vertex_shader_executable program_version_110
    (Some shader_without_position_write)
  = linker_error program_version_110 missing_position_message
  <-> ~ statically_written "gl_Position" (ir shader_without_position_write).
Proof.
  apply (proj1 (proj2 (vertex_position_write_required program_version_110
                         shader_without_position_write))).
  simpl. lia.
Defined.

Example missing_position_logged :
  InfoLog (validate_vertex_shader_executable program_version_110
             (Some shader_without_position_write))
  = "error: vertex shader does not write to `gl_Position'" +:+ nl.
Proof. reflexivity. Qed.

(* ===================================================================== *)
(** ** Cross validation of a pair of same-named globals *)
(* ===================================================================== *)

Section CrossValidateProperties.
Variable contains_atomic : glsl_type -> bool.
Variable has_value : ir_constant -> ir_constant -> bool.
Variable mode_string : ir_variable -> string.

Local Abbreviation validate_pair :=
  (cross_validate_pair contains_atomic has_value mode_string).
Local Abbreviation validate_node :=
  (cross_validate_node contains_atomic has_value mode_string).

(** *** The mismatches the code looks for *)

(** Both are arrays of one element type and one of them is implicitly
    sized. *)
Definition types_unify (var existing : ir_variable) : bool :=
  (is_array (type var)
   && is_array (type existing)
   && bool_decide (fields_array (type var) = fields_array (type existing))
   && ((type_length (type var) =? 0)
       || (type_length (type existing) =? 0)))%bool.

Definition type_mismatch (var existing : ir_variable) : bool :=
  (bool_decide (type var <> type existing)
   && negb (types_unify var existing))%bool.

Definition location_mismatch (var existing : ir_variable) : bool :=
  (explicit_location var && explicit_location existing
   && negb (location var =? location existing))%bool.

Definition binding_mismatch (var existing : ir_variable) : bool :=
  (explicit_binding var && explicit_binding existing
   && negb (binding var =? binding existing))%bool.

Definition atomic_offset_mismatch (var existing : ir_variable) : bool :=
  (contains_atomic (type var)
   && negb (atomic_offset var =? atomic_offset existing))%bool.

(** Two constant initializers of different value. *)
Definition initializer_value_mismatch (var existing : ir_variable) : bool :=
  match constant_initializer var, constant_initializer existing with
  | Some c, Some ec => negb (has_value c ec)
  | _, _ => false
  end.

(** A non-constant initializer on the later declaration, an initializer
    of any kind on the first-seen one. *)
Definition initializer_nonconstant_mismatch (var existing : ir_variable)
    : bool :=
  (has_initializer var && has_initializer existing
   && bool_decide (constant_initializer var = None))%bool.

Definition invariant_mismatch (var existing : ir_variable) : bool :=
  negb (eqb (invariant existing) (invariant var)).

Definition centroid_mismatch (var existing : ir_variable) : bool :=
  negb (eqb (centroid existing) (centroid var)).

(** One of the mismatches after which the code returns. *)
Definition returning_mismatch (var existing : ir_variable) : bool :=
  (type_mismatch var existing
   || location_mismatch var existing
   || binding_mismatch var existing
   || atomic_offset_mismatch var existing
   || initializer_value_mismatch var existing
   || initializer_nonconstant_mismatch var existing
   || invariant_mismatch var existing
   || centroid_mismatch var existing)%bool.

(** *** What the checks leave in the first-seen declaration *)

Definition unify_type (var existing : ir_variable) : ir_variable :=
  if decide (type var <> type existing) then
    if negb (type_length (type var) =? 0)
    then set_type (type var) existing else existing
  else existing.

Definition adopt_location (var existing : ir_variable) : ir_variable :=
  if explicit_location var
  then set_explicit_location true (set_location (location var) existing)
  else existing.

Definition adopt_binding (var existing : ir_variable) : ir_variable :=
  if explicit_binding var
  then set_explicit_binding true (set_binding (binding var) existing)
  else existing.

Definition adopt_initializer (var existing : ir_variable) : ir_variable :=
  match constant_initializer var, constant_initializer existing with
  | Some c, None => set_constant_initializer (Some c) existing
  | _, _ => existing
  end.

Definition note_initializer (var existing : ir_variable) : ir_variable :=
  if has_initializer var then set_has_initializer true existing
  else existing.

Definition merged (var existing : ir_variable) : ir_variable :=
  note_initializer var
    (adopt_initializer var
       (adopt_binding var (adopt_location var (unify_type var existing)))).

(** The program after the two gl_FragDepth checks. *)
Definition frag_depth_checked (var existing : ir_variable)
    (prog : gl_shader_program) : gl_shader_program :=
  fst (flow_value (check_frag_depth var (prog, existing))).

Lemma unify_type_fields (var e : ir_variable) :
  exists t, unify_type var e = set_type t e.
Proof.
  unfold unify_type. destruct (decide _); [destruct (negb _) |];
    first [now eexists | exists (type e); now destruct e].
Qed.

Lemma adopt_location_fields (var e : ir_variable) :
  exists b l, adopt_location var e
              = set_explicit_location b (set_location l e).
Proof.
  unfold adopt_location. destruct (explicit_location var).
  - now eexists _, _.
  - exists (explicit_location e), (location e). now destruct e.
Qed.

Lemma adopt_binding_fields (var e : ir_variable) :
  exists b l, adopt_binding var e
              = set_explicit_binding b (set_binding l e).
Proof.
  unfold adopt_binding. destruct (explicit_binding var).
  - now eexists _, _.
  - exists (explicit_binding e), (binding e). now destruct e.
Qed.

Lemma check_frag_depth_next (var e : ir_variable)
    (prog : gl_shader_program) :
  check_frag_depth var (prog, e) = Next (frag_depth_checked var e prog, e).
Proof.
  unfold frag_depth_checked, check_frag_depth.
  destruct (String.eqb (name var) "gl_FragDepth"); reflexivity.
Qed.

Lemma frag_depth_checked_steps (var e : ir_variable)
    (prog : gl_shader_program) :
  linker_steps prog (frag_depth_checked var e prog).
Proof.
  unfold frag_depth_checked, check_frag_depth.
  destruct (String.eqb (name var) "gl_FragDepth"); simpl;
    [| apply steps_refl].
  destruct (negb (bool_decide (depth_layout var = ir_depth_layout_none))
            && negb (bool_decide (depth_layout var = depth_layout e)))%bool;
    destruct (used var
              && negb (bool_decide
                         (depth_layout var = depth_layout e)))%bool;
    repeat first [apply steps_refl
                 | eapply steps_cons; [apply step_error |]].
Qed.

Lemma frag_depth_checked_other (var e : ir_variable)
    (prog : gl_shader_program) :
  String.eqb (name var) "gl_FragDepth" = false ->
  frag_depth_checked var e prog = prog.
Proof.
  intros H. unfold frag_depth_checked, check_frag_depth. now rewrite H.
Qed.

(** *** Each check: what it answers with and without its mismatch *)

Lemma check_type_cases (var e : ir_variable) (prog : gl_shader_program) :
  if type_mismatch var e
  then exists msg,
         check_type mode_string var (prog, e)
         = Ret (linker_error prog msg, e)
  else check_type mode_string var (prog, e) = Next (prog, unify_type var e).
Proof.
  unfold type_mismatch, check_type, unify_type, types_unify.
  destruct (decide (type var <> type e)) as [Hne | Heq].
  - rewrite bool_decide_eq_true_2 by exact Hne. simpl.
    destruct (is_array (type var) && is_array (type e)
              && bool_decide (fields_array (type var)
                              = fields_array (type e))
              && ((type_length (type var) =? 0)
                  || (type_length (type e) =? 0)))%bool; simpl.
    + destruct (negb (type_length (type var) =? 0)); reflexivity.
    + now eexists.
  - rewrite bool_decide_eq_false_2 by exact Heq. reflexivity.
Qed.

Lemma check_location_cases (var e : ir_variable)
    (prog : gl_shader_program) :
  if location_mismatch var e
  then exists msg,
         check_location mode_string var (prog, e)
         = Ret (linker_error prog msg, e)
  else check_location mode_string var (prog, e)
       = Next (prog, adopt_location var e).
Proof.
  unfold location_mismatch, check_location, adopt_location.
  destruct (explicit_location var); simpl; [| reflexivity].
  destruct (explicit_location e && negb (location var =? location e))%bool;
    [now eexists | reflexivity].
Qed.

Lemma check_binding_cases (var e : ir_variable)
    (prog : gl_shader_program) :
  if binding_mismatch var e
  then exists msg,
         check_binding mode_string var (prog, e)
         = Ret (linker_error prog msg, e)
  else check_binding mode_string var (prog, e)
       = Next (prog, adopt_binding var e).
Proof.
  unfold binding_mismatch, check_binding, adopt_binding.
  destruct (explicit_binding var); simpl; [| reflexivity].
  destruct (explicit_binding e && negb (binding var =? binding e))%bool;
    [now eexists | reflexivity].
Qed.

Lemma check_atomic_offset_cases (var e : ir_variable)
    (prog : gl_shader_program) :
  if atomic_offset_mismatch var e
  then exists msg,
         check_atomic_offset contains_atomic mode_string var (prog, e)
         = Ret (linker_error prog msg, e)
  else check_atomic_offset contains_atomic mode_string var (prog, e)
       = Next (prog, e).
Proof.
  unfold atomic_offset_mismatch, check_atomic_offset.
  destruct (contains_atomic (type var)
            && negb (atomic_offset var =? atomic_offset e))%bool;
    [now eexists | reflexivity].
Qed.

Lemma check_constant_initializer_cases (var e : ir_variable)
    (prog : gl_shader_program) :
  if initializer_value_mismatch var e
  then exists msg,
         check_constant_initializer has_value mode_string var (prog, e)
         = Ret (linker_error prog msg, e)
  else check_constant_initializer has_value mode_string var (prog, e)
       = Next (prog, adopt_initializer var e).
Proof.
  unfold initializer_value_mismatch, check_constant_initializer,
    adopt_initializer.
  destruct (constant_initializer var) as [c |]; [| reflexivity].
  destruct (constant_initializer e) as [ec |]; [| reflexivity].
  destruct (negb (has_value c ec)); [now eexists | reflexivity].
Qed.

(** The test of the second initializer check, on the declaration as the
    first one left it. *)
Definition multiple_initializers (var e : ir_variable) : bool :=
  (has_initializer var && has_initializer e
   && (bool_decide (constant_initializer var = None)
       || bool_decide (constant_initializer e = None)))%bool.

Lemma check_has_initializer_cases (var e : ir_variable)
    (prog : gl_shader_program) :
  if multiple_initializers var e
  then exists msg,
         check_has_initializer var (prog, e)
         = Ret (linker_error prog msg, e)
  else check_has_initializer var (prog, e)
       = Next (prog, note_initializer var e).
Proof.
  unfold multiple_initializers, check_has_initializer, note_initializer.
  destruct (has_initializer var); simpl; [| reflexivity].
  destruct (has_initializer e
            && (bool_decide (constant_initializer var = None)
                || bool_decide (constant_initializer e = None)))%bool;
    [now eexists | reflexivity].
Qed.

Lemma check_invariant_cases (var e : ir_variable)
    (prog : gl_shader_program) :
  if invariant_mismatch var e
  then exists msg,
         check_invariant mode_string var (prog, e)
         = Ret (linker_error prog msg, e)
  else check_invariant mode_string var (prog, e) = Next (prog, e).
Proof.
  unfold invariant_mismatch, check_invariant.
  destruct (negb (eqb (invariant e) (invariant var)));
    [now eexists | reflexivity].
Qed.

Lemma check_centroid_cases (var e : ir_variable)
    (prog : gl_shader_program) :
  if centroid_mismatch var e
  then exists msg,
         check_centroid mode_string var (prog, e)
         = Ret (linker_error prog msg, e)
  else check_centroid mode_string var (prog, e) = Next (prog, e).
Proof.
  unfold centroid_mismatch, check_centroid.
  destruct (negb (eqb (centroid e) (centroid var)));
    [now eexists | reflexivity].
Qed.

(** After the first initializer check has passed, the second one objects
    exactly when the later declaration's initializer is not constant and
    the first-seen declaration has an initializer too. *)
Lemma multiple_initializers_after_adoption (var e : ir_variable) :
  multiple_initializers var (adopt_initializer var e)
  = initializer_nonconstant_mismatch var e.
Proof.
  unfold multiple_initializers, initializer_nonconstant_mismatch,
    adopt_initializer.
  destruct (constant_initializer var) as [c |] eqn:Hc;
    destruct (constant_initializer e) as [ec |] eqn:He; simpl;
    rewrite ?He; simpl;
    destruct (has_initializer var), (has_initializer e); reflexivity.
Qed.

(** *** The pair as a whole *)

Ltac merge_fields var e :=
  unfold unify_type, adopt_location, adopt_binding, adopt_initializer,
    note_initializer;
  destruct (decide (type var <> type e));
  [destruct (negb (type_length (type var) =? 0)) |];
  destruct (explicit_location var); destruct (explicit_binding var);
  simpl;
  destruct (constant_initializer var); destruct (constant_initializer e);
  simpl;
  destruct (has_initializer var);
  reflexivity.

Ltac unfold_locals :=
  repeat match goal with x := _ |- _ => subst x end.

Lemma cross_validate_pair_cases (var e : ir_variable)
    (prog : gl_shader_program) :
  if returning_mismatch var e
  then exists p0 msg e',
         validate_pair var (prog, e) = Ret (linker_error p0 msg, e')
         /\ linker_steps prog p0
         /\ (type_mismatch var e = false ->
             type e' = type (unify_type var e))
  else validate_pair var (prog, e)
       = Next (frag_depth_checked var e prog, merged var e).
Proof.
  unfold returning_mismatch, cross_validate_pair, merged.
  (* type *)
  pose proof (check_type_cases var e prog) as H.
  destruct (type_mismatch var e); cbn [orb].
  { destruct H as [msg ->]. cbn [and_then].
    eexists _, _, _.
    split; [reflexivity | split; [apply steps_refl | discriminate]]. }
  rewrite H; clear H; cbn [and_then].
  set (e1 := unify_type var e).
  (* location *)
  assert (Hf : location_mismatch var e1 = location_mismatch var e)
    by (subst e1; unfold location_mismatch; merge_fields var e).
  pose proof (check_location_cases var e1 prog) as H. rewrite Hf in H.
  clear Hf. destruct (location_mismatch var e); cbn [orb].
  { destruct H as [msg ->]. cbn [and_then].
    eexists _, _, _.
    split; [reflexivity | split; [apply steps_refl | intros _] ].
    unfold_locals; merge_fields var e. }
  rewrite H; clear H; cbn [and_then].
  set (e2 := adopt_location var e1).
  (* binding *)
  assert (Hf : binding_mismatch var e2 = binding_mismatch var e)
    by (subst e2 e1; unfold binding_mismatch; merge_fields var e).
  pose proof (check_binding_cases var e2 prog) as H. rewrite Hf in H.
  clear Hf. destruct (binding_mismatch var e); cbn [orb].
  { destruct H as [msg ->]. cbn [and_then].
    eexists _, _, _.
    split; [reflexivity | split; [apply steps_refl | intros _] ].
    unfold_locals; merge_fields var e. }
  rewrite H; clear H; cbn [and_then].
  set (e3 := adopt_binding var e2).
  (* atomic counter offset *)
  assert (Hf : atomic_offset_mismatch var e3 = atomic_offset_mismatch var e)
    by (subst e3 e2 e1; unfold atomic_offset_mismatch; merge_fields var e).
  pose proof (check_atomic_offset_cases var e3 prog) as H.
  rewrite Hf in H. clear Hf.
  destruct (atomic_offset_mismatch var e); cbn [orb].
  { destruct H as [msg ->]. cbn [and_then].
    eexists _, _, _.
    split; [reflexivity | split; [apply steps_refl | intros _] ].
    unfold_locals; merge_fields var e. }
  rewrite H; clear H; cbn [and_then].
  (* gl_FragDepth *)
  rewrite check_frag_depth_next; cbn [and_then].
  assert (Hd : frag_depth_checked var e3 prog
               = frag_depth_checked var e prog)
    by (subst e3 e2 e1;
        unfold frag_depth_checked, check_frag_depth;
        destruct (String.eqb (name var) "gl_FragDepth");
        merge_fields var e).
  rewrite Hd; clear Hd.
  pose proof (frag_depth_checked_steps var e prog) as Hsteps.
  set (prog1 := frag_depth_checked var e prog) in *.
  (* constant initializers *)
  assert (Hf : initializer_value_mismatch var e3
               = initializer_value_mismatch var e)
    by (subst e3 e2 e1; unfold initializer_value_mismatch; merge_fields var e).
  pose proof (check_constant_initializer_cases var e3 prog1) as H.
  rewrite Hf in H. clear Hf.
  destruct (initializer_value_mismatch var e); cbn [orb].
  { destruct H as [msg ->]. cbn [and_then].
    eexists _, _, _.
    split; [reflexivity | split; [exact Hsteps | intros _] ].
    unfold_locals; merge_fields var e. }
  rewrite H; clear H; cbn [and_then].
  set (e4 := adopt_initializer var e3).
  (* any initializers *)
  assert (Hf : multiple_initializers var e4
               = initializer_nonconstant_mismatch var e).
  { subst e4. rewrite multiple_initializers_after_adoption.
    subst e3 e2 e1. unfold initializer_nonconstant_mismatch.
    merge_fields var e. }
  pose proof (check_has_initializer_cases var e4 prog1) as H.
  rewrite Hf in H. clear Hf.
  destruct (initializer_nonconstant_mismatch var e); cbn [orb].
  { destruct H as [msg ->]. cbn [and_then].
    eexists _, _, _.
    split; [reflexivity | split; [exact Hsteps | intros _] ].
    unfold_locals; merge_fields var e. }
  rewrite H; clear H; cbn [and_then].
  set (e5 := note_initializer var e4).
  (* invariant *)
  assert (Hf : invariant_mismatch var e5 = invariant_mismatch var e)
    by (subst e5 e4 e3 e2 e1; unfold invariant_mismatch; merge_fields var e).
  pose proof (check_invariant_cases var e5 prog1) as H.
  rewrite Hf in H. clear Hf.
  destruct (invariant_mismatch var e); cbn [orb].
  { destruct H as [msg ->]. cbn [and_then].
    eexists _, _, _.
    split; [reflexivity | split; [exact Hsteps | intros _] ].
    unfold_locals; merge_fields var e. }
  rewrite H; clear H; cbn [and_then].
  (* centroid *)
  assert (Hf : centroid_mismatch var e5 = centroid_mismatch var e)
    by (subst e5 e4 e3 e2 e1; unfold centroid_mismatch; merge_fields var e).
  pose proof (check_centroid_cases var e5 prog1) as H.
  rewrite Hf in H. clear Hf.
  destruct (centroid_mismatch var e); cbn [orb].
  { destruct H as [msg ->]. cbn [and_then].
    eexists _, _, _.
    split; [reflexivity | split; [exact Hsteps | intros _] ].
    unfold_locals; merge_fields var e. }
  exact H.
Qed.

Lemma merged_type (var e : ir_variable) :
  type (merged var e) = type (unify_type var e).
Proof. unfold merged. merge_fields var e. Qed.

(** A declaration the loop does not skip. *)
Definition examined (uniforms_only : bool) (var : ir_variable) : bool :=
  (negb (uniforms_only && negb (bool_decide (mode var = ir_var_uniform)))
   && negb (bool_decide (mode var = ir_var_temporary)))%bool.

Lemma cross_validate_node_seen (uniforms_only : bool)
    (var e : ir_variable) (prog : gl_shader_program)
    (variables : gmap string ir_variable) :
  examined uniforms_only var = true ->
  variables !! name var = Some e ->
  validate_node uniforms_only (ir_variable_decl var) (prog, variables)
  = match validate_pair var (prog, e) with
    | Next (prog', e') => Next (prog', <[name var := e']> variables)
    | Ret (prog', e') => Ret (prog', <[name var := e']> variables)
    end.
Proof.
  unfold examined, cross_validate_node. simpl. intros Hex Hlook.
  apply andb_true_iff in Hex as [H1 H2].
  apply negb_true_iff in H1. apply negb_true_iff in H2.
  rewrite H1, H2, Hlook. reflexivity.
Qed.

Lemma for_each_app {A X : Type} (body : X -> A -> flow A)
    (l1 l2 : list X) (a : A) :
  for_each body (l1 ++ l2)%list a
  = for_each body l1 a >>> for_each body l2.
Proof.
  revert a. induction l1 as [| x l1 IH]; intros a; simpl; [reflexivity |].
  destruct (body x a); [apply IH | reflexivity].
Qed.

(** C1, as the code has it.  A same-named pair with a type, explicit
    location, explicit binding, atomic offset, initializer, invariant or
    centroid mismatch makes [linker_error] append its message and set
    the status to false, and the function returns there and then: what
    follows in the shader and in the later shaders is not examined.
    Without such a mismatch validation goes on to the next declaration,
    the only errors logged for the pair being the two gl_FragDepth
    layout complaints, which do not end the function. *)
Theorem cross_validation_returns_at_mismatch (uniforms_only : bool)
    (var existing : ir_variable) (before : list ir_instruction)
    (st0 : globals_state) (prog : gl_shader_program)
    (variables : gmap string ir_variable) :
  for_each (validate_node uniforms_only) before st0
  = Next (prog, variables) ->
  examined uniforms_only var = true ->
  variables !! name var = Some existing ->
  (returning_mismatch var existing = true ->
   exists p0 msg e',
     linker_steps prog p0
     /\ LinkStatus (linker_error p0 msg) = false
     /\ InfoLog (linker_error p0 msg)
        = (InfoLog p0 +:+ linker_error_prefix) +:+ msg
     /\ forall after ty syms later_shaders,
          for_each
            (cross_validate_shader contains_atomic has_value mode_string
               uniforms_only)
            (Some (mk_shader ty
                     (before ++ ir_variable_decl var :: after)%list syms)
             :: later_shaders) st0
          = Ret (linker_error p0 msg, <[name var := e']> variables))
  /\ (returning_mismatch var existing = false ->
      validate_node uniforms_only (ir_variable_decl var) (prog, variables)
      = Next (frag_depth_checked var existing prog,
              <[name var := merged var existing]> variables)
      /\ linker_steps prog (frag_depth_checked var existing prog)).
Proof.
  intros Hbefore Hex Hlook.
  pose proof (cross_validate_pair_cases var existing prog) as Hpair.
  pose proof (cross_validate_node_seen uniforms_only var existing prog
                variables Hex Hlook) as Hnode.
  split; intros Hm; rewrite Hm in Hpair.
  - destruct Hpair as (p0 & msg & e' & Heq & Hsteps & _).
    rewrite Heq in Hnode.
    exists p0, msg, e'. repeat split; [exact Hsteps |].
    intros after ty syms later_shaders.
    cbn [for_each]. unfold cross_validate_shader at 1. cbn [ir].
    rewrite for_each_app, Hbefore. cbn [and_then for_each].
    rewrite Hnode. reflexivity.
  - rewrite Hpair in Hnode. split; [exact Hnode |].
    apply frag_depth_checked_steps.
Qed.

(** C3.  One declaration an implicitly sized array, the other an
    explicitly sized array of the same element type: the type check
    passes without an error, and the first-seen declaration, in the pair
    as in the scratch symbol table, ends up with the explicitly sized
    type whatever the later checks say; when no other qualifier of the
    pair disagrees, nothing at all is logged for it. *)
Theorem implicit_array_unifies (uniforms_only : bool)
    (var existing : ir_variable) (elt : glsl_type) (n : Z)
    (prog : gl_shader_program) (variables : gmap string ir_variable) :
  n <> 0 ->
  (type var = glsl_array elt 0 /\ type existing = glsl_array elt n)
  \/ (type var = glsl_array elt n /\ type existing = glsl_array elt 0) ->
  type_mismatch var existing = false
  /\ check_type mode_string var (prog, existing)
     = Next (prog, set_type (glsl_array elt n) existing)
  /\ type (snd (flow_value (validate_pair var (prog, existing))))
     = glsl_array elt n
  /\ (returning_mismatch var existing = false ->
      String.eqb (name var) "gl_FragDepth" = false ->
      validate_pair var (prog, existing)
      = Next (prog, merged var existing))
  /\ (examined uniforms_only var = true ->
      variables !! name var = Some existing ->
      type <$> (snd (flow_value
                       (validate_node uniforms_only (ir_variable_decl var)
                          (prog, variables))) !! name var)
      = Some (glsl_array elt n)).
Proof.
  intros Hn Harr.
  assert (Hmis : type_mismatch var existing = false).
  { unfold type_mismatch, types_unify.
    destruct Harr as [[-> ->] | [-> ->]]; simpl;
      rewrite (bool_decide_eq_true_2 (Some elt = Some elt))
        by reflexivity;
      rewrite ?orb_true_r; simpl; apply andb_false_r. }
  assert (Hunify : unify_type var existing
                   = set_type (glsl_array elt n) existing).
  { unfold unify_type.
    destruct Harr as [[Hv He] | [Hv He]]; rewrite Hv, He; simpl.
    - destruct (decide _) as [_ | Heq];
        [| exfalso; apply Heq; intros H; inversion H; lia].
      rewrite <- He. now destruct existing.
    - destruct (decide _) as [_ | Heq];
        [| exfalso; apply Heq; intros H; inversion H; lia].
      replace (n =? 0) with false by (symmetry; now apply Z.eqb_neq).
      reflexivity. }
  assert (Htype : type (snd (flow_value (validate_pair var
                                           (prog, existing))))
                  = glsl_array elt n).
  { pose proof (cross_validate_pair_cases var existing prog) as Hpair.
    destruct (returning_mismatch var existing).
    - destruct Hpair as (p0 & msg & e' & -> & _ & Ht). simpl.
      rewrite (Ht Hmis), Hunify. reflexivity.
    - rewrite Hpair. simpl. rewrite merged_type, Hunify. reflexivity. }
  split; [exact Hmis | split; [| split; [exact Htype | split]]].
  - pose proof (check_type_cases var existing prog) as H.
    rewrite Hmis in H. now rewrite H, Hunify.
  - intros Hret Hname.
    pose proof (cross_validate_pair_cases var existing prog) as Hpair.
    rewrite Hret in Hpair. rewrite Hpair.
    now rewrite frag_depth_checked_other.
  - intros Hex Hlook.
    rewrite (cross_validate_node_seen _ _ _ _ _ Hex Hlook).
    destruct (validate_pair var (prog, existing)) as [[p e'] | [p e']];
      simpl in *; rewrite lookup_insert_eq; simpl; now rewrite Htype.
Qed.
(** The parts of the initializer rule the code does implement: two
    constant initializers of different value are an error; a constant
    initializer on one side only ends up in the first-seen declaration;
    a non-constant initializer on the later declaration is an error when
    the first-seen one has an initializer. *)
Lemma initializer_rules (var e : ir_variable) (prog : gl_shader_program) :
  (forall c ec,
     constant_initializer var = Some c ->
     constant_initializer e = Some ec ->
     has_value c ec = false ->
     exists p0 msg e',
       validate_pair var (prog, e) = Ret (linker_error p0 msg, e'))
  /\ (returning_mismatch var e = false ->
      forall c,
        (constant_initializer var = Some c /\ constant_initializer e = None)
        \/ (constant_initializer var = None
            /\ constant_initializer e = Some c) ->
        validate_pair var (prog, e)
        = Next (frag_depth_checked var e prog, merged var e)
        /\ constant_initializer (merged var e) = Some c)
  /\ (has_initializer var = true ->
      constant_initializer var = None ->
      has_initializer e = true ->
      exists p0 msg e',
        validate_pair var (prog, e) = Ret (linker_error p0 msg, e')).
Proof.
  pose proof (cross_validate_pair_cases var e prog) as Hpair.
  split; [| split].
  - intros c ec Hc Hec Hv.
    assert (Hm : returning_mismatch var e = true).
    { unfold returning_mismatch, initializer_value_mismatch.
      rewrite Hc, Hec, Hv. simpl. now rewrite !orb_true_r. }
    rewrite Hm in Hpair. destruct Hpair as (p0 & msg & e' & H & _).
    eauto.
  - intros Hm c Hc. rewrite Hm in Hpair. split; [exact Hpair |].
    unfold merged.
    destruct Hc as [[Hv He] | [Hv He]]; revert Hv He;
      unfold unify_type, adopt_location, adopt_binding, adopt_initializer,
        note_initializer;
      destruct (decide (type var <> type e));
      [destruct (negb (type_length (type var) =? 0)) | |
       destruct (negb (type_length (type var) =? 0)) |];
      destruct (explicit_location var); destruct (explicit_binding var);
      simpl; intros Hv He; rewrite Hv, ?He; simpl;
      destruct (has_initializer var); simpl; congruence.
  - intros Hi Hc He.
    assert (Hm : returning_mismatch var e = true).
    { unfold returning_mismatch, initializer_nonconstant_mismatch.
      rewrite Hi, He, Hc. simpl. now rewrite !orb_true_r. }
    rewrite Hm in Hpair. destruct Hpair as (p0 & msg & e' & H & _).
    eauto.
Qed.
End CrossValidateProperties.

(** *** Concrete units *)

Global Instance ir_constant_eq_dec : EqDecision ir_constant.
Proof. solve_decision. Defined.

(** Stand-ins for the collaborators, for running the model on examples. *)
Fixpoint sample_contains_atomic (t : glsl_type) : bool :=
  match t with
  | glsl_base n => String.eqb n "atomic_uint"
  | glsl_array e _ => sample_contains_atomic e
  end.

Definition sample_has_value (a b : ir_constant) : bool := bool_decide (a = b).

Definition sample_mode_string (v : ir_variable) : string :=
  match mode v with
  | ir_var_uniform => "uniform"
  | ir_var_shader_in => "shader input"
  | ir_var_shader_out => "shader output"
  | _ => "global variable"
  end.

Definition set_invariant (b : bool) (v : ir_variable) : ir_variable :=
  mk_variable (name v) (type v) (mode v) (explicit_location v) (location v)
    (explicit_binding v) (binding v) (atomic_offset v) (index v)
    (depth_layout v) (used v) (constant_initializer v) (has_initializer v)
    b (centroid v) (is_unmatched_generic_inout v).

Definition set_centroid (b : bool) (v : ir_variable) : ir_variable :=
  mk_variable (name v) (type v) (mode v) (explicit_location v) (location v)
    (explicit_binding v) (binding v) (atomic_offset v) (index v)
    (depth_layout v) (used v) (constant_initializer v) (has_initializer v)
    (invariant v) b (is_unmatched_generic_inout v).

Definition unit_of (l : list ir_instruction) : gl_shader :=
  mk_shader MESA_SHADER_VERTEX l (mk_symbol_table ∅ ∅).

(** Two units that disagree on the invariant qualifier of [a] and on the
    centroid qualifier of [b], the types being the same. *)
Definition out_a : ir_variable :=
  plain_variable "a" (glsl_base "vec4") ir_var_shader_out.
Definition out_b : ir_variable :=
  plain_variable "b" (glsl_base "vec4") ir_var_shader_out.

Definition unit_plain : gl_shader :=
  unit_of [ir_variable_decl out_a; ir_variable_decl out_b].
Definition unit_qualified : gl_shader :=
  unit_of [ir_variable_decl (set_invariant true out_a);
           ir_variable_decl (set_centroid true out_b)].

Lemma cross_validation_returns_at_mismatch_witness :
  exists p0 msg e',
    linker_steps program_version_110 p0
    /\ LinkStatus (linker_error p0 msg) = false
    /\ InfoLog (linker_error p0 msg)
       = (InfoLog p0 +:+ linker_error_prefix) +:+ msg
    /\ forall after ty syms later_shaders,
         for_each
           (cross_validate_shader sample_contains_atomic sample_has_value
              sample_mode_string false)
           (Some (mk_shader ty
                    ([] ++ ir_variable_decl (set_invariant true out_a)
                        :: after)%list syms)
            :: later_shaders)
           (program_version_110, <["a" := out_a]> ∅)
         = Ret (linker_error p0 msg,
                <[name (set_invariant true out_a) := e']>
                  (<["a" := out_a]> ∅)).
Proof.
  refine (proj1 (cross_validation_returns_at_mismatch
                  sample_contains_atomic sample_has_value sample_mode_string
                  false (set_invariant true out_a) out_a []
                  (program_version_110, <["a" := out_a]> ∅)
                  program_version_110 (<["a" := out_a]> ∅) _ _ _) _);
    reflexivity.
Defined.

(** C1 does not hold as worded: the pair for [a] has equal types and
    only an invariant mismatch, yet the function returns there, and the
    centroid mismatch of the later pair for [b] never reaches the log. *)
Lemma cross_validation_stops_at_invariant_mismatch :
  type_mismatch (set_invariant true out_a) out_a = false
  /\ (exists st,
        cross_validate_pair sample_contains_atomic sample_has_value
          sample_mode_string (set_invariant true out_a)
          (program_version_110, out_a)
        = Ret st)
  /\ centroid_mismatch (set_centroid true out_b) out_b = true
  /\ InfoLog (cross_validate_globals sample_contains_atomic sample_has_value
                sample_mode_string program_version_110
                [Some unit_plain; Some unit_qualified] false)
     = "error: declarations for shader output `a' have " +:+
       "mismatching invariant qualifiers" +:+ nl.
Proof.
  split; [reflexivity | split; [| split; reflexivity]].
  eexists. reflexivity.
Qed.

(** A unit declaring [float x[]] and a unit declaring [float x[4]]. *)
Definition global_x_unsized : ir_variable :=
  plain_variable "x" (glsl_array (glsl_base "float") 0) ir_var_uniform.
Definition global_x_sized : ir_variable :=
  plain_variable "x" (glsl_array (glsl_base "float") 4) ir_var_uniform.

Lemma implicit_array_unifies_witness :
  type_mismatch global_x_sized global_x_unsized = false
  /\ check_type sample_mode_string global_x_sized
       (program_version_110, global_x_unsized)
     = Next (program_version_110,
             set_type (glsl_array (glsl_base "float") 4) global_x_unsized)
  /\ type (snd (flow_value
                  (cross_validate_pair sample_contains_atomic
                     sample_has_value sample_mode_string global_x_sized
                     (program_version_110, global_x_unsized))))
     = glsl_array (glsl_base "float") 4
  /\ (returning_mismatch sample_contains_atomic sample_has_value
        global_x_sized global_x_unsized = false ->
      String.eqb (name global_x_sized) "gl_FragDepth" = false ->
      cross_validate_pair sample_contains_atomic sample_has_value
        sample_mode_string global_x_sized
        (program_version_110, global_x_unsized)
      = Next (program_version_110, merged global_x_sized global_x_unsized))
  /\ (examined true global_x_sized = true ->
      (<["x" := global_x_unsized]> ∅ : gmap string ir_variable)
        !! name global_x_sized = Some global_x_unsized ->
      type <$> (snd (flow_value
                       (cross_validate_node sample_contains_atomic
                          sample_has_value sample_mode_string true
                          (ir_variable_decl global_x_sized)
                          (program_version_110,
                           <["x" := global_x_unsized]> ∅)))
                  !! name global_x_sized)
      = Some (glsl_array (glsl_base "float") 4)).
Proof.
  apply (implicit_array_unifies sample_contains_atomic sample_has_value
           sample_mode_string true global_x_sized global_x_unsized
           (glsl_base "float") 4).
  - lia.
  - right. split; reflexivity.
Defined.

Example implicit_array_linked :
  let result :=
    cross_validate_globals_table sample_contains_atomic sample_has_value
      sample_mode_string program_version_110
      [Some (unit_of [ir_variable_decl global_x_unsized]);
       Some (unit_of [ir_variable_decl global_x_sized])] true in
  fst (flow_value result) = program_version_110
  /\ type <$> (snd (flow_value result) !! "x")
     = Some (glsl_array (glsl_base "float") 4).
Proof. split; reflexivity. Qed.

(** A unit whose [x] has an initializer that is not a constant expression
    and a unit whose [x] is initialized with the constant 1. *)
Definition constant_one : ir_constant := mk_constant (glsl_base "float") [1].

Definition global_y_nonconstant : ir_variable :=
  set_has_initializer true
    (plain_variable "y" (glsl_base "float") ir_var_auto).
Definition global_y_constant : ir_variable :=
  set_has_initializer true
    (set_constant_initializer (Some constant_one)
       (plain_variable "y" (glsl_base "float") ir_var_auto)).

(** C4, at the input where the code goes wrong.  The non-constant
    initializer seen first and the constant one second: the first-seen
    declaration takes over the constant, which blinds the test for
    multiple initializers, and nothing is logged.  With the two units in
    the other order the same pair of declarations is a link error. *)
Theorem nonconstant_initializer_first_is_accepted :
  cross_validate_globals sample_contains_atomic sample_has_value
    sample_mode_string program_version_110
    [Some (unit_of [ir_variable_decl global_y_nonconstant]);
     Some (unit_of [ir_variable_decl global_y_constant])] false
  = program_version_110
  /\ LinkStatus program_version_110 = true
  /\ InfoLog (cross_validate_globals sample_contains_atomic sample_has_value
                sample_mode_string program_version_110
                [Some (unit_of [ir_variable_decl global_y_constant]);
                 Some (unit_of [ir_variable_decl global_y_nonconstant])]
                false)
     = "error: shared global variable `y' has multiple " +:+
       "non-constant initializers." +:+ nl.
Proof. repeat split. Qed.

(* ===================================================================== *)
(** ** Location allocation: determinism and the capacity of [to_assign] *)
(* ===================================================================== *)

Section AssignProperties.
Variable count_attribute_slots : glsl_type -> Z.
Variable qsort :
  (temp_attr -> temp_attr -> Z) -> list temp_attr -> list temp_attr.
Variable VERT_ATTRIB_GENERIC0 : Z.
Variable FRAG_RESULT_DATA0 : Z.

Local Abbreviation assign :=
  (assign_attribute_or_color_locations count_attribute_slots qsort
     VERT_ATTRIB_GENERIC0 FRAG_RESULT_DATA0).
Local Abbreviation locations :=
  (assign_locations count_attribute_slots qsort
     VERT_ATTRIB_GENERIC0 FRAG_RESULT_DATA0).
Local Abbreviation collect_from :=
  (collect count_attribute_slots VERT_ATTRIB_GENERIC0 FRAG_RESULT_DATA0).
Local Abbreviation collect_at :=
  (collect_node count_attribute_slots VERT_ATTRIB_GENERIC0
     FRAG_RESULT_DATA0).






(** *** The capacity of [to_assign] *)

(** The binding table consulted for the target. *)
Definition target_bindings (prog : gl_shader_program)
    (target_index : gl_shader_stage) : gmap string Z :=
  if decide (target_index = MESA_SHADER_VERTEX)
  then AttributeBindings prog
  else if decide (target_index = MESA_SHADER_FRAGMENT)
       then FragDataBindings prog else ∅.

(** A variable of the target direction with neither an explicit location
    nor an application-supplied binding. *)
Definition needs_location (prog : gl_shader_program)
    (target_index : gl_shader_stage) (node : ir_instruction) : bool :=
  match as_variable node with
  | Some v =>
      (bool_decide (mode v = direction target_index)
       && negb (explicit_location v)
       && bool_decide (target_bindings prog target_index !! name v = None))%bool
  | None => false
  end.

Definition count_needing (prog : gl_shader_program)
    (target_index : gl_shader_stage) (l : list ir_instruction) : Z :=
  Z.of_nat (length (List.filter (needs_location prog target_index) l)).

(** A variable the first loop stores into [to_assign]. *)
Definition is_collected (prog : gl_shader_program)
    (target_index : gl_shader_stage) (node : ir_instruction) : bool :=
  match as_variable node with
  | Some v =>
      (bool_decide (mode v = direction target_index)
       && negb (explicit_location v)
       && (location (apply_bindings prog target_index v) =? -1))%bool
  | None => false
  end.

Definition count_collected (prog : gl_shader_program)
    (target_index : gl_shader_stage) (l : list ir_instruction) : Z :=
  Z.of_nat (length (List.filter (is_collected prog target_index) l)).

Definition num_attr (st : collect_state) : Z :=
  Z.of_nat (length (to_assign st)).

Lemma collect_node_cases (prog : gl_shader_program)
    (target_index : gl_shader_stage) (max_index : Z) (pos : nat)
    (node : ir_instruction) (st : collect_state) :
  match collect_at prog target_index max_index pos node st with
  | alloc_ok st' =>
      if is_collected prog target_index node
      then num_attr st' = num_attr st + 1 /\ num_attr st < TO_ASSIGN_CAPACITY
      else num_attr st' = num_attr st
  | alloc_out_of_bounds i =>
      is_collected prog target_index node = true
      /\ i = num_attr st /\ TO_ASSIGN_CAPACITY <= num_attr st
  | alloc_error _ _ => True
  end.
Proof.
  unfold collect_node, is_collected, num_attr.
  destruct (as_variable node) as [v |]; [| reflexivity].
  destruct (bool_decide (mode v = direction target_index)); simpl;
    [| reflexivity].
  destruct (explicit_location v); simpl.
  - destruct (location v >=? _) eqn:Hhigh; simpl; [exact I |].
    destruct (location v <? 0) eqn:Hneg; simpl; [exact I |].
    apply Z.ltb_ge in Hneg.
    replace (location v =? -1) with false
      by (symmetry; apply Z.eqb_neq; lia).
    simpl.
    destruct (_ && _)%bool; [destruct (negb _) |]; simpl;
      first [exact I | reflexivity].
  - destruct (location (apply_bindings prog target_index v) =? -1); simpl.
    + destruct (Z.of_nat (length (to_assign st)) <? TO_ASSIGN_CAPACITY)
        eqn:Hroom.
      * apply Z.ltb_lt in Hroom. simpl. rewrite length_app. simpl.
        split; lia.
      * apply Z.ltb_ge in Hroom. repeat split. exact Hroom.
    + destruct (_ && _)%bool; [destruct (negb _) |]; simpl;
        first [exact I | reflexivity].
Qed.

Lemma collect_outcome (prog : gl_shader_program)
    (target_index : gl_shader_stage) (max_index : Z)
    (nodes : list ir_instruction) :
  forall (pos : nat) (st : collect_state),
    num_attr st <= TO_ASSIGN_CAPACITY ->
    match collect_from prog target_index max_index pos nodes st with
    | alloc_ok st' =>
        num_attr st'
        = num_attr st + count_collected prog target_index nodes
        /\ num_attr st' <= TO_ASSIGN_CAPACITY
    | alloc_out_of_bounds i =>
        i = TO_ASSIGN_CAPACITY
        /\ TO_ASSIGN_CAPACITY
           < num_attr st + count_collected prog target_index nodes
    | alloc_error _ _ => True
    end.
Proof.
  unfold count_collected.
  induction nodes as [| node nodes IH]; intros pos st Hst; simpl.
  - split; lia.
  - pose proof (collect_node_cases prog target_index max_index pos node st)
      as Hnode.
    destruct (collect_at prog target_index max_index pos node st)
      as [st' | msg l | i].
    + destruct (is_collected prog target_index node).
      * destruct Hnode as [Hlen Hroom].
        specialize (IH (S pos) st' ltac:(lia)).
        destruct (collect_from prog target_index max_index (S pos) nodes st');
          [| exact I |]; simpl; rewrite Hlen in IH; lia.
      * specialize (IH (S pos) st' ltac:(lia)).
        destruct (collect_from prog target_index max_index (S pos) nodes st');
          [| exact I |]; rewrite Hnode in IH; lia.
    + exact I.
    + destruct Hnode as (Hc & -> & Hfull). rewrite Hc. simpl.
      split; lia.
Qed.

Lemma count_filter_le {A : Type} (f g : A -> bool) (l : list A) :
  (forall x, In x l -> f x = true -> g x = true) ->
  (length (List.filter f l) <= length (List.filter g l))%nat.
Proof.
  induction l as [| x l IH]; intros H; simpl; [lia |].
  assert (IH' := IH (fun y Hy => H y (or_intror Hy))).
  pose proof (H x (or_introl eq_refl)) as Hx.
  destruct (f x), (g x); simpl;
    first [lia | discriminate (Hx eq_refl)].
Qed.

Lemma to_int_small (b : Z) : 0 <= b < 2 ^ 31 -> to_int b = b.
Proof.
  intros H. unfold to_int, to_uint, UINT_MOD, UINT_BITS.
  rewrite Z.mod_small by lia.
  replace (b <? 2 ^ (32 - 1)) with true by (symmetry; apply Z.ltb_lt; lia).
  reflexivity.
Qed.

Lemma apply_bindings_unbound (prog : gl_shader_program)
    (target_index : gl_shader_stage) (v : ir_variable) :
  target_bindings prog target_index !! name v = None ->
  apply_bindings prog target_index v = v.
Proof.
  unfold target_bindings, apply_bindings.
  destruct (decide (target_index = MESA_SHADER_VERTEX));
    [now intros -> |].
  destruct (decide (target_index = MESA_SHADER_FRAGMENT));
    [now intros -> | reflexivity].
Qed.

Lemma apply_bindings_bound (prog : gl_shader_program)
    (target_index : gl_shader_stage) (v : ir_variable) (b : Z) :
  target_bindings prog target_index !! name v = Some b ->
  location (apply_bindings prog target_index v) = to_int b.
Proof.
  unfold target_bindings, apply_bindings.
  destruct (decide (target_index = MESA_SHADER_VERTEX));
    [now intros -> |].
  destruct (decide (target_index = MESA_SHADER_FRAGMENT));
    [| now rewrite lookup_empty].
  intros ->. now destruct (FragDataIndexBindings prog !! name v).
Qed.

(** Variables without an explicit location enter with location -1, the
    state [link_invalidate_variable_locations] leaves them in. *)
Definition locations_invalidated (l : list ir_instruction) : Prop :=
  forall v, In (ir_variable_decl v) l ->
            explicit_location v = false -> location v = -1.

Lemma link_invalidate_variable_locations_invalidated
    (l : list ir_instruction) :
  locations_invalidated (link_invalidate_variable_locations l).
Proof.
  intros v Hin Hexp. unfold link_invalidate_variable_locations in Hin.
  apply in_map_iff in Hin as (node & Heq & _).
  destruct node; simpl in Heq; try discriminate.
  inversion Heq; subst; clear Heq.
  unfold invalidate_variable in *.
  destruct (explicit_location var0) eqn:He; simpl in *;
    rewrite ?He in *; simpl in *; [congruence | reflexivity].
Qed.

(** The last loop stores nothing into [to_assign]. *)
Lemma assign_sorted_in_bounds (target_index : gl_shader_stage)
    (sorted : list temp_attr) (l : list ir_instruction) (used i : Z) :
  assign_sorted VERT_ATTRIB_GENERIC0 FRAG_RESULT_DATA0 target_index
    sorted l used
  <> alloc_out_of_bounds i.
Proof.
  revert l used. induction sorted as [| a sorted IH]; intros l used;
    simpl; [discriminate |].
  destruct (find_available_slots used (slots a) <? 0);
    [discriminate | apply IH].
Qed.

(** *** The two errors of the first loop *)

(** The complaint about an explicit location outside the budget. *)
Definition invalid_location_message (target_index : gl_shader_stage)
    (v : ir_variable) : string :=
  "invalid explicit location " +:+
  fmt_d (if location v <? 0 then location v
         else to_int (location v
                      - generic_base VERT_ATTRIB_GENERIC0
                          FRAG_RESULT_DATA0 target_index)) +:+
  " specified for `" +:+ name v +:+ "'" +:+ nl.

(** The complaint about a location whose slots are taken; [used] is the
    mask at that point. *)
Definition overlapping_location_message (target_index : gl_shader_stage)
    (v : ir_variable) (used : Z) : string :=
  "insufficient contiguous locations " +:+
  "available for " +:+ target_string target_index +:+
  " `" +:+ name v +:+ "' " +:+
  fmt_d (to_int used) +:+ " " +:+
  fmt_d (to_int (to_uint (shl 1 (count_attribute_slots (type v)) - 1)))
  +:+ " " +:+
  fmt_d (to_int (to_uint (location v
                          - generic_base VERT_ATTRIB_GENERIC0
                              FRAG_RESULT_DATA0 target_index))).

(** A variable that comes with a location: an explicit one, or one the
    application bound. *)
Definition has_location (prog : gl_shader_program)
    (target_index : gl_shader_stage) (v : ir_variable) : Prop :=
  explicit_location v = true
  \/ target_bindings prog target_index !! name v <> None.

(** [msg] is one of the two errors of the first loop, raised at [v]. *)
Definition location_error (prog : gl_shader_program)
    (target_index : gl_shader_stage) (max_index : Z) (v : ir_variable)
    (msg : string) : Prop :=
  (explicit_location v = true
   /\ (to_int (to_uint (max_index
                        + generic_base VERT_ATTRIB_GENERIC0
                            FRAG_RESULT_DATA0 target_index))
       <= location v
       \/ location v < 0)
   /\ msg = invalid_location_message target_index v)
  \/ (exists (v1 : ir_variable) (used : Z),
        v1 = (if explicit_location v then v
              else apply_bindings prog target_index v)
        /\ location v1 <> -1
        /\ msg = overlapping_location_message target_index v1 used).

Lemma collect_node_error (prog : gl_shader_program)
    (target_index : gl_shader_stage) (max_index : Z) (pos : nat)
    (node : ir_instruction) (st : collect_state) (msg : string)
    (l : list ir_instruction) :
  collect_at prog target_index max_index pos node st = alloc_error msg l ->
  exists v,
    node = ir_variable_decl v
    /\ mode v = direction target_index
    /\ location_error prog target_index max_index v msg.
Proof.
  unfold collect_node. destruct node as [v | | | | | | | | | |];
    simpl; try discriminate.
  destruct (bool_decide (mode v = direction target_index)) eqn:Hmode;
    simpl; [| discriminate].
  apply bool_decide_eq_true_1 in Hmode. intros Herror.
  exists v. split; [reflexivity |]. split; [exact Hmode |].
  unfold location_error.
  destruct (explicit_location v) eqn:Hexplicit.
  - destruct ((location v >=? _) || (location v <? 0))%bool eqn:Hrange.
    + left. split; [reflexivity |]. split.
      * apply orb_true_iff in Hrange as [H | H];
          [left; apply Z.geb_le in H; lia
          | right; now apply Z.ltb_lt in H].
      * now inversion Herror.
    + right. exists v, (used_locations st). split; [reflexivity |].
      destruct (location v =? -1) eqn:Hminus; simpl in Herror;
        [destruct (_ <? TO_ASSIGN_CAPACITY) in Herror; discriminate |].
      apply Z.eqb_neq in Hminus. split; [exact Hminus |].
      destruct ((location v >=? _) && (index v <? 1))%bool;
        [| discriminate].
      destruct (negb _) in Herror; [| discriminate].
      now inversion Herror.
  - right.
    exists (apply_bindings prog target_index v), (used_locations st).
    split; [reflexivity |].
    destruct (location (apply_bindings prog target_index v) =? -1)
      eqn:Hminus; simpl in Herror;
      [destruct (_ <? TO_ASSIGN_CAPACITY) in Herror; discriminate |].
    apply Z.eqb_neq in Hminus. split; [exact Hminus |].
    destruct ((location _ >=? _) && (index _ <? 1))%bool;
      [| discriminate].
    destruct (negb _) in Herror; [| discriminate].
    now inversion Herror.
Qed.

(** An error of the first loop is raised at a declaration met before a
    seventeenth entry would have been stored. *)
Lemma collect_error (prog : gl_shader_program)
    (target_index : gl_shader_stage) (max_index : Z)
    (nodes : list ir_instruction) :
  forall (pos : nat) (st : collect_state) (msg : string)
         (l : list ir_instruction),
    num_attr st <= TO_ASSIGN_CAPACITY ->
    collect_from prog target_index max_index pos nodes st
    = alloc_error msg l ->
    exists (j : nat) (v : ir_variable),
      nodes !! j = Some (ir_variable_decl v)
      /\ mode v = direction target_index
      /\ location_error prog target_index max_index v msg
      /\ num_attr st
         + count_collected prog target_index (take j nodes)
         <= TO_ASSIGN_CAPACITY.
Proof.
  unfold count_collected.
  induction nodes as [| node nodes IH]; intros pos st msg l Hst Hrun;
    simpl in Hrun; [discriminate |].
  pose proof (collect_node_cases prog target_index max_index pos node st)
    as Hnode.
  destruct (collect_at prog target_index max_index pos node st)
    as [st' | msg' l' | i] eqn:Hat; [| | discriminate].
  - assert (Hst' : num_attr st' <= TO_ASSIGN_CAPACITY
                   /\ num_attr st'
                      = num_attr st
                        + Z.of_nat
                            (length (List.filter
                                       (is_collected prog target_index)
                                       [node]))).
    { simpl. destruct (is_collected prog target_index node); simpl; lia. }
    destruct Hst' as [Hroom Hcount].
    destruct (IH (S pos) st' msg l Hroom Hrun)
      as (j & v & Hj & Hmode & Herror & Hbefore).
    exists (S j), v. split; [exact Hj |]. split; [exact Hmode |].
    split; [exact Herror |].
    simpl take. simpl List.filter. simpl in Hcount.
    destruct (is_collected prog target_index node); simpl in *; lia.
  - inversion Hrun; subst msg' l'.
    destruct (collect_node_error _ _ _ _ _ _ _ _ Hat)
      as (v & -> & Hmode & Herror).
    exists 0%nat, v. split; [reflexivity |]. split; [exact Hmode |].
    split; [exact Herror |]. simpl. lia.
Qed.

Lemma needing_are_collected (prog : gl_shader_program)
    (target_index : gl_shader_stage) (l : list ir_instruction) :
  locations_invalidated l ->
  count_needing prog target_index l <= count_collected prog target_index l.
Proof.
  intros Hinv. unfold count_collected, count_needing.
  apply inj_le, count_filter_le.
  intros node Hin. unfold is_collected, needs_location.
  destruct node; simpl; try discriminate.
  destruct (bool_decide (mode var0 = direction target_index));
    [| trivial].
  destruct (explicit_location var0) eqn:He; [trivial |]. simpl.
  intros Hb. apply bool_decide_eq_true in Hb.
  rewrite (apply_bindings_unbound _ _ _ Hb).
  apply Z.eqb_eq. now apply Hinv.
Qed.

Lemma location_error_has_location (prog : gl_shader_program)
    (target_index : gl_shader_stage) (max_index : Z) (v : ir_variable)
    (msg : string) :
  (explicit_location v = false -> location v = -1) ->
  location_error prog target_index max_index v msg ->
  has_location prog target_index v.
Proof.
  intros Hinv [(Hexplicit & _) | (v1 & used & -> & Hlocated & _)];
    [now left |].
  destruct (explicit_location v) eqn:Hexplicit; [now left |].
  right. intros Hunbound.
  rewrite (apply_bindings_unbound _ _ _ Hunbound) in Hlocated.
  now apply Hlocated, Hinv.
Qed.

(** C10, as the code has it.  The application's bindings being valid
    locations, at most 16 variables of the target direction without
    explicit location and without binding keep every store into
    [to_assign] inside the array.  With more than 16 of them, on
    declarations whose locations have been invalidated, the run never
    completes the collection.  Nothing checks the index: the store with
    index 16 is reached, one past the end of the array, unless the
    function has returned before that, which it does only with one of
    its two errors about a location, invalid or overlapping, raised at a
    declaration that comes with a location and is met before the
    seventeenth variable in need of one.  Where no declaration of the
    target direction comes with a location the store is reached. *)
Theorem to_assign_capacity (prog : gl_shader_program)
    (target_index : gl_shader_stage) (max_index : Z) (sh : gl_shader) :
  (forall n b, target_bindings prog target_index !! n = Some b ->
               0 <= b < 2 ^ 31) ->
  (count_needing prog target_index (ir sh) <= TO_ASSIGN_CAPACITY ->
   forall i, locations prog target_index max_index sh
             <> alloc_out_of_bounds i)
  /\ (locations_invalidated (ir sh) ->
      TO_ASSIGN_CAPACITY < count_needing prog target_index (ir sh) ->
      (locations prog target_index max_index sh
       = alloc_out_of_bounds TO_ASSIGN_CAPACITY
       \/ exists (k : nat) (v : ir_variable) (msg : string)
                 (l : list ir_instruction),
            locations prog target_index max_index sh = alloc_error msg l
            /\ ir sh !! k = Some (ir_variable_decl v)
            /\ mode v = direction target_index
            /\ has_location prog target_index v
            /\ count_needing prog target_index (take k (ir sh))
               <= TO_ASSIGN_CAPACITY
            /\ location_error prog target_index max_index v msg)
      /\ ((forall v, In (ir_variable_decl v) (ir sh) ->
                     mode v = direction target_index ->
                     ~ has_location prog target_index v) ->
          locations prog target_index max_index sh
          = alloc_out_of_bounds TO_ASSIGN_CAPACITY)).
Proof.
  intros Hvalid.
  set (used0 := if max_index >=? 32 then bit_not 0
                else bit_not (to_uint (shl 1 max_index - 1))).
  pose proof (collect_outcome prog target_index max_index (ir sh) 0
                (mk_collect_state (ir sh) used0 [])
                ltac:(unfold num_attr, TO_ASSIGN_CAPACITY; simpl; lia))
    as Hout.
  unfold num_attr in Hout; cbn [to_assign length] in Hout.
  split.
  - intros Hfew i Heq. unfold assign_locations in Heq. fold used0 in Heq.
    destruct (collect_from prog target_index max_index 0 (ir sh) _)
      as [st | msg l | j] eqn:Hc.
    + destruct (Z.of_nat (length (to_assign st)) =? 0);
        [discriminate |].
      exact (assign_sorted_in_bounds _ _ _ _ _ Heq).
    + discriminate.
    + destruct Hout as [_ Hover].
      assert (count_collected prog target_index (ir sh)
              <= count_needing prog target_index (ir sh)).
      { unfold count_collected, count_needing.
        apply inj_le, count_filter_le.
        intros node _. unfold is_collected, needs_location.
        destruct (as_variable node) as [v |]; [| trivial].
        destruct (bool_decide (mode v = direction target_index));
          [| trivial].
        destruct (explicit_location v); [trivial |]. simpl.
        destruct (target_bindings prog target_index !! name v) as [b |]
          eqn:Hb; [| reflexivity].
        rewrite (apply_bindings_bound _ _ _ _ Hb).
        rewrite to_int_small by (eapply Hvalid; eauto).
        intros Hm. apply Z.eqb_eq in Hm.
        specialize (Hvalid _ _ Hb). lia. }
      lia.
  - intros Hinv Hmany.
    pose proof (needing_are_collected prog target_index (ir sh) Hinv)
      as Hcollected.
    assert (Hrun :
              locations prog target_index max_index sh
              = alloc_out_of_bounds TO_ASSIGN_CAPACITY
              \/ exists (k : nat) (v : ir_variable) (msg : string)
                        (l : list ir_instruction),
                   locations prog target_index max_index sh
                   = alloc_error msg l
                   /\ ir sh !! k = Some (ir_variable_decl v)
                   /\ mode v = direction target_index
                   /\ has_location prog target_index v
                   /\ count_needing prog target_index (take k (ir sh))
                      <= TO_ASSIGN_CAPACITY
                   /\ location_error prog target_index max_index v msg).
    { unfold assign_locations. fold used0.
      destruct (collect_from prog target_index max_index 0 (ir sh) _)
        as [st | msg l | j] eqn:Hc.
      - unfold num_attr in Hout. lia.
      - right.
        assert (Hempty : num_attr (mk_collect_state (ir sh) used0 [])
                         <= TO_ASSIGN_CAPACITY)
          by (unfold num_attr, TO_ASSIGN_CAPACITY; simpl; lia).
        destruct (collect_error _ _ _ _ _ _ _ _ Hempty Hc)
          as (k & v & Hk & Hmode & Herror & Hbefore).
        exists k, v, msg, l. split; [reflexivity |].
        split; [exact Hk |]. split; [exact Hmode |].
        assert (Hin : In (ir_variable_decl v) (ir sh)).
        { apply list_elem_of_In. eapply list_elem_of_lookup_2; eauto. }
        split.
        { eapply location_error_has_location; [| exact Herror].
          now apply Hinv. }
        split; [| exact Herror].
        assert (Hprefix : locations_invalidated (take k (ir sh))).
        { intros w Hw. apply Hinv.
          apply list_elem_of_In. apply list_elem_of_In in Hw.
          eapply elem_of_sublist; [exact Hw | apply sublist_take]. }
        pose proof (needing_are_collected prog target_index _ Hprefix).
        unfold num_attr in Hbefore. simpl in Hbefore. lia.
      - left. destruct Hout as [-> _]. reflexivity. }
    split; [exact Hrun |].
    intros Hnone.
    destruct Hrun as [Hrun | (k & v & msg & l & _ & Hk & Hmode & Hhas & _)];
      [exact Hrun | exfalso].
    apply (Hnone v); [| exact Hmode | exact Hhas].
    apply list_elem_of_In. eapply list_elem_of_lookup_2; eauto.
Qed.
End AssignProperties.

(** *** Concrete runs *)

(** Stand-ins for the collaborators and constants of the allocator. *)
Fixpoint sample_count_attribute_slots (t : glsl_type) : Z :=
  match t with
  | glsl_base n => if String.eqb n "mat4" then 4 else 1
  | glsl_array e n => n * sample_count_attribute_slots e
  end.

Fixpoint sample_insert (compare : temp_attr -> temp_attr -> Z)
    (a : temp_attr) (l : list temp_attr) : list temp_attr :=
  match l with
  | [] => [a]
  | b :: l' =>
      if compare a b <=? 0 then a :: l
      else b :: sample_insert compare a l'
  end.

Definition sample_qsort (compare : temp_attr -> temp_attr -> Z)
    (l : list temp_attr) : list temp_attr :=
  fold_right (sample_insert compare) [] l.

Definition SAMPLE_VERT_ATTRIB_GENERIC0 : Z := 16.
Definition SAMPLE_FRAG_RESULT_DATA0 : Z := 2.

Definition vertex_input (n : string) (t : glsl_type) : ir_instruction :=
  ir_variable_decl (plain_variable n t ir_var_shader_in).

Definition program_with_vertex (log : string) (l : list ir_instruction)
    (attribute_bindings : gmap string Z) : gl_shader_program :=
  mk_program log true 130 false false 0 (Some (unit_of l)) None None
    attribute_bindings ∅ ∅.

(** A matrix, a vector bound by the application to generic attribute 1,
    and a second vector. *)
Definition three_inputs : list ir_instruction :=
  link_invalidate_variable_locations
    [vertex_input "normal" (glsl_base "vec3");
     vertex_input "bound" (glsl_base "vec4");
     vertex_input "transform" (glsl_base "mat4")].

(** The locations of that run: the matrix first (generic 2 to 5, slot 1
    being the application's), then the vector in slot 0. *)
Example three_inputs_locations :
  match assign_locations sample_count_attribute_slots sample_qsort
          SAMPLE_VERT_ATTRIB_GENERIC0 SAMPLE_FRAG_RESULT_DATA0
          (program_with_vertex "" three_inputs (<["bound" := 17]> ∅))
          MESA_SHADER_VERTEX 16 (unit_of three_inputs) with
  | alloc_ok l =>
      map (fun node => location <$> as_variable node) l
      = [Some 16; Some 17; Some 18]
  | _ => False
  end.
Proof. vm_compute. reflexivity. Qed.

(** Seventeen vertex inputs without explicit location or binding. *)
Definition seventeen_names : list string :=
  ["a0"; "a1"; "a2"; "a3"; "a4"; "a5"; "a6"; "a7"; "a8"; "a9"; "a10";
   "a11"; "a12"; "a13"; "a14"; "a15"; "a16"].

Definition seventeen_inputs : list ir_instruction :=
  link_invalidate_variable_locations
    (map (fun n => vertex_input n (glsl_base "float")) seventeen_names).

Lemma to_assign_capacity_witness :
  let run :=
    assign_locations sample_count_attribute_slots sample_qsort
      SAMPLE_VERT_ATTRIB_GENERIC0 SAMPLE_FRAG_RESULT_DATA0 in
  (forall i,
     run (program_with_vertex "" three_inputs (<["bound" := 17]> ∅))
       MESA_SHADER_VERTEX 16 (unit_of three_inputs)
     <> alloc_out_of_bounds i)
  /\ run (program_with_vertex "" seventeen_inputs ∅)
       MESA_SHADER_VERTEX 16 (unit_of seventeen_inputs)
     = alloc_out_of_bounds TO_ASSIGN_CAPACITY.
Proof.
  intros run. split.
  - destruct (to_assign_capacity sample_count_attribute_slots sample_qsort
                SAMPLE_VERT_ATTRIB_GENERIC0 SAMPLE_FRAG_RESULT_DATA0
                (program_with_vertex "" three_inputs (<["bound" := 17]> ∅))
                MESA_SHADER_VERTEX 16 (unit_of three_inputs))
      as [Hfew _].
    + intros n b H.
      change ((<["bound" := 17]> (∅ : gmap string Z)) !! n = Some b) in H.
      apply lookup_insert_Some in H as [[_ <-] | [_ H]]; [lia |].
      rewrite lookup_empty in H. discriminate.
    + apply Hfew. vm_compute. discriminate.
  - destruct (to_assign_capacity sample_count_attribute_slots sample_qsort
                SAMPLE_VERT_ATTRIB_GENERIC0 SAMPLE_FRAG_RESULT_DATA0
                (program_with_vertex "" seventeen_inputs ∅)
                MESA_SHADER_VERTEX 16 (unit_of seventeen_inputs))
      as [_ Hmany].
    + intros n b H. change ((∅ : gmap string Z) !! n = Some b) in H.
      rewrite lookup_empty in H. discriminate.
    + destruct Hmany as [_ Hreached].
      * apply link_invalidate_variable_locations_invalidated.
      * vm_compute. reflexivity.
      * apply Hreached. intros v Hin _ [Hexplicit | Hbound].
        -- simpl in Hin.
           repeat (destruct Hin as [Hin | Hin];
                   [inversion Hin; subst v; discriminate |]).
           exact Hin.
        -- apply Hbound. apply lookup_empty.
Defined.

Example seventeen_inputs_overflow :
  count_needing (program_with_vertex "" seventeen_inputs ∅)
    MESA_SHADER_VERTEX seventeen_inputs = 17
  /\ assign_locations sample_count_attribute_slots sample_qsort
       SAMPLE_VERT_ATTRIB_GENERIC0 SAMPLE_FRAG_RESULT_DATA0
       (program_with_vertex "" seventeen_inputs ∅)
       MESA_SHADER_VERTEX 16 (unit_of seventeen_inputs)
     = alloc_out_of_bounds 16.
Proof. split; vm_compute; reflexivity. Qed.

(** The same seventeen inputs after a declaration whose explicit location
    lies beyond the sixteen generic attributes. *)
Definition misplaced_input : ir_variable :=
  set_explicit_location true
    (set_location 40 (plain_variable "misplaced" (glsl_base "vec4")
                        ir_var_shader_in)).

Definition misplaced_then_seventeen : list ir_instruction :=
  link_invalidate_variable_locations
    (ir_variable_decl misplaced_input
     :: map (fun n => vertex_input n (glsl_base "float")) seventeen_names).

(** C10 does not hold as worded: more than sixteen variables need a
    location, yet no store leaves [to_assign]; the function has returned
    on the first declaration with its link error. *)
Lemma to_assign_overflow_preempted :
  let prog := program_with_vertex "" misplaced_then_seventeen ∅ in
  TO_ASSIGN_CAPACITY
  < count_needing prog MESA_SHADER_VERTEX misplaced_then_seventeen
  /\ locations_invalidated misplaced_then_seventeen
  /\ assign_locations sample_count_attribute_slots sample_qsort
       SAMPLE_VERT_ATTRIB_GENERIC0 SAMPLE_FRAG_RESULT_DATA0
       prog MESA_SHADER_VERTEX 16 (unit_of misplaced_then_seventeen)
     = alloc_error
         ("invalid explicit location 24 specified for `misplaced'" +:+ nl)
         misplaced_then_seventeen.
Proof.
  intros prog. split; [vm_compute; reflexivity | split].
  - apply link_invalidate_variable_locations_invalidated.
  - vm_compute. reflexivity.
Qed.

(* ===================================================================== *)
(** ** Multiply defined functions *)
(* ===================================================================== *)

(** A signature that is defined and is not a built-in. *)
Definition defines (sg : ir_function_signature) : Prop :=
  sig_is_defined sg = true /\ sig_is_builtin sg = false.

(** Unit [shader_i] holds a function [f] with a signature it defines, and
    the function [f] of unit [shader_j] has a signature with the same
    parameter list which that unit defines. *)
Definition both_define (shader_i shader_j : gl_shader) (f : string) : Prop :=
  exists sigs sig other other_sig,
    In (ir_function f sigs) (ir shader_i)
    /\ In sig sigs /\ defines sig
    /\ get_function (symbols shader_j) f = Some other
    /\ exact_matching_signature other (sig_parameters sig) = Some other_sig
    /\ defines other_sig.

(** Two different units of the list, in list order, both define [f]. *)
Definition multiply_defined (f : string) (shader_list : list gl_shader)
    : Prop :=
  exists pre shader_i mid shader_j post,
    shader_list = (pre ++ shader_i :: mid ++ shader_j :: post)%list
    /\ both_define shader_i shader_j f.

(** The tests of the four nested loops, innermost first. *)
Definition sig_clash (other : list ir_function_signature)
    (sig : ir_function_signature) : bool :=
  (negb (negb (sig_is_defined sig) || sig_is_builtin sig)
   && match exact_matching_signature other (sig_parameters sig) with
      | Some other_sig =>
          sig_is_defined other_sig && negb (sig_is_builtin other_sig)
      | None => false
      end)%bool.

Definition shader_clash (fname : string) (sigs : list ir_function_signature)
    (shader_j : gl_shader) : bool :=
  match get_function (symbols shader_j) fname with
  | Some other => existsb (sig_clash other) sigs
  | None => false
  end.

Definition node_clash (later : list gl_shader) (node : ir_instruction)
    : bool :=
  match node with
  | ir_function fname sigs => existsb (shader_clash fname sigs) later
  | _ => false
  end.

Definition node_name (node : ir_instruction) : string :=
  match node with ir_function fname _ => fname | _ => "" end.

(** The function the search reports: the first clash in loop order. *)
Fixpoint first_multiply_defined (shader_list : list gl_shader)
    : option string :=
  match shader_list with
  | shader_i :: ((_ :: _) as later) =>
      match List.find (node_clash later) (ir shader_i) with
      | Some node => Some (node_name node)
      | None => first_multiply_defined later
      end
  | _ => None
  end.

Lemma for_each_first_error {X : Type}
    (body : X -> gl_shader_program -> flow gl_shader_program)
    (c : X -> bool) (m : X -> string) (l : list X) :
  (forall x p, body x p = if c x then Ret (linker_error p (m x)) else Next p) ->
  forall p,
    for_each body l p
    = match List.find c l with
      | Some x => Ret (linker_error p (m x))
      | None => Next p
      end.
Proof.
  intros Hbody. induction l as [| x l IH]; intros p; simpl; [reflexivity |].
  rewrite Hbody. destruct (c x); [reflexivity | apply IH].
Qed.

Lemma find_existsb {X : Type} (c : X -> bool) (l : list X) :
  existsb c l = match List.find c l with Some _ => true | None => false end.
Proof.
  induction l as [| x l IH]; simpl; [reflexivity |].
  destruct (c x); [reflexivity | exact IH].
Qed.

Lemma check_signature_spec (fname : string)
    (other : list ir_function_signature) (sig : ir_function_signature)
    (p : gl_shader_program) :
  check_signature fname other sig p
  = if sig_clash other sig
    then Ret (linker_error p (multiply_defined_message fname)) else Next p.
Proof.
  unfold check_signature, sig_clash.
  destruct (negb (sig_is_defined sig) || sig_is_builtin sig)%bool;
    [reflexivity |]. simpl.
  destruct (exact_matching_signature other (sig_parameters sig)) as [o |];
    reflexivity.
Qed.

Lemma check_against_shader_spec (fname : string)
    (sigs : list ir_function_signature) (shader_j : gl_shader)
    (p : gl_shader_program) :
  check_against_shader fname sigs shader_j p
  = if shader_clash fname sigs shader_j
    then Ret (linker_error p (multiply_defined_message fname)) else Next p.
Proof.
  unfold check_against_shader, shader_clash.
  destruct (get_function (symbols shader_j) fname) as [other |];
    [| reflexivity].
  rewrite (for_each_first_error _ (sig_clash other)
             (fun _ => multiply_defined_message fname))
    by (intros; apply check_signature_spec).
  rewrite find_existsb. now destruct (List.find (sig_clash other) sigs).
Qed.

Lemma check_node_spec (later : list gl_shader) (node : ir_instruction)
    (p : gl_shader_program) :
  check_node later node p
  = if node_clash later node
    then Ret (linker_error p (multiply_defined_message (node_name node)))
    else Next p.
Proof.
  destruct node; try reflexivity. simpl.
  rewrite (for_each_first_error _ (shader_clash fname signatures)
             (fun _ => multiply_defined_message fname))
    by (intros; apply check_against_shader_spec).
  rewrite find_existsb.
  now destruct (List.find (shader_clash fname signatures) later).
Qed.

Lemma check_multiply_defined_spec (shader_list : list gl_shader)
    (p : gl_shader_program) :
  check_multiply_defined shader_list p
  = match first_multiply_defined shader_list with
    | Some g => Ret (linker_error p (multiply_defined_message g))
    | None => Next p
    end.
Proof.
  induction shader_list as [| shader_i later IH]; [reflexivity |].
  destruct later as [| shader_j later']; [reflexivity |].
  cbn [check_multiply_defined first_multiply_defined].
  rewrite (for_each_first_error _ (node_clash (shader_j :: later'))
             (fun node => multiply_defined_message (node_name node)))
    by (intros; apply check_node_spec).
  destruct (List.find (node_clash (shader_j :: later')) (ir shader_i));
    [reflexivity | exact IH].
Qed.

Lemma sig_clash_spec (other : list ir_function_signature)
    (sig : ir_function_signature) :
  sig_clash other sig = true
  <-> defines sig
      /\ exists other_sig,
           exact_matching_signature other (sig_parameters sig)
           = Some other_sig
           /\ defines other_sig.
Proof.
  unfold sig_clash, defines.
  rewrite andb_true_iff, negb_true_iff, orb_false_iff, negb_false_iff.
  split.
  - intros [[Hd Hb] Hm]. split; [auto |].
    destruct (exact_matching_signature other (sig_parameters sig)) as [o |];
      [| discriminate].
    apply andb_true_iff in Hm as [H1 H2]. apply negb_true_iff in H2.
    exists o. auto.
  - intros [[Hd Hb] (o & -> & Hod & Hob)]. split; [auto |].
    now rewrite Hod, Hob.
Qed.

Lemma node_clash_spec (later : list gl_shader) (node : ir_instruction) :
  node_clash later node = true
  <-> exists sigs shader_j sig other other_sig,
        node = ir_function (node_name node) sigs
        /\ In shader_j later
        /\ In sig sigs /\ defines sig
        /\ get_function (symbols shader_j) (node_name node) = Some other
        /\ exact_matching_signature other (sig_parameters sig)
           = Some other_sig
        /\ defines other_sig.
Proof.
  destruct node;
    try (split; [discriminate
                | intros (? & ? & ? & ? & ? & Heq & _); discriminate]).
  simpl. rewrite existsb_exists. split.
  - intros (shader_j & Hin & Hclash). unfold shader_clash in Hclash.
    destruct (get_function (symbols shader_j) fname) as [other |] eqn:Hget;
      [| discriminate].
    apply existsb_exists in Hclash as (sig & Hsig & Hc).
    apply sig_clash_spec in Hc as (Hdef & other_sig & Hm & Hodef).
    exists signatures, shader_j, sig, other, other_sig. auto 10.
  - intros (sigs & shader_j & sig & other & other_sig
            & Heq & Hin & Hsig & Hdef & Hget & Hm & Hodef).
    inversion Heq; subst. exists shader_j. split; [exact Hin |].
    unfold shader_clash. rewrite Hget. apply existsb_exists.
    exists sig. split; [exact Hsig |]. apply sig_clash_spec. eauto.
Qed.

(** The search reports only functions that are multiply defined ... *)
Lemma first_multiply_defined_sound (shader_list : list gl_shader)
    (g : string) :
  first_multiply_defined shader_list = Some g ->
  multiply_defined g shader_list.
Proof.
  induction shader_list as [| shader_i later IH]; [discriminate |].
  destruct later as [| shader_j later']; [discriminate |].
  cbn [first_multiply_defined].
  destruct (List.find (node_clash (shader_j :: later')) (ir shader_i))
    as [node |] eqn:Hfind.
  - intros Heq. inversion Heq; subst; clear Heq.
    apply find_some in Hfind as [Hin Hclash].
    apply node_clash_spec in Hclash
      as (sigs & sj & sig & other & other_sig
          & Hnode & Hsj & Hsig & Hdef & Hget & Hm & Hodef).
    apply in_split in Hsj as (mid & post & Hsplit).
    exists [], shader_i, mid, sj, post. split; [simpl; now rewrite Hsplit |].
    exists sigs, sig, other, other_sig. rewrite <- Hnode. auto 10.
  - intros Hrec. destruct (IH Hrec) as (pre & si & mid & sj & post & Heq & Hb).
    exists (shader_i :: pre), si, mid, sj, post.
    split; [simpl; now rewrite Heq | exact Hb].
Qed.

(** ... and reports one whenever there is one. *)
Lemma first_multiply_defined_complete (shader_list : list gl_shader)
    (f : string) :
  multiply_defined f shader_list ->
  exists g, first_multiply_defined shader_list = Some g.
Proof.
  intros (pre & si & mid & sj & post & -> & Hboth).
  induction pre as [| x pre IH].
  - simpl.
    destruct (mid ++ sj :: post)%list as [| y later] eqn:Hlater;
      [now destruct mid |].
    destruct (List.find (node_clash (y :: later)) (ir si)) as [node |]
      eqn:Hfind; [eauto |].
    exfalso.
    destruct Hboth as (sigs & sig & other & other_sig
                       & Hin & Hsig & Hdef & Hget & Hm & Hodef).
    pose proof (find_none _ _ Hfind _ Hin) as Hno.
    assert (Hyes : node_clash (y :: later) (ir_function f sigs) = true).
    { apply node_clash_spec.
      exists sigs, sj, sig, other, other_sig.
      split; [reflexivity | split; [| auto 10]].
      rewrite <- Hlater. apply in_or_app. right. now left. }
    congruence.
  - simpl.
    destruct (pre ++ si :: mid ++ sj :: post)%list as [| y later] eqn:Hl;
      [now destruct pre |].
    destruct (List.find (node_clash (y :: later)) (ir x)); eauto.
Qed.

Section IntrastageProperties.
Variable contains_atomic : glsl_type -> bool.
Variable has_value : ir_constant -> ir_constant -> bool.
Variable mode_string : ir_variable -> string.
Variable validate_intrastage_interface_blocks :
  gl_shader_program -> list gl_shader -> gl_shader_program.
Variable link_uniform_blocks :
  gl_shader_program -> list gl_shader -> gl_shader_program.
Variable link_intrastage_tail :
  gl_shader_program -> list gl_shader ->
  gl_shader_program * option gl_shader.

Local Abbreviation link :=
  (link_intrastage_shaders contains_atomic has_value mode_string
     validate_intrastage_interface_blocks link_uniform_blocks
     link_intrastage_tail).
Local Abbreviation validated :=
  (intrastage_validated contains_atomic has_value mode_string
     validate_intrastage_interface_blocks link_uniform_blocks).

Lemma intrastage_validated_failure (prog failed : gl_shader_program)
    (shader_list : list gl_shader) :
  validated prog shader_list = inl failed -> LinkStatus failed = false.
Proof.
  unfold intrastage_validated.
  destruct (LinkStatus (cross_validate_globals _ _ _ _ _ _)) eqn:H1; simpl.
  - destruct (LinkStatus (validate_intrastage_interface_blocks _ _))
      eqn:H2; simpl; [discriminate |].
    intros Heq. inversion Heq; subst. exact H2.
  - intros Heq. inversion Heq; subst. exact H1.
Qed.

(** C8, as the code has it.  When two different units of the stage both
    define a signature of [f] with the same parameter list, neither a
    built-in, intrastage linking returns no executable and leaves the
    link status false.  If the validation of globals and of interface
    blocks has passed, the error logged is the multiply-defined-function
    error, and the function it names is multiply defined: it is the
    first such function in loop order, hence [f] itself when [f] is the
    only one. *)
Theorem multiply_defined_function_rejected (prog : gl_shader_program)
    (shader_list : list gl_shader) (f : string) :
  multiply_defined f shader_list ->
  snd (link prog shader_list) = None
  /\ LinkStatus (fst (link prog shader_list)) = false
  /\ forall prog3,
       validated prog shader_list = inr prog3 ->
       exists g,
         multiply_defined g shader_list
         /\ first_multiply_defined shader_list = Some g
         /\ fst (link prog shader_list)
            = linker_error prog3 (multiply_defined_message g)
         /\ ((forall h, multiply_defined h shader_list -> h = f) -> g = f).
Proof.
  intros Hmd.
  destruct (first_multiply_defined_complete _ _ Hmd) as [g Hg].
  pose proof (first_multiply_defined_sound _ _ Hg) as Hsound.
  unfold link_intrastage_shaders.
  destruct (validated prog shader_list) as [failed | prog3] eqn:Hv.
  - simpl. split; [reflexivity | split].
    + eapply intrastage_validated_failure; eauto.
    + discriminate.
  - rewrite check_multiply_defined_spec, Hg. simpl.
    split; [reflexivity | split; [reflexivity |]].
    intros prog3' Heq. inversion Heq; subst.
    exists g. repeat split; auto.
Qed.
End IntrastageProperties.

(** *** Concrete units *)

Definition void_function (fname : string) : ir_instruction :=
  ir_function fname [mk_signature [] true false [ir_return None]].

Definition unit_with_functions (l : list ir_instruction)
    (functions : gmap string (list ir_function_signature)) : gl_shader :=
  mk_shader MESA_SHADER_VERTEX l (mk_symbol_table ∅ functions).

Definition void_signatures : list ir_function_signature :=
  [mk_signature [] true false [ir_return None]].

(** Two units that both define [void foo()] and [void bar()]. *)
Definition unit_foo_bar : gl_shader :=
  unit_with_functions [void_function "foo"; void_function "bar"]
    (<["foo" := void_signatures]> (<["bar" := void_signatures]> ∅)).

Definition unit_bar_foo : gl_shader :=
  unit_with_functions [void_function "bar"; void_function "foo"]
    (<["foo" := void_signatures]> (<["bar" := void_signatures]> ∅)).

Definition sample_link_intrastage_shaders :=
  link_intrastage_shaders sample_contains_atomic sample_has_value
    sample_mode_string (fun p _ => p) (fun p _ => p) (fun p _ => (p, None)).

Lemma bar_multiply_defined :
  multiply_defined "bar" [unit_foo_bar; unit_bar_foo].
Proof.
  exists [], unit_foo_bar, [], unit_bar_foo, []. split; [reflexivity |].
  exists void_signatures, (mk_signature [] true false [ir_return None]),
    void_signatures, (mk_signature [] true false [ir_return None]).
  repeat split; try reflexivity.
  - simpl. right. left. reflexivity.
  - simpl. left. reflexivity.
Qed.

Lemma multiply_defined_function_rejected_witness :
  snd (sample_link_intrastage_shaders program_version_110
         [unit_foo_bar; unit_bar_foo]) = None
  /\ LinkStatus (fst (sample_link_intrastage_shaders program_version_110
                        [unit_foo_bar; unit_bar_foo])) = false
  /\ forall prog3,
       intrastage_validated sample_contains_atomic sample_has_value
         sample_mode_string (fun p _ => p) (fun p _ => p)
         program_version_110 [unit_foo_bar; unit_bar_foo] = inr prog3 ->
       exists g,
         multiply_defined g [unit_foo_bar; unit_bar_foo]
         /\ first_multiply_defined [unit_foo_bar; unit_bar_foo] = Some g
         /\ fst (sample_link_intrastage_shaders program_version_110
                   [unit_foo_bar; unit_bar_foo])
            = linker_error prog3 (multiply_defined_message g)
         /\ ((forall h, multiply_defined h [unit_foo_bar; unit_bar_foo] ->
                        h = "bar") -> g = "bar").
Proof.
  apply (multiply_defined_function_rejected sample_contains_atomic
           sample_has_value sample_mode_string (fun p _ => p) (fun p _ => p)
           (fun p _ => (p, None)) program_version_110
           [unit_foo_bar; unit_bar_foo] "bar").
  exists [], unit_foo_bar, [], unit_bar_foo, []. split; [reflexivity |].
  exists void_signatures, (mk_signature [] true false [ir_return None]),
    void_signatures, (mk_signature [] true false [ir_return None]).
  repeat split; try reflexivity.
  - simpl. right. left. reflexivity.
  - simpl. left. reflexivity.
Defined.

(** C8 does not hold as worded: both units define [bar], yet the one
    error in the log names [foo], the first clash the search comes
    across, and the function has returned before looking at [bar]. *)
Lemma multiply_defined_error_names_first_only :
  multiply_defined "bar" [unit_foo_bar; unit_bar_foo]
  /\ InfoLog (fst (sample_link_intrastage_shaders program_version_110
                     [unit_foo_bar; unit_bar_foo]))
     = "error: function `foo' is multiply defined"
  /\ snd (sample_link_intrastage_shaders program_version_110
            [unit_foo_bar; unit_bar_foo]) = None.
Proof.
  split; [exact bar_multiply_defined | split; reflexivity].
Qed.


(* ===================================================================== *)
(** ** The linker's operations move the program by linker steps *)
(* ===================================================================== *)

Lemma linker_steps_error (p q : gl_shader_program) (msg : string) :
  linker_steps p q -> linker_steps p (linker_error q msg).
Proof.
  intros H. eapply linker_steps_trans; [exact H |].
  apply (steps_cons q (linker_error q msg) (linker_error q msg));
    [apply step_error | apply steps_refl].
Qed.

Lemma linker_steps_quiet (p q : gl_shader_program) :
  InfoLog q = InfoLog p -> LinkStatus q = LinkStatus p -> linker_steps p q.
Proof.
  intros Hl Hs.
  apply (steps_cons p q q); [now apply step_quiet | apply steps_refl].
Qed.

Lemma validate_vertex_shader_executable_steps (prog : gl_shader_program)
    (shader : option gl_shader) :
  linker_steps prog (validate_vertex_shader_executable prog shader).
Proof.
  destruct shader as [sh |]; [| apply steps_refl].
  assert (Hanalyze :
            linker_steps prog
              (let '(prog', uses, size) :=
                 analyze_clip_usage "vertex" prog sh
                   (Vert_UsesClipDistance prog) in
               set_Vert_clip uses size prog')).
  { pose proof (analyze_clip_usage_program "vertex" prog sh
                  (Vert_UsesClipDistance prog)) as H.
    destruct (analyze_clip_usage "vertex" prog sh (Vert_UsesClipDistance prog))
      as [[prog' uses] size].
    simpl in H.
    eapply linker_steps_trans;
      [| apply (linker_steps_quiet prog'); reflexivity].
    destruct H as [-> | ->];
      [apply steps_refl | apply linker_steps_error, steps_refl]. }
  unfold validate_vertex_shader_executable.
  destruct (Version prog <? (if IsES prog then 300 else 140));
    [| exact Hanalyze].
  destruct (negb (find_assignment "gl_Position" (ir sh)));
    [apply linker_steps_error, steps_refl | exact Hanalyze].
Qed.

Lemma validate_fragment_shader_executable_steps (prog : gl_shader_program)
    (shader : option gl_shader) :
  linker_steps prog (validate_fragment_shader_executable prog shader).
Proof.
  destruct shader as [sh |]; [| apply steps_refl].
  unfold validate_fragment_shader_executable.
  destruct (find_assignment "gl_FragColor" (ir sh)
            && find_assignment "gl_FragData" (ir sh))%bool;
    [apply linker_steps_error |]; apply steps_refl.
Qed.

Lemma for_each_steps {X A : Type}
    (body : X -> gl_shader_program * A -> flow (gl_shader_program * A))
    (l : list X) :
  (forall x st, linker_steps (fst st) (fst (flow_value (body x st)))) ->
  forall st, linker_steps (fst st) (fst (flow_value (for_each body l st))).
Proof.
  intros Hbody. induction l as [| x l IH]; intros st; simpl;
    [apply steps_refl |].
  pose proof (Hbody x st) as Hx.
  destruct (body x st) as [st' | st']; simpl in Hx; [| exact Hx].
  eapply linker_steps_trans; [exact Hx | apply IH].
Qed.

Lemma cross_validate_globals_steps
    (contains_atomic : glsl_type -> bool)
    (has_value : ir_constant -> ir_constant -> bool)
    (mode_string : ir_variable -> string)
    (prog : gl_shader_program) (shader_list : list (option gl_shader))
    (uniforms_only : bool) :
  linker_steps prog
    (cross_validate_globals contains_atomic has_value mode_string
       prog shader_list uniforms_only).
Proof.
  unfold cross_validate_globals, cross_validate_globals_table.
  apply (for_each_steps _ shader_list) with (st := (prog, ∅)).
  intros [sh |] st; [| apply steps_refl].
  unfold cross_validate_shader. apply for_each_steps.
  intros node [p variables]. unfold cross_validate_node.
  destruct (as_variable node) as [v |]; [| apply steps_refl].
  destruct (uniforms_only && negb (bool_decide (mode v = ir_var_uniform)))%bool;
    [apply steps_refl |].
  destruct (bool_decide (mode v = ir_var_temporary)); [apply steps_refl |].
  destruct (variables !! name v) as [e |]; [| apply steps_refl].
  pose proof (cross_validate_pair_cases contains_atomic has_value
                mode_string v e p) as Hpair.
  destruct (returning_mismatch contains_atomic has_value v e).
  - destruct Hpair as (p0 & msg & e' & -> & Hsteps & _). simpl.
    now apply linker_steps_error.
  - rewrite Hpair. simpl. apply frag_depth_checked_steps.
Qed.

Lemma check_multiply_defined_steps (shader_list : list gl_shader)
    (prog : gl_shader_program) :
  linker_steps prog (flow_value (check_multiply_defined shader_list prog)).
Proof.
  rewrite check_multiply_defined_spec.
  destruct (first_multiply_defined shader_list); simpl;
    [apply linker_steps_error |]; apply steps_refl.
Qed.

Lemma assign_attribute_or_color_locations_steps
    (count_attribute_slots : glsl_type -> Z)
    (qsort : (temp_attr -> temp_attr -> Z) ->
             list temp_attr -> list temp_attr)
    (VERT_ATTRIB_GENERIC0 FRAG_RESULT_DATA0 : Z)
    (prog : gl_shader_program) (target_index : gl_shader_stage)
    (max_index : Z) (ok : bool) (prog' : gl_shader_program) :
  assign_attribute_or_color_locations count_attribute_slots qsort
    VERT_ATTRIB_GENERIC0 FRAG_RESULT_DATA0 prog target_index max_index
  = Some (ok, prog') ->
  linker_steps prog prog'.
Proof.
  unfold assign_attribute_or_color_locations.
  destruct (LinkedShaders prog target_index) as [sh |].
  - destruct (assign_locations _ _ _ _ prog target_index max_index sh);
      intros H; inversion H; subst.
    + now apply linker_steps_quiet.
    + apply linker_steps_error. now apply linker_steps_quiet.
  - intros H. inversion H; subst. apply steps_refl.
Qed.


(* ===================================================================== *)
(** * Further properties of the linker *)
(* ===================================================================== *)

(* ===================================================================== *)
(** ** The slot search finds the first free run *)
(* ===================================================================== *)

(** The [n] slots from [r] on are unused in the mask. *)
Definition free_run (used r n : Z) : Prop :=
  forall k, r <= k < r + n -> Z.testbit used k = false.

Lemma bit_not_spec (used k : Z) :
  0 <= k < UINT_BITS ->
  Z.testbit (bit_not used) k = negb (Z.testbit used k).
Proof.
  intros Hk. unfold bit_not, to_uint, UINT_MOD, UINT_BITS in *.
  rewrite Z.mod_pow2_bits_low by lia. apply Z.lnot_spec. lia.
Qed.

Lemma run_mask_spec (n i k : Z) :
  0 <= n -> 0 <= i -> 0 <= k ->
  Z.testbit (Z.shiftl (Z.ones n) i) k = ((i <=? k) && (k <? i + n))%bool.
Proof.
  intros Hn Hi Hk. rewrite Z.shiftl_spec by lia.
  destruct (i <=? k) eqn:Hik; simpl.
  - apply Z.leb_le in Hik. destruct (k <? i + n) eqn:Hkn.
    + apply Z.ltb_lt in Hkn. apply Z.ones_spec_low. lia.
    + apply Z.ltb_ge in Hkn. apply Z.ones_spec_high. lia.
  - apply Z.leb_gt in Hik. apply Z.testbit_neg_r. lia.
Qed.

Lemma run_mask_range (n i : Z) :
  0 <= n -> 0 <= i -> i + n <= UINT_BITS ->
  to_uint (Z.shiftl (Z.ones n) i) = Z.shiftl (Z.ones n) i.
Proof.
  intros Hn Hi Hin. unfold to_uint, UINT_MOD, UINT_BITS in *.
  apply Z.mod_small.
  rewrite Z.shiftl_mul_pow2, Z.ones_equiv by lia.
  assert (H1 : 0 < 2 ^ n) by (apply Z.pow_pos_nonneg; lia).
  assert (H2 : 0 < 2 ^ i) by (apply Z.pow_pos_nonneg; lia).
  assert (H3 : 2 ^ n * 2 ^ i <= 2 ^ 32).
  { rewrite <- Z.pow_add_r by lia. apply Z.pow_le_mono_r; lia. }
  nia.
Qed.

(** The test of the loop body, read on the bits. *)
Lemma run_mask_test (used n i : Z) :
  0 <= n -> 0 <= i -> i + n <= UINT_BITS ->
  (Z.land (Z.shiftl (Z.ones n) i) (bit_not used)
   =? Z.shiftl (Z.ones n) i) = true
  <-> free_run used i n.
Proof.
  intros Hn Hi Hin. rewrite Z.eqb_eq. split.
  - intros Heq k Hk.
    assert (Hbit : Z.testbit (Z.shiftl (Z.ones n) i) k = true).
    { rewrite run_mask_spec by lia.
      apply andb_true_iff. split; [apply Z.leb_le | apply Z.ltb_lt]; lia. }
    assert (Hl : Z.testbit (Z.land (Z.shiftl (Z.ones n) i) (bit_not used)) k
                 = true) by (rewrite Heq; exact Hbit).
    rewrite Z.land_spec in Hl. apply andb_true_iff in Hl as [_ Hl].
    rewrite bit_not_spec in Hl by (unfold UINT_BITS in *; lia).
    now apply negb_true_iff in Hl.
  - intros Hfree. apply Z.bits_inj'. intros k Hk.
    rewrite Z.land_spec, run_mask_spec by lia.
    destruct ((i <=? k) && (k <? i + n))%bool eqn:Hin'; [| reflexivity].
    apply andb_true_iff in Hin' as [H1 H2].
    apply Z.leb_le in H1. apply Z.ltb_lt in H2.
    rewrite bit_not_spec by (unfold UINT_BITS in *; lia).
    rewrite Hfree by lia. reflexivity.
Qed.

Lemma find_available_slots_loop_spec (used n : Z) :
  1 <= n ->
  forall (c : nat) (i : Z) (tested : list Z),
    0 <= i ->
    i + Z.of_nat c = UINT_BITS + 1 - n ->
    let r := fst (find_available_slots_loop c i
                    (to_uint (Z.shiftl (Z.ones n) i)) used tested) in
    (r = -1 /\ forall j, i <= j <= UINT_BITS - n -> ~ free_run used j n)
    \/ (i <= r <= UINT_BITS - n
        /\ free_run used r n
        /\ forall j, i <= j < r -> ~ free_run used j n).
Proof.
  intros Hn c. induction c as [| c IH]; intros i tested Hi Hc; simpl.
  - left. split; [reflexivity |]. intros j Hj. lia.
  - rewrite run_mask_range by lia.
    destruct (Z.land (Z.shiftl (Z.ones n) i) (bit_not used)
              =? Z.shiftl (Z.ones n) i) eqn:Htest.
    + simpl. right. apply run_mask_test in Htest; [| lia | lia | lia].
      split; [lia | split; [exact Htest |]]. intros j Hj. lia.
    + assert (Hnot : ~ free_run used i n).
      { intros Hf. apply run_mask_test in Hf; [| lia | lia | lia].
        congruence. }
      assert (Hmask : shl (Z.shiftl (Z.ones n) i) 1
                      = to_uint (Z.shiftl (Z.ones n) (i + 1))).
      { rewrite shl_small by (unfold UINT_BITS; lia).
        now rewrite Z.shiftl_shiftl by lia. }
      rewrite Hmask.
      destruct (IH (i + 1) (tested ++ [i])%list ltac:(lia) ltac:(lia))
        as [[Hr Hnone] | (Hr & Hfree & Hmin)].
      * left. split; [exact Hr |]. intros j Hj.
        destruct (Z.eq_dec j i) as [-> | Hne];
          [exact Hnot | apply Hnone; lia].
      * right. split; [lia | split; [exact Hfree |]]. intros j Hj.
        destruct (Z.eq_dec j i) as [-> | Hne];
          [exact Hnot | apply Hmin; lia].
Qed.

Lemma find_available_slots_unfold (used n : Z) :
  1 <= n < UINT_BITS - 1 ->
  find_available_slots used n
  = fst (find_available_slots_loop (Z.to_nat (UINT_BITS + 1 - n)) 0
           (to_uint (Z.shiftl (Z.ones n) 0)) used []).
Proof.
  intros Hn. unfold find_available_slots, find_available_slots_trace.
  unfold UINT_BITS in *.
  assert (Hmax : to_int (8 * 4 - n) = 32 - n).
  { unfold to_int, to_uint, UINT_MOD, UINT_BITS.
    rewrite Z.mod_small by lia.
    replace (8 * 4 - n <? 2 ^ (32 - 1)) with true
      by (symmetry; apply Z.ltb_lt; lia).
    lia. }
  rewrite Hmax.
  replace (n =? 0) with false by (symmetry; apply Z.eqb_neq; lia).
  replace (32 - n <? 0) with false by (symmetry; apply Z.ltb_ge; lia).
  replace (32 - n >? 32) with false
    by (symmetry; rewrite Z.gtb_ltb; apply Z.ltb_ge; lia).
  simpl orb. cbv iota.
  assert (Hmask : to_uint (shl 1 n - 1) = to_uint (Z.shiftl (Z.ones n) 0)).
  { rewrite Z.shiftl_0_r, Z.ones_equiv.
    rewrite shl_small by (unfold UINT_BITS; lia).
    rewrite Z.shiftl_1_l.
    assert (H1 : 0 < 2 ^ n) by (apply Z.pow_pos_nonneg; lia).
    assert (H2 : 2 ^ n < 2 ^ 32) by (apply Z.pow_lt_mono_r; lia).
    unfold to_uint at 2, UINT_MOD, UINT_BITS.
    rewrite Z.mod_small by lia. f_equal. }
  rewrite Hmask. now replace (32 - n + 1) with (32 + 1 - n) by lia.
Qed.

(** The two ways the search ends. *)
Lemma find_available_slots_outcome (used n : Z) :
  1 <= n < UINT_BITS - 1 ->
  let r := find_available_slots used n in
  (r = -1 /\ forall j, 0 <= j <= UINT_BITS - n -> ~ free_run used j n)
  \/ (0 <= r <= UINT_BITS - n
      /\ free_run used r n
      /\ forall j, 0 <= j < r -> ~ free_run used j n).
Proof.
  intros Hn r. subst r. rewrite find_available_slots_unfold by exact Hn.
  apply (find_available_slots_loop_spec used n ltac:(lia)
           (Z.to_nat (UINT_BITS + 1 - n)) 0 []);
    unfold UINT_BITS in *; lia.
Qed.

Lemma find_available_slots_zero (used : Z) :
  find_available_slots used 0 = -1.
Proof. reflexivity. Qed.

(** X1.  When the search answers with a base location, the slots from
    there on are free in the mask and fit below bit 32, and no smaller
    base offers such a run: the search is first fit.  (Counts up to 30
    keep the mask [(1 << n) - 1] inside what C defines.) *)
Theorem find_available_slots_first_fit (used n r : Z) :
  1 <= n < UINT_BITS - 1 ->
  find_available_slots used n = r ->
  0 <= r ->
  r + n <= UINT_BITS
  /\ free_run used r n
  /\ forall j, 0 <= j < r -> ~ free_run used j n.
Proof.
  intros Hn Hr Hpos. rewrite find_available_slots_unfold in Hr by exact Hn.
  destruct (find_available_slots_loop_spec used n ltac:(lia)
              (Z.to_nat (UINT_BITS + 1 - n)) 0 []
              ltac:(lia) ltac:(unfold UINT_BITS in *; lia))
    as [[H1 _] | (H1 & H2 & H3)]; rewrite Hr in *.
  - lia.
  - split; [lia | split; [exact H2 | exact H3]].
Qed.

Lemma find_available_slots_first_fit_witness :
  3 + 2 <= UINT_BITS
  /\ free_run 7 3 2
  /\ forall j, 0 <= j < 3 -> ~ free_run 7 j 2.
Proof.
  apply (find_available_slots_first_fit 7 2 3).
  - unfold UINT_BITS. lia.
  - reflexivity.
  - lia.
Defined.

(** X2.  The search answers -1 only when the mask has no run of [n] free
    slots below bit 32, and it answers nothing but -1 or a base
    location. *)
Theorem find_available_slots_none (used n : Z) :
  1 <= n < UINT_BITS - 1 ->
  (find_available_slots used n = -1
   \/ 0 <= find_available_slots used n <= UINT_BITS - n)
  /\ (find_available_slots used n = -1 ->
      forall j, 0 <= j <= UINT_BITS - n -> ~ free_run used j n).
Proof.
  intros Hn. rewrite find_available_slots_unfold by exact Hn.
  destruct (find_available_slots_loop_spec used n ltac:(lia)
              (Z.to_nat (UINT_BITS + 1 - n)) 0 []
              ltac:(lia) ltac:(unfold UINT_BITS in *; lia))
    as [[H1 H2] | (H1 & H2 & H3)].
  - split; [now left | intros _; exact H2].
  - split; [right; exact H1 |]. intros Heq. lia.
Qed.

Lemma find_available_slots_none_witness :
  (find_available_slots (bit_not 0) 1 = -1
   \/ 0 <= find_available_slots (bit_not 0) 1 <= UINT_BITS - 1)
  /\ (find_available_slots (bit_not 0) 1 = -1 ->
      forall j, 0 <= j <= UINT_BITS - 1 -> ~ free_run (bit_not 0) j 1).
Proof.
  apply (find_available_slots_none (bit_not 0) 1).
  unfold UINT_BITS. lia.
Defined.

(* ===================================================================== *)
(** ** Location assignment: where the variables end up *)
(* ===================================================================== *)

Lemma update_variable_length (f : ir_variable -> ir_variable) (p : nat)
    (l : list ir_instruction) :
  length (update_variable f p l) = length l.
Proof. unfold update_variable. apply length_alter. Qed.

Lemma update_variable_other (f : ir_variable -> ir_variable) (p q : nat)
    (l : list ir_instruction) :
  p <> q -> update_variable f p l !! q = l !! q.
Proof. intros H. unfold update_variable. now apply list_lookup_alter_ne. Qed.

Lemma update_variable_same (f : ir_variable -> ir_variable) (p : nat)
    (l : list ir_instruction) (v : ir_variable) :
  l !! p = Some (ir_variable_decl v) ->
  update_variable f p l !! p = Some (ir_variable_decl (f v)).
Proof.
  intros H. unfold update_variable. rewrite list_lookup_alter_eq, H.
  reflexivity.
Qed.

Lemma update_variable_const (v1 : ir_variable) (p : nat)
    (l : list ir_instruction) (v : ir_variable) :
  l !! p = Some (ir_variable_decl v) ->
  update_variable (fun _ => v1) p l !! p = Some (ir_variable_decl v1).
Proof. apply (update_variable_same (fun _ => v1)). Qed.

Lemma update_variable_not_variable (f : ir_variable -> ir_variable)
    (p q : nat) (l : list ir_instruction) (node : ir_instruction) :
  l !! q = Some node -> as_variable node = None ->
  update_variable f p l !! q = Some node.
Proof.
  intros Hq Hn. destruct (decide (p = q)) as [-> | Hne].
  - unfold update_variable. rewrite list_lookup_alter_eq, Hq. simpl.
    now rewrite Hn.
  - now rewrite update_variable_other.
Qed.

Lemma apply_bindings_fields (prog : gl_shader_program)
    (target_index : gl_shader_stage) (v : ir_variable) :
  let v1 := apply_bindings prog target_index v in
  type v1 = type v /\ mode v1 = mode v /\ name v1 = name v
  /\ explicit_location v1 = explicit_location v.
Proof.
  unfold apply_bindings.
  destruct (decide (target_index = MESA_SHADER_VERTEX)).
  - destruct (AttributeBindings prog !! name v); simpl; auto.
  - destruct (decide (target_index = MESA_SHADER_FRAGMENT)); simpl; auto.
    destruct (FragDataBindings prog !! name v); simpl; auto.
    destruct (FragDataIndexBindings prog !! name v); simpl; auto.
Qed.

(** A bound variable is marked as matched. *)
Lemma apply_bindings_matched (prog : gl_shader_program)
    (target_index : gl_shader_stage) (v : ir_variable) (b : Z) :
  target_bindings prog target_index !! name v = Some b ->
  is_unmatched_generic_inout (apply_bindings prog target_index v) = false.
Proof.
  unfold target_bindings, apply_bindings.
  destruct (decide (target_index = MESA_SHADER_VERTEX));
    [now intros -> |].
  destruct (decide (target_index = MESA_SHADER_FRAGMENT));
    [| now rewrite lookup_empty].
  intros ->. now destruct (FragDataIndexBindings prog !! name v).
Qed.

Definition set_mode (m : ir_variable_mode) (v : ir_variable) : ir_variable :=
  mk_variable (name v) (type v) m (explicit_location v) (location v)
    (explicit_binding v) (binding v) (atomic_offset v) (index v)
    (depth_layout v) (used v) (constant_initializer v) (has_initializer v)
    (invariant v) (centroid v) (is_unmatched_generic_inout v).

(** [demote_shader_inputs_and_outputs]: the declarations of [sh->ir]
    after the call. *)
Definition demote_shader_inputs_and_outputs (l : list ir_instruction)
    (mode_ : ir_variable_mode) : list ir_instruction :=
  map (fun node =>
         match as_variable node with
         | None => node
         | Some v =>
             if negb (bool_decide (mode v = mode_)) then node
             else if is_unmatched_generic_inout v
                  then ir_variable_decl (set_mode ir_var_auto v)
                  else node
         end) l.

Lemma lookup_map {A B : Type} (f : A -> B) (l : list A) (i : nat) :
  map f l !! i = f <$> l !! i.
Proof.
  revert i. induction l as [| x l IH]; intros [| i]; simpl; auto.
Qed.

(** The initial mask has every slot from [max_index] on marked as used. *)
Lemma initial_mask_reserved (max_index k : Z) :
  0 <= max_index -> max_index <= k < UINT_BITS ->
  Z.testbit (if max_index >=? 32 then bit_not 0
             else bit_not (to_uint (shl 1 max_index - 1))) k = true.
Proof.
  intros Hmax Hk. unfold UINT_BITS in *.
  destruct (max_index >=? 32) eqn:Hbig.
  - apply Z.geb_le in Hbig. lia.
  - rewrite bit_not_spec by (unfold UINT_BITS; lia).
    assert (Hones : to_uint (shl 1 max_index - 1) = Z.ones max_index).
    { rewrite Z.geb_leb in Hbig. apply Z.leb_gt in Hbig.
      rewrite shl_small by (unfold UINT_BITS; lia).
      rewrite Z.shiftl_1_l, Z.ones_equiv.
      assert (H1 : 0 < 2 ^ max_index) by (apply Z.pow_pos_nonneg; lia).
      assert (H2 : 2 ^ max_index < 2 ^ 32)
        by (apply Z.pow_lt_mono_r; lia).
      unfold to_uint, UINT_MOD, UINT_BITS.
      rewrite (Z.mod_small (2 ^ max_index)) by lia.
      rewrite Z.mod_small by lia. lia. }
    rewrite Hones, Z.ones_spec_high by lia. reflexivity.
Qed.

Section AllocatorInvariants.
Variable count_attribute_slots : glsl_type -> Z.
Variable qsort :
  (temp_attr -> temp_attr -> Z) -> list temp_attr -> list temp_attr.
Variable VERT_ATTRIB_GENERIC0 : Z.
Variable FRAG_RESULT_DATA0 : Z.

Local Abbreviation locations :=
  (assign_locations count_attribute_slots qsort
     VERT_ATTRIB_GENERIC0 FRAG_RESULT_DATA0).
Local Abbreviation collect_from :=
  (collect count_attribute_slots VERT_ATTRIB_GENERIC0 FRAG_RESULT_DATA0).
Local Abbreviation collect_at :=
  (collect_node count_attribute_slots VERT_ATTRIB_GENERIC0
     FRAG_RESULT_DATA0).
Local Abbreviation assign_in_order :=
  (assign_sorted VERT_ATTRIB_GENERIC0 FRAG_RESULT_DATA0).
Local Abbreviation base_of :=
  (generic_base VERT_ATTRIB_GENERIC0 FRAG_RESULT_DATA0).

(** What the first loop leaves in place of a node. *)
Definition collected_node (prog : gl_shader_program)
    (target_index : gl_shader_stage) (node : ir_instruction)
    : ir_instruction :=
  match as_variable node with
  | Some v =>
      if bool_decide (mode v = direction target_index) then
        ir_variable_decl
          (if explicit_location v then v
           else apply_bindings prog target_index v)
      else node
  | None => node
  end.

(** The entry the first loop appends for a node, if any. *)
Definition collected_entry (prog : gl_shader_program)
    (target_index : gl_shader_stage) (pos : nat) (node : ir_instruction)
    : list temp_attr :=
  match as_variable node with
  | Some v =>
      if is_collected prog target_index node
      then [mk_temp_attr (count_attribute_slots (type v)) pos]
      else []
  | None => []
  end.

Definition covers (used used' : Z) : Prop :=
  forall k, Z.testbit used k = true -> Z.testbit used' k = true.

Lemma covers_lor (used m : Z) : covers used (Z.lor used m).
Proof. intros k H. now rewrite Z.lor_spec, H. Qed.

Lemma collect_node_ok (prog : gl_shader_program)
    (target_index : gl_shader_stage) (max_index : Z) (pos : nat)
    (node : ir_instruction) (st st1 : collect_state) :
  collect_at prog target_index max_index pos node st = alloc_ok st1 ->
  cs_ir st !! pos = Some node ->
  covers (used_locations st) (used_locations st1)
  /\ length (cs_ir st1) = length (cs_ir st)
  /\ (forall q, q <> pos -> cs_ir st1 !! q = cs_ir st !! q)
  /\ cs_ir st1 !! pos = Some (collected_node prog target_index node)
  /\ to_assign st1
     = (to_assign st ++ collected_entry prog target_index pos node)%list.
Proof.
  unfold collect_node, collected_node, collected_entry, is_collected.
  intros Hok Hpos.
  destruct node; simpl in *;
    try (inversion Hok; subst; rewrite app_nil_r;
         repeat split; auto; intros k Hk; exact Hk).
  destruct (bool_decide (mode var0 = direction target_index)); simpl in *;
    [| inversion Hok; subst; rewrite app_nil_r;
       repeat split; auto; intros k Hk; exact Hk].
  destruct (explicit_location var0) eqn:Hexp; simpl in *.
  - destruct (location var0 >=? _) eqn:Hhigh; simpl in Hok;
      [discriminate |].
    destruct (location var0 <? 0) eqn:Hneg; simpl in Hok; [discriminate |].
    apply Z.ltb_ge in Hneg.
    replace (location var0 =? -1) with false in Hok
      by (symmetry; apply Z.eqb_neq; lia).
    simpl in Hok. rewrite app_nil_r.
    destruct (_ && _)%bool in Hok; [destruct (negb _) in Hok |];
      inversion Hok; subst; simpl;
      (split; [first [apply covers_lor | intros k Hk; exact Hk] |]);
      (split; [apply update_variable_length |]);
      (split; [intros q Hq; apply update_variable_other; congruence |]);
      (split; [now apply update_variable_const with var0 | reflexivity]).
  - pose proof (apply_bindings_fields prog target_index var0)
      as (Hty & _). simpl in Hty.
    destruct (location (apply_bindings prog target_index var0) =? -1)
      eqn:Hloc; simpl in Hok.
    + destruct (Z.of_nat (length (to_assign st)) <? TO_ASSIGN_CAPACITY);
        [| discriminate].
      inversion Hok; subst; simpl. rewrite Hty.
      split; [intros k Hk; exact Hk |].
      split; [apply update_variable_length |].
      split; [intros q Hq; apply update_variable_other; congruence |].
      split; [now apply update_variable_const with var0 | reflexivity].
    + rewrite app_nil_r.
      destruct (_ && _)%bool in Hok; [destruct (negb _) in Hok |];
        inversion Hok; subst; simpl;
        (split; [first [apply covers_lor | intros k Hk; exact Hk] |]);
        (split; [apply update_variable_length |]);
        (split; [intros q Hq; apply update_variable_other; congruence |]);
        (split; [now apply update_variable_const with var0 | reflexivity]).
Qed.
Lemma covers_trans (a b c : Z) : covers a b -> covers b c -> covers a c.
Proof. intros H1 H2 k Hk. apply H2, H1, Hk. Qed.

Lemma collected_entry_position (prog : gl_shader_program)
    (target_index : gl_shader_stage) (pos : nat) (node : ir_instruction)
    (a : temp_attr) :
  In a (collected_entry prog target_index pos node) ->
  exists v, node = ir_variable_decl v
            /\ is_collected prog target_index node = true
            /\ a = mk_temp_attr (count_attribute_slots (type v)) pos.
Proof.
  unfold collected_entry. destruct node; simpl; try tauto.
  destruct (is_collected prog target_index (ir_variable_decl var0));
    simpl; [| tauto].
  intros [<- | []]. eauto.
Qed.

Lemma collect_ok (prog : gl_shader_program)
    (target_index : gl_shader_stage) (max_index : Z)
    (nodes : list ir_instruction) :
  forall (pos : nat) (st st' : collect_state),
    collect_from prog target_index max_index pos nodes st = alloc_ok st' ->
    (forall j node, nodes !! j = Some node ->
                    cs_ir st !! (pos + j)%nat = Some node) ->
    covers (used_locations st) (used_locations st')
    /\ length (cs_ir st') = length (cs_ir st)
    /\ (forall j node,
          nodes !! j = Some node ->
          cs_ir st' !! (pos + j)%nat
          = Some (collected_node prog target_index node))
    /\ (forall q, (q < pos)%nat -> cs_ir st' !! q = cs_ir st !! q)
    /\ (forall a,
          In a (to_assign st')
          <-> In a (to_assign st)
              \/ exists j node,
                   nodes !! j = Some node
                   /\ In a (collected_entry prog target_index
                              (pos + j)%nat node)).
Proof.
  induction nodes as [| node nodes IH]; intros pos st st' Hok Halign.
  - simpl in Hok. inversion Hok; subst.
    split; [intros k Hk; exact Hk |]. split; [reflexivity |].
    split; [intros j n Hj; discriminate |]. split; [reflexivity |].
    intros a. split; [auto |]. intros [H | (j & n & Hj & _)];
      [exact H | discriminate].
  - simpl in Hok.
    destruct (collect_at prog target_index max_index pos node st)
      as [st1 | |] eqn:Hnode; try discriminate.
    assert (Hpos : cs_ir st !! pos = Some node).
    { specialize (Halign 0%nat node eq_refl).
      now rewrite Nat.add_0_r in Halign. }
    destruct (collect_node_ok _ _ _ _ _ _ _ Hnode Hpos)
      as (Hcov1 & Hlen1 & Hother1 & Hsame1 & Hassign1).
    assert (Halign1 : forall j n, nodes !! j = Some n ->
                                  cs_ir st1 !! (S pos + j)%nat = Some n).
    { intros j n Hj. rewrite Hother1 by lia.
      specialize (Halign (S j) n Hj).
      now replace (pos + S j)%nat with (S pos + j)%nat in Halign by lia. }
    destruct (IH (S pos) st1 st' Hok Halign1)
      as (Hcov & Hlen & Hnodes & Hbefore & Hassign).
    split; [eapply covers_trans; eauto |].
    split; [congruence |].
    split; [| split].
    + intros [| j] n Hj.
      * simpl in Hj. inversion Hj; subst. rewrite Nat.add_0_r.
        rewrite Hbefore by lia. exact Hsame1.
      * simpl in Hj.
        replace (pos + S j)%nat with (S pos + j)%nat by lia.
        now apply Hnodes.
    + intros q Hq. rewrite Hbefore by lia. apply Hother1. lia.
    + intros a. rewrite Hassign, Hassign1, in_app_iff. split.
      * intros [[H | H] | (j & n & Hj & Hin)].
        -- now left.
        -- right. exists 0%nat, node. rewrite Nat.add_0_r. auto.
        -- right. exists (S j), n.
           replace (pos + S j)%nat with (S pos + j)%nat by lia. auto.
      * intros [H | ([| j] & n & Hj & Hin)].
        -- left. now left.
        -- simpl in Hj. inversion Hj; subst.
           rewrite Nat.add_0_r in Hin. left. now right.
        -- right. exists j, n. simpl in Hj.
           replace (S pos + j)%nat with (pos + S j)%nat by lia. auto.
Qed.

(** What the last loop does to the declarations. *)
Lemma assign_sorted_shape (target_index : gl_shader_stage)
    (sorted : list temp_attr) :
  forall (l : list ir_instruction) (used : Z) (l' : list ir_instruction),
    assign_in_order target_index sorted l used = alloc_ok l' ->
    length l' = length l
    /\ (forall q node, l !! q = Some node -> as_variable node = None ->
                       l' !! q = Some node)
    /\ (forall q v,
          l !! q = Some (ir_variable_decl v) ->
          exists v',
            l' !! q = Some (ir_variable_decl v')
            /\ mode v' = mode v /\ name v' = name v /\ type v' = type v
            /\ (~ In q (map var sorted) -> v' = v)
            /\ (In q (map var sorted) ->
                is_unmatched_generic_inout v' = false
                /\ exists a used_a,
                     In a sorted /\ var a = q
                     /\ covers used used_a
                     /\ 0 <= find_available_slots used_a (slots a)
                     /\ location v'
                        = to_int (base_of target_index
                                  + find_available_slots used_a (slots a)))).
Proof.
  induction sorted as [| a sorted IH]; intros l used l' Hok.
  - simpl in Hok. inversion Hok; subst.
    split; [reflexivity |]. split; [auto |].
    intros q v Hq. exists v. split; [exact Hq |].
    split; [reflexivity |]. split; [reflexivity |]. split; [reflexivity |].
    split; [reflexivity | intros []].
  - simpl in Hok.
    destruct (find_available_slots used (slots a) <? 0) eqn:Hfound;
      [discriminate |].
    apply Z.ltb_ge in Hfound.
    set (f := fun v => set_is_unmatched_generic_inout false
                         (set_location
                            (to_int (base_of target_index
                                     + find_available_slots used (slots a)))
                            v)) in *.
    set (used1 := Z.lor used _) in Hok.
    destruct (IH _ _ _ Hok) as (Hlen & Hnonvar & Hvar).
    split; [now rewrite Hlen, update_variable_length |].
    split.
    + intros q node Hq Hn. apply Hnonvar; [| exact Hn].
      now apply update_variable_not_variable.
    + intros q v Hq.
      destruct (decide (var a = q)) as [Heq | Hne].
      * subst q.
        destruct (Hvar (var a) (f v)
                    (update_variable_same f _ _ _ Hq))
          as (v' & Hl' & Hm & Hname & Hty & Hout & Hin).
        exists v'. split; [exact Hl' |].
        split; [exact Hm |]. split; [exact Hname |]. split; [exact Hty |].
        split; [intros Hno; exfalso; apply Hno; now left |].
        intros _.
        destruct (in_dec Nat.eq_dec (var a) (map var sorted)) as [Hi | Hni].
        -- destruct (Hin Hi) as (Hu & a' & ua & Ha' & Hva & Hc & Hf & Hloc).
           split; [exact Hu |]. exists a', ua.
           split; [now right |]. split; [exact Hva |].
           split; [eapply covers_trans; [apply covers_lor | exact Hc] |].
           auto.
        -- rewrite (Hout Hni). split; [reflexivity |].
           exists a, used. split; [now left |]. split; [reflexivity |].
           split; [intros k Hk; exact Hk |]. split; [exact Hfound |].
           reflexivity.
      * destruct (Hvar q v) as (v' & Hl' & Hm & Hname & Hty & Hout & Hin).
        { now rewrite update_variable_other. }
        exists v'. split; [exact Hl' |].
        split; [exact Hm |]. split; [exact Hname |]. split; [exact Hty |].
        split.
        -- intros Hno. apply Hout. intros Hi. apply Hno. now right.
        -- intros [Heq | Hi]; [congruence |].
           destruct (Hin Hi) as (Hu & a' & ua & Ha' & Hva & Hc & Hf & Hloc).
           split; [exact Hu |]. exists a', ua.
           split; [now right |]. split; [exact Hva |].
           split; [eapply covers_trans; [apply covers_lor | exact Hc] |].
           auto.
Qed.

(** The sort hands back the entries it was given, in some order. *)
Hypothesis qsort_permutes :
  forall compare l, Permutation (qsort compare l) l.

Lemma assign_locations_ok (prog : gl_shader_program)
    (target_index : gl_shader_stage) (max_index : Z) (sh : gl_shader)
    (l' : list ir_instruction) :
  locations prog target_index max_index sh = alloc_ok l' ->
  exists st sorted used1,
    collect_from prog target_index max_index 0 (ir sh)
      (mk_collect_state (ir sh)
         (if max_index >=? 32 then bit_not 0
          else bit_not (to_uint (shl 1 max_index - 1))) [])
    = alloc_ok st
    /\ Permutation sorted (to_assign st)
    /\ covers (used_locations st) used1
    /\ assign_in_order target_index sorted (cs_ir st) used1 = alloc_ok l'.
Proof.
  unfold assign_locations. intros Hok.
  destruct (collect_from prog target_index max_index 0 (ir sh) _)
    as [st | |] eqn:Hc; try discriminate.
  destruct (Z.of_nat (length (to_assign st)) =? 0) eqn:Hempty.
  - exists st, [], (used_locations st). split; [reflexivity |].
    apply Z.eqb_eq in Hempty.
    destruct (to_assign st); [| simpl in Hempty; lia].
    split; [constructor |]. split; [intros k Hk; exact Hk |].
    simpl. exact Hok.
  - eexists st, _, _. split; [reflexivity |].
    split; [apply qsort_permutes |]. split; [| exact Hok].
    destruct (decide (target_index = MESA_SHADER_VERTEX));
      [| intros k Hk; exact Hk].
    destruct (find_deref "gl_Vertex" (cs_ir st));
      [apply covers_lor | intros k Hk; exact Hk].
Qed.
(** A variable that needs a location and comes with location -1 is one
    the first loop stores into [to_assign]. *)
Lemma needs_location_collected (prog : gl_shader_program)
    (target_index : gl_shader_stage) (v : ir_variable) :
  needs_location prog target_index (ir_variable_decl v) = true ->
  location v = -1 ->
  is_collected prog target_index (ir_variable_decl v) = true.
Proof.
  unfold needs_location, is_collected. simpl. intros Hneeds Hlocation.
  apply andb_true_iff in Hneeds as [Hneeds Hunbound].
  apply bool_decide_eq_true_1 in Hunbound.
  rewrite Hneeds, (apply_bindings_unbound _ _ _ Hunbound), Hlocation.
  reflexivity.
Qed.

(** Where the last loop puts a collected variable: at the base of a run
    of free slots that ends below the budget, marked as matched; [r] is
    zero only while slot 0 is free in the mask the loop starts from. *)
Lemma collected_variable_assigned (prog : gl_shader_program)
    (target_index : gl_shader_stage) (max_index : Z) (sh : gl_shader)
    (l' : list ir_instruction) (p : nat) (v : ir_variable)
    (st : collect_state) (sorted : list temp_attr) (used1 : Z) :
  0 <= max_index ->
  0 <= count_attribute_slots (type v) < UINT_BITS - 1 ->
  collect_from prog target_index max_index 0 (ir sh)
    (mk_collect_state (ir sh)
       (if max_index >=? 32 then bit_not 0
        else bit_not (to_uint (shl 1 max_index - 1))) [])
  = alloc_ok st ->
  Permutation sorted (to_assign st) ->
  covers (used_locations st) used1 ->
  assign_in_order target_index sorted (cs_ir st) used1 = alloc_ok l' ->
  ir sh !! p = Some (ir_variable_decl v) ->
  is_collected prog target_index (ir_variable_decl v) = true ->
  exists v' r,
    l' !! p = Some (ir_variable_decl v')
    /\ name v' = name v
    /\ 0 <= r
    /\ (Z.testbit used1 0 = true -> 1 <= r)
    /\ r + count_attribute_slots (type v) <= max_index
    /\ r + count_attribute_slots (type v) <= UINT_BITS
    /\ location v' = to_int (base_of target_index + r)
    /\ is_unmatched_generic_inout v' = false.
Proof.
  intros Hmax Hn Hc Hperm Hcov1 Hassign Hp Hcollected.
  destruct (collect_ok _ _ _ _ _ _ _ Hc ltac:(intros j n Hj; exact Hj))
    as (Hcov0 & Hlen & Hnodes & _ & Hentries).
  pose proof (Hnodes p _ Hp) as Hst. simpl in Hst.
  assert (Hfields := Hcollected). unfold is_collected in Hfields.
  simpl in Hfields.
  apply andb_true_iff in Hfields as [Hfields Hloc].
  apply andb_true_iff in Hfields as [Hmode Hexp].
  apply negb_true_iff in Hexp.
  unfold collected_node in Hst. simpl in Hst. rewrite Hmode, Hexp in Hst.
  assert (Hentry : In (mk_temp_attr (count_attribute_slots (type v)) p)
                     (to_assign st)).
  { apply Hentries. right. exists p, (ir_variable_decl v).
    split; [exact Hp |]. unfold collected_entry. simpl.
    rewrite Hcollected. now left. }
  assert (Hpos : In p (map var sorted)).
  { apply (in_map var) in Hentry. simpl in Hentry.
    eapply Permutation_in; [| exact Hentry].
    apply Permutation_map. now symmetry. }
  destruct (assign_sorted_shape _ _ _ _ _ Hassign) as (_ & _ & Hvar).
  destruct (Hvar p _ Hst)
    as (v' & Hl' & _ & Hname & _ & _ & Hin).
  destruct (Hin Hpos)
    as (Hmatched & a & used_a & Ha & Hva & Hcova & Hfound & Hlocation).
  assert (Hslots : slots a = count_attribute_slots (type v)).
  { apply (Permutation_in _ Hperm) in Ha. apply Hentries in Ha.
    destruct Ha as [[] | (j & node & Hj & Hin')].
    apply collected_entry_position in Hin' as (v0 & -> & _ & ->).
    simpl in Hva. subst j. rewrite Hp in Hj. now inversion Hj. }
  rewrite Hslots in *.
  assert (Hn1 : 1 <= count_attribute_slots (type v)).
  { destruct (Z.eq_dec (count_attribute_slots (type v)) 0) as [H0 | H0];
      [| lia].
    rewrite H0, find_available_slots_zero in Hfound. lia. }
  destruct (find_available_slots_outcome used_a
              (count_attribute_slots (type v))
              ltac:(unfold UINT_BITS in *; lia))
    as [[Hnone _] | (Hrange & Hfree & _)]; [lia |].
  exists v', (find_available_slots used_a (count_attribute_slots (type v))).
  set (r := find_available_slots used_a _) in *.
  split; [exact Hl' |].
  split; [now rewrite Hname; apply apply_bindings_fields |].
  split; [exact Hfound |].
  split.
  { intros Hbit.
    destruct (Z.eq_dec r 0) as [Hzero | Hnonzero]; [exfalso | lia].
    assert (Hset : Z.testbit used_a 0 = true) by (apply Hcova, Hbit).
    rewrite Hfree in Hset by lia. discriminate. }
  split; [| split; [lia | auto]].
  destruct (Z_le_gt_dec (r + count_attribute_slots (type v)) max_index)
    as [Hle | Hgt]; [exact Hle | exfalso].
  assert (Hset : Z.testbit used_a (Z.max r max_index) = true).
  { apply Hcova, Hcov1, Hcov0. simpl.
    apply initial_mask_reserved; [exact Hmax |].
    unfold UINT_BITS in *. lia. }
  rewrite Hfree in Hset by lia. discriminate.
Qed.

(** X3.  When the assignment succeeds, a variable of the target direction
    that has neither an explicit location nor an application binding,
    that comes with its location invalidated to -1 and whose type takes
    at most 30 slots, ends up at [generic_base + r], read as a plain
    sum, with its [count_attribute_slots] slots inside the budget,
    [r + slots <= max_index], keeps its name and is marked as matched.
    The bound of 30 is on that variable alone; it keeps the mask
    [(1 << slots) - 1] inside what C defines. *)
Theorem assigned_locations_within_budget (prog : gl_shader_program)
    (target_index : gl_shader_stage) (max_index : Z) (sh : gl_shader)
    (l' : list ir_instruction) (p : nat) (v : ir_variable) :
  0 <= max_index ->
  0 <= base_of target_index < 2 ^ 31 - UINT_BITS ->
  locations prog target_index max_index sh = alloc_ok l' ->
  ir sh !! p = Some (ir_variable_decl v) ->
  needs_location prog target_index (ir_variable_decl v) = true ->
  location v = -1 ->
  0 <= count_attribute_slots (type v) < UINT_BITS - 1 ->
  exists v' r,
    l' !! p = Some (ir_variable_decl v')
    /\ name v' = name v
    /\ 0 <= r
    /\ r + count_attribute_slots (type v) <= max_index
    /\ r + count_attribute_slots (type v) <= UINT_BITS
    /\ location v' = base_of target_index + r
    /\ is_unmatched_generic_inout v' = false.
Proof.
  intros Hmax Hbase Hok Hp Hneeds Hlocation Hn.
  destruct (assign_locations_ok _ _ _ _ _ Hok)
    as (st & sorted & used1 & Hc & Hperm & Hcov1 & Hassign).
  destruct (collected_variable_assigned _ _ _ _ _ _ _ _ _ _ Hmax Hn Hc
              Hperm Hcov1 Hassign Hp
              (needs_location_collected _ _ _ Hneeds Hlocation))
    as (v' & r & Hl' & Hname & Hr & _ & Hbudget & Hfit & Hloc & Hmatched).
  exists v', r. repeat split; try assumption.
  rewrite Hloc. apply to_int_small. unfold UINT_BITS in *. lia.
Qed.

(** X4.  Location assignment and demotion together: once the locations of
    a stage have been invalidated and assigned with success, no variable
    of the target direction is left marked as unmatched, so demoting the
    stage's variables of that direction changes nothing. *)
Theorem assigned_variables_survive_demotion (prog : gl_shader_program)
    (target_index : gl_shader_stage) (max_index : Z) (sh : gl_shader)
    (l0 l' : list ir_instruction) :
  ir sh = link_invalidate_variable_locations l0 ->
  locations prog target_index max_index sh = alloc_ok l' ->
  demote_shader_inputs_and_outputs l' (direction target_index) = l'.
Proof.
  intros Hir Hok.
  destruct (assign_locations_ok _ _ _ _ _ Hok)
    as (st & sorted & used1 & Hc & Hperm & Hcov1 & Hassign).
  destruct (collect_ok _ _ _ _ _ _ _ Hc ltac:(intros j n Hj; exact Hj))
    as (_ & Hlen & Hnodes & _ & Hentries).
  destruct (assign_sorted_shape _ _ _ _ _ Hassign)
    as (Hlen' & Hnonvar & Hvar).
  apply list_eq. intros q. unfold demote_shader_inputs_and_outputs.
  rewrite lookup_map.
  destruct (l' !! q) as [node' |] eqn:Hq; [simpl; f_equal | reflexivity].
  destruct node' as [v' | | | | | | | | | |]; try reflexivity. simpl.
  destruct (bool_decide (mode v' = direction target_index)) eqn:Hmode;
    [simpl | reflexivity].
  apply bool_decide_eq_true in Hmode.
  replace (is_unmatched_generic_inout v') with false; [reflexivity |].
  symmetry.
  assert (Hq0 : is_Some (ir sh !! q)).
  { apply lookup_lt_is_Some. simpl in Hlen. rewrite <- Hlen, <- Hlen'.
    apply lookup_lt_is_Some. eauto. }
  destruct Hq0 as [node0 Hq0].
  pose proof (Hnodes q _ Hq0) as Hst. simpl in Hst.
  destruct (as_variable node0) as [v0 |] eqn:Hv0.
  2:{ unfold collected_node in Hst. rewrite Hv0 in Hst.
      rewrite (Hnonvar _ _ Hst Hv0) in Hq. inversion Hq; subst.
      discriminate. }
  destruct node0; try discriminate. simpl in Hv0.
  inversion Hv0; subst; clear Hv0.
  assert (Hinv : (explicit_location v0 = true ->
                  is_unmatched_generic_inout v0 = false)
                 /\ (explicit_location v0 = false -> location v0 = -1)).
  { rewrite Hir in Hq0. unfold link_invalidate_variable_locations in Hq0.
    rewrite lookup_map in Hq0.
    destruct (l0 !! q) as [n0 |]; [| discriminate]. simpl in Hq0.
    destruct n0; simpl in Hq0; try discriminate.
    inversion Hq0; subst; clear Hq0. unfold invalidate_variable.
    destruct (explicit_location var0) eqn:He; simpl; rewrite ?He; simpl;
      split; congruence. }
  destruct Hinv as [Hinv1 Hinv2].
  unfold collected_node in Hst. simpl in Hst.
  destruct (bool_decide (mode v0 = direction target_index)) eqn:Hmode0.
  2:{ apply bool_decide_eq_false in Hmode0.
      destruct (Hvar _ _ Hst) as (v'' & Hl'' & Hm & _).
      rewrite Hq in Hl''. inversion Hl''; subst v''. congruence. }
  destruct (Hvar _ _ Hst) as (v'' & Hl'' & Hm & _ & _ & Hout & Hin).
  rewrite Hq in Hl''. inversion Hl''; subst v''; clear Hl''.
  destruct (in_dec Nat.eq_dec q (map var sorted)) as [Hi | Hni];
    [now apply Hin |].
  rewrite (Hout Hni) in *.
  destruct (explicit_location v0) eqn:Hexp; [now apply Hinv1 |].
  destruct (target_bindings prog target_index !! name v0) as [b |] eqn:Hb;
    [now apply (apply_bindings_matched _ _ _ b) |].
  exfalso. apply Hni.
  assert (Hentry : In (mk_temp_attr (count_attribute_slots (type v0)) q)
                     (to_assign st)).
  { apply Hentries. right. exists q, (ir_variable_decl v0).
    split; [exact Hq0 |]. unfold collected_entry, is_collected. simpl.
    rewrite Hmode0, Hexp, (apply_bindings_unbound _ _ _ Hb).
    rewrite (Hinv2 eq_refl). simpl. now left. }
  apply (in_map var) in Hentry. simpl in Hentry.
  eapply Permutation_in; [| exact Hentry].
  apply Permutation_map. now symmetry.
Qed.
End AllocatorInvariants.

(** *** A concrete run *)

Lemma sample_insert_permutes (compare : temp_attr -> temp_attr -> Z)
    (a : temp_attr) (l : list temp_attr) :
  Permutation (sample_insert compare a l) (a :: l).
Proof.
  induction l as [| b l IH]; simpl; [reflexivity |].
  destruct (compare a b <=? 0); [reflexivity |].
  rewrite IH. apply perm_swap.
Qed.

Lemma sample_qsort_permutes (compare : temp_attr -> temp_attr -> Z)
    (l : list temp_attr) :
  Permutation (sample_qsort compare l) l.
Proof.
  induction l as [| a l IH]; simpl; [reflexivity |].
  rewrite sample_insert_permutes. now constructor.
Qed.

(** Slot counts of scalars, vectors and 4x4 matrices. *)
Definition small_count_attribute_slots (t : glsl_type) : Z :=
  match t with
  | glsl_base n => if String.eqb n "mat4" then 4 else 1
  | glsl_array _ _ => 1
  end.

Lemma small_count_attribute_slots_range (t : glsl_type) :
  0 <= small_count_attribute_slots t < UINT_BITS - 1.
Proof.
  unfold UINT_BITS. destruct t as [n | e n]; simpl; [| lia].
  destruct (String.eqb n "mat4"); lia.
Qed.

Definition three_inputs_program : gl_shader_program :=
  program_with_vertex "" three_inputs (<["bound" := 17]> ∅).

Definition three_inputs_assigned : list ir_instruction :=
  Eval vm_compute in
    match assign_locations small_count_attribute_slots sample_qsort
            SAMPLE_VERT_ATTRIB_GENERIC0 SAMPLE_FRAG_RESULT_DATA0
            three_inputs_program MESA_SHADER_VERTEX 16
            (unit_of three_inputs) with
    | alloc_ok l => l
    | _ => []
    end.

Lemma three_inputs_assigned_ok :
  assign_locations small_count_attribute_slots sample_qsort
    SAMPLE_VERT_ATTRIB_GENERIC0 SAMPLE_FRAG_RESULT_DATA0
    three_inputs_program MESA_SHADER_VERTEX 16 (unit_of three_inputs)
  = alloc_ok three_inputs_assigned.
Proof. vm_compute. reflexivity. Qed.

(** The same run with slot counts as the type system gives them. *)
Definition three_inputs_located : list ir_instruction :=
  Eval vm_compute in
    match assign_locations sample_count_attribute_slots sample_qsort
            SAMPLE_VERT_ATTRIB_GENERIC0 SAMPLE_FRAG_RESULT_DATA0
            three_inputs_program MESA_SHADER_VERTEX 16
            (unit_of three_inputs) with
    | alloc_ok l => l
    | _ => []
    end.

Lemma assigned_locations_within_budget_witness :
  exists v' r,
    three_inputs_located !! 2%nat = Some (ir_variable_decl v')
    /\ name v' = "transform"
    /\ 0 <= r
    /\ r + 4 <= 16
    /\ r + 4 <= UINT_BITS
    /\ location v' = SAMPLE_VERT_ATTRIB_GENERIC0 + r
    /\ is_unmatched_generic_inout v' = false.
Proof.
  apply (assigned_locations_within_budget sample_count_attribute_slots
           sample_qsort SAMPLE_VERT_ATTRIB_GENERIC0 SAMPLE_FRAG_RESULT_DATA0
           sample_qsort_permutes three_inputs_program MESA_SHADER_VERTEX 16
           (unit_of three_inputs) three_inputs_located 2%nat
           (invalidate_variable
              (plain_variable "transform" (glsl_base "mat4")
                 ir_var_shader_in))).
  - lia.
  - vm_compute. split; [discriminate | reflexivity].
  - vm_compute. reflexivity.
  - reflexivity.
  - reflexivity.
  - reflexivity.
  - vm_compute. split; [discriminate | reflexivity].
Defined.

Lemma assigned_variables_survive_demotion_witness :
  demote_shader_inputs_and_outputs three_inputs_assigned
    (direction MESA_SHADER_VERTEX)
  = three_inputs_assigned.
Proof.
  apply (assigned_variables_survive_demotion small_count_attribute_slots
           sample_qsort SAMPLE_VERT_ATTRIB_GENERIC0 SAMPLE_FRAG_RESULT_DATA0
           sample_qsort_permutes three_inputs_program MESA_SHADER_VERTEX 16
           (unit_of three_inputs)
           [vertex_input "normal" (glsl_base "vec3");
            vertex_input "bound" (glsl_base "vec4");
            vertex_input "transform" (glsl_base "mat4")]).
  - reflexivity.
  - vm_compute. reflexivity.
Defined.

(* ===================================================================== *)
(** ** Program resource names *)
(* ===================================================================== *)

(** [isdigit] in the C locale. *)
Definition isdigit (c : ascii) : bool :=
  ((48 <=? nat_of_ascii c) && (nat_of_ascii c <=? 57))%nat.

Definition digit_value (c : ascii) : Z := Z.of_nat (nat_of_ascii c) - 48.

(** [name[k]], for [k] inside the string. *)
Definition char_is (name : list ascii) (k : nat) (c : ascii) : bool :=
  match name !! k with
  | Some c' => bool_decide (c' = c)
  | None => false
  end.

(** The loop [for (i = ...; (i > 0) && isdigit (name[i-1]); --i)]: the
    value of [i] when it ends. *)
Fixpoint scan_digits_back (name : list ascii) (i : nat) : nat :=
  match i with
  | O => O
  | S j =>
      match name !! j with
      | Some c => if isdigit c then scan_digits_back name j else i
      | None => i
      end
  end.

Section ParseProgramResourceName.
(** The largest [long] of the platform. *)
Variable LONG_MAX : Z.

(** [strtol (s, NULL, 10)] on a string that begins with a digit or with a
    character that is neither white space nor a sign: the value of the
    leading run of digits, [LONG_MAX] once that is exceeded. *)
Fixpoint strtol_from (s : list ascii) (acc : Z) : Z :=
  match s with
  | c :: s' =>
      if isdigit c
      then strtol_from s' (Z.min (10 * acc + digit_value c) LONG_MAX)
      else acc
  | [] => acc
  end.

Definition strtol (s : list ascii) : Z := strtol_from s 0.

(** [parse_program_resource_name]: the returned index and
    [*out_base_name_end] as an offset into [name]. *)
Definition parse_program_resource_name (name : list ascii) : Z * nat :=
  let len := length name in
  if ((len =? 0)%nat || negb (char_is name (len - 1) "]"%char))%bool
  then (-1, len)
  else
    let i :=
      scan_digits_back name (Z.to_nat (to_uint (Z.of_nat len - 1))) in
    if ((i =? 0)%nat || negb (char_is name (i - 1) "["%char))%bool
    then (-1, len)
    else
      let array_index := strtol (drop i name) in
      if array_index <? 0 then (-1, len)
      else (array_index, (i - 1)%nat).

(** The decimal value of a string of digits. *)
Definition decimal_from (ds : list ascii) (acc : Z) : Z :=
  fold_left (fun a c => 10 * a + digit_value c) ds acc.

Definition decimal (ds : list ascii) : Z := decimal_from ds 0.

Lemma digit_value_range (c : ascii) :
  isdigit c = true -> 0 <= digit_value c <= 9.
Proof.
  unfold isdigit, digit_value. intros H.
  apply andb_true_iff in H as [H1 H2].
  apply Nat.leb_le in H1. apply Nat.leb_le in H2. lia.
Qed.

Lemma decimal_from_nonneg (ds : list ascii) :
  forall acc, Forall (fun c => isdigit c = true) ds -> 0 <= acc ->
              0 <= decimal_from ds acc.
Proof.
  induction ds as [| c ds IH]; intros acc Hds Hacc; simpl; [exact Hacc |].
  inversion Hds; subst. apply IH; [assumption |].
  pose proof (digit_value_range c ltac:(assumption)). lia.
Qed.

Lemma strtol_from_digits (ds rest : list ascii) :
  0 <= LONG_MAX ->
  Forall (fun c => isdigit c = true) ds ->
  match rest with c :: _ => isdigit c = false | [] => True end ->
  forall acc, 0 <= acc ->
    strtol_from (ds ++ rest) (Z.min acc LONG_MAX)
    = Z.min (decimal_from ds acc) LONG_MAX.
Proof.
  intros Hmax Hds Hrest. induction Hds as [| c ds Hc _ IH]; intros acc Hacc.
  - simpl. destruct rest as [| c rest]; [reflexivity |].
    simpl. now rewrite Hrest.
  - simpl. rewrite Hc.
    pose proof (digit_value_range c Hc) as Hd.
    replace (Z.min (10 * Z.min acc LONG_MAX + digit_value c) LONG_MAX)
      with (Z.min (10 * acc + digit_value c) LONG_MAX) by lia.
    apply IH. lia.
Qed.

Lemma scan_digits_back_stops (name : list ascii) (b : nat) (c : ascii) :
  name !! b = Some c -> isdigit c = false ->
  forall k,
    (forall j, (S b <= j < S b + k)%nat ->
               exists d, name !! j = Some d /\ isdigit d = true) ->
    scan_digits_back name (S b + k) = S b.
Proof.
  intros Hb Hc. induction k as [| k IH]; intros Hdigits.
  - rewrite Nat.add_0_r. simpl. now rewrite Hb, Hc.
  - replace (S b + S k)%nat with (S (S b + k)) by lia. simpl.
    destruct (Hdigits (S (b + k)) ltac:(lia)) as (d & Hd & Hdd).
    rewrite Hd, Hdd. apply IH. intros j Hj. apply Hdigits. lia.
Qed.

Lemma parse_program_resource_name_split (base ds : list ascii) :
  0 <= LONG_MAX ->
  Z.of_nat (length base + length ds + 2) <= UINT_MOD ->
  Forall (fun c => isdigit c = true) ds ->
  parse_program_resource_name (base ++ "["%char :: ds ++ ["]"%char])
  = (Z.min (decimal ds) LONG_MAX, length base).
Proof.
  intros Hmax Hlen Hds.
  set (name := (base ++ "["%char :: ds ++ ["]"%char])%list).
  assert (Hlength : length name = S (S (length base + length ds))).
  { subst name. rewrite length_app. simpl. rewrite length_app. simpl. lia. }
  assert (Hlast : name !! (length name - 1)%nat = Some "]"%char).
  { subst name. rewrite lookup_app_r by lia.
    rewrite Hlength.
    replace (S (S (length base + length ds)) - 1 - length base)%nat
      with (S (length ds)) by lia.
    simpl. rewrite lookup_app_r by lia.
    now replace (length ds - length ds)%nat with 0%nat by lia. }
  assert (Hopen : name !! length base = Some "["%char).
  { subst name. rewrite lookup_app_r by lia.
    now replace (length base - length base)%nat with 0%nat by lia. }
  assert (Hdigits : forall j,
             (S (length base) <= j < S (length base) + length ds)%nat ->
             exists d, name !! j = Some d /\ isdigit d = true).
  { intros j Hj. subst name. rewrite lookup_app_r by lia.
    replace (j - length base)%nat with (S (j - S (length base))) by lia.
    simpl. rewrite lookup_app_l by lia.
    destruct (lookup_lt_is_Some_2 ds (j - S (length base)) ltac:(lia))
      as [d Hd].
    exists d. split; [exact Hd |].
    rewrite Forall_forall in Hds. apply Hds.
    eapply list_elem_of_lookup_2; eauto. }
  unfold parse_program_resource_name. fold name.
  unfold char_is. rewrite Hlast, Hlength. simpl orb. cbv iota.
  assert (Hstart : Z.to_nat (to_uint (Z.of_nat (S (S (length base
                                                        + length ds))) - 1))
                   = (S (length base) + length ds)%nat).
  { unfold to_uint. rewrite Z.mod_small by lia. lia. }
  rewrite Hstart.
  rewrite (scan_digits_back_stops name (length base) "["%char Hopen
             eq_refl (length ds) Hdigits).
  replace (S (length base) - 1)%nat with (length base) by lia.
  change (S (length base) =? 0)%nat with false. cbv beta iota delta [orb].
  rewrite Hopen. simpl negb. cbv iota.
  assert (Hdrop : drop (S (length base)) name = (ds ++ ["]"%char])%list).
  { subst name.
    replace (S (length base)) with (length base + 1)%nat by lia.
    rewrite <- drop_drop, drop_app_length. reflexivity. }
  rewrite Hdrop. unfold strtol.
  pose proof (strtol_from_digits ds ["]"%char] Hmax Hds eq_refl 0
                ltac:(lia)) as Hval.
  rewrite Z.min_l in Hval by lia. rewrite Hval. fold (decimal ds).
  pose proof (decimal_from_nonneg ds 0 Hds ltac:(lia)) as Hnonneg.
  fold (decimal ds) in Hnonneg.
  replace (Z.min (decimal ds) LONG_MAX <? 0) with false
    by (symmetry; apply Z.ltb_ge; lia).
  reflexivity.
Qed.
End ParseProgramResourceName.

Lemma scan_digits_back_spec (name : list ascii) (i : nat) :
  (scan_digits_back name i <= i)%nat /\
  forall j, (scan_digits_back name i <= j < i)%nat ->
            exists d, name !! j = Some d /\ isdigit d = true.
Proof.
  induction i as [| i [IHle IHdigits]]; simpl.
  - split; [lia | intros j Hj; lia].
  - destruct (name !! i) as [c |] eqn:Hc; [| split; [lia | intros j Hj; lia]].
    destruct (isdigit c) eqn:Hdigit; [| split; [lia | intros j Hj; lia]].
    split; [lia |]. intros j Hj.
    destruct (decide (j = i)) as [-> | Hne]; [eauto |].
    apply IHdigits. lia.
Qed.

Section ParseProgramResourceNameShape.
Variable LONG_MAX : Z.

(** X6.  Whatever the name, the parser either reports no index, leaving
    the base name to end at the end of the string, and the name is not
    of the form base, opening bracket, digits, closing bracket; or the
    name has that form and, however it is split that way, the index is
    the value of the digits ([LONG_MAX] when they exceed it, 0 when there
    are none) and the base name ends at the bracket. *)
Theorem parse_program_resource_name_shape
    (name : list ascii) (idx : Z) (e : nat) :
  0 <= LONG_MAX ->
  Z.of_nat (length name) <= UINT_MOD ->
  parse_program_resource_name LONG_MAX name = (idx, e) ->
  let indexed (base ds : list ascii) :=
    name = (base ++ "["%char :: ds ++ ["]"%char])%list
    /\ Forall (fun c => isdigit c = true) ds in
  (idx = -1 /\ e = length name /\ forall base ds, ~ indexed base ds)
  \/ (0 <= idx
      /\ (exists base ds, indexed base ds)
      /\ forall base ds,
           indexed base ds ->
           idx = Z.min (decimal ds) LONG_MAX /\ e = length base).
Proof.
  intros Hmax Hlen Hparse indexed.
  assert (Hsplit : forall base ds,
             indexed base ds ->
             idx = Z.min (decimal ds) LONG_MAX /\ e = length base
             /\ 0 <= idx).
  { intros base ds [Hname Hds].
    assert (Hsize : Z.of_nat (length base + length ds + 2) <= UINT_MOD).
    { replace (length base + length ds + 2)%nat with (length name);
        [lia |].
      rewrite Hname. rewrite length_app. simpl. rewrite length_app.
      simpl. lia. }
    pose proof (parse_program_resource_name_split LONG_MAX base ds
                  Hmax Hsize Hds) as Hindexed.
    rewrite <- Hname, Hparse in Hindexed. inversion Hindexed; subst idx e.
    pose proof (decimal_from_nonneg ds 0 Hds ltac:(lia)) as Hnonneg.
    fold (decimal ds) in Hnonneg. repeat split; lia. }
  assert (Hnone : idx = -1 -> e = length name ->
                  idx = -1 /\ e = length name
                  /\ forall base ds, ~ indexed base ds).
  { intros Hidx He. split; [exact Hidx |]. split; [exact He |].
    intros base ds Hin. destruct (Hsplit base ds Hin) as (_ & _ & Hpos).
    lia. }
  unfold parse_program_resource_name in Hparse.
  destruct (length name =? 0)%nat eqn:Hzero;
    [left; simpl in Hparse; inversion Hparse; subst; now apply Hnone |].
  apply Nat.eqb_neq in Hzero.
  unfold char_is at 1 in Hparse.
  destruct (name !! (length name - 1)%nat) as [c |] eqn:Hlast;
    [| left; simpl in Hparse; inversion Hparse; subst; now apply Hnone].
  destruct (bool_decide (c = "]"%char)) eqn:Hclose;
    [| left; simpl in Hparse; inversion Hparse; subst; now apply Hnone].
  apply bool_decide_eq_true_1 in Hclose. subst c.
  cbv beta iota delta [orb negb] in Hparse.
  assert (Hstart : Z.to_nat (to_uint (Z.of_nat (length name) - 1))
                   = (length name - 1)%nat).
  { unfold to_uint. rewrite Z.mod_small by lia. lia. }
  rewrite Hstart in Hparse.
  destruct (scan_digits_back_spec name (length name - 1)) as [Hle Hdigits].
  set (i := scan_digits_back name (length name - 1)) in *.
  destruct (i =? 0)%nat eqn:Hi;
    [left; simpl in Hparse; inversion Hparse; subst; now apply Hnone |].
  apply Nat.eqb_neq in Hi.
  unfold char_is in Hparse.
  destruct (name !! (i - 1)%nat) as [c |] eqn:Hopen;
    [| left; simpl in Hparse; inversion Hparse; subst; now apply Hnone].
  destruct (bool_decide (c = "["%char)) eqn:Hbracket;
    [| left; simpl in Hparse; inversion Hparse; subst; now apply Hnone].
  apply bool_decide_eq_true_1 in Hbracket. subst c.
  cbv beta iota delta [orb negb] in Hparse.
  destruct (strtol LONG_MAX (drop i name) <? 0) eqn:Hneg;
    [left; inversion Hparse; subst; now apply Hnone |].
  clear Hparse Hnone.
  set (base := take (i - 1) name).
  set (ds := take (length name - 1 - i) (drop i name)).
  assert (Hname : name = (base ++ "["%char :: ds ++ ["]"%char])%list).
  { subst base ds.
    rewrite <- (take_drop (i - 1) name) at 1. f_equal.
    rewrite (drop_S name "["%char (i - 1) Hopen).
    replace (S (i - 1)) with i by lia. f_equal.
    rewrite <- (take_drop (length name - 1 - i) (drop i name)) at 1.
    f_equal. rewrite drop_drop.
    replace (i + (length name - 1 - i))%nat with (length name - 1)%nat
      by lia.
    rewrite (drop_S name "]"%char (length name - 1) Hlast).
    f_equal. apply drop_ge. lia. }
  assert (Hds : Forall (fun c => isdigit c = true) ds).
  { apply Forall_lookup_2. intros k d Hk. subst ds.
    apply lookup_take_Some in Hk as [Hk Hbound].
    rewrite lookup_drop in Hk.
    destruct (Hdigits (i + k)%nat ltac:(lia)) as (d' & Hd' & Hdigit).
    congruence. }
  right.
  destruct (Hsplit base ds (conj Hname Hds)) as (_ & _ & Hpos).
  split; [exact Hpos |]. split; [exists base, ds; now split |].
  intros base' ds' Hin. destruct (Hsplit base' ds' Hin) as (H1 & H2 & _).
  now split.
Qed.

(** The decimal digits of a number, as [printf] writes them for [%u]. *)
Definition decimal_digits (n : nat) : list ascii :=
  list_ascii_of_string (NilZero.string_of_uint (Nat.to_uint n)).

Lemma uint_digits_from (d : Decimal.uint) :
  Forall (fun c => isdigit c = true)
    (list_ascii_of_string (NilEmpty.string_of_uint d)).
Proof.
  induction d; simpl; constructor; try reflexivity; assumption.
Qed.

Lemma uint_digits (d : Decimal.uint) :
  Forall (fun c => isdigit c = true)
    (list_ascii_of_string (NilZero.string_of_uint d)).
Proof.
  destruct d; try apply uint_digits_from.
  simpl. constructor; [reflexivity | constructor].
Qed.

Lemma uint_decimal_from (d : Decimal.uint) :
  forall acc, 0 <= acc ->
    decimal_from (list_ascii_of_string (NilEmpty.string_of_uint d)) acc
    = Z.of_nat (Nat.of_uint_acc d (Z.to_nat acc)).
Proof.
  induction d as [| d IH | d IH | d IH | d IH | d IH | d IH | d IH | d IH
                  | d IH | d IH]; intros acc Hacc;
    [simpl; lia | | | | | | | | | |];
    cbn [NilEmpty.string_of_uint list_ascii_of_string decimal_from
         fold_left Nat.of_uint_acc];
    match goal with
    | |- fold_left _ _ (10 * ?a + digit_value ?c) = _ =>
        set (k := digit_value c); vm_compute in k; subst k
    end;
    match goal with
    | |- fold_left _ _ ?a' = _ =>
        transitivity (Z.of_nat (Nat.of_uint_acc d (Z.to_nat a')));
        [ apply (IH a'); lia
        | do 2 f_equal; rewrite Nat.tail_mul_spec; lia ]
    end.
Qed.

Lemma uint_decimal (d : Decimal.uint) :
  decimal (list_ascii_of_string (NilZero.string_of_uint d))
  = Z.of_nat (Nat.of_uint d).
Proof.
  unfold decimal, Nat.of_uint.
  destruct d; try (apply (uint_decimal_from _ 0); lia).
  reflexivity.
Qed.

(** X5.  Round trip: a base name followed by an index written in decimal
    between brackets parses back to that index and to the end of the base
    name, whatever characters the base name holds, as long as the index
    fits a [long]. *)
Theorem parse_program_resource_name_round_trip (base : list ascii)
    (n : nat) :
  Z.of_nat n <= LONG_MAX ->
  Z.of_nat (length base + length (decimal_digits n) + 2) <= UINT_MOD ->
  parse_program_resource_name LONG_MAX
    (base ++ "["%char :: decimal_digits n ++ ["]"%char])
  = (Z.of_nat n, length base).
Proof.
  intros Hfits Hsize.
  rewrite (parse_program_resource_name_split LONG_MAX base
             (decimal_digits n) ltac:(lia) Hsize (uint_digits _)).
  f_equal. unfold decimal_digits.
  rewrite uint_decimal, DecimalNat.Unsigned.of_to. lia.
Qed.
End ParseProgramResourceNameShape.

(** A platform whose [long] has 64 bits. *)
Definition SAMPLE_LONG_MAX : Z := 9223372036854775807.

Lemma parse_program_resource_name_round_trip_witness :
  parse_program_resource_name SAMPLE_LONG_MAX
    (list_ascii_of_string "colors[12]") = (12, 6%nat).
Proof.
  apply (parse_program_resource_name_round_trip SAMPLE_LONG_MAX
           (list_ascii_of_string "colors") 12%nat).
  - unfold SAMPLE_LONG_MAX. lia.
  - vm_compute. discriminate.
Defined.

Lemma parse_program_resource_name_shape_witness :
  let indexed (base ds : list ascii) :=
    list_ascii_of_string "colors[1x]"
    = (base ++ "["%char :: ds ++ ["]"%char])%list
    /\ Forall (fun c => isdigit c = true) ds in
  (-1 = -1 /\ 10%nat = length (list_ascii_of_string "colors[1x]")
   /\ forall base ds, ~ indexed base ds)
  \/ (0 <= -1
      /\ (exists base ds, indexed base ds)
      /\ forall base ds,
           indexed base ds ->
           -1 = Z.min (decimal ds) SAMPLE_LONG_MAX /\ 10%nat = length base).
Proof.
  apply (parse_program_resource_name_shape SAMPLE_LONG_MAX
           (list_ascii_of_string "colors[1x]") (-1) 10%nat).
  - unfold SAMPLE_LONG_MAX. lia.
  - vm_compute. discriminate.
  - vm_compute. reflexivity.
Defined.

(* ===================================================================== *)
(** ** The stage validators and static writes *)
(* ===================================================================== *)

Definition both_fragment_outputs_message : string :=
  "fragment shader writes to both " +:+
  "`gl_FragColor' and `gl_FragData'" +:+ nl.

(** X7.  The fragment stage validator fails the link exactly when the
    executable holds a static write to gl_FragColor and one to
    gl_FragData; in every other case it leaves the program as it was. *)
Theorem fragment_outputs_exclusive (prog : gl_shader_program)
    (sh : gl_shader) :
  let both :=
    statically_written "gl_FragColor" (ir sh)
    /\ statically_written "gl_FragData" (ir sh) in
  let after := validate_fragment_shader_executable prog (Some sh) in
  (both -> after = linker_error prog both_fragment_outputs_message)
  /\ (~ both -> after = prog)
  /\ (LinkStatus prog = true -> (LinkStatus after = false <-> both)).
Proof.
  intros both after. subst both after.
  unfold validate_fragment_shader_executable.
  pose proof (find_assignment_spec "gl_FragColor" (ir sh)) as Hcolor.
  pose proof (find_assignment_spec "gl_FragData" (ir sh)) as Hdata.
  destruct (find_assignment "gl_FragColor" (ir sh));
    destruct (find_assignment "gl_FragData" (ir sh)); simpl.
  - split; [reflexivity |]. split; [intros Hn; exfalso; tauto |].
    intros _. split; [tauto | reflexivity].
  - assert (Hn : ~ statically_written "gl_FragData" (ir sh))
      by (intros H; apply Hdata in H; discriminate).
    split; [tauto |]. split; [reflexivity |].
    intros ->. split; [discriminate | tauto].
  - assert (Hn : ~ statically_written "gl_FragColor" (ir sh))
      by (intros H; apply Hcolor in H; discriminate).
    split; [tauto |]. split; [reflexivity |].
    intros ->. split; [discriminate | tauto].
  - assert (Hn : ~ statically_written "gl_FragColor" (ir sh))
      by (intros H; apply Hcolor in H; discriminate).
    split; [tauto |]. split; [reflexivity |].
    intros ->. split; [discriminate | tauto].
Qed.

(** X8.  For desktop GLSL 1.30 and later the clip analysis reports an
    error exactly when the executable statically writes both gl_ClipVertex
    and gl_ClipDistance, and then leaves the caller's flag alone and
    the array size 0; otherwise the program is untouched, the flag tells
    whether gl_ClipDistance is statically written, and the size is the
    declared length of gl_ClipDistance (0 when the symbol is absent). *)
Theorem clip_usage_analysis (shader_type : string)
    (prog : gl_shader_program) (sh : gl_shader) (uses0 : bool) :
  IsES prog = false -> 130 <= Version prog ->
  let both :=
    statically_written "gl_ClipVertex" (ir sh)
    /\ statically_written "gl_ClipDistance" (ir sh) in
  let declared_size :=
    match get_variable (symbols sh) "gl_ClipDistance" with
    | Some clip_distance_var => type_length (type clip_distance_var)
    | None => 0
    end in
  let '(prog', uses, size) := analyze_clip_usage shader_type prog sh uses0 in
  (both ->
   prog' = linker_error prog
             (shader_type +:+ " shader writes to both `gl_ClipVertex' " +:+
              "and `gl_ClipDistance'" +:+ nl)
   /\ uses = uses0 /\ size = 0)
  /\ (~ both ->
      prog' = prog
      /\ (uses = true <-> statically_written "gl_ClipDistance" (ir sh))
      /\ size = declared_size).
Proof.
  intros Hes Hversion both declared_size. subst both declared_size.
  unfold analyze_clip_usage. rewrite Hes.
  apply Z.leb_le in Hversion. rewrite Hversion. simpl negb. simpl andb.
  pose proof (find_assignment_spec "gl_ClipVertex" (ir sh)) as Hvertex.
  pose proof (find_assignment_spec "gl_ClipDistance" (ir sh)) as Hdistance.
  destruct (find_assignment "gl_ClipVertex" (ir sh)) eqn:Hv;
    destruct (find_assignment "gl_ClipDistance" (ir sh)) eqn:Hd;
    cbv beta iota delta [andb].
  - split; [auto |]. intros Hn. exfalso. tauto.
  - assert (Hn : ~ statically_written "gl_ClipDistance" (ir sh))
      by (intros H; apply Hdistance in H; discriminate).
    destruct (get_variable (symbols sh) "gl_ClipDistance");
      (split; [tauto |]; intros _;
       split; [reflexivity |]; split; [| reflexivity];
       split; [discriminate | tauto]).
  - assert (Hn : ~ statically_written "gl_ClipVertex" (ir sh))
      by (intros H; apply Hvertex in H; discriminate).
    destruct (get_variable (symbols sh) "gl_ClipDistance");
      (split; [tauto |]; intros _;
       split; [reflexivity |]; split; [| reflexivity]; tauto).
  - assert (Hn : ~ statically_written "gl_ClipVertex" (ir sh))
      by (intros H; apply Hvertex in H; discriminate).
    destruct (get_variable (symbols sh) "gl_ClipDistance");
      (split; [tauto |]; intros _;
       split; [reflexivity |]; split; [| reflexivity];
       split; [discriminate |]; intros H; apply Hdistance in H;
       discriminate).
Qed.

(** A [main] that assigns a constant to each of the named variables. *)
Definition main_writing (targets : list (string * glsl_type))
    : ir_instruction :=
  ir_function "main"
    [mk_signature [] true false
       (map (fun target =>
               ir_assignment
                 (ir_dereference_variable
                    (plain_variable (fst target) (snd target)
                       ir_var_shader_out))
                 (ir_constant_value
                    (mk_constant (glsl_base "vec4") [0; 0; 0; 0]))
                 None) targets)].

Definition shader_writing_both_outputs : gl_shader :=
  mk_shader MESA_SHADER_FRAGMENT
    [main_writing
       [("gl_FragColor", glsl_base "vec4");
        ("gl_FragData", glsl_array (glsl_base "vec4") 8)]]
    (mk_symbol_table ∅ ∅).

Lemma fragment_outputs_exclusive_witness :
  validate_fragment_shader_executable program_version_110
    (Some shader_writing_both_outputs)
  = linker_error program_version_110 both_fragment_outputs_message.
Proof.
  apply (proj1 (fragment_outputs_exclusive program_version_110
                  shader_writing_both_outputs)).
  split; apply find_assignment_spec; vm_compute; reflexivity.
Defined.

Definition program_version_130 : gl_shader_program :=
  mk_program "" true 130 false false 0 None None None ∅ ∅ ∅.

Definition shader_writing_clip_distance : gl_shader :=
  mk_shader MESA_SHADER_VERTEX
    [main_writing
       [("gl_Position", glsl_base "vec4");
        ("gl_ClipDistance", glsl_array (glsl_base "float") 4)]]
    (mk_symbol_table
       {[ "gl_ClipDistance" :=
            plain_variable "gl_ClipDistance"
              (glsl_array (glsl_base "float") 4) ir_var_shader_out ]}
       ∅).

Lemma clip_usage_analysis_witness :
  analyze_clip_usage "vertex" program_version_130
    shader_writing_clip_distance false
  = (program_version_130, true, 4).
Proof.
  pose proof (clip_usage_analysis "vertex" program_version_130
                shader_writing_clip_distance false eq_refl
                ltac:(simpl; lia)) as H.
  simpl in H.
  destruct (analyze_clip_usage "vertex" program_version_130
              shader_writing_clip_distance false) as [[prog' uses] size].
  destruct H as [_ H].
  destruct H as (-> & Huses & ->).
  - intros [Hvertex _]. apply find_assignment_spec in Hvertex.
    vm_compute in Hvertex. discriminate.
  - destruct Huses as [_ Huses]. rewrite Huses; [reflexivity |].
    apply find_assignment_spec. vm_compute. reflexivity.
Defined.

(* ===================================================================== *)
(** ** Geometry shader layout qualifiers *)
(* ===================================================================== *)

(** The members [Geom.VerticesOut], [Geom.InputType] and
    [Geom.OutputType], which [gl_shader] and [gl_shader_program] both
    carry and [link_gs_inout_layout_qualifiers] reads and writes. *)
Record gl_geom : Type := mk_geom {
  VerticesOut : Z;
  InputType : Z;
  OutputType : Z
}.

Definition set_VerticesOut (n : Z) (g : gl_geom) : gl_geom :=
  mk_geom n (InputType g) (OutputType g).

Definition set_InputType (t : Z) (g : gl_geom) : gl_geom :=
  mk_geom (VerticesOut g) t (OutputType g).

Definition set_OutputType (t : Z) (g : gl_geom) : gl_geom :=
  mk_geom (VerticesOut g) (InputType g) t.

Section GeometryLayout.
(** The enumerant that marks an undeclared primitive type. *)
Variable PRIM_UNKNOWN : Z.

(** The program and [linked_shader->Geom]. *)
Definition gs_state : Type := gl_shader_program * gl_geom.

(** The three blocks of the loop body have one shape: a qualifier the
    unit declares must agree with what is recorded so far, and is then
    recorded.  [msg] formats the error from the recorded and the declared
    value. *)
Definition fold_qualifier (get : gl_geom -> Z)
    (set : Z -> gl_geom -> gl_geom) (unset : Z) (msg : Z -> Z -> string)
    (shader : gl_geom) (st : gs_state) : flow gs_state :=
  let '(prog, linked) := st in
  if negb (get shader =? unset) then
    if (negb (get linked =? unset)
        && negb (get linked =? get shader))%bool
    then Ret (linker_error prog (msg (get linked) (get shader)), linked)
    else Next (prog, set (get shader) linked)
  else Next st.

Definition conflicting_input_message (_ _ : Z) : string :=
  "geometry shader defined with conflicting " +:+ "input types" +:+ nl.

Definition conflicting_output_message (_ _ : Z) : string :=
  "geometry shader defined with conflicting " +:+ "output types" +:+ nl.

Definition conflicting_vertices_message (recorded declared : Z) : string :=
  "geometry shader defined with conflicting " +:+
  "output vertex count (" +:+ fmt_d recorded +:+ " and " +:+
  fmt_d declared +:+ ")" +:+ nl.

(** The body of the loop over [shader_list]. *)
Definition link_gs_unit (shader : gl_geom) (st : gs_state)
    : flow gs_state :=
  fold_qualifier InputType set_InputType PRIM_UNKNOWN
    conflicting_input_message shader st
    >>> fold_qualifier OutputType set_OutputType PRIM_UNKNOWN
          conflicting_output_message shader
    >>> fold_qualifier VerticesOut set_VerticesOut 0
          conflicting_vertices_message shader.

(** [link_gs_inout_layout_qualifiers].  [prog_geom] is [prog->Geom] on
    entry, [linked_type] is [linked_shader->Type] and [shader_list] holds
    the [Geom] member of each unit; the result is the program,
    [prog->Geom] and [linked_shader->Geom] on return. *)
Definition link_gs_inout_layout_qualifiers (prog : gl_shader_program)
    (prog_geom : gl_geom) (linked_type : gl_shader_stage)
    (shader_list : list gl_geom)
    : gl_shader_program * gl_geom * gl_geom :=
  let linked0 := mk_geom 0 PRIM_UNKNOWN PRIM_UNKNOWN in
  if (negb (bool_decide (linked_type = MESA_SHADER_GEOMETRY))
      || (Version prog <? 150))%bool
  then (prog, prog_geom, linked0)
  else
    match for_each link_gs_unit shader_list (prog, linked0) with
    | Ret (prog', linked) => (prog', prog_geom, linked)
    | Next (prog', linked) =>
        if InputType linked =? PRIM_UNKNOWN then
          (linker_error prog'
             ("geometry shader didn't declare primitive input type" +:+ nl),
           prog_geom, linked)
        else
          let geom1 := set_InputType (InputType linked) prog_geom in
          if OutputType linked =? PRIM_UNKNOWN then
            (linker_error prog'
               ("geometry shader didn't declare primitive output type"
                +:+ nl),
             geom1, linked)
          else
            let geom2 := set_OutputType (OutputType linked) geom1 in
            if VerticesOut linked =? 0 then
              (linker_error prog'
                 ("geometry shader didn't declare max_vertices" +:+ nl),
               geom2, linked)
            else
              (prog', set_VerticesOut (VerticesOut linked) geom2, linked)
    end.

(** The units agree on a qualifier: one of them declares the value [v]
    and the others declare [v] or nothing. *)
Definition layout_agreed (get : gl_geom -> Z) (unset : Z)
    (l : list gl_geom) (v : Z) : Prop :=
  v <> unset
  /\ (exists g, In g l /\ get g = v)
  /\ (forall g, In g l -> get g = unset \/ get g = v).

Definition layouts_agreed (l : list gl_geom) (g : gl_geom) : Prop :=
  layout_agreed InputType PRIM_UNKNOWN l (InputType g)
  /\ layout_agreed OutputType PRIM_UNKNOWN l (OutputType g)
  /\ layout_agreed VerticesOut 0 l (VerticesOut g).

(** What a run of the loop has recorded for one qualifier, given the
    values met: what was recorded on entry, then the units' own. *)
Definition settled (unset : Z) (vals : list Z) (v : Z) : Prop :=
  (forall x, In x vals -> x = unset \/ x = v)
  /\ (v <> unset -> In v vals).

Definition clash (unset : Z) (vals : list Z) : Prop :=
  exists x y, In x vals /\ In y vals
              /\ x <> unset /\ y <> unset /\ x <> y.

Lemma settled_step (unset a b a1 : Z) (rest : list Z) (v : Z) :
  (b = unset /\ a1 = a)
  \/ (b <> unset /\ (a = unset \/ a = b) /\ a1 = b) ->
  settled unset (a1 :: rest) v ->
  settled unset (a :: b :: rest) v.
Proof.
  intros Hstep [Hall Hin]. split.
  - intros x [<- | [<- | Hx]].
    + destruct Hstep as [[_ ->] | (_ & [-> | ->] & ->)];
        [apply Hall; now left | now left | apply Hall; now left].
    + destruct Hstep as [[-> _] | (_ & _ & ->)];
        [now left | apply Hall; now left].
    + apply Hall. now right.
  - intros Hv. destruct (Hin Hv) as [<- | Hrest]; [| now right; right].
    destruct Hstep as [[_ ->] | (_ & _ & ->)]; [now left | now right; left].
Qed.

Lemma clash_step (unset a b a1 : Z) (rest : list Z) :
  a1 = a \/ a1 = b ->
  clash unset (a1 :: rest) -> clash unset (a :: b :: rest).
Proof.
  intros Ha1 (x & y & Hx & Hy & Hxu & Hyu & Hxy).
  assert (Hwiden : forall z, In z (a1 :: rest) -> In z (a :: b :: rest)).
  { intros z [<- | Hz]; [| now right; right].
    destruct Ha1 as [-> | ->]; [now left | now right; left]. }
  exists x, y. auto 10.
Qed.

Lemma fold_qualifier_cases (get : gl_geom -> Z)
    (set : Z -> gl_geom -> gl_geom) (unset : Z) (msg : Z -> Z -> string)
    (shader : gl_geom) (prog : gl_shader_program) (linked : gl_geom) :
  (get shader = unset
   /\ fold_qualifier get set unset msg shader (prog, linked)
      = Next (prog, linked))
  \/ (get shader <> unset /\ (get linked = unset \/ get linked = get shader)
      /\ fold_qualifier get set unset msg shader (prog, linked)
         = Next (prog, set (get shader) linked))
  \/ (get shader <> unset /\ get linked <> unset
      /\ get linked <> get shader
      /\ fold_qualifier get set unset msg shader (prog, linked)
         = Ret (linker_error prog (msg (get linked) (get shader)), linked)).
Proof.
  unfold fold_qualifier.
  destruct (get shader =? unset) eqn:Hs; simpl.
  - left. apply Z.eqb_eq in Hs. auto.
  - apply Z.eqb_neq in Hs. right.
    destruct (get linked =? unset) eqn:Hl; simpl.
    + left. apply Z.eqb_eq in Hl. auto.
    + apply Z.eqb_neq in Hl.
      destruct (get linked =? get shader) eqn:Hd; simpl.
      * left. apply Z.eqb_eq in Hd. auto.
      * right. apply Z.eqb_neq in Hd. auto.
Qed.

(** One unit: either each qualifier is carried over or overwritten in
    agreement, or one of the three clashes. *)
Lemma link_gs_unit_cases (shader : gl_geom) (prog : gl_shader_program)
    (linked : gl_geom) :
  let step (get : gl_geom -> Z) (unset : Z) (linked1 : gl_geom) :=
    (get shader = unset /\ get linked1 = get linked)
    \/ (get shader <> unset
        /\ (get linked = unset \/ get linked = get shader)
        /\ get linked1 = get shader) in
  let differ (get : gl_geom -> Z) (unset : Z) :=
    get shader <> unset /\ get linked <> unset
    /\ get linked <> get shader in
  match link_gs_unit shader (prog, linked) with
  | Next (prog', linked1) =>
      prog' = prog
      /\ step InputType PRIM_UNKNOWN linked1
      /\ step OutputType PRIM_UNKNOWN linked1
      /\ step VerticesOut 0 linked1
  | Ret (prog', _) =>
      LinkStatus prog' = false
      /\ (differ InputType PRIM_UNKNOWN \/ differ OutputType PRIM_UNKNOWN
          \/ differ VerticesOut 0)
  end.
Proof.
  intros step differ. subst step differ. cbv beta. unfold link_gs_unit.
  destruct (fold_qualifier_cases InputType set_InputType PRIM_UNKNOWN
              conflicting_input_message shader prog linked)
    as [(Hi & ->) | [(Hi & Hi' & ->) | (Hi & Hi' & Hi'' & ->)]];
    cbn [and_then];
    [| | split; [apply linker_error_status | now left]].
  - destruct (fold_qualifier_cases OutputType set_OutputType PRIM_UNKNOWN
                conflicting_output_message shader prog linked)
      as [(Ho & ->) | [(Ho & Ho' & ->) | (Ho & Ho' & Ho'' & ->)]];
      cbn [and_then];
      [| | split; [apply linker_error_status | now right; left]].
    + destruct (fold_qualifier_cases VerticesOut set_VerticesOut 0
                  conflicting_vertices_message shader prog linked)
        as [(Hv & ->) | [(Hv & Hv' & ->) | (Hv & Hv' & Hv'' & ->)]];
        [| | split; [apply linker_error_status | now right; right]];
        simpl; auto 10.
    + destruct (fold_qualifier_cases VerticesOut set_VerticesOut 0
                  conflicting_vertices_message shader prog
                  (set_OutputType (OutputType shader) linked))
        as [(Hv & ->) | [(Hv & Hv' & ->) | (Hv & Hv' & Hv'' & ->)]];
        [| | split; [apply linker_error_status | now right; right]];
        simpl in *; auto 10.
  - destruct (fold_qualifier_cases OutputType set_OutputType PRIM_UNKNOWN
                conflicting_output_message shader prog
                (set_InputType (InputType shader) linked))
      as [(Ho & ->) | [(Ho & Ho' & ->) | (Ho & Ho' & Ho'' & ->)]];
      cbn [and_then];
      [| | split; [apply linker_error_status | now right; left]].
    + destruct (fold_qualifier_cases VerticesOut set_VerticesOut 0
                  conflicting_vertices_message shader prog
                  (set_InputType (InputType shader) linked))
        as [(Hv & ->) | [(Hv & Hv' & ->) | (Hv & Hv' & Hv'' & ->)]];
        [| | split; [apply linker_error_status | now right; right]];
        simpl in *; auto 10.
    + destruct (fold_qualifier_cases VerticesOut set_VerticesOut 0
                  conflicting_vertices_message shader prog
                  (set_OutputType (OutputType shader)
                     (set_InputType (InputType shader) linked)))
        as [(Hv & ->) | [(Hv & Hv' & ->) | (Hv & Hv' & Hv'' & ->)]];
        [| | split; [apply linker_error_status | now right; right]];
        simpl in *; auto 10.
Qed.

Lemma link_gs_units_spec (l : list gl_geom) :
  forall (prog : gl_shader_program) (linked : gl_geom),
    let vals (get : gl_geom -> Z) := get linked :: map get l in
    match for_each link_gs_unit l (prog, linked) with
    | Next (prog', linked') =>
        prog' = prog
        /\ settled PRIM_UNKNOWN (vals InputType) (InputType linked')
        /\ settled PRIM_UNKNOWN (vals OutputType) (OutputType linked')
        /\ settled 0 (vals VerticesOut) (VerticesOut linked')
    | Ret (prog', _) =>
        LinkStatus prog' = false
        /\ (clash PRIM_UNKNOWN (vals InputType)
            \/ clash PRIM_UNKNOWN (vals OutputType)
            \/ clash 0 (vals VerticesOut))
    end.
Proof.
  induction l as [| shader l IH]; intros prog linked vals; subst vals;
    cbv beta.
  - simpl. split; [reflexivity |].
    repeat split; try (intros x [<- | []]; now right); now left.
  - cbn [for_each map].
    pose proof (link_gs_unit_cases shader prog linked) as Hunit.
    cbv beta zeta in Hunit.
    destruct (link_gs_unit shader (prog, linked)) as [[prog1 linked1] |
                                                       [prog1 linked1]].
    + destruct Hunit as (-> & Hi & Ho & Hv).
      specialize (IH prog linked1). cbv beta zeta in IH.
      destruct (for_each link_gs_unit l (prog, linked1))
        as [[prog' linked'] | [prog' linked']].
      * destruct IH as (-> & Si & So & Sv). split; [reflexivity |].
        repeat apply conj.
        -- eapply settled_step; [| exact Si]. tauto.
        -- eapply settled_step; [| exact Si]. tauto.
        -- eapply settled_step; [| exact So]. tauto.
        -- eapply settled_step; [| exact So]. tauto.
        -- eapply settled_step; [| exact Sv]. tauto.
        -- eapply settled_step; [| exact Sv]. tauto.
      * destruct IH as (Hstatus & Hclash). split; [exact Hstatus |].
        destruct Hclash as [C | [C | C]];
          [left | right; left | right; right];
          (eapply clash_step; [| exact C]); tauto.
    + destruct Hunit as (Hstatus & Hdiffer). split; [exact Hstatus |].
      destruct Hdiffer as [(D1 & D2 & D3) | [(D1 & D2 & D3) |
                                             (D1 & D2 & D3)]];
        [left | right; left | right; right];
        (eexists _, _; repeat apply conj;
         [left; reflexivity | right; left; reflexivity | | |]; eassumption).
Qed.

Lemma settled_agreed (get : gl_geom -> Z) (unset : Z) (l : list gl_geom)
    (v : Z) :
  settled unset (unset :: map get l) v -> v <> unset ->
  layout_agreed get unset l v.
Proof.
  intros [Hall Hin] Hv. split; [exact Hv |]. split.
  - destruct (Hin Hv) as [Heq | Hmap]; [congruence |].
    apply in_map_iff in Hmap as (g & Hg & Hl). eauto.
  - intros g Hg. apply Hall. right. now apply in_map.
Qed.

Lemma settled_unique (get : gl_geom -> Z) (unset : Z) (l : list gl_geom)
    (v v' : Z) :
  settled unset (unset :: map get l) v -> layout_agreed get unset l v' ->
  v = v'.
Proof.
  intros [Hall _] (Hv' & (g & Hg & Hget) & _).
  destruct (Hall (get g)) as [Hu | Heq];
    [right; now apply in_map | congruence | congruence].
Qed.

Lemma clash_not_agreed (get : gl_geom -> Z) (unset : Z) (l : list gl_geom)
    (v : Z) :
  clash unset (unset :: map get l) -> ~ layout_agreed get unset l v.
Proof.
  intros (x & y & Hx & Hy & Hxu & Hyu & Hxy) (_ & _ & Hall).
  destruct Hx as [Hx | Hx]; [congruence |].
  destruct Hy as [Hy | Hy]; [congruence |].
  apply in_map_iff in Hx as (gx & <- & Hgx).
  apply in_map_iff in Hy as (gy & <- & Hgy).
  destruct (Hall gx Hgx), (Hall gy Hgy); congruence.
Qed.

(** How the function ends for a geometry stage of GLSL 1.50 or later. *)
Lemma link_gs_outcome (prog : gl_shader_program) (prog_geom : gl_geom)
    (l : list gl_geom) :
  150 <= Version prog ->
  (exists g, layouts_agreed l g
             /\ link_gs_inout_layout_qualifiers prog prog_geom
                  MESA_SHADER_GEOMETRY l = (prog, g, g))
  \/ (LinkStatus
        (fst (fst (link_gs_inout_layout_qualifiers prog prog_geom
                     MESA_SHADER_GEOMETRY l))) = false
      /\ forall g, ~ layouts_agreed l g).
Proof.
  intros Hversion. unfold link_gs_inout_layout_qualifiers.
  apply Z.ltb_ge in Hversion. rewrite Hversion.
  rewrite bool_decide_eq_true_2 by reflexivity. simpl negb. simpl orb.
  cbv iota.
  pose proof (link_gs_units_spec l prog
                (mk_geom 0 PRIM_UNKNOWN PRIM_UNKNOWN)) as Hloop.
  cbv beta zeta in Hloop. simpl InputType in Hloop.
  simpl OutputType in Hloop. simpl VerticesOut in Hloop.
  destruct (for_each link_gs_unit l
              (prog, mk_geom 0 PRIM_UNKNOWN PRIM_UNKNOWN))
    as [[prog' linked] | [prog' linked]].
  - destruct Hloop as (-> & Si & So & Sv).
    destruct (InputType linked =? PRIM_UNKNOWN) eqn:Hi.
    { right. split; [apply linker_error_status |].
      intros g (Ai & _). apply Z.eqb_eq in Hi.
      pose proof (settled_unique _ _ _ _ _ Si Ai) as Heq.
      destruct Ai as (Hne & _). congruence. }
    destruct (OutputType linked =? PRIM_UNKNOWN) eqn:Ho.
    { right. split; [apply linker_error_status |].
      intros g (_ & Ao & _). apply Z.eqb_eq in Ho.
      pose proof (settled_unique _ _ _ _ _ So Ao) as Heq.
      destruct Ao as (Hne & _). congruence. }
    destruct (VerticesOut linked =? 0) eqn:Hv.
    { right. split; [apply linker_error_status |].
      intros g (_ & _ & Av). apply Z.eqb_eq in Hv.
      pose proof (settled_unique _ _ _ _ _ Sv Av) as Heq.
      destruct Av as (Hne & _). congruence. }
    apply Z.eqb_neq in Hi. apply Z.eqb_neq in Ho. apply Z.eqb_neq in Hv.
    left. exists linked. split.
    + unfold layouts_agreed.
      split; [| split]; now apply settled_agreed.
    + destruct linked; reflexivity.
  - destruct Hloop as (Hstatus & Hclash). right.
    split; [exact Hstatus |].
    intros g (Ai & Ao & Av).
    destruct Hclash as [C | [C | C]];
      eapply clash_not_agreed; eassumption.
Qed.

Lemma layouts_agreed_unique (l : list gl_geom) (g g' : gl_geom) :
  layouts_agreed l g -> layouts_agreed l g' -> g = g'.
Proof.
  intros (Ai & Ao & Av) (Ai' & Ao' & Av').
  assert (Hone : forall get unset v v',
             layout_agreed get unset l v -> layout_agreed get unset l v' ->
             v = v').
  { intros get unset v v' (Hv & (x & Hx & Hget) & _) (Hv' & _ & Hall').
    destruct (Hall' x Hx); congruence. }
  destruct g, g'. simpl in *. f_equal; eapply Hone; eassumption.
Qed.

Lemma layouts_agreed_permutation (l l' : list gl_geom) (g : gl_geom) :
  Permutation l l' -> layouts_agreed l g -> layouts_agreed l' g.
Proof.
  intros Hp.
  assert (Hone : forall get unset v,
             layout_agreed get unset l v -> layout_agreed get unset l' v).
  { intros get unset v (Hv & (x & Hx & Hget) & Hall).
    split; [exact Hv |]. split.
    - exists x. split; [| exact Hget].
      eapply Permutation_in; eassumption.
    - intros y Hy. apply Hall.
      eapply Permutation_in; [symmetry; exact Hp | exact Hy]. }
  intros (Ai & Ao & Av). split; [| split]; now apply Hone.
Qed.

(** X9.  For a geometry stage of GLSL 1.50 or later the qualifiers link
    exactly when the units agree on each of input type, output type and
    max_vertices, every one of them declared by some unit; the agreed
    values are then stored in the linked shader and in the program, and
    the program is otherwise untouched. *)
Theorem gs_layout_qualifiers_agree (prog : gl_shader_program)
    (prog_geom : gl_geom) (l : list gl_geom) :
  150 <= Version prog -> LinkStatus prog = true ->
  let result :=
    link_gs_inout_layout_qualifiers prog prog_geom
      MESA_SHADER_GEOMETRY l in
  (forall g, layouts_agreed l g -> result = (prog, g, g))
  /\ (LinkStatus (fst (fst result)) = true <->
      exists g, layouts_agreed l g).
Proof.
  intros Hversion Hstatus result. subst result.
  destruct (link_gs_outcome prog prog_geom l Hversion)
    as [(g & Hg & ->) | (Hfail & Hnone)].
  - split.
    + intros g' Hg'. now rewrite (layouts_agreed_unique l g g' Hg Hg').
    + simpl. split; [eauto | intros _; exact Hstatus].
  - split.
    + intros g Hg. now apply Hnone in Hg.
    + rewrite Hfail. split; [discriminate |].
      intros (g & Hg). now apply Hnone in Hg.
Qed.

(** X10.  The verdict does not depend on the order of the units: a
    reordered list links when the original does, with the same result;
    only the wording of a failure may differ. *)
Theorem gs_layout_qualifiers_order_independent
    (prog : gl_shader_program) (prog_geom : gl_geom)
    (linked_type : gl_shader_stage) (l l' : list gl_geom) :
  LinkStatus prog = true -> Permutation l l' ->
  let result :=
    link_gs_inout_layout_qualifiers prog prog_geom linked_type l in
  let result' :=
    link_gs_inout_layout_qualifiers prog prog_geom linked_type l' in
  LinkStatus (fst (fst result)) = LinkStatus (fst (fst result'))
  /\ (LinkStatus (fst (fst result)) = true -> result = result').
Proof.
  intros Hstatus Hp result result'. subst result result'.
  destruct (decide (linked_type = MESA_SHADER_GEOMETRY)) as [-> | Hother].
  - destruct (Z.ltb_spec (Version prog) 150) as [Hold | Hversion].
    + unfold link_gs_inout_layout_qualifiers.
      apply Z.ltb_lt in Hold. rewrite Hold, orb_true_r. auto.
    + destruct (link_gs_outcome prog prog_geom l Hversion)
        as [(g & Hg & ->) | (Hfail & Hnone)];
        destruct (link_gs_outcome prog prog_geom l' Hversion)
          as [(g' & Hg' & ->) | (Hfail' & Hnone')].
      * apply (layouts_agreed_permutation l l' g Hp) in Hg.
        rewrite (layouts_agreed_unique l' g g' Hg Hg'). auto.
      * apply (layouts_agreed_permutation l l' g Hp) in Hg.
        now apply Hnone' in Hg.
      * symmetry in Hp.
        apply (layouts_agreed_permutation l' l g' Hp) in Hg'.
        now apply Hnone in Hg'.
      * rewrite Hfail, Hfail'. split; [reflexivity | discriminate].
  - unfold link_gs_inout_layout_qualifiers.
    rewrite bool_decide_eq_false_2 by exact Hother. simpl. auto.
Qed.
End GeometryLayout.

(** [PRIM_UNKNOWN] is [GL_POLYGON + 3]. *)
Definition SAMPLE_PRIM_UNKNOWN : Z := 12.

Definition program_version_150 : gl_shader_program :=
  mk_program "" true 150 false false 0 None None None ∅ ∅ ∅.

(** Three units: triangles in; triangle strip out, six vertices; and
    triangles in with the vertex count repeated. *)
Definition three_geometry_units : list gl_geom :=
  [mk_geom 0 4 12; mk_geom 6 12 5; mk_geom 6 4 12].

Definition geometry_layout : gl_geom := mk_geom 6 4 5.

Lemma three_geometry_units_agreed :
  layouts_agreed SAMPLE_PRIM_UNKNOWN three_geometry_units geometry_layout.
Proof.
  unfold layouts_agreed, layout_agreed, three_geometry_units.
  repeat apply conj; try discriminate.
  - eexists. split; [left; reflexivity | reflexivity].
  - intros g [<- | [<- | [<- | []]]]; simpl; auto.
  - eexists. split; [right; left; reflexivity | reflexivity].
  - intros g [<- | [<- | [<- | []]]]; simpl; auto.
  - eexists. split; [right; left; reflexivity | reflexivity].
  - intros g [<- | [<- | [<- | []]]]; simpl; auto.
Qed.

Lemma gs_layout_qualifiers_agree_witness :
  link_gs_inout_layout_qualifiers SAMPLE_PRIM_UNKNOWN program_version_150
    (mk_geom 0 0 0) MESA_SHADER_GEOMETRY three_geometry_units
  = (program_version_150, geometry_layout, geometry_layout).
Proof.
  apply (proj1 (gs_layout_qualifiers_agree SAMPLE_PRIM_UNKNOWN
                  program_version_150 (mk_geom 0 0 0)
                  three_geometry_units ltac:(simpl; lia) eq_refl)).
  exact three_geometry_units_agreed.
Defined.

Lemma gs_layout_qualifiers_order_independent_witness :
  let result :=
    link_gs_inout_layout_qualifiers SAMPLE_PRIM_UNKNOWN
      program_version_150 (mk_geom 0 0 0) MESA_SHADER_GEOMETRY
      three_geometry_units in
  let result' :=
    link_gs_inout_layout_qualifiers SAMPLE_PRIM_UNKNOWN
      program_version_150 (mk_geom 0 0 0) MESA_SHADER_GEOMETRY
      (rev three_geometry_units) in
  LinkStatus (fst (fst result)) = LinkStatus (fst (fst result'))
  /\ (LinkStatus (fst (fst result)) = true -> result = result').
Proof.
  apply (gs_layout_qualifiers_order_independent SAMPLE_PRIM_UNKNOWN
           program_version_150 (mk_geom 0 0 0) MESA_SHADER_GEOMETRY
           three_geometry_units (rev three_geometry_units) eq_refl).
  apply Permutation_rev.
Defined.

(* ===================================================================== *)
(** ** Resource limits *)
(* ===================================================================== *)

(** The counters of a linked shader that [check_resources] reads. *)
Record gl_shader_usage : Type := mk_shader_usage {
  num_samplers : Z;
  num_uniform_components : Z;
  num_combined_uniform_components : Z
}.

(** The limits of one stage, [ctx->Const.VertexProgram] and its like. *)
Record gl_program_constants : Type := mk_program_constants {
  MaxTextureImageUnits : Z;
  MaxUniformComponents : Z;
  MaxCombinedUniformComponents : Z;
  MaxUniformBlocks : Z
}.

(** The members of [ctx->Const] that [check_resources] reads. *)
Record gl_constants : Type := mk_constants {
  VertexProgram : gl_program_constants;
  GeometryProgram : gl_program_constants;
  FragmentProgram : gl_program_constants;
  GLSLSkipStrictMaxUniformLimitCheck : bool;
  MaxCombinedUniformBlocks : Z
}.

(** The stages in the order of the [MESA_SHADER_*] enumerants. *)
Definition all_stages : list gl_shader_stage :=
  [MESA_SHADER_VERTEX; MESA_SHADER_GEOMETRY; MESA_SHADER_FRAGMENT].

Definition shader_names (stage : gl_shader_stage) : string :=
  match stage with
  | MESA_SHADER_VERTEX => "vertex"
  | MESA_SHADER_GEOMETRY => "geometry"
  | MESA_SHADER_FRAGMENT => "fragment"
  end.

(** The rows of the four limit tables at the head of the function. *)
Definition stage_constants (ctx : gl_constants) (stage : gl_shader_stage)
    : gl_program_constants :=
  match stage with
  | MESA_SHADER_VERTEX => VertexProgram ctx
  | MESA_SHADER_GEOMETRY => GeometryProgram ctx
  | MESA_SHADER_FRAGMENT => FragmentProgram ctx
  end.

(** The body of the first loop.  [usage stage] holds the counters of
    [prog->_LinkedShaders[stage]], [None] for a NULL entry. *)
Definition check_stage_resources (ctx : gl_constants)
    (usage : gl_shader_stage -> option gl_shader_usage)
    (prog : gl_shader_program) (stage : gl_shader_stage)
    : gl_shader_program :=
  match usage stage with
  | None => prog
  | Some sh =>
      let limits := stage_constants ctx stage in
      let prog1 :=
        if num_samplers sh >? MaxTextureImageUnits limits
        then linker_error prog
               ("Too many " +:+ shader_names stage +:+
                " shader texture samplers")
        else prog in
      let prog2 :=
        if num_uniform_components sh >? MaxUniformComponents limits then
          if GLSLSkipStrictMaxUniformLimitCheck ctx
          then linker_warning prog1
                 ("Too many " +:+ shader_names stage +:+
                  " shader default uniform block " +:+
                  "components, but the driver will try to optimize " +:+
                  "them out; this is non-portable out-of-spec " +:+
                  "behavior" +:+ nl)
          else linker_error prog1
                 ("Too many " +:+ shader_names stage +:+
                  " shader default uniform block " +:+ "components")
        else prog1 in
      if num_combined_uniform_components sh
         >? MaxCombinedUniformComponents limits then
        if GLSLSkipStrictMaxUniformLimitCheck ctx
        then linker_warning prog2
               ("Too many " +:+ shader_names stage +:+
                " shader uniform components, " +:+
                "but the driver will try to optimize them out; " +:+
                "this is non-portable out-of-spec behavior" +:+ nl)
        else linker_error prog2
               ("Too many " +:+ shader_names stage +:+
                " shader uniform components")
      else prog2
  end.

(** [blocks[j]++]. *)
Definition bump (j : gl_shader_stage) (blocks : gl_shader_stage -> Z)
    : gl_shader_stage -> Z :=
  fun s => if decide (s = j) then to_uint (blocks s + 1) else blocks s.

(** The loop over [j]: [index j] is [prog->UniformBlockStageIndex[j][i]]
    for the block [i] at hand. *)
Definition count_block (index : gl_shader_stage -> Z)
    (counts : (gl_shader_stage -> Z) * Z) : (gl_shader_stage -> Z) * Z :=
  fold_left
    (fun counts j =>
       if negb (index j =? -1)
       then (bump j (fst counts), to_uint (snd counts + 1))
       else counts)
    all_stages counts.

(** The body of the loop over the uniform blocks. *)
Definition check_block (ctx : gl_constants) (NumUniformBlocks : Z)
    (st : gl_shader_program * ((gl_shader_stage -> Z) * Z))
    (index : gl_shader_stage -> Z)
    : gl_shader_program * ((gl_shader_stage -> Z) * Z) :=
  let prog := fst st in
  let counts := count_block index (snd st) in
  let blocks := fst counts in
  let total_uniform_blocks := snd counts in
  let prog' :=
    if total_uniform_blocks >? MaxCombinedUniformBlocks ctx then
      linker_error prog
        ("Too many combined uniform blocks (" +:+
         fmt_d (to_int NumUniformBlocks) +:+ "/" +:+
         fmt_d (to_int (MaxCombinedUniformBlocks ctx)) +:+ ")")
    else
      match
        List.find
          (fun i => blocks i >? MaxUniformBlocks (stage_constants ctx i))
          all_stages
      with
      | Some i =>
          linker_error prog
            ("Too many " +:+ shader_names i +:+ " uniform blocks (" +:+
             fmt_d (to_int (blocks i)) +:+ "/" +:+
             fmt_d (to_int (MaxUniformBlocks (stage_constants ctx i)))
             +:+ ")")
      | None => prog
      end in
  (prog', counts).

(** [check_resources].  [UniformBlockStageIndex] lists, for each of the
    [prog->NumUniformBlocks] blocks, its index in every stage. *)
Definition check_resources (ctx : gl_constants) (prog : gl_shader_program)
    (usage : gl_shader_stage -> option gl_shader_usage)
    (UniformBlockStageIndex : list (gl_shader_stage -> Z))
    : gl_shader_program :=
  let prog1 := fold_left (check_stage_resources ctx usage) all_stages prog in
  let NumUniformBlocks :=
    to_uint (Z.of_nat (length UniformBlockStageIndex)) in
  fst (fold_left (check_block ctx NumUniformBlocks) UniformBlockStageIndex
         (prog1, (fun _ => 0, 0))).

(** The number of blocks a stage uses, and their sum over the stages. *)
Definition block_in_stage (s : gl_shader_stage)
    (index : gl_shader_stage -> Z) : Z :=
  if index s =? -1 then 0 else 1.

Fixpoint stage_blocks (s : gl_shader_stage)
    (l : list (gl_shader_stage -> Z)) : Z :=
  match l with
  | [] => 0
  | index :: l' => block_in_stage s index + stage_blocks s l'
  end.

Definition total_blocks (l : list (gl_shader_stage -> Z)) : Z :=
  stage_blocks MESA_SHADER_VERTEX l + stage_blocks MESA_SHADER_GEOMETRY l
  + stage_blocks MESA_SHADER_FRAGMENT l.

(** A linked stage is over one of its limits that end the link. *)
Definition stage_over_limit (ctx : gl_constants)
    (usage : gl_shader_stage -> option gl_shader_usage)
    (s : gl_shader_stage) : Prop :=
  exists sh,
    usage s = Some sh
    /\ (MaxTextureImageUnits (stage_constants ctx s) < num_samplers sh
        \/ (GLSLSkipStrictMaxUniformLimitCheck ctx = false
            /\ (MaxUniformComponents (stage_constants ctx s)
                < num_uniform_components sh
                \/ MaxCombinedUniformComponents (stage_constants ctx s)
                   < num_combined_uniform_components sh))).

Definition blocks_over_limit (ctx : gl_constants)
    (l : list (gl_shader_stage -> Z)) : Prop :=
  MaxCombinedUniformBlocks ctx < total_blocks l
  \/ exists s, MaxUniformBlocks (stage_constants ctx s) < stage_blocks s l.

Lemma check_stage_resources_status (ctx : gl_constants)
    (usage : gl_shader_stage -> option gl_shader_usage)
    (prog : gl_shader_program) (s : gl_shader_stage) :
  LinkStatus (check_stage_resources ctx usage prog s) = false
  <-> LinkStatus prog = false \/ stage_over_limit ctx usage s.
Proof.
  unfold check_stage_resources, stage_over_limit.
  destruct (usage s) as [sh |];
    [| split; [now left | intros [H | (sh & Hsh & _)];
                          [exact H | discriminate]]].
  cbv zeta.
  destruct (Z.gtb_spec (num_samplers sh)
              (MaxTextureImageUnits (stage_constants ctx s)))
    as [H1 | H1];
    destruct (Z.gtb_spec (num_uniform_components sh)
                (MaxUniformComponents (stage_constants ctx s)))
      as [H2 | H2];
    destruct (Z.gtb_spec (num_combined_uniform_components sh)
                (MaxCombinedUniformComponents (stage_constants ctx s)))
      as [H3 | H3];
    destruct (GLSLSkipStrictMaxUniformLimitCheck ctx);
    rewrite ?linker_warning_status, ?linker_error_status;
    (split;
     [ intros Hs; first [ now left
                        | right; exists sh; split; [reflexivity |];
                          first [ left; lia
                                | right; split; [reflexivity |]; lia ] ]
     | intros [Hs | (sh' & Hsh & Hover)];
       [ first [ reflexivity | exact Hs ]
       | first [ reflexivity
               | inversion Hsh; subst sh';
                 destruct Hover as [Hover | (Hskip & Hover)];
                 [lia | first [ discriminate | lia ]] ] ] ]).
Qed.

Lemma stage_blocks_app (s : gl_shader_stage)
    (l l' : list (gl_shader_stage -> Z)) :
  stage_blocks s (l ++ l')%list = stage_blocks s l + stage_blocks s l'.
Proof.
  induction l as [| index l IH]; simpl; [reflexivity | lia].
Qed.

Lemma stage_blocks_range (s : gl_shader_stage)
    (l : list (gl_shader_stage -> Z)) :
  0 <= stage_blocks s l <= Z.of_nat (length l).
Proof.
  induction l as [| index l IH]; simpl length; simpl stage_blocks;
    [lia |].
  unfold block_in_stage. destruct (index s =? -1); lia.
Qed.

Ltac small_mods :=
  repeat match goal with
         | |- context [?a mod UINT_MOD] =>
             rewrite (Z.mod_small a UINT_MOD) by lia
         end.

Lemma count_block_spec (index : gl_shader_stage -> Z)
    (blocks : gl_shader_stage -> Z) (total : Z) :
  (forall s, 0 <= blocks s /\ blocks s + 1 < UINT_MOD) ->
  0 <= total -> total + 3 < UINT_MOD ->
  (forall s, fst (count_block index (blocks, total)) s
             = blocks s + block_in_stage s index)
  /\ snd (count_block index (blocks, total))
     = total + block_in_stage MESA_SHADER_VERTEX index
       + block_in_stage MESA_SHADER_GEOMETRY index
       + block_in_stage MESA_SHADER_FRAGMENT index.
Proof.
  intros Hblocks Htotal Hroom.
  pose proof (Hblocks MESA_SHADER_VERTEX) as Hv.
  pose proof (Hblocks MESA_SHADER_GEOMETRY) as Hg.
  pose proof (Hblocks MESA_SHADER_FRAGMENT) as Hf.
  unfold count_block, block_in_stage, all_stages. cbn [fold_left].
  assert (Hmod : UINT_MOD = 4294967296) by reflexivity.
  destruct (index MESA_SHADER_VERTEX =? -1) eqn:Ev;
    destruct (index MESA_SHADER_GEOMETRY =? -1) eqn:Eg;
    destruct (index MESA_SHADER_FRAGMENT =? -1) eqn:Ef;
    cbn [negb fst snd];
    (split;
     [ intros s; destruct s; unfold bump; rewrite ?Ev, ?Eg, ?Ef;
       repeat (destruct (decide _) as [? | ?]; try discriminate;
               try congruence);
       unfold to_uint; small_mods; lia
     | unfold to_uint; small_mods; lia ]).
Qed.

Lemma find_over_limit (ctx : gl_constants) (blocks : gl_shader_stage -> Z) :
  match
    List.find
      (fun i => blocks i >? MaxUniformBlocks (stage_constants ctx i))
      all_stages
  with
  | Some _ =>
      exists s, MaxUniformBlocks (stage_constants ctx s) < blocks s
  | None =>
      forall s, blocks s <= MaxUniformBlocks (stage_constants ctx s)
  end.
Proof.
  unfold all_stages. cbn [List.find].
  destruct (Z.gtb_spec (blocks MESA_SHADER_VERTEX)
              (MaxUniformBlocks (stage_constants ctx MESA_SHADER_VERTEX)));
    [exists MESA_SHADER_VERTEX; lia |].
  destruct (Z.gtb_spec (blocks MESA_SHADER_GEOMETRY)
              (MaxUniformBlocks (stage_constants ctx MESA_SHADER_GEOMETRY)));
    [exists MESA_SHADER_GEOMETRY; lia |].
  destruct (Z.gtb_spec (blocks MESA_SHADER_FRAGMENT)
              (MaxUniformBlocks (stage_constants ctx MESA_SHADER_FRAGMENT)));
    [exists MESA_SHADER_FRAGMENT; lia |].
  intros []; assumption.
Qed.

Lemma blocks_over_limit_grows (ctx : gl_constants)
    (l : list (gl_shader_stage -> Z)) (index : gl_shader_stage -> Z) :
  blocks_over_limit ctx l -> blocks_over_limit ctx (l ++ [index]).
Proof.
  unfold blocks_over_limit, total_blocks.
  pose proof (fun s => stage_blocks_range s [index]) as Hone.
  intros [Htotal | (s & Hs)].
  - left. rewrite !stage_blocks_app.
    pose proof (Hone MESA_SHADER_VERTEX).
    pose proof (Hone MESA_SHADER_GEOMETRY).
    pose proof (Hone MESA_SHADER_FRAGMENT). lia.
  - right. exists s. rewrite stage_blocks_app.
    pose proof (Hone s). lia.
Qed.

Lemma check_blocks_spec (ctx : gl_constants) (n : Z)
    (prog : gl_shader_program) (l : list (gl_shader_stage -> Z)) :
  0 <= MaxCombinedUniformBlocks ctx ->
  (forall s, 0 <= MaxUniformBlocks (stage_constants ctx s)) ->
  3 * Z.of_nat (length l) < UINT_MOD ->
  let st := fold_left (check_block ctx n) l (prog, (fun _ => 0, 0)) in
  (forall s, fst (snd st) s = stage_blocks s l)
  /\ snd (snd st) = total_blocks l
  /\ (LinkStatus (fst st) = false
      <-> LinkStatus prog = false \/ blocks_over_limit ctx l).
Proof.
  intros Hcombined Hstage. induction l as [| index l IH] using rev_ind;
    intros Hlength st; subst st.
  - simpl. split; [reflexivity |]. split; [reflexivity |].
    split; [now left |]. intros [H | [H | (s & H)]]; [exact H | |].
    + unfold total_blocks in H. simpl in H. lia.
    + simpl in H. specialize (Hstage s). lia.
  - rewrite length_app in Hlength. simpl length in Hlength.
    specialize (IH ltac:(lia)). cbv zeta in IH.
    rewrite fold_left_app. cbn [fold_left].
    destruct (fold_left (check_block ctx n) l (prog, (fun _ => 0, 0)))
      as [prog1 [blocks total]].
    cbn [fst snd] in IH. destruct IH as (Hblocks & Htotal & Hstatus).
    assert (Hrange : forall s, 0 <= blocks s <= Z.of_nat (length l)).
    { intros s. rewrite Hblocks. apply stage_blocks_range. }
    assert (Htotal_range : 0 <= total <= 3 * Z.of_nat (length l)).
    { rewrite Htotal. unfold total_blocks.
      pose proof (stage_blocks_range MESA_SHADER_VERTEX l).
      pose proof (stage_blocks_range MESA_SHADER_GEOMETRY l).
      pose proof (stage_blocks_range MESA_SHADER_FRAGMENT l). lia. }
    destruct (count_block_spec index blocks total) as [Hfst Hsnd];
      [intros s; specialize (Hrange s); lia | lia | lia |].
    unfold check_block. cbn [fst snd].
    assert (Hblocks' : forall s,
               fst (count_block index (blocks, total)) s
               = stage_blocks s (l ++ [index])).
    { intros s. rewrite Hfst, stage_blocks_app, Hblocks. simpl. lia. }
    assert (Htotal' : snd (count_block index (blocks, total))
                      = total_blocks (l ++ [index])).
    { rewrite Hsnd, Htotal. unfold total_blocks.
      rewrite !stage_blocks_app. simpl. lia. }
    split; [exact Hblocks' |]. split; [exact Htotal' |].
    pose proof (blocks_over_limit_grows ctx l index) as Hgrows.
    destruct (Z.gtb_spec (snd (count_block index (blocks, total)))
                (MaxCombinedUniformBlocks ctx)) as [Hover | Hunder].
    + rewrite linker_error_status. split; [| reflexivity].
      intros _. right. left. rewrite <- Htotal'. exact Hover.
    + pose proof (find_over_limit ctx
                    (fst (count_block index (blocks, total)))) as Hfind.
      destruct (List.find _ all_stages) as [i |].
      * rewrite linker_error_status. split; [| reflexivity].
        intros _. right. right. destruct Hfind as (s & Hs).
        exists s. rewrite <- Hblocks'. exact Hs.
      * rewrite Hstatus. split.
        -- intros [H | H]; [now left | right; now apply Hgrows].
        -- intros [H | [H | (s & H)]]; [now left | |].
           ++ rewrite <- Htotal' in H. lia.
           ++ rewrite <- Hblocks' in H. specialize (Hfind s). lia.
Qed.

(** X11.  With the counters in range, [check_resources] fails a link that
    was succeeding exactly when a linked stage has too many samplers,
    or too many uniform components while the strict check is on, or the
    uniform blocks exceed the combined limit or the limit of a stage.
    With the strict check off an excess of uniform components never
    fails the link. *)
Theorem check_resources_verdict (ctx : gl_constants)
    (prog : gl_shader_program)
    (usage : gl_shader_stage -> option gl_shader_usage)
    (indices : list (gl_shader_stage -> Z)) :
  LinkStatus prog = true ->
  0 <= MaxCombinedUniformBlocks ctx ->
  (forall s, 0 <= MaxUniformBlocks (stage_constants ctx s)) ->
  3 * Z.of_nat (length indices) < UINT_MOD ->
  (LinkStatus (check_resources ctx prog usage indices) = false
   <-> (exists s, stage_over_limit ctx usage s)
       \/ blocks_over_limit ctx indices).
Proof.
  intros Hstatus Hcombined Hstage Hlength. unfold check_resources.
  destruct (check_blocks_spec ctx
              (to_uint (Z.of_nat (length indices)))
              (fold_left (check_stage_resources ctx usage) all_stages prog)
              indices Hcombined Hstage Hlength) as (_ & _ & ->).
  unfold all_stages. cbn [fold_left].
  rewrite !check_stage_resources_status, Hstatus.
  split.
  - intros [[[[H | H] | H] | H] | H]; [discriminate | | | |]; eauto.
  - intros [([] & H) | H]; auto 6.
Qed.

(** Limits of a small implementation that lets the driver optimise
    uniforms away. *)
Definition sample_program_constants : gl_program_constants :=
  mk_program_constants 16 1024 1024 12.

Definition sample_constants : gl_constants :=
  mk_constants sample_program_constants sample_program_constants
    sample_program_constants true 24.

(** A vertex stage far over the uniform component limits, and one
    uniform block that only the vertex stage uses. *)
Definition sample_usage (s : gl_shader_stage) : option gl_shader_usage :=
  match s with
  | MESA_SHADER_VERTEX => Some (mk_shader_usage 4 2000 2000)
  | _ => None
  end.

Definition sample_block_indices : list (gl_shader_stage -> Z) :=
  [fun s => match s with MESA_SHADER_VERTEX => 0 | _ => -1 end].

Lemma check_resources_verdict_witness :
  LinkStatus (check_resources sample_constants program_version_110
                sample_usage sample_block_indices) = false
  <-> (exists s, stage_over_limit sample_constants sample_usage s)
      \/ blocks_over_limit sample_constants sample_block_indices.
Proof.
  apply (check_resources_verdict sample_constants program_version_110
           sample_usage sample_block_indices).
  - reflexivity.
  - simpl. lia.
  - intros []; simpl; lia.
  - vm_compute. reflexivity.
Defined.

(* ===================================================================== *)
(** ** The head of [link_shaders]: dialects, versions and stages *)
(* ===================================================================== *)

(** The members of a compiled shader [prog->Shaders[i]] that the head of
    [link_shaders] reads. *)
Record gl_compiled_shader : Type := mk_compiled_shader {
  shader_Type : gl_shader_stage;
  shader_Version : Z;
  shader_IsES : bool
}.

Definition UINT_MAX : Z := UINT_MOD - 1.

Definition MIN2 (a b : Z) : Z := if a <? b then a else b.
Definition MAX2 (a b : Z) : Z := if a >? b then a else b.

(** The locals the first loop fills in. *)
Record shader_groups : Type := mk_shader_groups {
  min_version : Z;
  max_version : Z;
  vert_shader_list : list gl_compiled_shader;
  frag_shader_list : list gl_compiled_shader;
  geom_shader_list : list gl_compiled_shader
}.

Definition mixed_dialect_message : string :=
  "all shaders must use same shading " +:+ "language version" +:+ nl.

Definition geometry_without_vertex_message : string :=
  "Geometry shader must be linked with " +:+ "vertex shader" +:+ nl.

(** The body of the loop over [prog->Shaders]. *)
Definition separate_shader (is_es_prog : bool) (sh : gl_compiled_shader)
    (st : gl_shader_program * shader_groups)
    : flow (gl_shader_program * shader_groups) :=
  let '(prog, groups) := st in
  let min_version' := MIN2 (min_version groups) (shader_Version sh) in
  let max_version' := MAX2 (max_version groups) (shader_Version sh) in
  if negb (eqb (shader_IsES sh) is_es_prog) then
    Ret (linker_error prog mixed_dialect_message,
         mk_shader_groups min_version' max_version'
           (vert_shader_list groups) (frag_shader_list groups)
           (geom_shader_list groups))
  else
    Next (prog,
          match shader_Type sh with
          | MESA_SHADER_VERTEX =>
              mk_shader_groups min_version' max_version'
                (vert_shader_list groups ++ [sh])
                (frag_shader_list groups) (geom_shader_list groups)
          | MESA_SHADER_FRAGMENT =>
              mk_shader_groups min_version' max_version'
                (vert_shader_list groups)
                (frag_shader_list groups ++ [sh]) (geom_shader_list groups)
          | MESA_SHADER_GEOMETRY =>
              mk_shader_groups min_version' max_version'
                (vert_shader_list groups) (frag_shader_list groups)
                (geom_shader_list groups ++ [sh])
          end).

Definition set_version (version : Z) (is_es : bool) (p : gl_shader_program)
    : gl_shader_program :=
  mk_program (InfoLog p) (LinkStatus p) version is_es
    (Vert_UsesClipDistance p) (Vert_ClipDistanceArraySize p)
    (LinkedShader_vertex p) (LinkedShader_geometry p)
    (LinkedShader_fragment p)
    (AttributeBindings p) (FragDataBindings p) (FragDataIndexBindings p).

(** [link_shaders] from its first statement to the check that a geometry
    shader comes with a vertex shader; [Ret] is [goto done]. *)
Definition link_shaders_separate (prog : gl_shader_program)
    (Shaders : list gl_compiled_shader)
    : flow (gl_shader_program * shader_groups) :=
  let prog0 := link_shaders_reset prog in
  let is_es_prog :=
    match Shaders with
    | sh :: _ => shader_IsES sh
    | [] => false
    end in
  for_each (separate_shader is_es_prog) Shaders
    (prog0, mk_shader_groups UINT_MAX 0 [] [] [])
  >>> (fun st =>
         let '(prog1, groups) := st in
         if (is_es_prog
             && negb (min_version groups =? max_version groups))%bool
         then Ret (linker_error prog1 mixed_dialect_message, groups)
         else
           let prog2 := set_version (max_version groups) is_es_prog prog1 in
           if ((0 <? Z.of_nat (length (geom_shader_list groups)))
               && (Z.of_nat (length (vert_shader_list groups)) =? 0))%bool
           then Ret (linker_error prog2 geometry_without_vertex_message,
                     groups)
           else Next (prog2, groups)).

(** The shaders of one stage, in the order of [prog->Shaders]. *)
Definition shaders_of (stage : gl_shader_stage)
    (l : list gl_compiled_shader) : list gl_compiled_shader :=
  List.filter (fun sh => bool_decide (shader_Type sh = stage)) l.

Lemma separate_shaders_spec (is_es_prog : bool)
    (l : list gl_compiled_shader) :
  forall (prog : gl_shader_program) (groups : shader_groups),
    match for_each (separate_shader is_es_prog) l (prog, groups) with
    | Next (prog', groups') =>
        prog' = prog
        /\ (forall sh, In sh l -> shader_IsES sh = is_es_prog)
        /\ vert_shader_list groups'
           = (vert_shader_list groups ++ shaders_of MESA_SHADER_VERTEX l)%list
        /\ frag_shader_list groups'
           = (frag_shader_list groups
              ++ shaders_of MESA_SHADER_FRAGMENT l)%list
        /\ geom_shader_list groups'
           = (geom_shader_list groups
              ++ shaders_of MESA_SHADER_GEOMETRY l)%list
        /\ (forall sh, In sh l ->
                       min_version groups' <= shader_Version sh
                                           <= max_version groups')
        /\ min_version groups' <= min_version groups
        /\ max_version groups <= max_version groups'
        /\ (min_version groups' = min_version groups
            \/ exists sh, In sh l
                          /\ shader_Version sh = min_version groups')
        /\ (max_version groups' = max_version groups
            \/ exists sh, In sh l
                          /\ shader_Version sh = max_version groups')
    | Ret (prog', _) =>
        LinkStatus prog' = false
        /\ exists sh, In sh l /\ shader_IsES sh <> is_es_prog
    end.
Proof.
  induction l as [| sh l IH]; intros prog groups.
  - simpl. rewrite !app_nil_r.
    repeat apply conj; try reflexivity; try lia; try (now left);
      intros sh [].
  - cbn [for_each]. unfold separate_shader at 1.
    destruct (eqb (shader_IsES sh) is_es_prog) eqn:Hes; simpl negb;
      cbv iota.
    + apply eqb_prop in Hes.
      match goal with
      | |- context [for_each _ l (prog, ?g)] =>
          specialize (IH prog g); set (groups1 := g) in *
      end.
      assert (Hmin1 : min_version groups1
                      = MIN2 (min_version groups) (shader_Version sh))
        by (subst groups1; now destruct (shader_Type sh)).
      assert (Hmax1 : max_version groups1
                      = MAX2 (max_version groups) (shader_Version sh))
        by (subst groups1; now destruct (shader_Type sh)).
      assert (Hlists :
               vert_shader_list groups1
               = (vert_shader_list groups
                  ++ shaders_of MESA_SHADER_VERTEX [sh])%list
               /\ frag_shader_list groups1
                  = (frag_shader_list groups
                     ++ shaders_of MESA_SHADER_FRAGMENT [sh])%list
               /\ geom_shader_list groups1
                  = (geom_shader_list groups
                     ++ shaders_of MESA_SHADER_GEOMETRY [sh])%list).
      { subst groups1. unfold shaders_of. simpl.
        destruct (shader_Type sh); simpl; rewrite ?app_nil_r; auto. }
      destruct Hlists as (Hv1 & Hf1 & Hg1).
      clearbody groups1.
      destruct (for_each (separate_shader is_es_prog) l (prog, groups1))
        as [[prog' groups'] | [prog' groups']].
      * destruct IH as (-> & Hall & Hv & Hf & Hg & Hrange & Hmin & Hmax
                        & Hmin_in & Hmax_in).
        assert (Hcons : forall stage,
                   shaders_of stage (sh :: l)
                   = (shaders_of stage [sh] ++ shaders_of stage l)%list).
        { intros stage. unfold shaders_of. simpl.
          now destruct (bool_decide (shader_Type sh = stage)). }
        unfold MIN2 in Hmin1. unfold MAX2 in Hmax1.
        destruct (Z.ltb_spec (min_version groups) (shader_Version sh));
          destruct (Z.gtb_spec (max_version groups) (shader_Version sh));
          (split; [reflexivity |];
           split; [intros x [<- | Hx]; [exact Hes | now apply Hall] |];
           split; [rewrite Hv, Hv1, Hcons, app_assoc; reflexivity |];
           split; [rewrite Hf, Hf1, Hcons, app_assoc; reflexivity |];
           split; [rewrite Hg, Hg1, Hcons, app_assoc; reflexivity |];
           split; [intros x [<- | Hx]; [lia | now apply Hrange] |];
           split; [lia |]; split; [lia |];
           split;
           [ destruct Hmin_in as [Heq | (x & Hx & Heq)];
             [ first [ left; lia
                     | right; exists sh; split; [now left | lia] ]
             | right; exists x; split; [now right | exact Heq] ]
           | destruct Hmax_in as [Heq | (x & Hx & Heq)];
             [ first [ left; lia
                     | right; exists sh; split; [now left | lia] ]
             | right; exists x; split; [now right | exact Heq] ] ]).
      * destruct IH as (Hstatus & x & Hx & Hne).
        split; [exact Hstatus |]. exists x. split; [now right | exact Hne].
    + split; [apply linker_error_status |].
      exists sh. split; [now left |].
      intros Heq. rewrite Heq, eqb_reflx in Hes. discriminate.
Qed.

(** X12.  The head of [link_shaders] goes on to the per-stage linking
    exactly when the shaders are all of one dialect, the ES ones all of
    one version, and a geometry shader comes with a vertex shader.  The
    program then takes the dialect of the shaders and the highest of
    their versions, its log is empty, and the shaders are handed on
    sorted by stage in their original order. *)
Theorem link_shaders_separate_verdict (prog : gl_shader_program)
    (Shaders : list gl_compiled_shader) :
  (forall sh, In sh Shaders -> 0 <= shader_Version sh <= UINT_MAX) ->
  match link_shaders_separate prog Shaders with
  | Next (prog', groups) =>
      LinkStatus prog' = true /\ InfoLog prog' = ""
      /\ (forall sh, In sh Shaders ->
                     shader_IsES sh = IsES prog'
                     /\ shader_Version sh <= Version prog')
      /\ (Shaders <> [] ->
          exists sh, In sh Shaders /\ shader_Version sh = Version prog')
      /\ (IsES prog' = true ->
          forall sh, In sh Shaders -> shader_Version sh = Version prog')
      /\ vert_shader_list groups = shaders_of MESA_SHADER_VERTEX Shaders
      /\ frag_shader_list groups = shaders_of MESA_SHADER_FRAGMENT Shaders
      /\ geom_shader_list groups = shaders_of MESA_SHADER_GEOMETRY Shaders
      /\ (shaders_of MESA_SHADER_GEOMETRY Shaders <> [] ->
          shaders_of MESA_SHADER_VERTEX Shaders <> [])
  | Ret (prog', _) =>
      LinkStatus prog' = false
      /\ ((exists a b, In a Shaders /\ In b Shaders
                       /\ shader_IsES a <> shader_IsES b)
          \/ (exists a b, In a Shaders /\ In b Shaders
                          /\ shader_IsES a = true
                          /\ shader_Version a <> shader_Version b)
          \/ (shaders_of MESA_SHADER_GEOMETRY Shaders <> []
              /\ shaders_of MESA_SHADER_VERTEX Shaders = []))
  end.
Proof.
  intros Hversions. unfold link_shaders_separate.
  set (is_es_prog := match Shaders with
                     | sh :: _ => shader_IsES sh
                     | [] => false
                     end).
  pose proof (separate_shaders_spec is_es_prog Shaders
                (link_shaders_reset prog)
                (mk_shader_groups UINT_MAX 0 [] [] [])) as Hloop.
  destruct (for_each (separate_shader is_es_prog) Shaders
              (link_shaders_reset prog,
               mk_shader_groups UINT_MAX 0 [] [] []))
    as [[prog1 groups] | [prog1 groups]]; cbn [and_then].
  - destruct Hloop as (-> & Hall & Hv & Hf & Hg & Hrange & Hmin & Hmax
                       & Hmin_in & Hmax_in).
    simpl in Hv, Hf, Hg, Hmin, Hmax, Hmin_in, Hmax_in.
    assert (Hmax_is : Shaders <> [] ->
              exists sh, In sh Shaders
                         /\ shader_Version sh = max_version groups).
    { intros Hne. destruct Hmax_in as [Heq | Hin]; [| exact Hin].
      destruct Shaders as [| sh rest]; [contradiction |].
      exists sh. split; [now left |].
      pose proof (Hrange sh ltac:(now left)).
      pose proof (Hversions sh ltac:(now left)). lia. }
    destruct (is_es_prog
              && negb (min_version groups =? max_version groups))%bool
      eqn:Hmixed.
    + split; [apply linker_error_status |]. right. left.
      apply andb_true_iff in Hmixed as [Hes Hdiffer].
      apply negb_true_iff, Z.eqb_neq in Hdiffer.
      destruct Shaders as [| first rest]; [discriminate |].
      destruct (Hmax_is ltac:(discriminate)) as (b & Hb & Hb').
      assert (Hfirst : shader_IsES first = true) by exact Hes.
      destruct Hmin_in as [Heq | (a & Ha & Ha')].
      * pose proof (Hrange b Hb). pose proof (Hversions b Hb). lia.
      * exists first.
        destruct (decide (shader_Version first = shader_Version a)).
        -- exists b. repeat split; [now left | exact Hb | exact Hfirst |].
           lia.
        -- exists a. repeat split; [now left | exact Ha | exact Hfirst |].
           assumption.
    + destruct ((0 <? Z.of_nat (length (geom_shader_list groups)))
                && (Z.of_nat (length (vert_shader_list groups)) =? 0))%bool
        eqn:Hgeometry.
      * split; [apply linker_error_status |]. right. right.
        apply andb_true_iff in Hgeometry as [Hsome Hnone].
        apply Z.ltb_lt in Hsome. apply Z.eqb_eq in Hnone.
        rewrite <- Hg, <- Hv.
        split; [intros Heq; rewrite Heq in Hsome; simpl in Hsome; lia |].
        destruct (vert_shader_list groups); [reflexivity |].
        simpl in Hnone. lia.
      * simpl. repeat apply conj; try assumption; try reflexivity.
        -- intros sh Hsh. split; [now apply Hall |].
           now apply Hrange.
        -- intros Hes sh Hsh.
           rewrite Hes in Hmixed. simpl in Hmixed.
           apply negb_false_iff, Z.eqb_eq in Hmixed.
           pose proof (Hrange sh Hsh). lia.
        -- rewrite <- Hg, <- Hv. intros Hsome Hnone.
           apply andb_false_iff in Hgeometry as [H | H].
           ++ apply Z.ltb_ge in H.
              destruct (geom_shader_list groups); [contradiction |].
              simpl in H. lia.
           ++ apply Z.eqb_neq in H. rewrite Hnone in H. now apply H.
  - destruct Hloop as (Hstatus & sh & Hsh & Hne).
    split; [exact Hstatus |]. left.
    destruct Shaders as [| first rest]; [destruct Hsh |].
    exists sh, first. repeat split; [exact Hsh | now left | exact Hne].
Qed.

(** A GLSL 1.20 vertex shader with a GLSL 1.30 fragment shader. *)
Definition two_desktop_shaders : list gl_compiled_shader :=
  [mk_compiled_shader MESA_SHADER_VERTEX 120 false;
   mk_compiled_shader MESA_SHADER_FRAGMENT 130 false].

Lemma link_shaders_separate_verdict_witness :
  exists prog' groups,
    link_shaders_separate program_version_110 two_desktop_shaders
    = Next (prog', groups)
    /\ Version prog' = 130
    /\ vert_shader_list groups
       = [mk_compiled_shader MESA_SHADER_VERTEX 120 false].
Proof.
  pose proof (link_shaders_separate_verdict program_version_110
                two_desktop_shaders) as H.
  assert (Hrange : forall sh, In sh two_desktop_shaders ->
                              0 <= shader_Version sh <= UINT_MAX).
  { intros sh [<- | [<- | []]]; vm_compute; split; discriminate. }
  specialize (H Hrange).
  destruct (link_shaders_separate program_version_110 two_desktop_shaders)
    as [[prog' groups] | [prog' groups]] eqn:Hrun.
  - exists prog', groups. split; [reflexivity |].
    destruct H as (_ & _ & Hall & Hsome & _ & Hv & _).
    split; [| exact Hv].
    destruct (Hsome ltac:(discriminate)) as (sh & Hsh & Heq).
    pose proof (Hall (mk_compiled_shader MESA_SHADER_FRAGMENT 130 false)
                  ltac:(right; left; reflexivity)) as [_ Hle].
    simpl in Hle.
    destruct Hsh as [<- | [<- | []]]; simpl in Heq; lia.
  - vm_compute in Hrun. discriminate.
Defined.

(* ===================================================================== *)
(** ** What cross validation looks at *)
(* ===================================================================== *)

(** A node the loop of [cross_validate_globals] does not skip. *)
Definition examined_node (uniforms_only : bool) (node : ir_instruction)
    : bool :=
  match as_variable node with
  | Some var => examined uniforms_only var
  | None => false
  end.

(** The declarations of a unit that are examined, in order. *)
Definition examined_declarations (uniforms_only : bool)
    (shader : option gl_shader) : list ir_instruction :=
  match shader with
  | Some sh => List.filter (examined_node uniforms_only) (ir sh)
  | None => []
  end.

(** The names a list of nodes declares. *)
Definition declared_names (l : list ir_instruction) : list string :=
  flat_map (fun node =>
              match as_variable node with
              | Some var => [name var]
              | None => []
              end) l.

(** The names of the examined declarations of all units. *)
Definition examined_names (uniforms_only : bool)
    (shader_list : list (option gl_shader)) : list string :=
  flat_map
    (fun shader =>
       declared_names (examined_declarations uniforms_only shader))
    shader_list.

Section CrossValidateScope.
Variable contains_atomic : glsl_type -> bool.
Variable has_value : ir_constant -> ir_constant -> bool.
Variable mode_string : ir_variable -> string.

Local Abbreviation validate_node :=
  (cross_validate_node contains_atomic has_value mode_string).
Local Abbreviation validate_shader :=
  (cross_validate_shader contains_atomic has_value mode_string).
Local Abbreviation validate_globals :=
  (cross_validate_globals contains_atomic has_value mode_string).
Local Abbreviation validate_globals_table :=
  (cross_validate_globals_table contains_atomic has_value mode_string).

Lemma cross_validate_node_skipped (uniforms_only : bool)
    (node : ir_instruction) (st : globals_state) :
  examined_node uniforms_only node = false ->
  validate_node uniforms_only node st = Next st.
Proof.
  unfold examined_node, examined, cross_validate_node.
  destruct st as [prog variables].
  destruct (as_variable node) as [var |]; [| reflexivity].
  destruct (uniforms_only
            && negb (bool_decide (mode var = ir_var_uniform)))%bool;
    [reflexivity |].
  destruct (bool_decide (mode var = ir_var_temporary)); [reflexivity |].
  discriminate.
Qed.

Lemma cross_validate_nodes_examined (uniforms_only : bool)
    (l : list ir_instruction) :
  forall st,
    for_each (validate_node uniforms_only) l st
    = for_each (validate_node uniforms_only)
        (List.filter (examined_node uniforms_only) l) st.
Proof.
  induction l as [| node l IH]; intros st; [reflexivity |].
  cbn [List.filter for_each].
  destruct (examined_node uniforms_only node) eqn:Hex.
  - cbn [for_each].
    destruct (validate_node uniforms_only node st); [apply IH | reflexivity].
  - rewrite (cross_validate_node_skipped _ _ _ Hex). apply IH.
Qed.

Lemma cross_validate_shaders_examined (uniforms_only : bool)
    (l l' : list (option gl_shader)) :
  map (examined_declarations uniforms_only) l
  = map (examined_declarations uniforms_only) l' ->
  forall st,
    for_each (validate_shader uniforms_only) l st
    = for_each (validate_shader uniforms_only) l' st.
Proof.
  assert (Hone : forall shader st,
             validate_shader uniforms_only shader st
             = for_each (validate_node uniforms_only)
                 (examined_declarations uniforms_only shader) st).
  { intros [sh |] st; [| reflexivity].
    apply cross_validate_nodes_examined. }
  revert l'. induction l as [| shader l IH]; intros [| shader' l'] Hmap st;
    try discriminate; [reflexivity |].
  simpl in Hmap. inversion Hmap as [[Hhead Htail]].
  cbn [for_each]. rewrite (Hone shader), (Hone shader'), Hhead.
  destruct (for_each (validate_node uniforms_only)
              (examined_declarations uniforms_only shader') st);
    [now apply IH | reflexivity].
Qed.

(** X13.  Cross validation depends on the shaders only through the
    declarations it examines: two lists of units that agree, unit by
    unit, on their global declarations other than temporaries (on their
    uniform declarations, when only uniforms are validated) get the same
    log, status and merged declarations, whatever else they hold. *)
Theorem cross_validation_reads_examined_declarations
    (prog : gl_shader_program) (uniforms_only : bool)
    (l l' : list (option gl_shader)) :
  map (examined_declarations uniforms_only) l
  = map (examined_declarations uniforms_only) l' ->
  validate_globals_table prog l uniforms_only
  = validate_globals_table prog l' uniforms_only.
Proof.
  intros Hmap. unfold cross_validate_globals_table.
  now apply cross_validate_shaders_examined.
Qed.

Lemma cross_validate_nodes_fresh (uniforms_only : bool)
    (l : list ir_instruction) :
  forall (prog : gl_shader_program) (variables : gmap string ir_variable),
    let names :=
      declared_names (List.filter (examined_node uniforms_only) l) in
    NoDup names ->
    (forall n, In n names -> variables !! n = None) ->
    exists variables',
      for_each (validate_node uniforms_only) l (prog, variables)
      = Next (prog, variables')
      /\ forall n, variables' !! n = None
                   <-> variables !! n = None /\ ~ In n names.
Proof.
  induction l as [| node l IH]; intros prog variables names Hnodup Hfresh;
    subst names.
  - exists variables. split; [reflexivity |]. intros n. simpl. tauto.
  - cbn [for_each List.filter] in *.
    destruct (examined_node uniforms_only node) eqn:Hex.
    + unfold examined_node in Hex.
      destruct (as_variable node) as [var |] eqn:Hvar; [| discriminate].
      unfold declared_names in Hnodup, Hfresh |- *.
      cbn [flat_map] in Hnodup, Hfresh |- *. rewrite Hvar in *.
      cbn [app] in Hnodup, Hfresh |- *.
      fold (declared_names (List.filter (examined_node uniforms_only) l))
        in *.
      inversion Hnodup as [| ? ? Hnotin Hrest]; subst.
      assert (Hnode : validate_node uniforms_only node (prog, variables)
                      = Next (prog, <[name var := var]> variables)).
      { unfold cross_validate_node. rewrite Hvar.
        unfold examined in Hex. apply andb_true_iff in Hex as [H1 H2].
        apply negb_true_iff in H1. apply negb_true_iff in H2.
        rewrite H1, H2, (Hfresh (name var) ltac:(now left)).
        reflexivity. }
      rewrite Hnode.
      destruct (IH prog (<[name var := var]> variables) Hrest)
        as (variables' & Hrun & Hkeys).
      * intros n Hn.
        rewrite lookup_insert_ne; [apply Hfresh; now right |].
        intros <-. apply Hnotin. now apply list_elem_of_In.
      * exists variables'. split; [exact Hrun |].
        intros n. rewrite Hkeys.
        destruct (decide (name var = n)) as [<- | Hne].
        -- rewrite lookup_insert_eq. split; [intros [H _]; discriminate |].
           intros [_ H]. exfalso. apply H. now left.
        -- rewrite lookup_insert_ne by exact Hne.
           split; intros [H1 H2]; (split; [exact H1 |]).
           ++ intros [H | H]; contradiction.
           ++ intros H. apply H2. now right.
    + rewrite (cross_validate_node_skipped _ _ _ Hex).
      apply IH; assumption.
Qed.

Lemma cross_validate_shaders_fresh (uniforms_only : bool)
    (l : list (option gl_shader)) :
  forall (prog : gl_shader_program) (variables : gmap string ir_variable),
    NoDup (examined_names uniforms_only l) ->
    (forall n, In n (examined_names uniforms_only l) ->
               variables !! n = None) ->
    exists variables',
      for_each (validate_shader uniforms_only) l (prog, variables)
      = Next (prog, variables').
Proof.
  induction l as [| shader l IH]; intros prog variables Hnodup Hfresh.
  - exists variables. reflexivity.
  - cbn [for_each]. unfold examined_names in Hnodup, Hfresh.
    cbn [flat_map] in Hnodup, Hfresh.
    fold (examined_names uniforms_only l) in Hnodup, Hfresh.
    apply NoDup_app in Hnodup as (Hhead & Hdisjoint & Htail).
    destruct shader as [sh |].
    + destruct (cross_validate_nodes_fresh uniforms_only (ir sh) prog
                  variables Hhead) as (variables1 & Hrun & Hkeys).
      * intros n Hn. apply Hfresh. apply in_or_app. now left.
      * cbn [cross_validate_shader]. rewrite Hrun.
        apply IH; [exact Htail |].
        intros n Hn. apply Hkeys. split.
        -- apply Hfresh. apply in_or_app. now right.
        -- intros Hin.
           apply (Hdisjoint n); now apply list_elem_of_In.
    + cbn [cross_validate_shader]. apply IH; [exact Htail |].
      intros n Hn. apply Hfresh. apply in_or_app. now right.
Qed.

(** X14.  Only a shared name can make cross validation complain: when
    the examined declarations of the units bear pairwise distinct names,
    the program comes back as it went in. *)
Theorem cross_validation_needs_shared_name (prog : gl_shader_program)
    (uniforms_only : bool) (l : list (option gl_shader)) :
  NoDup (examined_names uniforms_only l) ->
  validate_globals prog l uniforms_only = prog.
Proof.
  intros Hnodup. unfold cross_validate_globals, cross_validate_globals_table.
  destruct (cross_validate_shaders_fresh uniforms_only l prog ∅ Hnodup)
    as (variables' & ->); [| reflexivity].
  intros n _. apply lookup_empty.
Qed.
End CrossValidateScope.

(** A unit that declares a uniform next to an output and a [main], and
    one that declares the uniform alone. *)
Definition unit_with_uniform_and_more : gl_shader :=
  unit_of
    [ir_variable_decl (plain_variable "scale" (glsl_base "float")
                         ir_var_uniform);
     ir_variable_decl (plain_variable "colour" (glsl_base "vec4")
                         ir_var_shader_out);
     main_writing [("colour", glsl_base "vec4")]].

Definition unit_with_uniform_only : gl_shader :=
  unit_of
    [ir_variable_decl (plain_variable "scale" (glsl_base "float")
                         ir_var_uniform)].

Lemma cross_validation_reads_examined_declarations_witness :
  cross_validate_globals_table sample_contains_atomic sample_has_value
    sample_mode_string program_version_110
    [Some unit_with_uniform_and_more; None] true
  = cross_validate_globals_table sample_contains_atomic sample_has_value
      sample_mode_string program_version_110
      [Some unit_with_uniform_only; None] true.
Proof.
  apply (cross_validation_reads_examined_declarations
           sample_contains_atomic sample_has_value sample_mode_string
           program_version_110 true
           [Some unit_with_uniform_and_more; None]
           [Some unit_with_uniform_only; None]).
  reflexivity.
Defined.

Lemma cross_validation_needs_shared_name_witness :
  cross_validate_globals sample_contains_atomic sample_has_value
    sample_mode_string program_version_110
    [Some unit_with_uniform_and_more; None] false
  = program_version_110.
Proof.
  apply (cross_validation_needs_shared_name sample_contains_atomic
           sample_has_value sample_mode_string program_version_110 false
           [Some unit_with_uniform_and_more; None]).
  apply (bool_decide_unpack _). vm_compute. exact I.
Defined.

(* ===================================================================== *)
(** ** The dereference visitor *)
(* ===================================================================== *)

(** A dereference of a variable called [n] occurs in a value. *)
Inductive dereferences (n : string) : ir_rvalue -> Prop :=
| dereferences_variable (v : ir_variable) :
    name v = n -> dereferences n (ir_dereference_variable v)
| dereferences_array (a i : ir_rvalue) :
    dereferences n a -> dereferences n (ir_dereference_array a i)
| dereferences_array_index (a i : ir_rvalue) :
    dereferences n i -> dereferences n (ir_dereference_array a i)
| dereferences_record (a : ir_rvalue) (f : string) :
    dereferences n a -> dereferences n (ir_dereference_record a f)
| dereferences_swizzle (a : ir_rvalue) :
    dereferences n a -> dereferences n (ir_swizzle a)
| dereferences_operand (ops : list ir_rvalue) (r : ir_rvalue) :
    In r ops -> dereferences n r -> dereferences n (ir_expression ops).

Definition dereferences_option (n : string) (o : option ir_rvalue) : Prop :=
  exists r, o = Some r /\ dereferences n r.

(** It occurs at or below a node: in either side or the condition of an
    assignment, in the return slot or an actual parameter of a call, in a
    condition or returned value, or further down the tree. *)
Inductive dereferenced_in (n : string) : ir_instruction -> Prop :=
| dereferenced_lhs (lhs rhs : ir_rvalue) (cond : option ir_rvalue) :
    dereferences n lhs -> dereferenced_in n (ir_assignment lhs rhs cond)
| dereferenced_rhs (lhs rhs : ir_rvalue) (cond : option ir_rvalue) :
    dereferences n rhs -> dereferenced_in n (ir_assignment lhs rhs cond)
| dereferenced_assignment_condition (lhs rhs : ir_rvalue)
    (cond : option ir_rvalue) :
    dereferences_option n cond ->
    dereferenced_in n (ir_assignment lhs rhs cond)
| dereferenced_return_slot (formals : list ir_variable)
    (actuals : list ir_rvalue) (ret : option ir_rvalue) :
    dereferences_option n ret ->
    dereferenced_in n (ir_call formals actuals ret)
| dereferenced_actual (formals : list ir_variable)
    (actuals : list ir_rvalue) (ret : option ir_rvalue) (r : ir_rvalue) :
    In r actuals -> dereferences n r ->
    dereferenced_in n (ir_call formals actuals ret)
| dereferenced_if_condition (c : ir_rvalue) (t e : list ir_instruction) :
    dereferences n c -> dereferenced_in n (ir_if c t e)
| dereferenced_then (c : ir_rvalue) (t e : list ir_instruction)
    (i : ir_instruction) :
    In i t -> dereferenced_in n i -> dereferenced_in n (ir_if c t e)
| dereferenced_else (c : ir_rvalue) (t e : list ir_instruction)
    (i : ir_instruction) :
    In i e -> dereferenced_in n i -> dereferenced_in n (ir_if c t e)
| dereferenced_loop (b : list ir_instruction) (i : ir_instruction) :
    In i b -> dereferenced_in n i -> dereferenced_in n (ir_loop b)
| dereferenced_return (value : option ir_rvalue) :
    dereferences_option n value -> dereferenced_in n (ir_return value)
| dereferenced_discard (cond : option ir_rvalue) :
    dereferences_option n cond -> dereferenced_in n (ir_discard cond)
| dereferenced_function (fname : string)
    (sigs : list ir_function_signature) (sg : ir_function_signature)
    (i : ir_instruction) :
    In sg sigs -> In i (sig_body sg) -> dereferenced_in n i ->
    dereferenced_in n (ir_function fname sigs).

Definition statically_dereferenced (n : string)
    (l : list ir_instruction) : Prop :=
  exists i, In i l /\ dereferenced_in n i.

Lemma accept_rvalue_array {S : Type} (v : ir_hierarchical_visitor S)
    (a i : ir_rvalue) (s : S) :
  accept_rvalue v (ir_dereference_array a i) s
  = match accept_rvalue v i s with
    | (visit_continue, s') => accept_rvalue v a s'
    | (st, s') => (parent_status st, s')
    end.
Proof. reflexivity. Qed.

Section FindDerefCorrect.
Variable n : string.

Lemma find_deref_assignment (lhs rhs : ir_rvalue)
    (cond : option ir_rvalue) (found : bool) :
  accept (find_deref_visitor n) (ir_assignment lhs rhs cond) found
  = match accept_rvalue (find_deref_visitor n) lhs found with
    | (visit_continue, s2) =>
        match accept_rvalue (find_deref_visitor n) rhs s2 with
        | (visit_continue, s3) =>
            match
              accept_option (accept_rvalue (find_deref_visitor n)) cond s3
            with
            | (st, s4) => (parent_status st, s4)
            end
        | (st, s3) => (parent_status st, s3)
        end
    | (st, s2) => (parent_status st, s2)
    end.
Proof. reflexivity. Qed.

Lemma find_deref_call (formals : list ir_variable)
    (actuals : list ir_rvalue) (ret : option ir_rvalue) (found : bool) :
  accept (find_deref_visitor n) (ir_call formals actuals ret) found
  = match
      accept_option (accept_rvalue (find_deref_visitor n)) ret found
    with
    | (visit_continue, s2) =>
        match
          visit_list_elements (accept_rvalue (find_deref_visitor n))
            actuals s2
        with
        | (st, s3) => (parent_status st, s3)
        end
    | (st, s2) => (parent_status st, s2)
    end.
Proof. reflexivity. Qed.

Lemma find_deref_rvalue (r : ir_rvalue) (found : bool) :
  found_iff (dereferences n r)
    (accept_rvalue (find_deref_visitor n) r found) found.
Proof.
  revert found.
  induction r as [v | a i IHa IHi | a f IHa | a IHa | ops IH | c]
    using ir_rvalue_nested_ind; intros found.
  - simpl. destruct (String.eqb n (name v)) eqn:Hn.
    + apply String.eqb_eq in Hn. left. split; [| reflexivity].
      now constructor.
    + apply String.eqb_neq in Hn. right. split; [| reflexivity].
      inversion 1; subst. congruence.
  - rewrite accept_rvalue_array.
    destruct (IHi found) as [[Hi ->] | [Hi ->]].
    + left. split; [now apply dereferences_array_index | reflexivity].
    + destruct (IHa found) as [[Ha ->] | [Ha ->]].
      * left. split; [now apply dereferences_array | reflexivity].
      * right. split; [| reflexivity]. inversion 1; subst; tauto.
  - simpl. destruct (IHa found) as [[Ha ->] | [Ha ->]].
    + left. split; [now constructor | reflexivity].
    + right. split; [| reflexivity]. inversion 1; subst; tauto.
  - simpl. destruct (IHa found) as [[Ha ->] | [Ha ->]].
    + left. split; [now constructor | reflexivity].
    + right. split; [| reflexivity]. inversion 1; subst; tauto.
  - rewrite accept_rvalue_expression.
    pose proof (visit_list_elements_found _ _ _ IH found) as Hl.
    destruct (visit_list_elements _ ops found) as [st b].
    apply found_iff_parent. revert Hl. apply found_iff_equiv. split.
    + intros (r & Hr & Hd). eapply dereferences_operand; eauto.
    + inversion 1; subst. eauto.
  - right. split; [inversion 1 | reflexivity].
Qed.

Lemma find_deref_option (o : option ir_rvalue) (found : bool) :
  found_iff (dereferences_option n o)
    (accept_option (accept_rvalue (find_deref_visitor n)) o found) found.
Proof.
  destruct o as [r |]; simpl.
  - pose proof (find_deref_rvalue r found) as Hr. revert Hr.
    apply found_iff_equiv. unfold dereferences_option. split.
    + eauto.
    + intros (r' & Heq & Hd). now inversion Heq; subst.
  - right. split; [| reflexivity]. intros (r & Heq & _). discriminate.
Qed.

Lemma find_deref_list (l : list ir_rvalue) (found : bool) :
  found_iff (exists r, In r l /\ dereferences n r)
    (visit_list_elements (accept_rvalue (find_deref_visitor n)) l found)
    found.
Proof.
  apply visit_list_elements_found. apply Forall_forall.
  intros r _ found'. apply find_deref_rvalue.
Qed.

Lemma find_deref_accept (i : ir_instruction) (found : bool) :
  found_iff (dereferenced_in n i)
    (accept (find_deref_visitor n) i found) found.
Proof.
  revert found.
  induction i as [v | fn sigs IH | l r c | f a r | c t e IHt IHe | b IH
                  | v | c | | | | p d bb body IH]
    using ir_instruction_nested_ind
    with (Q := fun sg => forall found,
                 found_iff
                   (exists i, In i (sig_body sg) /\ dereferenced_in n i)
                   (accept_signature (find_deref_visitor n) sg found)
                   found);
    intros found.
  - right. split; [inversion 1 | reflexivity].
  - rewrite accept_function.
    pose proof (visit_list_elements_found _ _ _ IH found) as Hl.
    destruct (visit_list_elements _ sigs found) as [st b].
    apply found_iff_parent. revert Hl. apply found_iff_equiv. split.
    + intros (sg & Hsg & i & Hi & Hd). eapply dereferenced_function; eauto.
    + inversion 1; subst. eauto.
  - rewrite find_deref_assignment.
    destruct (find_deref_rvalue l found) as [[Hl ->] | [Hl ->]].
    + left. split; [now apply dereferenced_lhs | reflexivity].
    + destruct (find_deref_rvalue r found) as [[Hr ->] | [Hr ->]].
      * left. split; [now apply dereferenced_rhs | reflexivity].
      * pose proof (find_deref_option c found) as Hc.
        destruct (accept_option _ c found) as [st b].
        apply found_iff_parent. revert Hc. apply found_iff_equiv. split.
        -- now apply dereferenced_assignment_condition.
        -- inversion 1; subst; tauto.
  - rewrite find_deref_call.
    destruct (find_deref_option r found) as [[Hr ->] | [Hr ->]].
    + left. split; [now apply dereferenced_return_slot | reflexivity].
    + pose proof (find_deref_list a found) as Ha.
      destruct (visit_list_elements _ a found) as [st b].
      apply found_iff_parent. revert Ha. apply found_iff_equiv. split.
      * intros (x & Hx & Hd). eapply dereferenced_actual; eauto.
      * inversion 1; subst; [tauto | eauto].
  - rewrite accept_if.
    destruct (find_deref_rvalue c found) as [[Hc ->] | [Hc ->]].
    + left. split; [now apply dereferenced_if_condition | reflexivity].
    + pose proof (visit_list_elements_found _ _ _ IHt found) as Ht.
      destruct (visit_list_elements _ t found) as [st b].
      destruct Ht as [[(i & Hi & Hd) Heq] | [Hnt Heq]];
        inversion Heq; subst.
      * left. split; [eapply dereferenced_then; eauto | reflexivity].
      * pose proof (visit_list_elements_found _ _ _ IHe found) as He.
        destruct (visit_list_elements _ e found) as [st b].
        apply found_iff_parent. revert He. apply found_iff_equiv. split.
        -- intros (i & Hi & Hd). eapply dereferenced_else; eauto.
        -- inversion 1; subst; [tauto | exfalso; apply Hnt; eauto | eauto].
  - rewrite accept_loop.
    pose proof (visit_list_elements_found _ _ _ IH found) as Hl.
    destruct (visit_list_elements _ b found) as [st b'].
    apply found_iff_parent. revert Hl. apply found_iff_equiv. split.
    + intros (i & Hi & Hd). eapply dereferenced_loop; eauto.
    + inversion 1; subst. eauto.
  - simpl. pose proof (find_deref_option v found) as Hv. revert Hv.
    apply found_iff_equiv. split.
    + now apply dereferenced_return.
    + now inversion 1.
  - simpl. pose proof (find_deref_option c found) as Hc. revert Hc.
    apply found_iff_equiv. split.
    + now apply dereferenced_discard.
    + now inversion 1.
  - right. split; [inversion 1 | reflexivity].
  - right. split; [inversion 1 | reflexivity].
  - right. split; [inversion 1 | reflexivity].
  - rewrite accept_signature_body.
    pose proof (visit_list_elements_found _ _ _ IH found) as Hl.
    destruct (visit_list_elements _ body found) as [st b].
    apply found_iff_parent. exact Hl.
Qed.

Lemma find_deref_found (l : list ir_instruction) :
  find_deref n l = true <-> statically_dereferenced n l.
Proof.
  unfold find_deref, run, statically_dereferenced.
  pose proof (visit_list_elements_found
                (accept (find_deref_visitor n)) (dereferenced_in n) l) as H.
  destruct (H ltac:(apply Forall_forall; intros i _ found;
                    apply find_deref_accept) false)
    as [[HW ->] | [HW ->]]; simpl.
  - tauto.
  - split; [discriminate | tauto].
Qed.
End FindDerefCorrect.

(** X15.  [find_deref_visitor] reports a variable as found exactly when
    a dereference of a variable of that name occurs somewhere in the
    instruction tree, whether it is read or written there. *)
Theorem find_deref_spec (n : string) (l : list ir_instruction) :
  (find_deref n l = true <-> statically_dereferenced n l)
  /\ (statically_written n l -> find_deref n l = true).
Proof.
  split; [apply find_deref_found |].
  intros Hw. apply find_deref_found.
  destruct Hw as (i & Hi & Hw). exists i. split; [exact Hi |].
  clear Hi l.
  assert (Href : forall r v, variable_referenced r = Some v ->
                             name v = n -> dereferences n r).
  { induction r as [v0 | a i0 IHa IHi | a f IHa | a IHa | ops IH | c]
      using ir_rvalue_nested_ind; intros v Hv Hn; simpl in Hv;
      try discriminate.
    - inversion Hv; subst. now constructor.
    - apply dereferences_array. eauto.
    - apply dereferences_record. eauto.
    - apply dereferences_swizzle. eauto. }
  induction Hw as [i Hs | fn sigs sg i Hsg Hi Hw IH
                   | c t e i Hi Hw IH | c t e i Hi Hw IH | b i Hi Hw IH].
  - destruct Hs as [lhs rhs cond v Hv Hn | formals actuals ret Hcall
                    | formals actuals r v Hv Hn].
    + apply dereferenced_lhs. eauto.
    + induction Hcall as [a actuals f formals v Hm Hv Hn
                         | a actuals f formals Hcall IH].
      * eapply dereferenced_actual; [now left | eauto].
      * inversion IH; subst.
        -- now apply dereferenced_return_slot.
        -- eapply dereferenced_actual; [right; eassumption | assumption].
    + apply dereferenced_return_slot. exists r. eauto.
  - eapply dereferenced_function; eauto.
  - eapply dereferenced_then; eauto.
  - eapply dereferenced_else; eauto.
  - eapply dereferenced_loop; eauto.
Qed.

Lemma find_deref_spec_witness :
  find_deref "gl_FragColor" (ir shader_writing_both_outputs) = true.
Proof.
  apply (proj2 (find_deref_spec "gl_FragColor"
                  (ir shader_writing_both_outputs))).
  apply find_assignment_spec. vm_compute. reflexivity.
Defined.

(* ===================================================================== *)
(** ** The alias of generic attribute 0 *)
(* ===================================================================== *)

(** A visitor passes over declarations, so rewriting them leaves its
    verdict alone. *)
Lemma visit_declarations_irrelevant {S : Type}
    (v : ir_hierarchical_visitor S)
    (f : ir_instruction -> ir_instruction) :
  (forall node, as_variable node = None -> f node = node) ->
  (forall node, as_variable node <> None -> as_variable (f node) <> None) ->
  forall (l : list ir_instruction) (s : S),
    visit_list_elements (accept v) (map f l) s
    = visit_list_elements (accept v) l s.
Proof.
  intros Hother Hdecl. induction l as [| node l IH]; intros s;
    [reflexivity |].
  cbn [map visit_list_elements].
  assert (Hnode : accept v (f node) s = accept v node s).
  { destruct (as_variable node) as [var |] eqn:Hvar.
    - pose proof (Hdecl node ltac:(congruence)) as Hf.
      destruct node; try discriminate.
      destruct (f (ir_variable_decl var0)); simpl in Hf; try congruence.
      reflexivity.
    - now rewrite Hother. }
  rewrite Hnode.
  destruct (accept v node s) as [[| |] s']; [apply IH | |]; reflexivity.
Qed.

Section VertexPositionAlias.
Variable count_attribute_slots : glsl_type -> Z.
Variable qsort :
  (temp_attr -> temp_attr -> Z) -> list temp_attr -> list temp_attr.
Variable VERT_ATTRIB_GENERIC0 : Z.
Variable FRAG_RESULT_DATA0 : Z.
Hypothesis qsort_permutes :
  forall compare l, Permutation (qsort compare l) l.

Local Abbreviation locations :=
  (assign_locations count_attribute_slots qsort
     VERT_ATTRIB_GENERIC0 FRAG_RESULT_DATA0).
Local Abbreviation collect_from :=
  (collect count_attribute_slots VERT_ATTRIB_GENERIC0 FRAG_RESULT_DATA0).
Local Abbreviation assign_in_order :=
  (assign_sorted VERT_ATTRIB_GENERIC0 FRAG_RESULT_DATA0).

Lemma collected_nodes (prog : gl_shader_program)
    (target_index : gl_shader_stage) (max_index : Z) (sh : gl_shader)
    (used : Z) (st : collect_state) :
  collect_from prog target_index max_index 0 (ir sh)
    (mk_collect_state (ir sh) used []) = alloc_ok st ->
  cs_ir st = map (collected_node prog target_index) (ir sh).
Proof.
  intros Hc.
  destruct (collect_ok _ _ _ _ _ _ _ _ _ _ Hc
              ltac:(intros j n Hj; exact Hj))
    as (_ & Hlen & Hnodes & _ & _).
  simpl in Hlen. apply list_eq. intros i. rewrite lookup_map.
  destruct (ir sh !! i) as [node |] eqn:Hi.
  - pose proof (Hnodes i node Hi) as Hnode. simpl in Hnode.
    now rewrite Hnode.
  - apply lookup_ge_None. apply lookup_ge_None in Hi. lia.
Qed.

Lemma find_deref_collected (prog : gl_shader_program)
    (target_index : gl_shader_stage) (n : string)
    (l : list ir_instruction) :
  find_deref n (map (collected_node prog target_index) l) = find_deref n l.
Proof.
  unfold find_deref, run. f_equal.
  apply visit_declarations_irrelevant.
  - intros node Hnode. unfold collected_node. now rewrite Hnode.
  - intros node Hnode. unfold collected_node.
    destruct (as_variable node) as [var |] eqn:Hvar; [| congruence].
    destruct (bool_decide (mode var = direction target_index));
      [discriminate | congruence].
Qed.

(** The mask the last loop starts from in a vertex shader that
    dereferences gl_Vertex. *)
Lemma assign_locations_vertex (prog : gl_shader_program) (max_index : Z)
    (sh : gl_shader) (l' : list ir_instruction) :
  find_deref "gl_Vertex" (ir sh) = true ->
  locations prog MESA_SHADER_VERTEX max_index sh = alloc_ok l' ->
  exists st sorted used1,
    collect_from prog MESA_SHADER_VERTEX max_index 0 (ir sh)
      (mk_collect_state (ir sh)
         (if max_index >=? 32 then bit_not 0
          else bit_not (to_uint (shl 1 max_index - 1))) [])
    = alloc_ok st
    /\ Permutation sorted (to_assign st)
    /\ covers (used_locations st) used1
    /\ (sorted <> [] -> Z.testbit used1 0 = true)
    /\ assign_in_order MESA_SHADER_VERTEX sorted (cs_ir st) used1
       = alloc_ok l'.
Proof.
  unfold assign_locations. intros Hvertex Hok.
  destruct (collect_from prog MESA_SHADER_VERTEX max_index 0 (ir sh) _)
    as [st | |] eqn:Hc; try discriminate.
  destruct (Z.of_nat (length (to_assign st)) =? 0) eqn:Hempty.
  - exists st, [], (used_locations st). split; [reflexivity |].
    apply Z.eqb_eq in Hempty.
    destruct (to_assign st); [| simpl in Hempty; lia].
    split; [constructor |]. split; [intros k Hk; exact Hk |].
    split; [congruence |].
    simpl. exact Hok.
  - rewrite (collected_nodes _ _ _ _ _ _ Hc), find_deref_collected,
      Hvertex in Hok.
    rewrite <- (collected_nodes _ _ _ _ _ _ Hc) in Hok.
    destruct (decide (MESA_SHADER_VERTEX = MESA_SHADER_VERTEX));
      [| congruence].
    eexists st, _, _. split; [reflexivity |].
    split; [apply qsort_permutes |]. split; [apply covers_lor |].
    split; [| exact Hok].
    intros _. rewrite Z.lor_spec. apply orb_true_iff. right. reflexivity.
Qed.

(** X16.  In a vertex shader that dereferences gl_Vertex, generic
    attribute 0, the alias of the vertex position, is never handed out:
    an input that needs a location (no explicit location, no binding,
    location invalidated to -1, at most 30 slots) ends up at
    [VERT_ATTRIB_GENERIC0 + r], read as a plain sum, with [r] between 1
    and [max_index - slots]. *)
Theorem gl_vertex_reserves_generic0 (prog : gl_shader_program)
    (max_index : Z) (sh : gl_shader) (l' : list ir_instruction)
    (p : nat) (v : ir_variable) :
  0 <= max_index ->
  0 <= VERT_ATTRIB_GENERIC0 < 2 ^ 31 - UINT_BITS ->
  statically_dereferenced "gl_Vertex" (ir sh) ->
  locations prog MESA_SHADER_VERTEX max_index sh = alloc_ok l' ->
  ir sh !! p = Some (ir_variable_decl v) ->
  needs_location prog MESA_SHADER_VERTEX (ir_variable_decl v) = true ->
  location v = -1 ->
  0 <= count_attribute_slots (type v) < UINT_BITS - 1 ->
  exists v' r,
    l' !! p = Some (ir_variable_decl v')
    /\ 1 <= r
    /\ r + count_attribute_slots (type v) <= max_index
    /\ r + count_attribute_slots (type v) <= UINT_BITS
    /\ location v' = VERT_ATTRIB_GENERIC0 + r.
Proof.
  intros Hmax Hbase Hvertex Hok Hp Hneeds Hlocation Hn.
  apply find_deref_found in Hvertex.
  destruct (assign_locations_vertex _ _ _ _ Hvertex Hok)
    as (st & sorted & used1 & Hc & Hperm & Hcov1 & Hbit & Hassign).
  pose proof (needs_location_collected _ _ _ Hneeds Hlocation)
    as Hcollected.
  destruct (collected_variable_assigned _ _ _ _ _ _ _ _ _ _ _ _ _
              Hmax Hn Hc Hperm Hcov1 Hassign Hp Hcollected)
    as (v' & r & Hl' & _ & _ & Hone & Hbudget & Hfit & Hloc & _).
  assert (Hsome : sorted <> []).
  { destruct (collect_ok _ _ _ _ _ _ _ _ _ _ Hc
                ltac:(intros j n Hj; exact Hj))
      as (_ & _ & _ & _ & Hentries).
    assert (Hentry : In (mk_temp_attr (count_attribute_slots (type v)) p)
                       (to_assign st)).
    { apply Hentries. right. exists p, (ir_variable_decl v).
      split; [exact Hp |]. unfold collected_entry. simpl.
      rewrite Hcollected. now left. }
    intros Hnil. rewrite Hnil in Hperm.
    apply Permutation_nil in Hperm. rewrite Hperm in Hentry.
    destruct Hentry. }
  specialize (Hone (Hbit Hsome)).
  exists v', r. repeat split; try assumption.
  rewrite Hloc. unfold generic_base.
  destruct (decide (MESA_SHADER_VERTEX = MESA_SHADER_VERTEX));
    [| congruence].
  apply to_int_small. unfold UINT_BITS in *. lia.
Qed.
End VertexPositionAlias.

(** A vertex shader with one generic input whose [main] copies gl_Vertex
    to gl_Position. *)
Definition vertex_reading_position : list ir_instruction :=
  (link_invalidate_variable_locations
     [vertex_input "colour" (glsl_base "vec4")]
   ++ [ir_function "main"
         [mk_signature [] true false
            [ir_assignment
               (ir_dereference_variable
                  (plain_variable "gl_Position" (glsl_base "vec4")
                     ir_var_shader_out))
               (ir_dereference_variable
                  (plain_variable "gl_Vertex" (glsl_base "vec4")
                     ir_var_shader_in))
               None]]])%list.

Definition vertex_reading_position_assigned : list ir_instruction :=
  Eval vm_compute in
    match assign_locations sample_count_attribute_slots sample_qsort
            SAMPLE_VERT_ATTRIB_GENERIC0 SAMPLE_FRAG_RESULT_DATA0
            (program_with_vertex "" vertex_reading_position ∅)
            MESA_SHADER_VERTEX 16 (unit_of vertex_reading_position) with
    | alloc_ok l => l
    | _ => []
    end.

Lemma gl_vertex_reserves_generic0_witness :
  exists v' r,
    vertex_reading_position_assigned !! 0%nat = Some (ir_variable_decl v')
    /\ 1 <= r
    /\ r + 1 <= 16
    /\ r + 1 <= UINT_BITS
    /\ location v' = SAMPLE_VERT_ATTRIB_GENERIC0 + r.
Proof.
  apply (gl_vertex_reserves_generic0 sample_count_attribute_slots
           sample_qsort SAMPLE_VERT_ATTRIB_GENERIC0 SAMPLE_FRAG_RESULT_DATA0
           sample_qsort_permutes
           (program_with_vertex "" vertex_reading_position ∅) 16
           (unit_of vertex_reading_position)
           vertex_reading_position_assigned 0%nat
           (invalidate_variable
              (plain_variable "colour" (glsl_base "vec4")
                 ir_var_shader_in))).
  - lia.
  - vm_compute. split; [discriminate | reflexivity].
  - apply find_deref_found. vm_compute. reflexivity.
  - vm_compute. reflexivity.
  - reflexivity.
  - reflexivity.
  - reflexivity.
  - vm_compute. split; [discriminate | reflexivity].
Defined.

(* ===================================================================== *)
(** ** What the allocation depends on *)
(* ===================================================================== *)

(** The variables a list of instructions declares, in order. *)
Definition declared (l : list ir_instruction) : list ir_variable :=
  omap as_variable l.























Section LocationDeterminism.
Variable count_attribute_slots : glsl_type -> Z.
Variable qsort :
  (temp_attr -> temp_attr -> Z) -> list temp_attr -> list temp_attr.
Variable VERT_ATTRIB_GENERIC0 : Z.
Variable FRAG_RESULT_DATA0 : Z.
(** [qsort] returns its input reordered, and reaches the entries through
    the comparison only: entries changed in a way the comparison does not
    see come out in the same order. *)
Hypothesis qsort_permutes :
  forall compare l, Permutation (qsort compare l) l.
Hypothesis qsort_by_comparison :
  forall (g : temp_attr -> temp_attr) (l : list temp_attr),
    (forall a b,
       temp_attr_compare (g a) (g b) = temp_attr_compare a b) ->
    qsort temp_attr_compare (map g l)
    = map g (qsort temp_attr_compare l).

Local Abbreviation assign :=
  (assign_attribute_or_color_locations count_attribute_slots qsort
     VERT_ATTRIB_GENERIC0 FRAG_RESULT_DATA0).
Local Abbreviation locations :=
  (assign_locations count_attribute_slots qsort
     VERT_ATTRIB_GENERIC0 FRAG_RESULT_DATA0).
Local Abbreviation collect_from :=
  (collect count_attribute_slots VERT_ATTRIB_GENERIC0 FRAG_RESULT_DATA0).
Local Abbreviation collect_at :=
  (collect_node count_attribute_slots VERT_ATTRIB_GENERIC0
     FRAG_RESULT_DATA0).
Local Abbreviation assign_in_order :=
  (assign_sorted VERT_ATTRIB_GENERIC0 FRAG_RESULT_DATA0).








End LocationDeterminism.







(* ===================================================================== *)
(** ** Demotion of unmatched inputs and outputs *)
(* ===================================================================== *)

(** X17.  Demoting the inputs (or outputs) of a stage leaves no variable
    of that mode marked as unmatched, touches neither the variables of
    other modes nor the matched ones nor any other instruction, and is
    idempotent. *)
Theorem demotion_leaves_matched_only (l : list ir_instruction)
    (mode_ : ir_variable_mode) :
  mode_ <> ir_var_auto ->
  let l' := demote_shader_inputs_and_outputs l mode_ in
  length l' = length l
  /\ (forall p v', l' !! p = Some (ir_variable_decl v') ->
                   mode v' = mode_ ->
                   is_unmatched_generic_inout v' = false)
  /\ (forall p node,
        l !! p = Some node ->
        (forall v, as_variable node = Some v ->
                   mode v <> mode_ \/ is_unmatched_generic_inout v = false) ->
        l' !! p = Some node)
  /\ demote_shader_inputs_and_outputs l' mode_ = l'.
Proof.
  intros Hmode l'. subst l'. unfold demote_shader_inputs_and_outputs.
  split; [apply length_map |]. split; [| split].
  - intros p v' Hp Hv'. rewrite lookup_map in Hp.
    destruct (l !! p) as [node |]; [| discriminate].
    simpl in Hp. inversion Hp as [Hnode]. clear Hp.
    destruct (as_variable node) as [v |] eqn:Hv.
    + destruct (bool_decide (mode v = mode_)) eqn:Hm; simpl in Hnode.
      * destruct (is_unmatched_generic_inout v) eqn:Hu.
        -- inversion Hnode; subst v'. simpl in Hv'. congruence.
        -- subst node. simpl in Hv. inversion Hv; subst. exact Hu.
      * subst node. simpl in Hv. inversion Hv; subst.
        apply bool_decide_eq_false_1 in Hm. contradiction.
    + subst node. discriminate.
  - intros p node Hp Hkeep. rewrite lookup_map, Hp. simpl. f_equal.
    destruct (as_variable node) as [v |]; [| reflexivity].
    destruct (bool_decide (mode v = mode_)) eqn:Hm; [| reflexivity].
    apply bool_decide_eq_true_1 in Hm. simpl.
    destruct (Hkeep v eq_refl) as [Hne | ->]; [contradiction | reflexivity].
  - rewrite map_map. apply map_ext. intros node.
    destruct (as_variable node) as [v |] eqn:Hv; [| now rewrite Hv].
    destruct (bool_decide (mode v = mode_)) eqn:Hm; simpl;
      [| now rewrite Hv, Hm].
    destruct (is_unmatched_generic_inout v) eqn:Hu.
    + simpl. rewrite bool_decide_eq_false_2; [reflexivity |].
      simpl. congruence.
    + now rewrite Hv, Hm, Hu.
Qed.

Lemma demotion_leaves_matched_only_witness :
  let l' :=
    demote_shader_inputs_and_outputs three_inputs ir_var_shader_in in
  length l' = length three_inputs
  /\ (forall p v', l' !! p = Some (ir_variable_decl v') ->
                   mode v' = ir_var_shader_in ->
                   is_unmatched_generic_inout v' = false)
  /\ (forall p node,
        three_inputs !! p = Some node ->
        (forall v, as_variable node = Some v ->
                   mode v <> ir_var_shader_in
                   \/ is_unmatched_generic_inout v = false) ->
        l' !! p = Some node)
  /\ demote_shader_inputs_and_outputs l' ir_var_shader_in = l'.
Proof.
  apply (demotion_leaves_matched_only three_inputs ir_var_shader_in).
  discriminate.
Defined.

(* ===================================================================== *)
(** ** A declaration against itself *)
(* ===================================================================== *)

Lemma set_location_same (v : ir_variable) :
  explicit_location v = true ->
  set_explicit_location true (set_location (location v) v) = v.
Proof. destruct v; simpl; intros ->; reflexivity. Qed.

Lemma set_binding_same (v : ir_variable) :
  explicit_binding v = true ->
  set_explicit_binding true (set_binding (binding v) v) = v.
Proof. destruct v; simpl; intros ->; reflexivity. Qed.

Lemma set_has_initializer_same (v : ir_variable) :
  has_initializer v = true -> set_has_initializer true v = v.
Proof. destruct v; simpl; intros ->; reflexivity. Qed.

Section SelfAgreement.
Variable contains_atomic : glsl_type -> bool.
Variable has_value : ir_constant -> ir_constant -> bool.
Variable mode_string : ir_variable -> string.
Hypothesis has_value_reflexive : forall c, has_value c c = true.

Local Abbreviation validate_pair :=
  (cross_validate_pair contains_atomic has_value mode_string).

Lemma check_type_self (var : ir_variable) (prog : gl_shader_program) :
  check_type mode_string var (prog, var) = Next (prog, var).
Proof.
  unfold check_type.
  destruct (decide (type var <> type var)); [congruence | reflexivity].
Qed.

Lemma check_location_self (var : ir_variable) (prog : gl_shader_program) :
  check_location mode_string var (prog, var) = Next (prog, var).
Proof.
  unfold check_location.
  destruct (explicit_location var) eqn:He; [| reflexivity].
  rewrite Z.eqb_refl. simpl. now rewrite set_location_same.
Qed.

Lemma check_binding_self (var : ir_variable) (prog : gl_shader_program) :
  check_binding mode_string var (prog, var) = Next (prog, var).
Proof.
  unfold check_binding.
  destruct (explicit_binding var) eqn:He; [| reflexivity].
  rewrite Z.eqb_refl. simpl. now rewrite set_binding_same.
Qed.

Lemma check_atomic_offset_self (var : ir_variable)
    (prog : gl_shader_program) :
  check_atomic_offset contains_atomic mode_string var (prog, var)
  = Next (prog, var).
Proof.
  unfold check_atomic_offset. rewrite Z.eqb_refl.
  now rewrite andb_false_r.
Qed.

Lemma check_frag_depth_self (var : ir_variable) (prog : gl_shader_program) :
  check_frag_depth var (prog, var) = Next (prog, var).
Proof.
  unfold check_frag_depth.
  destruct (String.eqb (name var) "gl_FragDepth"); [| reflexivity].
  rewrite (bool_decide_eq_true_2 (depth_layout var = depth_layout var))
    by reflexivity.
  simpl. now rewrite !andb_false_r.
Qed.

Lemma check_constant_initializer_self (var : ir_variable)
    (prog : gl_shader_program) :
  check_constant_initializer has_value mode_string var (prog, var)
  = Next (prog, var).
Proof.
  unfold check_constant_initializer.
  destruct (constant_initializer var) as [c |]; [| reflexivity].
  now rewrite has_value_reflexive.
Qed.

Lemma check_invariant_self (var : ir_variable) (prog : gl_shader_program) :
  check_invariant mode_string var (prog, var) = Next (prog, var).
Proof. unfold check_invariant. now rewrite eqb_reflx. Qed.

Lemma check_centroid_self (var : ir_variable) (prog : gl_shader_program) :
  check_centroid mode_string var (prog, var) = Next (prog, var).
Proof. unfold check_centroid. now rewrite eqb_reflx. Qed.

(** X18.  A declaration validated against a first-seen declaration equal
    to itself passes every check and changes nothing, unless it has an
    initializer that is not constant: then the pair is reported as having
    multiple non-constant initializers. *)
Theorem declaration_agrees_with_itself (var : ir_variable)
    (prog : gl_shader_program) :
  let nonconstant :=
    has_initializer var = true /\ constant_initializer var = None in
  (nonconstant ->
   validate_pair var (prog, var)
   = Ret (linker_error prog
            ("shared global variable `" +:+ name var +:+
             "' has multiple " +:+ "non-constant initializers." +:+ nl),
          var))
  /\ (~ nonconstant -> validate_pair var (prog, var) = Next (prog, var)).
Proof.
  intros nonconstant. subst nonconstant.
  unfold cross_validate_pair.
  rewrite check_type_self. cbn [and_then].
  rewrite check_location_self. cbn [and_then].
  rewrite check_binding_self. cbn [and_then].
  rewrite check_atomic_offset_self. cbn [and_then].
  rewrite check_frag_depth_self. cbn [and_then].
  rewrite check_constant_initializer_self. cbn [and_then].
  unfold check_has_initializer.
  split.
  - intros [Hinit Hnone]. rewrite Hinit, Hnone.
    rewrite bool_decide_eq_true_2 by reflexivity. reflexivity.
  - intros Hconstant.
    destruct (has_initializer var) eqn:Hinit.
    + destruct (constant_initializer var) as [c |] eqn:Hc; [| tauto].
      rewrite !bool_decide_eq_false_2 by discriminate.
      cbn [andb orb and_then].
      rewrite set_has_initializer_same by exact Hinit.
      rewrite check_invariant_self. cbn [and_then].
      apply check_centroid_self.
    + cbn [and_then]. rewrite check_invariant_self. cbn [and_then].
      apply check_centroid_self.
Qed.
End SelfAgreement.

Lemma declaration_agrees_with_itself_witness :
  cross_validate_pair sample_contains_atomic sample_has_value
    sample_mode_string global_y_constant
    (program_version_110, global_y_constant)
  = Next (program_version_110, global_y_constant).
Proof.
  apply (proj2 (declaration_agrees_with_itself sample_contains_atomic
                  sample_has_value sample_mode_string
                  ltac:(intros c; apply bool_decide_eq_true_2; reflexivity)
                  global_y_constant program_version_110)).
  intros [_ Hnone]. discriminate.
Defined.

(* ===================================================================== *)
(** ** The order of the entries to assign *)
(* ===================================================================== *)

Lemma temp_attr_compare_value (l r : temp_attr) :
  0 <= slots l < 2 ^ 31 -> 0 <= slots r < 2 ^ 31 ->
  temp_attr_compare l r = slots r - slots l.
Proof.
  intros Hl Hr. unfold temp_attr_compare, to_int.
  destruct (Z_lt_ge_dec (slots r - slots l) 0) as [Hneg | Hpos].
  - rewrite to_uint_wrap_negative
      by (unfold UINT_MOD, UINT_BITS; lia).
    unfold UINT_MOD, UINT_BITS.
    replace (slots r - slots l + 2 ^ 32 <? 2 ^ (32 - 1)) with false
      by (symmetry; apply Z.ltb_ge; lia).
    lia.
  - unfold to_uint, UINT_MOD, UINT_BITS.
    rewrite Z.mod_small by lia.
    replace (slots r - slots l <? 2 ^ (32 - 1)) with true
      by (symmetry; apply Z.ltb_lt; lia).
    reflexivity.
Qed.

(** X19.  On slot counts below 2^31 the comparison handed to [qsort]
    orders the entries by descending slot count: it is negative exactly
    when the left entry needs more slots, zero exactly on equal counts,
    and antisymmetric. *)
Theorem temp_attr_compare_descending (l r : temp_attr) :
  0 <= slots l < 2 ^ 31 -> 0 <= slots r < 2 ^ 31 ->
  (temp_attr_compare l r < 0 <-> slots r < slots l)
  /\ (temp_attr_compare l r = 0 <-> slots r = slots l)
  /\ temp_attr_compare l r = - temp_attr_compare r l.
Proof.
  intros Hl Hr.
  rewrite (temp_attr_compare_value l r Hl Hr),
    (temp_attr_compare_value r l Hr Hl).
  lia.
Qed.

Lemma temp_attr_compare_descending_witness :
  (temp_attr_compare (mk_temp_attr 4 0) (mk_temp_attr 1 1) < 0 <-> 1 < 4)
  /\ (temp_attr_compare (mk_temp_attr 4 0) (mk_temp_attr 1 1) = 0
      <-> 1 = 4)
  /\ temp_attr_compare (mk_temp_attr 4 0) (mk_temp_attr 1 1)
     = - temp_attr_compare (mk_temp_attr 1 1) (mk_temp_attr 4 0).
Proof.
  apply (temp_attr_compare_descending (mk_temp_attr 4 0)
           (mk_temp_attr 1 1)); simpl; lia.
Defined.

(* ===================================================================== *)
(** * The link invocation *)
(* ===================================================================== *)

(* ===================================================================== *)
(** ** Stretches of statements *)
(* ===================================================================== *)

(** How a stretch of the statements of [link_shaders] ends: control
    reaches the statement after it, it jumps to the label [done], or a
    store of [assign_attribute_or_color_locations] has left its array,
    after which C defines nothing. *)
Inductive ending (A : Type) : Type :=
| reaches (a : A)
| goes_to_done
| undefined_store.
Arguments reaches {A}.
Arguments goes_to_done {A}.
Arguments undefined_store {A}.

(** A stretch of statements, run from a state of the program: the states
    the program is in after each operation of the stretch, in order, and
    the ending. *)
Definition stretch (A : Type) : Type :=
  gl_shader_program -> list gl_shader_program * ending A.

(** The state a stretch leaves the program in. *)
Fixpoint state_after (p : gl_shader_program)
    (visited : list gl_shader_program) : gl_shader_program :=
  match visited with
  | [] => p
  | q :: visited' => state_after q visited'
  end.

Definition pass {A : Type} (a : A) : stretch A :=
  fun _ => ([], reaches a).

(** [goto done]. *)
Definition jump {A : Type} : stretch A :=
  fun _ => ([], goes_to_done).

Definition followed_by {A B : Type} (m : stretch A) (k : A -> stretch B)
    : stretch B :=
  fun p =>
    match m p with
    | (visited, reaches a) =>
        let '(visited', e) := k a (state_after p visited) in
        ((visited ++ visited')%list, e)
    | (visited, goes_to_done) => (visited, goes_to_done)
    | (visited, undefined_store) => (visited, undefined_store)
    end.

Notation "'let*' x ':=' m 'in' k" := (followed_by m (fun x => k))
  (at level 10, x pattern, m at level 200, k at level 200).
Notation "m ';;' k" := (followed_by m (fun _ => k))
  (at level 100, k at level 200, right associativity, only parsing).

(** A statement that acts on the program. *)
Definition operation (f : gl_shader_program -> gl_shader_program)
    : stretch unit :=
  fun p => ([f p], reaches tt).

(** A call that acts on the program and answers [a]. *)
Definition call {A : Type} (f : gl_shader_program -> gl_shader_program * A)
    : stretch A :=
  fun p => ([fst (f p)], reaches (snd (f p))).

(** A call of a function of this file that answers [false] where its
    model ends in [Ret]: [if (!f (prog)) goto done;]. *)
Definition returning {A : Type}
    (f : gl_shader_program -> flow (gl_shader_program * A)) : stretch A :=
  fun p =>
    match f p with
    | Next (p', a) => ([p'], reaches a)
    | Ret (p', _) => ([p'], goes_to_done)
    end.

(** A call of [assign_attribute_or_color_locations]. *)
Definition attempt
    (f : gl_shader_program -> option (bool * gl_shader_program))
    : stretch bool :=
  fun p =>
    match f p with
    | Some (ok, p') => ([p'], reaches ok)
    | None => ([], undefined_store)
    end.

(** What follows reads the program. *)
Definition with_program {A : Type} (k : gl_shader_program -> stretch A)
    : stretch A :=
  fun p => k p p.

(** [if (!prog->LinkStatus) goto done;] *)
Definition unless_failed : stretch unit :=
  with_program (fun p => if LinkStatus p then pass tt else jump).

(** [if (!ok) goto done;] *)
Definition unless (ok : bool) : stretch unit :=
  if ok then pass tt else jump.

Definition when (b : bool) (m : stretch unit) : stretch unit :=
  if b then m else pass tt.

(** A loop over [l] that carries a local. *)
Fixpoint each_with {X S : Type} (body : X -> S -> stretch S)
    (l : list X) (s : S) : stretch S :=
  match l with
  | [] => pass s
  | x :: l' => let* s' := body x s in each_with body l' s'
  end.

Definition each {X : Type} (body : X -> stretch unit) (l : list X)
    : stretch unit :=
  each_with (fun x _ => body x) l tt.

(** The label [done] is reached from every ending but the undefined
    one. *)
Definition at_done {A : Type} (m : stretch A)
    (done : gl_shader_program -> gl_shader_program) : stretch unit :=
  fun p =>
    match m p with
    | (visited, undefined_store) => (visited, undefined_store)
    | (visited, _) =>
        ((visited ++ [done (state_after p visited)])%list, reaches tt)
    end.

(* ===================================================================== *)
(** ** The collaborators of the link *)
(* ===================================================================== *)

(** Modelled from the spec: a uniform block descriptor ([struct
    gl_uniform_block] is declared in a file that is missing): "name,
    member list (name, type, offset), packing rule". *)
Record gl_uniform_block : Type := mk_uniform_block {
  block_Name : string;
  block_Uniforms : list (string * glsl_type * Z);
  block_packing : Z
}.

(** The members of [ctx] that [link_shaders] reads, next to those that
    [check_resources] reads. *)
Record gl_context : Type := mk_context {
  Const : gl_constants;
  MaxDrawBuffers : Z;
  MaxDualSourceDrawBuffers : Z;
  API_is_OPENGLES2 : bool;
  LowerClipDistance : gl_shader_stage -> bool
}.

(** [prog->UniformBlockStageIndex], one row for each block of the
    program. *)
Definition block_table : Type := list (gl_shader_stage -> Z).

(** What the link draws on from outside linker.cpp, and what of the C
    structures the records above do not carry.  A function that is
    handed the program answers the program as it leaves it; a pass that
    is handed a shader or a list of instructions answers that. *)
Record linker_collaborators : Type := mk_collaborators {
  (** Constants and helpers. *)
  PRIM_UNKNOWN : Z;
  VERT_ATTRIB_GENERIC0 : Z;
  FRAG_RESULT_DATA0 : Z;
  vertices_per_prim : Z -> Z;
  shader_target_name : gl_shader_stage -> string;
  count_attribute_slots : glsl_type -> Z;
  qsort : (temp_attr -> temp_attr -> Z) -> list temp_attr -> list temp_attr;
  contains_atomic : glsl_type -> bool;
  has_value : ir_constant -> ir_constant -> bool;
  mode_string : ir_variable -> string;
  matching_signature :
    list ir_function_signature -> list ir_variable ->
    option ir_function_signature;
  add_function :
    glsl_symbol_table -> string -> list ir_function_signature ->
    glsl_symbol_table;
  add_variable : glsl_symbol_table -> ir_variable -> glsl_symbol_table;
  (** Members of [struct gl_shader], of [ir_variable] and of the program
      that the records do not carry, as they stand when they are
      read. *)
  unit_Version : gl_shader -> Z;
  unit_IsES : gl_shader -> bool;
  unit_Geom : gl_shader -> gl_geom;
  builtins_to_link : gl_shader -> list gl_shader;
  UniformBlocks : gl_shader -> list gl_uniform_block;
  shader_usage : gl_shader -> gl_shader_usage;
  max_array_access : ir_variable -> Z;
  is_in_uniform_block : ir_variable -> bool;
  Geom_VerticesIn : gl_shader_program -> Z;
  (** Functions of other files that are handed the program. *)
  validate_intrastage_interface_blocks :
    gl_shader_program -> list gl_shader -> gl_shader_program;
  link_uniform_blocks :
    gl_shader_program -> list gl_shader -> gl_shader_program;
  link_function_calls :
    gl_shader_program -> gl_shader -> list gl_shader ->
    gl_shader_program * bool * gl_shader;
  validate_interstage_interface_blocks :
    gl_shader_program -> option gl_shader -> option gl_shader ->
    gl_shader_program;
  cross_validate_outputs_to_inputs :
    gl_shader_program -> option gl_shader -> option gl_shader ->
    gl_shader_program;
  link_cross_validate_uniform_block :
    gl_shader_program -> Z -> gl_uniform_block ->
    gl_shader_program * Z * Z;
  detect_recursion_linked :
    gl_shader_program -> list ir_instruction -> gl_shader_program;
  parse_tfeedback_decls :
    gl_shader_program -> Z -> gl_shader_program * bool;
  assign_varying_locations :
    gl_shader_program -> option gl_shader -> option gl_shader -> Z -> Z ->
    gl_shader_program * bool;
  check_against_output_limit :
    gl_shader_program -> option gl_shader -> gl_shader_program * bool;
  check_against_input_limit :
    gl_shader_program -> option gl_shader -> gl_shader_program * bool;
  store_tfeedback_info :
    gl_shader_program -> Z -> gl_shader_program * bool;
  link_assign_uniform_locations : gl_shader_program -> gl_shader_program;
  link_assign_atomic_counter_resources :
    gl_shader_program -> gl_shader_program;
  link_check_atomic_counter_resources :
    gl_shader_program -> gl_shader_program;
  (** Passes over a shader or its instructions: [move_non_declarations]
      (for all units), [geom_array_resize_visitor] and
      [array_sizing_visitor] of this file as far as they rewrite the
      instructions, and passes of other files; a pass that is repeated
      until it reports no progress stands for the repetition. *)
  move_non_declarations :
    gl_shader -> gl_shader -> list gl_shader -> gl_shader;
  geom_array_resized : Z -> gl_shader -> gl_shader;
  array_sizing : gl_shader -> gl_shader;
  lower_named_interface_blocks : gl_shader -> gl_shader;
  lower_discard_flow : list ir_instruction -> list ir_instruction;
  lower_clip_distance : gl_shader -> gl_shader;
  do_common_optimization :
    gl_shader_stage -> list ir_instruction -> list ir_instruction;
  do_dead_builtin_varyings :
    option gl_shader -> option gl_shader -> Z ->
    option gl_shader * option gl_shader;
  do_dead_code : list ir_instruction -> list ir_instruction
}.

(** The functions that are handed the program touch its log and its
    status through [linker_error] and [linker_warning] only. *)
Record reports_only (c : linker_collaborators) : Prop := mk_reports_only {
  validate_intrastage_interface_blocks_reports :
    forall p l,
      linker_steps p (validate_intrastage_interface_blocks c p l);
  link_uniform_blocks_reports :
    forall p l, linker_steps p (link_uniform_blocks c p l);
  link_function_calls_reports :
    forall p linked l,
      linker_steps p (fst (fst (link_function_calls c p linked l)));
  validate_interstage_interface_blocks_reports :
    forall p producer consumer,
      linker_steps p
        (validate_interstage_interface_blocks c p producer consumer);
  cross_validate_outputs_to_inputs_reports :
    forall p producer consumer,
      linker_steps p
        (cross_validate_outputs_to_inputs c p producer consumer);
  link_cross_validate_uniform_block_reports :
    forall p n block,
      linker_steps p
        (fst (fst (link_cross_validate_uniform_block c p n block)));
  detect_recursion_linked_reports :
    forall p l, linker_steps p (detect_recursion_linked c p l);
  parse_tfeedback_decls_reports :
    forall p n, linker_steps p (fst (parse_tfeedback_decls c p n));
  assign_varying_locations_reports :
    forall p producer consumer n vertices,
      linker_steps p
        (fst (assign_varying_locations c p producer consumer n vertices));
  check_against_output_limit_reports :
    forall p sh, linker_steps p (fst (check_against_output_limit c p sh));
  check_against_input_limit_reports :
    forall p sh, linker_steps p (fst (check_against_input_limit c p sh));
  store_tfeedback_info_reports :
    forall p n, linker_steps p (fst (store_tfeedback_info c p n));
  link_assign_uniform_locations_reports :
    forall p, linker_steps p (link_assign_uniform_locations c p);
  link_assign_atomic_counter_resources_reports :
    forall p, linker_steps p (link_assign_atomic_counter_resources c p);
  link_check_atomic_counter_resources_reports :
    forall p, linker_steps p (link_check_atomic_counter_resources c p)
}.

(* ===================================================================== *)
(** ** The linked shaders of the program *)
(* ===================================================================== *)

(** A pass over [prog->_LinkedShaders[stage]], where there is one. *)
Definition update_linked (stage : gl_shader_stage)
    (f : gl_shader -> gl_shader) (prog : gl_shader_program)
    : gl_shader_program :=
  match LinkedShaders prog stage with
  | Some sh => set_LinkedShader stage (Some (f sh)) prog
  | None => prog
  end.

(** A pass over [prog->_LinkedShaders[stage]->ir]. *)
Definition update_linked_ir (stage : gl_shader_stage)
    (f : list ir_instruction -> list ir_instruction)
    (prog : gl_shader_program) : gl_shader_program :=
  update_linked stage
    (fun sh => mk_shader (Type_ sh) (f (ir sh)) (symbols sh)) prog.

Definition is_linked (prog : gl_shader_program) (stage : gl_shader_stage)
    : bool :=
  match LinkedShaders prog stage with Some _ => true | None => false end.

(** The loops that look for the first and for the last stage with a
    linked shader; [None] where the loop runs off the array. *)
Definition first_linked (prog : gl_shader_program)
    : option gl_shader_stage :=
  List.find (is_linked prog) all_stages.

Definition last_linked (prog : gl_shader_program)
    : option gl_shader_stage :=
  List.find (is_linked prog) (rev all_stages).

(** The stages after [stage], ascending, and those before it,
    descending. *)
Definition stages_after (stage : gl_shader_stage) : list gl_shader_stage :=
  match stage with
  | MESA_SHADER_VERTEX => [MESA_SHADER_GEOMETRY; MESA_SHADER_FRAGMENT]
  | MESA_SHADER_GEOMETRY => [MESA_SHADER_FRAGMENT]
  | MESA_SHADER_FRAGMENT => []
  end.

Definition stages_before (stage : gl_shader_stage) : list gl_shader_stage :=
  match stage with
  | MESA_SHADER_VERTEX => []
  | MESA_SHADER_GEOMETRY => [MESA_SHADER_VERTEX]
  | MESA_SHADER_FRAGMENT => [MESA_SHADER_GEOMETRY; MESA_SHADER_VERTEX]
  end.

(* ===================================================================== *)
(** ** The rest of the linker's functions, as far as the program goes *)
(* ===================================================================== *)

(** Modelled from the spec: the declarations the traversal driver hands
    to [visit (ir_variable * )], in order (the [accept] methods are
    missing, as above).  The geometry stage is to "resize every
    shader-input array": the declarations of the list, of the bodies
    nested in it and of the parameters of its signatures. *)
Fixpoint variables_of (i : ir_instruction) : list ir_variable :=
  match i with
  | ir_variable_decl var => [var]
  | ir_function _ sigs => flat_map variables_of_signature sigs
  | ir_if _ thens elses =>
      flat_map variables_of thens ++ flat_map variables_of elses
  | ir_loop body => flat_map variables_of body
  | _ => []
  end
with variables_of_signature (sg : ir_function_signature)
    : list ir_variable :=
  match sg with
  | mk_signature formals _ _ body => formals ++ flat_map variables_of body
  end.


(* ===================================================================== *)
(** ** The operations of the link move the program by linker steps *)
(* ===================================================================== *)

(** Each state of [visited] comes from the one before it, the first from
    [p], by steps of the linker. *)
Fixpoint chain (p : gl_shader_program) (visited : list gl_shader_program)
    : Prop :=
  match visited with
  | [] => True
  | q :: visited' => linker_steps p q /\ chain q visited'
  end.

Definition reports {A : Type} (m : stretch A) : Prop :=
  forall p, chain p (fst (m p)).

Lemma chain_app (p : gl_shader_program)
    (visited visited' : list gl_shader_program) :
  chain p visited -> chain (state_after p visited) visited' ->
  chain p (visited ++ visited').
Proof.
  revert p. induction visited as [| q visited IH]; intros p H H';
    [exact H' |].
  destruct H as [Hq H]. split; [exact Hq |]. now apply IH.
Qed.

Lemma chain_reaches (p q : gl_shader_program)
    (visited : list gl_shader_program) :
  chain p visited -> In q visited -> linker_steps p q.
Proof.
  revert p. induction visited as [| r visited IH]; intros p H Hin;
    [destruct Hin |].
  destruct H as [Hr H]. destruct Hin as [-> | Hin]; [exact Hr |].
  eapply linker_steps_trans; [exact Hr | now apply IH].
Qed.

Lemma chain_ordered (p : gl_shader_program)
    (visited : list gl_shader_program) :
  chain p visited ->
  forall (i j : nat) (a b : gl_shader_program),
    (i <= j)%nat -> visited !! i = Some a -> visited !! j = Some b ->
    linker_steps a b.
Proof.
  revert p. induction visited as [| r visited IH]; intros p H i j a b Hij Ha Hb;
    [rewrite lookup_nil in Ha; discriminate |].
  destruct H as [Hr H]. destruct i as [| i].
  - simpl in Ha. inversion Ha; subst a. destruct j as [| j].
    + simpl in Hb. inversion Hb. apply steps_refl.
    + simpl in Hb. apply (chain_reaches _ _ _ H).
      apply list_elem_of_In. eapply list_elem_of_lookup_2; eauto.
  - destruct j as [| j]; [lia |]. simpl in Ha, Hb.
    apply (IH r H i j); [lia | exact Ha | exact Hb].
Qed.

Lemma reports_pass {A : Type} (a : A) : reports (pass a).
Proof. intros p. exact I. Qed.

Lemma reports_jump {A : Type} : reports (@jump A).
Proof. intros p. exact I. Qed.

Lemma reports_followed_by {A B : Type} (m : stretch A)
    (k : A -> stretch B) :
  reports m -> (forall a, reports (k a)) -> reports (followed_by m k).
Proof.
  intros Hm Hk p. unfold followed_by. specialize (Hm p).
  destruct (m p) as [visited [a | |]]; simpl in Hm; try exact Hm.
  specialize (Hk a (state_after p visited)).
  destruct (k a (state_after p visited)) as [visited' e]. simpl in *.
  now apply chain_app.
Qed.

Lemma reports_operation (f : gl_shader_program -> gl_shader_program) :
  (forall p, linker_steps p (f p)) -> reports (operation f).
Proof. intros H p. simpl. split; [apply H | exact I]. Qed.

Lemma reports_call {A : Type}
    (f : gl_shader_program -> gl_shader_program * A) :
  (forall p, linker_steps p (fst (f p))) -> reports (call f).
Proof. intros H p. simpl. split; [apply H | exact I]. Qed.

Lemma reports_returning {A : Type}
    (f : gl_shader_program -> flow (gl_shader_program * A)) :
  (forall p, linker_steps p (fst (flow_value (f p)))) ->
  reports (returning f).
Proof.
  intros H p. unfold returning. specialize (H p).
  destruct (f p) as [[p' a] | [p' a]]; simpl in *; split; auto.
Qed.

Lemma reports_attempt
    (f : gl_shader_program -> option (bool * gl_shader_program)) :
  (forall p ok p', f p = Some (ok, p') -> linker_steps p p') ->
  reports (attempt f).
Proof.
  intros H p. unfold attempt. specialize (H p).
  destruct (f p) as [[ok p'] |]; simpl; [| exact I].
  split; [now apply (H ok) | exact I].
Qed.

Lemma reports_with_program {A : Type}
    (k : gl_shader_program -> stretch A) :
  (forall q, reports (k q)) -> reports (with_program k).
Proof. intros H p. apply H. Qed.

Lemma reports_unless_failed : reports unless_failed.
Proof.
  apply reports_with_program. intros q.
  destruct (LinkStatus q); [apply reports_pass | apply reports_jump].
Qed.

Lemma reports_unless (ok : bool) : reports (unless ok).
Proof. destruct ok; [apply reports_pass | apply reports_jump]. Qed.

Lemma reports_when (b : bool) (m : stretch unit) :
  reports m -> reports (when b m).
Proof. intros H. destruct b; [exact H | apply reports_pass]. Qed.

Lemma reports_each_with {X S : Type} (body : X -> S -> stretch S)
    (l : list X) :
  (forall x s, reports (body x s)) ->
  forall s, reports (each_with body l s).
Proof.
  intros H. induction l as [| x l IH]; intros s; simpl;
    [apply reports_pass |].
  apply reports_followed_by; [apply H | exact IH].
Qed.

Lemma reports_each {X : Type} (body : X -> stretch unit) (l : list X) :
  (forall x, reports (body x)) -> reports (each body l).
Proof. intros H. apply reports_each_with. intros x _. apply H. Qed.

Lemma at_done_chain {A : Type} (m : stretch A)
    (done : gl_shader_program -> gl_shader_program)
    (p : gl_shader_program) :
  chain p (fst (m p)) -> (forall q, linker_steps q (done q)) ->
  chain p (fst (at_done m done p)).
Proof.
  intros Hm Hdone. unfold at_done.
  destruct (m p) as [visited [a | |]]; simpl in *; try exact Hm;
    (apply chain_app; [exact Hm | split; [apply Hdone | exact I]]).
Qed.

(** A false status that comes with an error in the log. *)
Definition status_explained (p : gl_shader_program) : Prop :=
  LinkStatus p = false -> log_has_error (InfoLog p).

Lemma linker_step_status_explained (p q : gl_shader_program) :
  linker_step p q -> status_explained p -> status_explained q.
Proof.
  intros Hstep Hp Hq. destruct Hstep as [p msg | p msg | p q Hlog Hs].
  - exists (InfoLog p), msg, "".
    rewrite linker_error_log, append_empty_r. now rewrite append_assoc.
  - eapply linker_step_keeps_error_entry; [apply step_warning |].
    apply Hp. exact Hq.
  - rewrite Hlog. apply Hp. now rewrite <- Hs.
Qed.

Lemma linker_steps_status_explained (p q : gl_shader_program) :
  linker_steps p q -> status_explained p -> status_explained q.
Proof.
  induction 1 as [p | p q r Hstep _ IH]; intros Hp; [exact Hp |].
  apply IH. eapply linker_step_status_explained; eauto.
Qed.

Lemma linker_steps_log_grows (p q : gl_shader_program) :
  linker_steps p q -> exists suffix, InfoLog q = InfoLog p +:+ suffix.
Proof.
  induction 1 as [p | p q r Hstep _ (suffix' & IH)].
  - exists "". now rewrite append_empty_r.
  - destruct Hstep as [p msg | p msg | p q Hlog _].
    + exists ((linker_error_prefix +:+ msg) +:+ suffix').
      rewrite IH, linker_error_log. now rewrite !append_assoc.
    + exists ((linker_warning_prefix +:+ msg) +:+ suffix').
      rewrite IH. unfold linker_warning. simpl.
      now rewrite !append_assoc.
    + exists suffix'. now rewrite IH, Hlog.
Qed.

Lemma fold_left_steps {X : Type}
    (f : gl_shader_program -> X -> gl_shader_program) (l : list X) :
  (forall p x, linker_steps p (f p x)) ->
  forall p, linker_steps p (fold_left f l p).
Proof.
  intros H. induction l as [| x l IH]; intros p; simpl;
    [apply steps_refl |].
  eapply linker_steps_trans; [apply H | apply IH].
Qed.

Lemma set_LinkedShader_steps (stage : gl_shader_stage)
    (sh : option gl_shader) (p : gl_shader_program) :
  linker_steps p (set_LinkedShader stage sh p).
Proof. now apply linker_steps_quiet. Qed.

Lemma update_linked_steps (stage : gl_shader_stage)
    (f : gl_shader -> gl_shader) (p : gl_shader_program) :
  linker_steps p (update_linked stage f p).
Proof.
  unfold update_linked. destruct (LinkedShaders p stage);
    [apply set_LinkedShader_steps | apply steps_refl].
Qed.

Lemma update_linked_ir_steps (stage : gl_shader_stage)
    (f : list ir_instruction -> list ir_instruction)
    (p : gl_shader_program) :
  linker_steps p (update_linked_ir stage f p).
Proof. apply update_linked_steps. Qed.

Lemma link_shaders_separate_steps (prog : gl_shader_program)
    (l : list gl_compiled_shader) :
  linker_steps (link_shaders_reset prog)
    (fst (flow_value (link_shaders_separate prog l))).
Proof.
  unfold link_shaders_separate.
  set (is_es_prog := match l with sh :: _ => shader_IsES sh | [] => false end).
  pose proof (for_each_steps (separate_shader is_es_prog) l) as Hloop.
  specialize (Hloop ltac:(
    intros sh [p groups]; unfold separate_shader;
    destruct (negb (eqb (shader_IsES sh) is_es_prog)); simpl;
    [apply linker_steps_error |]; apply steps_refl)
    (link_shaders_reset prog, mk_shader_groups UINT_MAX 0 [] [] [])).
  simpl fst in Hloop at 1.
  destruct (for_each (separate_shader is_es_prog) l _)
    as [[p groups] | [p groups]]; simpl in *; [| exact Hloop].
  destruct (is_es_prog && negb (min_version groups =? max_version groups))%bool;
    simpl; [now apply linker_steps_error |].
  destruct ((0 <? Z.of_nat (length (geom_shader_list groups)))
            && (Z.of_nat (length (vert_shader_list groups)) =? 0))%bool;
    simpl.
  - apply linker_steps_error.
    eapply linker_steps_trans; [exact Hloop |].
    now apply linker_steps_quiet.
  - eapply linker_steps_trans; [exact Hloop |].
    now apply linker_steps_quiet.
Qed.

Lemma fold_qualifier_steps (get : gl_geom -> Z)
    (set : Z -> gl_geom -> gl_geom) (unset : Z) (msg : Z -> Z -> string)
    (shader : gl_geom) (st : gs_state) :
  linker_steps (fst st)
    (fst (flow_value (fold_qualifier get set unset msg shader st))).
Proof.
  destruct st as [p linked]. unfold fold_qualifier.
  destruct (negb (get shader =? unset)); [| apply steps_refl].
  destruct (negb (get linked =? unset)
            && negb (get linked =? get shader))%bool; simpl;
    [apply linker_steps_error |]; apply steps_refl.
Qed.

Lemma and_then_steps {A : Type}
    (r : flow (gl_shader_program * A))
    (k : gl_shader_program * A -> flow (gl_shader_program * A))
    (p : gl_shader_program) :
  linker_steps p (fst (flow_value r)) ->
  (forall st, linker_steps (fst st) (fst (flow_value (k st)))) ->
  linker_steps p (fst (flow_value (r >>> k))).
Proof.
  intros Hr Hk. destruct r as [st | st]; simpl in *; [| exact Hr].
  eapply linker_steps_trans; [exact Hr | apply Hk].
Qed.

Lemma link_gs_inout_layout_qualifiers_steps (PRIM_UNKNOWN : Z)
    (prog : gl_shader_program) (prog_geom : gl_geom)
    (linked_type : gl_shader_stage) (shader_list : list gl_geom) :
  linker_steps prog
    (fst (fst (link_gs_inout_layout_qualifiers PRIM_UNKNOWN prog prog_geom
                 linked_type shader_list))).
Proof.
  unfold link_gs_inout_layout_qualifiers.
  destruct (negb (bool_decide (linked_type = MESA_SHADER_GEOMETRY))
            || (Version prog <? 150))%bool; [apply steps_refl |].
  cbv zeta.
  pose proof (for_each_steps (link_gs_unit PRIM_UNKNOWN) shader_list)
    as Hloop.
  specialize (Hloop ltac:(
    intros shader st; unfold link_gs_unit;
    apply and_then_steps;
    [apply and_then_steps; [apply fold_qualifier_steps |];
     intros st'; apply fold_qualifier_steps
    | intros st'; apply fold_qualifier_steps])
    (prog, mk_geom 0 PRIM_UNKNOWN PRIM_UNKNOWN)).
  simpl fst in Hloop at 1. unfold gs_state in *.
  match type of Hloop with
  | context [@for_each ?A ?X ?body ?l ?st] =>
      set (r := @for_each A X body l st) in *
  end.
  clearbody r. destruct r as [[p linked] | [p linked]]; simpl in *;
    [| exact Hloop].
  destruct (InputType linked =? PRIM_UNKNOWN); simpl;
    [now apply linker_steps_error |].
  destruct (OutputType linked =? PRIM_UNKNOWN); simpl;
    [now apply linker_steps_error |].
  destruct (VerticesOut linked =? 0); simpl;
    [now apply linker_steps_error | exact Hloop].
Qed.

Lemma check_stage_resources_steps (ctx : gl_constants)
    (usage : gl_shader_stage -> option gl_shader_usage)
    (prog : gl_shader_program) (stage : gl_shader_stage) :
  linker_steps prog (check_stage_resources ctx usage prog stage).
Proof.
  unfold check_stage_resources.
  destruct (usage stage) as [sh |]; [| apply steps_refl].
  cbv zeta.
  assert (Hstep :
            forall p q msg,
              linker_steps p q -> linker_steps p (linker_warning q msg)).
  { intros p q msg H. eapply linker_steps_trans; [exact H |].
    apply (steps_cons q (linker_warning q msg) (linker_warning q msg));
      [apply step_warning | apply steps_refl]. }
  repeat match goal with
         | |- linker_steps _ (if ?b then _ else _) => destruct b
         | |- linker_steps _ (linker_error _ _) => apply linker_steps_error
         | |- linker_steps _ (linker_warning _ _) => apply Hstep
         end; apply steps_refl.
Qed.

Lemma check_block_steps (ctx : gl_constants) (NumUniformBlocks : Z)
    (st : gl_shader_program * ((gl_shader_stage -> Z) * Z))
    (index : gl_shader_stage -> Z) :
  linker_steps (fst st) (fst (check_block ctx NumUniformBlocks st index)).
Proof.
  unfold check_block. cbv zeta. cbn [fst snd].
  destruct (_ >? MaxCombinedUniformBlocks ctx);
    [apply linker_steps_error, steps_refl |].
  destruct (List.find _ all_stages);
    [apply linker_steps_error |]; apply steps_refl.
Qed.

Lemma check_blocks_steps (ctx : gl_constants) (NumUniformBlocks : Z)
    (l : list (gl_shader_stage -> Z)) :
  forall st : gl_shader_program * ((gl_shader_stage -> Z) * Z),
    linker_steps (fst st)
      (fst (fold_left (check_block ctx NumUniformBlocks) l st)).
Proof.
  induction l as [| index l IH]; intros st; simpl; [apply steps_refl |].
  eapply linker_steps_trans; [apply check_block_steps | apply IH].
Qed.

Lemma check_resources_steps (ctx : gl_constants)
    (prog : gl_shader_program)
    (usage : gl_shader_stage -> option gl_shader_usage)
    (UniformBlockStageIndex : list (gl_shader_stage -> Z)) :
  linker_steps prog
    (check_resources ctx prog usage UniformBlockStageIndex).
Proof.
  unfold check_resources. cbv zeta.
  eapply linker_steps_trans;
    [apply (fold_left_steps (check_stage_resources ctx usage));
     intros p x; apply check_stage_resources_steps |].
  apply (check_blocks_steps ctx _ UniformBlockStageIndex
           (fold_left (check_stage_resources ctx usage) all_stages prog,
            (fun _ => 0, 0))).
Qed.
Section LinkShaders.
Variable c : linker_collaborators.
Variable ctx : gl_context.
(** Members of the program that its record does not carry:
    [prog->Shaders], [prog->TransformFeedback.NumVarying],
    [prog->InternalSeparateShader], and of [prog->Geom] on entry the
    layout and [UsesClipDistance]. *)
Variable Shaders : list gl_shader.
Variable num_tfeedback_decls : Z.
Variable InternalSeparateShader : bool.
Variable prog_Geom : gl_geom.
Variable Geom_UsesClipDistance : bool.

(** [geom_array_resize_visitor::visit (ir_variable * )], as far as the
    program goes. *)
Definition geom_array_resize_visit (num_vertices : Z)
    (prog : gl_shader_program) (var : ir_variable) : gl_shader_program :=
  if (negb (is_array (type var))
      || negb (bool_decide (mode var = ir_var_shader_in)))%bool
  then prog
  else
    let size := type_length (type var) in
    if (negb (size =? 0) && negb (size =? num_vertices))%bool then
      linker_error prog
        ("size of array " +:+ name var +:+ " declared as " +:+
         fmt_d size +:+ ", " +:+
         "but number of input vertices is " +:+ fmt_d num_vertices +:+ nl)
    else if max_array_access c var >=? num_vertices then
      linker_error prog
        ("geometry shader accesses element " +:+
         fmt_d (to_int (max_array_access c var)) +:+ " of " +:+
         name var +:+ ", but only " +:+ fmt_d (to_int num_vertices) +:+
         " input vertices" +:+ nl)
    else prog.

(** The loop that hands every instruction of [linked->ir] to the
    visitor. *)
Definition geom_array_resize (num_vertices : Z)
    (l : list ir_instruction) (prog : gl_shader_program)
    : gl_shader_program :=
  fold_left (geom_array_resize_visit num_vertices)
    (flat_map variables_of l) prog.

(** [get_main_function_signature]. *)
Definition get_main_function_signature (sh : gl_shader)
    : option ir_function_signature :=
  match get_function (symbols sh) "main" with
  | Some f =>
      match matching_signature c f [] with
      | Some sig => if sig_is_defined sig then Some sig else None
      | None => None
      end
  | None => None
  end.

(** [populate_symbol_table]. *)
Definition populate_symbol_table (sh : gl_shader) : gl_shader :=
  mk_shader (Type_ sh) (ir sh)
    (fold_left
       (fun table inst =>
          match inst with
          | ir_function fname sigs => add_function c table fname sigs
          | ir_variable_decl var => add_variable c table var
          | _ => table
          end)
       (ir sh) (mk_symbol_table ∅ ∅)).

Definition lacks_main_message (shader_list : list gl_shader) : string :=
  match shader_list with
  | sh :: _ => shader_target_name c (Type_ sh)
  | [] => ""
  end +:+ " shader lacks `main'" +:+ nl.

(** [link_intrastage_shaders] from the search for [main] on.
    [link_shaders] calls with at least one shader in the list. *)
Definition link_intrastage_shaders_tail (prog : gl_shader_program)
    (shader_list : list gl_shader)
    : gl_shader_program * option gl_shader :=
  match
    List.find
      (fun sh =>
         match get_main_function_signature sh with
         | Some _ => true
         | None => false
         end)
      shader_list
  with
  | None => (linker_error prog (lacks_main_message shader_list), None)
  | Some main =>
      let linked0 := mk_shader (Type_ main) (ir main) (mk_symbol_table ∅ ∅) in
      let '(prog1, Geom1, _) :=
        link_gs_inout_layout_qualifiers (PRIM_UNKNOWN c) prog prog_Geom
          (Type_ linked0) (map (unit_Geom c) shader_list) in
      let linked1 :=
        move_non_declarations c (populate_symbol_table linked0) main
          shader_list in
      let '(prog2, ok, linked2) :=
        link_function_calls c prog1 linked1
          (shader_list ++ flat_map (builtins_to_link c) shader_list) in
      if negb ok then (prog2, None)
      else if bool_decide (Type_ linked2 = MESA_SHADER_GEOMETRY) then
        let num_vertices := vertices_per_prim c (InputType Geom1) in
        (geom_array_resize num_vertices (ir linked2) prog2,
         Some (array_sizing c (geom_array_resized c num_vertices linked2)))
      else (prog2, Some (array_sizing c linked2))
  end.

(** [validate_geometry_shader_executable], as far as the program record
    goes: what it stores lands in [prog->Geom]. *)
Definition validate_geometry_shader_executable (prog : gl_shader_program)
    (shader : option gl_shader) : gl_shader_program :=
  match shader with
  | None => prog
  | Some sh =>
      fst (fst (analyze_clip_usage "geometry" prog sh Geom_UsesClipDistance))
  end.

(** [cross_validate_uniforms]. *)
Definition cross_validate_uniforms (prog : gl_shader_program)
    : gl_shader_program :=
  cross_validate_globals (contains_atomic c) (has_value c) (mode_string c)
    prog (map (LinkedShaders prog) all_stages) true.

(** [prog->UniformBlockStageIndex[i][index] = j]. *)
Definition set_block_index (i : gl_shader_stage) (index j : Z)
    (table : block_table) : block_table :=
  alter (fun row s => if decide (s = i) then j else row s)
    (Z.to_nat index) table.

(** The body of the innermost loop of
    [interstage_cross_validate_uniform_blocks]; the local carried is
    [prog->NumUniformBlocks] and [prog->UniformBlockStageIndex].  The
    callee answers -1 or the index of a block of the program, of which
    there are no more than the table has rows. *)
Definition cross_validate_uniform_block (i : gl_shader_stage)
    (j_block : nat * gl_uniform_block)
    (st : gl_shader_program * (Z * block_table))
    : flow (gl_shader_program * (Z * block_table)) :=
  let '(prog, (NumUniformBlocks, table)) := st in
  let '(prog', index, NumUniformBlocks') :=
    link_cross_validate_uniform_block c prog NumUniformBlocks
      (snd j_block) in
  if index =? -1 then
    Ret (linker_error prog'
           ("uniform block `" +:+ block_Name (snd j_block) +:+
            "' has mismatching definitions"),
         (NumUniformBlocks', table))
  else
    Next (prog',
          (NumUniformBlocks',
           set_block_index i index (Z.of_nat (fst j_block)) table)).

(** [interstage_cross_validate_uniform_blocks]; [Ret] is
    [return false]. *)
Definition interstage_cross_validate_uniform_blocks
    (prog : gl_shader_program)
    : flow (gl_shader_program * (Z * block_table)) :=
  let max_num_uniform_blocks :=
    fold_left
      (fun n i =>
         match LinkedShaders prog i with
         | Some sh => (n + length (UniformBlocks c sh))%nat
         | None => n
         end)
      all_stages 0%nat in
  for_each
    (fun i st =>
       match LinkedShaders (fst st) i with
       | None => Next st
       | Some sh =>
           for_each (cross_validate_uniform_block i)
             (imap pair (UniformBlocks c sh)) st
       end)
    all_stages
    (prog, (0, replicate max_num_uniform_blocks (fun _ => -1))).

(** The largest [max_array_access] among the declarations of the name of
    [var] in the linked shaders. *)
Definition array_size_in_use (prog : gl_shader_program)
    (var : ir_variable) : Z :=
  fold_left
    (fun size j =>
       match LinkedShaders prog j with
       | None => size
       | Some sh =>
           fold_left
             (fun size node2 =>
                match as_variable node2 with
                | None => size
                | Some other_var =>
                    if (String.eqb (name var) (name other_var)
                        && (max_array_access c other_var >? size))%bool
                    then max_array_access c other_var
                    else size
                end)
             (ir sh) size
       end)
    all_stages (max_array_access c var).

(** The body of the loop of [update_array_sizes] over the declarations
    of a linked shader.  The function writes the type of a variable (and
    [num_state_slots]); what it reads of the variables it does not
    write. *)
Definition update_array_size (prog : gl_shader_program)
    (node : ir_instruction) : ir_instruction :=
  match as_variable node with
  | None => node
  | Some var =>
      if (negb (bool_decide (mode var = ir_var_uniform))
          || negb (is_array (type var)))%bool
      then node
      else if (is_in_uniform_block c var
               || contains_atomic c (type var))%bool
      then node
      else
        let size := array_size_in_use prog var in
        if negb (to_uint (size + 1) =? type_length (type var)) then
          match fields_array (type var) with
          | Some element =>
              ir_variable_decl
                (set_type (glsl_array element (to_uint (size + 1))) var)
          | None => node
          end
        else node
  end.

(** [update_array_sizes]. *)
Definition update_array_sizes (prog : gl_shader_program)
    : gl_shader_program :=
  fold_left
    (fun p i => update_linked_ir i (map (update_array_size p)) p)
    all_stages prog.

(** The statements at the label [done]: the symbol table of every
    linked shader is deleted. *)
Definition discard_symbols (sh : gl_shader) : gl_shader :=
  mk_shader (Type_ sh) (ir sh) (mk_symbol_table ∅ ∅).

Definition done_label (prog : gl_shader_program) : gl_shader_program :=
  fold_left (fun p i => update_linked i discard_symbols p) all_stages prog.

(** The units of [prog->Shaders] as the head of [link_shaders] reads
    them. *)
Definition compiled (sh : gl_shader) : gl_compiled_shader :=
  mk_compiled_shader (Type_ sh) (unit_Version c sh) (unit_IsES c sh).

(** [vert_shader_list] and its like: the units of one stage, in the
    order of [prog->Shaders]. *)
Definition stage_units (stage : gl_shader_stage) : list gl_shader :=
  List.filter (fun sh => bool_decide (Type_ sh = stage)) Shaders.

(** One of the three blocks that link a stage and validate the
    result; [validate] is the validator of the stage.  (The stores to
    [prog->LastClipDistanceArraySize] land outside the record of the
    program.) *)
Definition link_stage (stage : gl_shader_stage)
    (validate : gl_shader_program -> option gl_shader -> gl_shader_program)
    : stretch unit :=
  let* sh :=
    call (fun p =>
            link_intrastage_shaders (contains_atomic c) (has_value c)
              (mode_string c) (validate_intrastage_interface_blocks c)
              (link_uniform_blocks c) link_intrastage_shaders_tail
              p (stage_units stage)) in
  unless_failed ;;
  operation (fun p => validate p sh) ;;
  unless_failed ;;
  operation (set_LinkedShader stage sh).

(** The body of the loop that validates the inputs of each stage with
    the outputs of the preceding one; the local carried is [prev]. *)
Definition validate_interstage (i prev : gl_shader_stage)
    : stretch gl_shader_stage :=
  with_program (fun prog =>
    if negb (is_linked prog i) then pass prev
    else
      operation (fun p =>
                   validate_interstage_interface_blocks c p
                     (LinkedShaders p prev) (LinkedShaders p i)) ;;
      unless_failed ;;
      operation (fun p =>
                   cross_validate_outputs_to_inputs c p
                     (LinkedShaders p prev) (LinkedShaders p i)) ;;
      unless_failed ;;
      pass i).

(** The body of the loop that optimizes the linked shaders. *)
Definition optimize_stage (i : gl_shader_stage) : stretch unit :=
  with_program (fun prog =>
    match LinkedShaders prog i with
    | None => pass tt
    | Some sh =>
        operation (fun p => detect_recursion_linked c p (ir sh)) ;;
        unless_failed ;;
        when (LowerClipDistance ctx i)
          (operation (update_linked i (lower_clip_distance c))) ;;
        operation (update_linked_ir i (do_common_optimization c i))
    end).

(** [do_dead_builtin_varyings (ctx, producer, consumer, ...)] on the
    linked shaders of two stages, NULL where no stage is given. *)
Definition dead_builtin_varyings (producer consumer : option gl_shader_stage)
    (num_tfeedback : Z) (prog : gl_shader_program) : gl_shader_program :=
  let linked stage := stage ≫= LinkedShaders prog in
  let '(sh_producer, sh_consumer) :=
    do_dead_builtin_varyings c (linked producer) (linked consumer)
      num_tfeedback in
  let store stage sh p :=
    match stage with
    | Some s => set_LinkedShader s sh p
    | None => p
    end in
  store consumer sh_consumer (store producer sh_producer prog).

Definition demote (stage : gl_shader_stage) (mode_ : ir_variable_mode)
    : gl_shader_program -> gl_shader_program :=
  update_linked_ir stage
    (fun l => demote_shader_inputs_and_outputs l mode_).

(** The body of the loop that assigns the varying locations from the
    last stage back to the first; the local carried is [next]. *)
Definition link_varyings (i next : gl_shader_stage)
    : stretch gl_shader_stage :=
  with_program (fun prog =>
    if negb (is_linked prog i) then pass next
    else
      let num_tfeedback :=
        if decide (next = MESA_SHADER_FRAGMENT)
        then num_tfeedback_decls else 0 in
      let* ok :=
        call (fun p =>
                assign_varying_locations c p
                  (LinkedShaders p i) (LinkedShaders p next) num_tfeedback
                  (if decide (next = MESA_SHADER_GEOMETRY)
                   then Geom_VerticesIn c p else 0)) in
      unless ok ;;
      operation (dead_builtin_varyings (Some i) (Some next) num_tfeedback) ;;
      operation (demote i ir_var_shader_out) ;;
      operation (demote next ir_var_shader_in) ;;
      operation (update_linked_ir i (do_dead_code c)) ;;
      operation (update_linked_ir next (do_dead_code c)) ;;
      let* ok :=
        call (fun p => check_against_output_limit c p (LinkedShaders p i)) in
      unless ok ;;
      let* ok :=
        call (fun p =>
                check_against_input_limit c p (LinkedShaders p next)) in
      unless ok ;;
      pass i).

Definition no_vertex_or_geometry_message : string :=
  "Transform feedback varyings specified, but " +:+
  "no vertex or geometry shader is present.".

(** [link_shaders] from the statements that empty [prog->_LinkedShaders]
    to the last statement before the label [done]; [groups] holds the
    locals that the loop over [prog->Shaders] has filled in. *)
Definition link_stages (groups : shader_groups) : stretch unit :=
  let is_es_prog :=
    match Shaders with
    | sh :: _ => unit_IsES c sh
    | [] => false
    end in
  let linked_some (l : list gl_compiled_shader) :=
    0 <? Z.of_nat (length l) in
  operation (fun p =>
               fold_left (fun p i => set_LinkedShader i None p)
                 all_stages p) ;;
  when (linked_some (vert_shader_list groups))
    (link_stage MESA_SHADER_VERTEX validate_vertex_shader_executable) ;;
  when (linked_some (frag_shader_list groups))
    (link_stage MESA_SHADER_FRAGMENT validate_fragment_shader_executable) ;;
  when (linked_some (geom_shader_list groups))
    (link_stage MESA_SHADER_GEOMETRY validate_geometry_shader_executable) ;;
  operation cross_validate_uniforms ;;
  unless_failed ;;
  with_program (fun prog =>
    match first_linked prog with
    | Some prev =>
        let* _ := each_with validate_interstage (stages_after prev) prev in
        pass tt
    | None => pass tt
    end) ;;
  each (fun i => operation (update_linked i (lower_named_interface_blocks c)))
    all_stages ;;
  when (max_version groups >=? (if is_es_prog then 300 else 130))
    (operation
       (update_linked_ir MESA_SHADER_FRAGMENT (lower_discard_flow c))) ;;
  let* (NumUniformBlocks, UniformBlockStageIndex) :=
    returning interstage_cross_validate_uniform_blocks in
  each optimize_stage all_stages ;;
  operation
    (update_linked_ir MESA_SHADER_VERTEX
       link_invalidate_variable_locations) ;;
  operation
    (update_linked_ir MESA_SHADER_GEOMETRY
       link_invalidate_variable_locations) ;;
  operation
    (update_linked_ir MESA_SHADER_FRAGMENT
       link_invalidate_variable_locations) ;;
  let* ok :=
    attempt (fun p =>
               assign_attribute_or_color_locations
                 (count_attribute_slots c) (qsort c)
                 (VERT_ATTRIB_GENERIC0 c) (FRAG_RESULT_DATA0 c)
                 p MESA_SHADER_VERTEX 16) in
  unless ok ;;
  let* ok :=
    attempt (fun p =>
               assign_attribute_or_color_locations
                 (count_attribute_slots c) (qsort c)
                 (VERT_ATTRIB_GENERIC0 c) (FRAG_RESULT_DATA0 c)
                 p MESA_SHADER_FRAGMENT
                 (MAX2 (MaxDrawBuffers ctx)
                    (MaxDualSourceDrawBuffers ctx))) in
  unless ok ;;
  let* first := with_program (fun prog => pass (first_linked prog)) in
  when (negb (num_tfeedback_decls =? 0))
    (when (bool_decide (first = Some MESA_SHADER_FRAGMENT))
       (operation
          (fun p => linker_error p no_vertex_or_geometry_message) ;;
        jump) ;;
     let* ok :=
       call (fun p => parse_tfeedback_decls c p num_tfeedback_decls) in
     unless ok) ;;
  let* last := with_program (fun prog => pass (last_linked prog)) in
  match last with
  | Some MESA_SHADER_FRAGMENT | None =>
      when (bool_decide (first = Some MESA_SHADER_FRAGMENT))
        (operation
           (dead_builtin_varyings None (Some MESA_SHADER_FRAGMENT)
              num_tfeedback_decls) ;;
         operation (demote MESA_SHADER_FRAGMENT ir_var_shader_in) ;;
         operation
           (update_linked_ir MESA_SHADER_FRAGMENT (do_dead_code c)))
  | Some last_stage =>
      when (negb (num_tfeedback_decls =? 0))
        (let* ok :=
           call (fun p =>
                   assign_varying_locations c p
                     (LinkedShaders p last_stage) None
                     num_tfeedback_decls 0) in
         unless ok) ;;
      operation
        (dead_builtin_varyings (Some last_stage) None
           num_tfeedback_decls) ;;
      operation (demote last_stage ir_var_shader_out) ;;
      operation (update_linked_ir last_stage (do_dead_code c))
  end ;;
  match last with
  | Some next =>
      let* _ := each_with link_varyings (stages_before next) next in
      pass tt
  | None => pass tt
  end ;;
  let* ok :=
    call (fun p => store_tfeedback_info c p num_tfeedback_decls) in
  unless ok ;;
  operation update_array_sizes ;;
  operation (link_assign_uniform_locations c) ;;
  operation (link_assign_atomic_counter_resources c) ;;
  (* store_fragdepth_layout (prog) stores to prog->FragDepthLayout, a
     member the record of the program does not carry. *)
  operation
    (fun p =>
       check_resources (Const ctx) p
         (fun stage => shader_usage c <$> LinkedShaders p stage)
         (take (Z.to_nat NumUniformBlocks) UniformBlockStageIndex)) ;;
  operation (link_check_atomic_counter_resources c) ;;
  unless_failed ;;
  with_program (fun prog =>
    when (negb InternalSeparateShader
          && (API_is_OPENGLES2 ctx || IsES prog))%bool
      (if negb (is_linked prog MESA_SHADER_VERTEX) then
         operation
           (fun p => linker_error p ("program lacks a vertex shader" +:+ nl))
       else if negb (is_linked prog MESA_SHADER_FRAGMENT) then
         operation
           (fun p =>
              linker_error p ("program lacks a fragment shader" +:+ nl))
       else pass tt)).

(** [link_shaders]: the states of the program from the reset on, one
    after each operation, and the ending. *)
Definition link_shaders (prog : gl_shader_program)
    : list gl_shader_program * ending unit :=
  let reset := link_shaders_reset prog in
  let '(visited, e) :=
    at_done
      (fun _ =>
         match link_shaders_separate prog (map compiled Shaders) with
         | Ret (prog1, _) => ([prog1], goes_to_done)
         | Next (prog1, groups) =>
             let '(visited, e) := link_stages groups prog1 in
             (prog1 :: visited, e)
         end)
      done_label reset in
  (reset :: visited, e).
(** From here on the collaborators that are handed the program report
    through [linker_error] and [linker_warning] only. *)
Hypothesis c_reports : reports_only c.

Lemma geom_array_resize_steps (num_vertices : Z)
    (l : list ir_instruction) (p : gl_shader_program) :
  linker_steps p (geom_array_resize num_vertices l p).
Proof.
  unfold geom_array_resize. apply fold_left_steps. intros q var.
  unfold geom_array_resize_visit.
  repeat match goal with
         | |- linker_steps _ (if ?b then _ else _) => destruct b
         | |- linker_steps _ (let _ := _ in _) => cbv zeta
         | |- linker_steps _ (linker_error _ _) => apply linker_steps_error
         end; apply steps_refl.
Qed.

Lemma link_intrastage_shaders_tail_steps (p : gl_shader_program)
    (shader_list : list gl_shader) :
  linker_steps p (fst (link_intrastage_shaders_tail p shader_list)).
Proof.
  unfold link_intrastage_shaders_tail.
  destruct (List.find _ shader_list) as [main |];
    [| apply linker_steps_error, steps_refl].
  cbv zeta.
  match goal with
  | |- context [link_gs_inout_layout_qualifiers ?u ?a ?g ?t ?l] =>
      pose proof (link_gs_inout_layout_qualifiers_steps u a g t l) as Hgs;
      destruct (link_gs_inout_layout_qualifiers u a g t l)
        as [[prog1 Geom1] linked_Geom]
  end.
  simpl in Hgs.
  match goal with
  | |- context [link_function_calls c ?a ?sh ?l] =>
      pose proof (link_function_calls_reports c c_reports a sh l) as Hcalls;
      destruct (link_function_calls c a sh l) as [[prog2 ok] linked2]
  end.
  simpl in Hcalls.
  assert (H2 : linker_steps p prog2)
    by (eapply linker_steps_trans; eauto).
  destruct (negb ok); [exact H2 |].
  destruct (bool_decide (Type_ linked2 = MESA_SHADER_GEOMETRY));
    [| exact H2].
  simpl. eapply linker_steps_trans;
    [exact H2 | apply geom_array_resize_steps].
Qed.

Lemma link_intrastage_shaders_steps (p : gl_shader_program)
    (shader_list : list gl_shader) :
  linker_steps p
    (fst (link_intrastage_shaders (contains_atomic c) (has_value c)
            (mode_string c) (validate_intrastage_interface_blocks c)
            (link_uniform_blocks c) link_intrastage_shaders_tail
            p shader_list)).
Proof.
  unfold link_intrastage_shaders, intrastage_validated. cbv zeta.
  pose proof (cross_validate_globals_steps (contains_atomic c)
                (has_value c) (mode_string c) p (map Some shader_list)
                false) as H1.
  set (prog1 := cross_validate_globals _ _ _ p _ false) in *.
  destruct (negb (LinkStatus prog1)); [exact H1 |].
  pose proof (validate_intrastage_interface_blocks_reports c c_reports
                prog1 shader_list) as H2.
  set (prog2 := validate_intrastage_interface_blocks c prog1 shader_list)
    in *.
  destruct (negb (LinkStatus prog2));
    [simpl; eapply linker_steps_trans; eauto |].
  pose proof (link_uniform_blocks_reports c c_reports prog2 shader_list)
    as H3.
  set (prog3 := link_uniform_blocks c prog2 shader_list) in *.
  pose proof (check_multiply_defined_steps shader_list prog3) as H4.
  assert (H : linker_steps p prog3)
    by (eapply linker_steps_trans; [exact H1 |];
        eapply linker_steps_trans; eauto).
  destruct (check_multiply_defined shader_list prog3) as [prog4 | prog4];
    simpl in H4.
  - eapply linker_steps_trans; [exact H |].
    eapply linker_steps_trans;
      [exact H4 | apply link_intrastage_shaders_tail_steps].
  - simpl. eapply linker_steps_trans; eauto.
Qed.

Lemma validate_geometry_shader_executable_steps (p : gl_shader_program)
    (shader : option gl_shader) :
  linker_steps p (validate_geometry_shader_executable p shader).
Proof.
  destruct shader as [sh |]; [| apply steps_refl]. simpl.
  destruct (analyze_clip_usage_program "geometry" p sh
              Geom_UsesClipDistance) as [-> | ->];
    [apply steps_refl | apply linker_steps_error, steps_refl].
Qed.

Lemma cross_validate_uniform_block_steps (i : gl_shader_stage)
    (j_block : nat * gl_uniform_block)
    (st : gl_shader_program * (Z * block_table)) :
  linker_steps (fst st)
    (fst (flow_value (cross_validate_uniform_block i j_block st))).
Proof.
  destruct st as [p [n table]]. unfold cross_validate_uniform_block.
  pose proof (link_cross_validate_uniform_block_reports c c_reports
                p n (snd j_block)) as H.
  destruct (link_cross_validate_uniform_block c p n (snd j_block))
    as [[p' index] n'].
  simpl in H. destruct (index =? -1); simpl;
    [now apply linker_steps_error | exact H].
Qed.

Lemma interstage_cross_validate_uniform_blocks_steps
    (p : gl_shader_program) :
  linker_steps p
    (fst (flow_value (interstage_cross_validate_uniform_blocks p))).
Proof.
  unfold interstage_cross_validate_uniform_blocks. cbv zeta.
  match goal with
  | |- context [@for_each ?A ?X ?body ?l (p, ?s)] =>
      apply (for_each_steps body l) with (st := (p, s))
  end.
  intros i st. destruct (LinkedShaders (fst st) i) as [sh |];
    [| apply steps_refl].
  apply for_each_steps. intros j_block st'.
  apply cross_validate_uniform_block_steps.
Qed.

Lemma update_array_sizes_steps (p : gl_shader_program) :
  linker_steps p (update_array_sizes p).
Proof.
  unfold update_array_sizes. apply fold_left_steps.
  intros q i. apply update_linked_ir_steps.
Qed.

Lemma done_label_steps (p : gl_shader_program) :
  linker_steps p (done_label p).
Proof.
  unfold done_label. apply fold_left_steps.
  intros q i. apply update_linked_steps.
Qed.

Lemma dead_builtin_varyings_steps
    (producer consumer : option gl_shader_stage) (n : Z)
    (p : gl_shader_program) :
  linker_steps p (dead_builtin_varyings producer consumer n p).
Proof.
  unfold dead_builtin_varyings. cbv zeta.
  destruct (do_dead_builtin_varyings c _ _ n) as [a b].
  destruct producer, consumer;
    repeat (eapply linker_steps_trans; [| apply set_LinkedShader_steps]);
    apply steps_refl.
Qed.

(** The steps that the proofs below take over and over. *)
Ltac reports_step :=
  lazymatch goal with
  | |- reports (followed_by _ _) =>
      apply reports_followed_by; [| intros ? ]
  | |- reports (pass _) => apply reports_pass
  | |- reports jump => apply reports_jump
  | |- reports unless_failed => apply reports_unless_failed
  | |- reports (unless _) => apply reports_unless
  | |- reports (when _ _) => apply reports_when
  | |- reports (with_program _) => apply reports_with_program; intros ?
  | |- reports (each_with _ _ _) => apply reports_each_with; intros ? ?
  | |- reports (each _ _) => apply reports_each; intros ?
  | |- reports (operation _) => apply reports_operation; intros ?
  | |- reports (call _) => apply reports_call; intros ?
  | |- reports (returning _) => apply reports_returning; intros ?
  | |- reports (attempt _) => apply reports_attempt; intros ? ? ? ?
  end.

Ltac steps :=
  first
    [ apply steps_refl
    | apply update_linked_ir_steps
    | apply update_linked_steps
    | apply set_LinkedShader_steps
    | apply fold_left_steps; intros ? ?; apply set_LinkedShader_steps
    | apply dead_builtin_varyings_steps
    | apply linker_steps_error, steps_refl
    | apply link_intrastage_shaders_steps
    | apply validate_vertex_shader_executable_steps
    | apply validate_fragment_shader_executable_steps
    | apply validate_geometry_shader_executable_steps
    | apply cross_validate_globals_steps
    | apply interstage_cross_validate_uniform_blocks_steps
    | apply update_array_sizes_steps
    | apply check_resources_steps
    | eapply assign_attribute_or_color_locations_steps; eassumption
    | apply (validate_interstage_interface_blocks_reports c c_reports)
    | apply (cross_validate_outputs_to_inputs_reports c c_reports)
    | apply (detect_recursion_linked_reports c c_reports)
    | apply (parse_tfeedback_decls_reports c c_reports)
    | apply (assign_varying_locations_reports c c_reports)
    | apply (check_against_output_limit_reports c c_reports)
    | apply (check_against_input_limit_reports c c_reports)
    | apply (store_tfeedback_info_reports c c_reports)
    | apply (link_assign_uniform_locations_reports c c_reports)
    | apply (link_assign_atomic_counter_resources_reports c c_reports)
    | apply (link_check_atomic_counter_resources_reports c c_reports) ].

Lemma link_stage_reports (stage : gl_shader_stage)
    (validate : gl_shader_program -> option gl_shader -> gl_shader_program) :
  (forall p sh, linker_steps p (validate p sh)) ->
  reports (link_stage stage validate).
Proof.
  intros Hvalidate. unfold link_stage.
  repeat reports_step; first [apply Hvalidate | steps].
Qed.

Lemma validate_interstage_reports (i prev : gl_shader_stage) :
  reports (validate_interstage i prev).
Proof.
  unfold validate_interstage. reports_step.
  destruct (negb (is_linked _ i)); repeat reports_step; steps.
Qed.

Lemma optimize_stage_reports (i : gl_shader_stage) :
  reports (optimize_stage i).
Proof.
  unfold optimize_stage. reports_step.
  destruct (LinkedShaders _ i); repeat reports_step; steps.
Qed.

Lemma link_varyings_reports (i next : gl_shader_stage) :
  reports (link_varyings i next).
Proof.
  unfold link_varyings, demote. reports_step.
  destruct (negb (is_linked _ i)); cbv zeta; repeat reports_step; steps.
Qed.

Lemma link_stages_reports (groups : shader_groups) :
  reports (link_stages groups).
Proof.
  unfold link_stages, demote, cross_validate_uniforms. cbv zeta.
  repeat first
    [ apply link_stage_reports; intros ? ?
    | apply validate_interstage_reports
    | apply optimize_stage_reports
    | apply link_varyings_reports
    | match goal with
      | |- reports (match ?x with _ => _ end) => destruct x
      | |- reports (if ?b then _ else _) => destruct b
      | |- reports (let '(_, _) := ?x in _) => destruct x
      end
    | reports_step ];
    steps.
Qed.

Lemma link_shaders_chain (prog : gl_shader_program) :
  exists visited,
    fst (link_shaders prog) = link_shaders_reset prog :: visited
    /\ chain (link_shaders_reset prog) visited.
Proof.
  unfold link_shaders.
  match goal with
  | |- context [at_done ?m ?d ?p] =>
      pose proof (at_done_chain m d p) as H;
      destruct (at_done m d p) as [visited e]
  end.
  exists visited. split; [reflexivity |].
  apply H; [| apply done_label_steps].
  pose proof (link_shaders_separate_steps prog (map compiled Shaders))
    as Hhead.
  destruct (link_shaders_separate prog (map compiled Shaders))
    as [[prog1 groups] | [prog1 groups]]; simpl in Hhead.
  - pose proof (link_stages_reports groups prog1) as Hrest.
    destruct (link_stages groups prog1) as [visited' e'].
    simpl in *. now split.
  - simpl. now split.
Qed.
(** C5.  The states the program goes through in [link_shaders], from
    the reset on and one after each operation of the function, under the
    one assumption that the functions of other files to which the linker
    hands the program report through [linker_error] and [linker_warning]
    only.  The first state is that of the reset.  In every state a false
    [LinkStatus] comes with an entry of [linker_error] in the log.  A
    later state comes from an earlier one by errors, warnings and
    operations that leave log and status alone; a false [LinkStatus] is
    false in every later state, and the log of a later state is that of
    the earlier one with text appended.  A warning leaves [LinkStatus]
    as it finds it. *)
Theorem link_status_invariant (prog : gl_shader_program) :
  let states := fst (link_shaders prog) in
  head states = Some (link_shaders_reset prog)
  /\ (forall p,
        In p states -> LinkStatus p = false -> log_has_error (InfoLog p))
  /\ (forall (i j : nat) (p q : gl_shader_program),
        (i <= j)%nat -> states !! i = Some p -> states !! j = Some q ->
        linker_steps p q
        /\ (LinkStatus p = false -> LinkStatus q = false)
        /\ exists suffix, InfoLog q = InfoLog p +:+ suffix)
  /\ (forall p msg, LinkStatus (linker_warning p msg) = LinkStatus p).
Proof.
  destruct (link_shaders_chain prog) as (visited & Hstates & Hchain).
  cbv zeta. rewrite Hstates.
  assert (Hall : chain (link_shaders_reset prog)
                   (link_shaders_reset prog :: visited))
    by (split; [apply steps_refl | exact Hchain]).
  split; [reflexivity |]. split; [| split].
  - intros p Hin.
    apply (linker_steps_status_explained (link_shaders_reset prog));
      [exact (chain_reaches _ _ _ Hall Hin) | discriminate].
  - intros i j p q Hij Hp Hq.
    pose proof (chain_ordered _ _ Hall i j p q Hij Hp Hq) as Hsteps.
    split; [exact Hsteps |]. split.
    + now apply linker_steps_keep_failure.
    + now apply linker_steps_log_grows.
  - reflexivity.
Qed.
End LinkShaders.

(** Stand-ins for the collaborators of the link: passes that leave the
    instructions alone, and functions of other files that leave the
    program alone but for the check of the atomic counters, which
    warns. *)
Definition sample_collaborators : linker_collaborators :=
  mk_collaborators SAMPLE_PRIM_UNKNOWN SAMPLE_VERT_ATTRIB_GENERIC0
    SAMPLE_FRAG_RESULT_DATA0 (fun _ => 3) shader_names
    sample_count_attribute_slots sample_qsort sample_contains_atomic
    sample_has_value sample_mode_string exact_matching_signature
    (fun table fname sigs =>
       mk_symbol_table (symbol_variables table)
         (<[fname := sigs]> (symbol_functions table)))
    (fun table var =>
       mk_symbol_table (<[name var := var]> (symbol_variables table))
         (symbol_functions table))
    (fun _ => 100) (fun _ => true)
    (fun _ => mk_geom 0 SAMPLE_PRIM_UNKNOWN SAMPLE_PRIM_UNKNOWN)
    (fun _ => []) (fun _ => []) (fun _ => mk_shader_usage 0 0 0)
    (fun _ => 0) (fun _ => false) (fun _ => 0)
    (fun p _ => p) (fun p _ => p) (fun p linked _ => (p, true, linked))
    (fun p _ _ => p) (fun p _ _ => p) (fun p n _ => (p, 0, n))
    (fun p _ => p) (fun p _ => (p, true)) (fun p _ _ _ _ => (p, true))
    (fun p _ => (p, true)) (fun p _ => (p, true)) (fun p _ => (p, true))
    (fun p => p) (fun p => p)
    (fun p => linker_warning p "no atomic counters in use")
    (fun linked _ _ => linked) (fun _ sh => sh) (fun sh => sh)
    (fun sh => sh) (fun l => l) (fun sh => sh) (fun _ l => l)
    (fun producer consumer _ => (producer, consumer)) (fun l => l).

Lemma sample_collaborators_report : reports_only sample_collaborators.
Proof.
  constructor; intros; simpl; try apply steps_refl.
  eapply steps_cons; [apply step_warning | apply steps_refl].
Defined.

Definition sample_context : gl_context :=
  mk_context sample_constants 8 1 false (fun _ => false).

(** An ES fragment shader whose [main] writes gl_FragColor. *)
Definition es_fragment_unit : gl_shader :=
  let main_ :=
    mk_signature [] true false
      [ir_assignment
         (ir_dereference_variable
            (plain_variable "gl_FragColor" (glsl_base "vec4")
               ir_var_shader_out))
         (ir_constant_value (mk_constant (glsl_base "vec4") [1; 1; 1; 1]))
         None] in
  mk_shader MESA_SHADER_FRAGMENT [ir_function "main" [main_]]
    (mk_symbol_table ∅ (<["main" := [main_]]> ∅)).

Definition stale_program : gl_shader_program :=
  mk_program "error: left by an earlier link" false 0 false false 0
    None None None ∅ ∅ ∅.

Lemma link_status_invariant_witness :
  let states :=
    fst (link_shaders sample_collaborators sample_context
           [es_fragment_unit] 0 false
           (mk_geom 0 SAMPLE_PRIM_UNKNOWN SAMPLE_PRIM_UNKNOWN) false
           stale_program) in
  head states = Some (link_shaders_reset stale_program)
  /\ (forall p,
        In p states -> LinkStatus p = false -> log_has_error (InfoLog p))
  /\ (forall (i j : nat) (p q : gl_shader_program),
        (i <= j)%nat -> states !! i = Some p -> states !! j = Some q ->
        linker_steps p q
        /\ (LinkStatus p = false -> LinkStatus q = false)
        /\ exists suffix, InfoLog q = InfoLog p +:+ suffix)
  /\ (forall p msg, LinkStatus (linker_warning p msg) = LinkStatus p).
Proof.
  apply (link_status_invariant sample_collaborators sample_context
           [es_fragment_unit] 0 false
           (mk_geom 0 SAMPLE_PRIM_UNKNOWN SAMPLE_PRIM_UNKNOWN) false
           sample_collaborators_report stale_program).
Defined.

(** The run of the witness: the link of the lone ES fragment shader
    goes through to the check that an ES program has both stages, which
    fails it; the warning before it has left the status true. *)
Example es_fragment_shader_alone :
  let run :=
    link_shaders sample_collaborators sample_context
      [es_fragment_unit] 0 false
      (mk_geom 0 SAMPLE_PRIM_UNKNOWN SAMPLE_PRIM_UNKNOWN) false
      stale_program in
  snd run = reaches tt
  /\ map (fun p => (LinkStatus p, InfoLog p)) (fst run)
     = (replicate 26 (true, "")
        ++ [(true, "error: no atomic counters in use")]
        ++ replicate 2
             (false,
              "error: no atomic counters in use" +:+
              "error: program lacks a vertex shader" +:+ nl))%list.
Proof. vm_compute. split; reflexivity. Qed.
